(** * pi_arccot: a shallow embedding of [pi_arccot.cc]

    The program evaluates [d * (m1 * arccot(a1) + m2 * arccot(a2) + ...)]
    in fixed point over 32-bit limbs and prints the result in decimal.

    Conventions of the embedding.
    - [limb_int] ([uint32_t]), [limb2_int] ([uint64_t]), [limb2_int_signed]
      ([int64_t]), [unsigned] and [unsigned long] values are integers of [Z];
      every conversion to one of these types is written as an explicit
      reduction ([to_limb], [to_limb2], [to_signed2], [to_unsigned],
      [to_ulong]).
    - A [std::vector<limb_int>] is a [list Z]; reading or writing outside
      the vector is undefined behaviour in C++ and is the outcome
      [Undefined OutOfBounds] here.  Memory is unbounded: an allocation
      never fails.
    - The number of terms and the positions inside the quotient vector and
      inside a remainder block are natural numbers (they are bounded by the
      length of [argv]); positions inside the accumulator, which depend on
      the requested precision, are [unsigned] values with their wrap-around.
    - The global variables of the program are passed explicitly.
    - [while] loops take fuel; [for] loops with a fixed trip count are
      structural. *)

From Stdlib Require Import ZArith List String Ascii Lia Bool Reals Lra.
From stdpp Require Import base list.
Import ListNotations.

#[local] Open Scope Z_scope.

(** ** Outcomes *)

Inductive fault : Type :=
| OutOfBounds      (* access outside a vector *)
| DivisionByZero   (* integer division or remainder by zero *)
| AssertionFailed  (* a failed [assert] *)
| NullString.      (* a [std::string] built from a null pointer *)

Inductive exn : Type :=
| invalid_argument
| out_of_range.

Inductive result (A : Type) : Type :=
| Ret (a : A)                              (* normal completion *)
| Exit (code : Z) (out err : string)       (* [std::exit(code)], with what was written *)
| Throw (e : exn)                          (* an exception nobody catches *)
| Undefined (f : fault)                    (* undefined behaviour *)
| OutOfFuel.                               (* the model ran out of fuel *)

Arguments Ret {A} a.
Arguments Exit {A} code out err.
Arguments Throw {A} e.
Arguments Undefined {A} f.
Arguments OutOfFuel {A}.

Definition bind {A B : Type} (m : result A) (k : A -> result B) : result B :=
  match m with
  | Ret a => k a
  | Exit c o e => Exit c o e
  | Throw e => Throw e
  | Undefined f => Undefined f
  | OutOfFuel => OutOfFuel
  end.

Notation "x <- m ;; k" := (bind m (fun x => k))
  (at level 100, m at next level, right associativity).

(** ** Machine integers *)

Definition limb_bits : Z := 32.
Definition limb_max : Z := Z.ones 32.
Definition arg_max : Z := Z.shiftl 1 (limb_bits / 2) - 1.
Definition block_height : nat := 64.
Definition block_width : nat := 64.

(** Conversions keep the low bits. *)
Definition to_limb (z : Z) : Z := Z.land z (Z.ones 32).
Definition to_limb2 (z : Z) : Z := Z.land z (Z.ones 64).
Definition to_unsigned (z : Z) : Z := Z.land z (Z.ones 32).
Definition to_ulong (z : Z) : Z := Z.land z (Z.ones 64).
Definition to_signed2 (z : Z) : Z :=
  Z.land (z + Z.shiftl 1 63) (Z.ones 64) - Z.shiftl 1 63.

(** ** Vectors *)

Definition get (v : list Z) (i : nat) : result Z :=
  match v !! i with
  | Some x => Ret x
  | None => Undefined OutOfBounds
  end.

Definition set (v : list Z) (i : nat) (x : Z) : result (list Z) :=
  match v !! i with
  | Some _ => Ret (<[i := x]> v)
  | None => Undefined OutOfBounds
  end.

(** ** Global data *)

Record remainder_block : Type := {
  arg_count : nat;
  remainders : list Z
}.

Record params : Type := {
  precision : Z;
  pi_d : Z;
  multipliers : list Z;
  args : list Z;
  arg_sq : list Z
}.

Record state : Type := {
  accumulator : list Z;
  quotents : list Z;
  remainder_column : list remainder_block;
  block_digit_offset : Z;
  block_divisor_offset : Z
}.

(** ** Command line

    [std::stoul] is the C++ library's conversion (base 10): it skips white
    space, takes an optional sign and the longest run of decimal digits,
    throws [invalid_argument] when there is no digit and [out_of_range]
    when the digits exceed [unsigned long]; a minus sign negates the value
    in [unsigned long].  What follows the digits is ignored. *)

Definition isspace (c : ascii) : bool :=
  let n := nat_of_ascii c in
  ((n =? 32) || ((9 <=? n) && (n <=? 13)))%nat.

Fixpoint skip_space (s : string) : string :=
  match s with
  | String c r => if isspace c then skip_space r else s
  | EmptyString => s
  end.

Definition digit_value (c : ascii) : option Z :=
  let n := nat_of_ascii c in
  if ((48 <=? n) && (n <=? 57))%nat then Some (Z.of_nat n - 48) else None.

Fixpoint read_digits (s : string) (acc : option Z) : option Z :=
  match s with
  | String c r =>
      match digit_value c with
      | Some d => read_digits r (Some (10 * default 0 acc + d))
      | None => acc
      end
  | EmptyString => acc
  end.

Definition stoul (s : string) : result Z :=
  let s1 := skip_space s in
  let '(neg, s2) :=
    match s1 with
    | String "-" r => (true, r)
    | String "+" r => (false, r)
    | _ => (false, s1)
    end in
  match read_digits s2 None with
  | None => Throw invalid_argument
  | Some v =>
      if v >? Z.ones 64 then Throw out_of_range
      else Ret (if neg : bool then to_ulong (- v) else v)
  end.

Definition usage_text (progname : string) : string :=
  ("Usage:" ++ String "010" "" ++ progname ++ " precision d "
  ++ "multiplier1 arg1 multiplier2 arg2 multiplier3 arg3..." ++ String "010" (String "010" "")
  ++ "where precision the number of " ++ "32" ++ " bits used for calculation,"
  ++ String "010" ""
  ++ "and the computation to done is:" ++ String "010" ""
  ++ "d * (multiplier1 * arccot(arg1) + multiplier2 * arccot(arg2) + ...)"
  ++ String "010" "")%string.

Definition usage_and_exit {A : Type} (progname : string) (err : Z) : result A :=
  if err =? 0 then Exit err (usage_text progname) ""
  else Exit err "" (usage_text progname).

(** The [while] loop of [read_parameters] over the remaining arguments; the vectors
    [multipliers], [args] and [arg_sq] grow at the back. *)
Fixpoint read_terms (progname : string) (argv : list string)
    (ms az sq : list Z) : result (list Z * list Z * list Z) :=
  match argv with
  | [] => Ret (ms, az, sq)
  | sm :: rest =>
      n <- stoul sm ;;
      if n >? limb_max then usage_and_exit progname 1
      else
        match rest with
        | [] => usage_and_exit progname 1
        | sa :: rest' =>
            a <- stoul sa ;;
            if a >? arg_max then usage_and_exit progname 1
            else read_terms progname rest' (ms ++ [to_limb n]) (az ++ [to_limb a])
                   (sq ++ [to_limb (to_ulong (a * a))])
        end
  end.

(** [argv] is the null-terminated array, without its final null pointer. *)
Definition read_parameters (progname : string) (argv : list string) : result params :=
  match argv with
  | [] | [_] => usage_and_exit progname 1
  | _ :: sp :: rest =>
      p <- stoul sp ;;
      if p <? 1 then usage_and_exit progname 1
      else
        match rest with
        | [] => Undefined NullString
        | sd :: rest' =>
            d <- stoul sd ;;
            if d =? 0 then usage_and_exit progname 1
            else
              t <- read_terms progname rest' [] [] [] ;;
              let '(ms, az, sq) := t in
              if (length az =? 0)%nat then usage_and_exit progname 1
              else Ret {| precision := p; pi_d := d; multipliers := ms;
                          args := az; arg_sq := sq |}
        end
  end.

(** ** Seeding *)

Definition fractional_size (p : params) : Z :=
  if precision p mod Z.of_nat block_width =? 0 then precision p
  else to_ulong ((precision p / Z.of_nat block_width + 1) * Z.of_nat block_width).

(** The [for] loop of [initialize_variables] from index [i], [todo] terms left. *)
Fixpoint seed_quotents (p : params) (todo i : nat) (q : list Z) : result (list Z) :=
  match todo with
  | O => Ret q
  | S todo' =>
      a <- get (args p) i ;;
      m <- get (multipliers p) i ;;
      let n := to_limb2 (to_limb2 (a * m) * pi_d p) in
      q1 <- set q ((block_width - 1) * length (args p) + i)%nat (to_limb n) ;;
      q2 <- set q1 ((block_width - 2) * length (args p) + i)%nat
              (to_limb (Z.shiftr n limb_bits)) ;;
      seed_quotents p todo' (S i) q2
  end.

Definition initialize_variables (p : params) : result state :=
  let acc := replicate (Z.to_nat (to_ulong (fractional_size p + Z.of_nat block_width))) 0 in
  q <- seed_quotents p (length (args p)) 0
         (replicate (block_width * length (args p)) 0) ;;
  Ret {| accumulator := acc; quotents := q; remainder_column := [];
         block_digit_offset := 0; block_divisor_offset := 1 |}.

(** ** Counting the terms still alive *)

(** The inner loop of [count_non_zero_quotents]: [todo] limbs of one term,
    starting at position [pos], [n] positions apart. *)
Fixpoint term_non_zero (q : list Z) (n todo pos : nat) : result bool :=
  match todo with
  | O => Ret false
  | S todo' =>
      x <- get q pos ;;
      if x =? 0 then term_non_zero q n todo' (pos + n)%nat else Ret true
  end.

Fixpoint count_from (q : list Z) (n todo argi : nat) : result nat :=
  match todo with
  | O => Ret O
  | S todo' =>
      b <- term_non_zero q n block_width argi ;;
      if b : bool then Ret (n - argi)%nat else count_from q n todo' (S argi)
  end.

Definition count_non_zero_quotents (p : params) (q : list Z) : result nat :=
  count_from q (length (args p)) (length (args p)) 0.

(** ** The accumulator *)

(** [while (d > accumulator[offset])] of the borrow branch. *)
Fixpoint borrow_loop (fuel : nat) (acc : list Z) (d offset : Z) : result (list Z * Z * Z) :=
  match fuel with
  | O => OutOfFuel
  | S fuel' =>
      a <- get acc (Z.to_nat offset) ;;
      if d >? a then
        let d_low := to_limb d in
        let d1 := Z.shiftr d limb_bits in
        if d_low >? a then
          let temp := to_limb2 ((Z.shiftl 1 limb_bits + a) - d_low) in
          acc1 <- set acc (Z.to_nat offset) (to_limb temp) ;;
          if Z.shiftr temp limb_bits =? 0
          then borrow_loop fuel' acc1 (to_limb2 (d1 + 1)) (to_unsigned (offset - 1))
          else Undefined AssertionFailed
        else
          acc1 <- set acc (Z.to_nat offset) (to_limb (a - d_low)) ;;
          borrow_loop fuel' acc1 d1 (to_unsigned (offset - 1))
      else Ret (acc, d, offset)
  end.

(** [while (d != 0)] of the carry branch. *)
Fixpoint carry_loop (fuel : nat) (acc : list Z) (d offset : Z) : result (list Z) :=
  match fuel with
  | O => OutOfFuel
  | S fuel' =>
      if d =? 0 then Ret acc
      else
        a <- get acc (Z.to_nat offset) ;;
        let d1 := to_limb2 (d + a) in
        acc1 <- set acc (Z.to_nat offset) (to_limb d1) ;;
        carry_loop fuel' acc1 (Z.shiftr d1 limb_bits) (to_unsigned (offset - 1))
  end.

(** [accumulator[offset] -= d] after the borrow loop. *)
Definition borrow_finish (r : list Z * Z * Z) : result (list Z) :=
  let '(acc, d, offset) := r in
  a <- get acc (Z.to_nat offset) ;;
  set acc (Z.to_nat offset) (to_limb (a - d)).

(** [delta] is a [limb2_int_signed]; the negation of the least value wraps. *)
Definition accumulate (fuel : nat) (acc : list Z) (delta offset : Z) : result (list Z) :=
  if delta <? 0 then
    r <- borrow_loop fuel acc (to_limb2 (- delta)) offset ;;
    borrow_finish r
  else carry_loop fuel acc delta offset.

(** ** One block *)

(** The [for] loop over the terms of one row: [todo] terms left, the next
    one is [i]; [qpos] is the position of [quotent] and [rpos] that of
    [remainder].  [Z.div_eucl n a] is the pair of [n / a] and [n mod a]. *)
Fixpoint term_loop (sq : list Z) (todo i qpos : nat) (q rem : list Z) (rpos : nat) (sum : Z)
    : result (list Z * list Z * nat * Z) :=
  match todo with
  | O => Ret (q, rem, rpos, sum)
  | S todo' =>
      r <- get rem rpos ;;
      x <- get q (qpos + i)%nat ;;
      let n := to_limb2 (to_limb2 (Z.shiftl r limb_bits) + x) in
      a <- get sq i ;;
      if a =? 0 then Undefined DivisionByZero
      else
        let qr := Z.div_eucl n a in
        let quot := to_limb (fst qr) in
        q1 <- set q (qpos + i)%nat quot ;;
        rem1 <- set rem rpos (to_limb (snd qr)) ;;
        term_loop sq todo' (S i) qpos q1 rem1 (S rpos) (to_limb2 (sum + quot))
  end.

(** [while (remainder != block.remainders.end())]. *)
Fixpoint row_loop (fuel : nat) (sq : list Z) (count qpos : nat) (q rem : list Z)
    (rpos : nat) (divisor : Z) (addition : bool) (delta : Z)
    : result (list Z * list Z * Z) :=
  match fuel with
  | O => OutOfFuel
  | S fuel' =>
      if (rpos =? length rem)%nat then Ret (q, rem, delta)
      else
        t <- term_loop sq count 0 qpos q rem rpos 0 ;;
        let '(q1, rem1, rpos1, sum) := t in
        r <- get rem1 rpos1 ;;
        let sum1 := to_limb2 (sum + to_limb2 (Z.shiftl r limb_bits)) in
        if divisor =? 0 then Undefined DivisionByZero
        else
          let qr := Z.div_eucl sum1 divisor in
          rem2 <- set rem1 rpos1 (to_limb (snd qr)) ;;
          let delta1 :=
            if addition then to_signed2 (delta + fst qr)
            else to_signed2 (delta - fst qr) in
          row_loop fuel' sq count qpos q1 rem2 (S rpos1)
            (to_unsigned (divisor + 2)) (negb addition) delta1
  end.

(** [while (quotent != quotents.end())]. *)
Fixpoint slot_loop (fuel : nat) (p : params) (count : nat) (divisor_offset : Z)
    (qpos : nat) (digit_offset : Z) (q acc rem : list Z)
    : result (list Z * list Z * list Z) :=
  match fuel with
  | O => OutOfFuel
  | S fuel' =>
      if (qpos =? length q)%nat then Ret (q, acc, rem)
      else
        t <- row_loop fuel' (arg_sq p) count qpos q rem 0 divisor_offset true 0 ;;
        let '(q1, rem1, delta) := t in
        acc1 <- accumulate fuel' acc delta digit_offset ;;
        slot_loop fuel' p count divisor_offset (qpos + length (args p))%nat
          (to_unsigned (digit_offset + 1)) q1 acc1 rem1
  end.

Definition process_block (fuel : nat) (p : params) (st : state) (block : remainder_block)
    : result (state * remainder_block) :=
  t <- slot_loop fuel p (arg_count block) (block_divisor_offset st) 0
         (block_digit_offset st) (quotents st) (accumulator st) (remainders block) ;;
  let '(q, acc, rem) := t in
  Ret ({| accumulator := acc; quotents := q;
          remainder_column := remainder_column st;
          block_digit_offset := block_digit_offset st;
          block_divisor_offset := block_divisor_offset st |},
       {| arg_count := arg_count block; remainders := rem |}).

(** ** The main loop *)

Definition new_block (p : params) (next_arg_count : nat) : remainder_block :=
  {| arg_count := next_arg_count;
     remainders := replicate ((length (args p) + 1) * block_height) 0 |}.

(** The body of the [do ... while] loop over the columns: the state after
    it and the new [next_arg_count]. *)
Definition column_body (fuel : nat) (p : params) (st : state)
    (next_arg_count column_index : nat) : result (state * nat) :=
  let col :=
    if (length (remainder_column st) <=? column_index)%nat
    then remainder_column st ++ [new_block p next_arg_count]
    else remainder_column st in
  match col !! column_index with
  | None => Undefined OutOfBounds
  | Some b =>
      let b1 := {| arg_count := Nat.max (arg_count b) next_arg_count;
                   remainders := remainders b |} in
      r <- process_block fuel p st b1 ;;
      let '(st1, b2) := r in
      next <- count_non_zero_quotents p (quotents st1) ;;
      Ret ({| accumulator := accumulator st1; quotents := quotents st1;
              remainder_column := <[column_index := b2]> col;
              block_digit_offset := block_digit_offset st1;
              block_divisor_offset :=
                to_unsigned (block_divisor_offset st1 + 2 * Z.of_nat block_height) |},
           next)
  end.

(** The [do ... while] loop over the columns. *)
Fixpoint column_loop (fuel : nat) (p : params) (st : state)
    (next_arg_count column_index : nat) : result state :=
  match fuel with
  | O => OutOfFuel
  | S fuel' =>
      r <- column_body fuel' p st next_arg_count column_index ;;
      let '(st1, next) := r in
      if (S column_index <? length (remainder_column st1))%nat || (0 <? next)%nat
      then column_loop fuel' p st1 next (S column_index)
      else Ret st1
  end.

(** [while (block_digit_offset < accumulator.size())]. *)
Fixpoint main_loop (fuel : nat) (p : params) (st : state) : result state :=
  match fuel with
  | O => OutOfFuel
  | S fuel' =>
      if block_digit_offset st <? Z.of_nat (length (accumulator st)) then
        st1 <- column_loop fuel' p
                 {| accumulator := accumulator st; quotents := quotents st;
                    remainder_column := remainder_column st;
                    block_digit_offset := block_digit_offset st;
                    block_divisor_offset := 1 |}
                 (length (args p)) 0 ;;
        main_loop fuel' p
          {| accumulator := accumulator st1; quotents := quotents st1;
             remainder_column := remainder_column st1;
             block_digit_offset :=
               to_unsigned (block_digit_offset st1 + Z.of_nat block_width);
             block_divisor_offset := block_divisor_offset st1 |}
      else Ret st
  end.

(** ** Printing *)

(** A [std::string] under construction is a list of characters. *)
Definition to_char (z : Z) : ascii := ascii_of_nat (Z.to_nat (z mod 256)).

(** [while (first_non_zero < block_width and accumulator[first_non_zero] == 0)],
    with [todo = block_width - first_non_zero]. *)
Fixpoint skip_zero_up (acc : list Z) (todo first_non_zero : nat) : result nat :=
  match todo with
  | O => Ret first_non_zero
  | S todo' =>
      a <- get acc first_non_zero ;;
      if a =? 0 then skip_zero_up acc todo' (S first_non_zero) else Ret first_non_zero
  end.

(** The division of the top [block_width] limbs by ten. *)
Fixpoint div10_loop (acc : list Z) (todo i : nat) (n : Z) : result (list Z) :=
  match todo with
  | O => Ret acc
  | S todo' =>
      a <- get acc i ;;
      let n1 := to_limb2 (n + a) in
      acc1 <- set acc i (to_limb (n1 / 10)) ;;
      div10_loop acc1 todo' (S i) (to_limb2 (Z.shiftl (n1 mod 10) limb_bits))
  end.

Fixpoint integer_digits (fuel : nat) (acc : list Z) (first_non_zero : nat)
    (res : list ascii) : result (list Z * list ascii) :=
  match fuel with
  | O => OutOfFuel
  | S fuel' =>
      if (first_non_zero <? block_width)%nat then
        a <- get acc (block_width - 1)%nat ;;
        let res1 := res ++ [to_char (to_unsigned (48 + a mod 10))] in
        acc1 <- div10_loop acc block_width 0 0 ;;
        f <- skip_zero_up acc1 (block_width - first_non_zero) first_non_zero ;;
        integer_digits fuel' acc1 f res1
      else Ret (acc, res)
  end.

Definition print_integer_part (fuel : nat) (acc : list Z) : result (list Z * string) :=
  f <- skip_zero_up acc block_width 0 ;;
  r <- integer_digits fuel acc f [] ;;
  let '(acc1, res) := r in
  if (length res =? 0)%nat then Ret (acc1, "0"%string)
  else Ret (acc1, string_of_list_ascii (rev res)).

(** [while (first_non_zero > 0 and accumulator[first_non_zero] == 0)]. *)
Fixpoint skip_zero_down (acc : list Z) (first_non_zero : nat) : result nat :=
  match first_non_zero with
  | O => Ret O
  | S k =>
      a <- get acc first_non_zero ;;
      if a =? 0 then skip_zero_down acc k else Ret first_non_zero
  end.

Definition digits10 : nat := 9.

Fixpoint pow10_loop (todo : nat) (pow10 : Z) : Z :=
  match todo with
  | O => pow10
  | S todo' => pow10_loop todo' (to_limb (pow10 * 10))
  end.

(** [for (unsigned i = first_non_zero; i >= block_width - 1; i--)]. *)
Fixpoint mul_loop (acc : list Z) (pow10 : Z) (todo i : nat) (n : Z) : result (list Z) :=
  match todo with
  | O => Ret acc
  | S todo' =>
      a <- get acc i ;;
      let n1 := to_limb2 (n + to_limb2 (a * pow10)) in
      acc1 <- set acc i (to_limb n1) ;;
      mul_loop acc1 pow10 todo' (i - 1)%nat (Z.shiftr n1 limb_bits)
  end.

(** The [digits10] digits taken from [accumulator[block_width-1]]. *)
Fixpoint digit_loop (acc : list Z) (todo : nat) (p : Z) (res : list ascii)
    : result (list Z * list ascii) :=
  match todo with
  | O => Ret (acc, res)
  | S todo' =>
      a <- get acc (block_width - 1)%nat ;;
      if p =? 0 then Undefined DivisionByZero
      else
        acc1 <- set acc (block_width - 1)%nat (a mod p) ;;
        digit_loop acc1 todo' (p / 10) (res ++ [to_char (to_unsigned (48 + a / p))])
  end.

Fixpoint fractional_digits (fuel : nat) (acc : list Z) (pow10 dec_digits : Z)
    (first_non_zero : nat) (res : list ascii) : result (list Z * list ascii) :=
  match fuel with
  | O => OutOfFuel
  | S fuel' =>
      if (0 <? first_non_zero)%nat && (Z.of_nat (length res) <=? dec_digits) then
        acc1 <- mul_loop acc pow10 (first_non_zero + 1 - (block_width - 1))
                  first_non_zero 0 ;;
        r <- digit_loop acc1 digits10 (pow10 / 10) res ;;
        let '(acc2, res1) := r in
        acc3 <- set acc2 (block_width - 1)%nat 0 ;;
        f <- skip_zero_down acc3 first_non_zero ;;
        fractional_digits fuel' acc3 pow10 dec_digits f res1
      else Ret (acc, res)
  end.

Definition dec_digits_of (acc : list Z) : Z :=
  to_ulong (to_ulong (Z.of_nat (length acc) - Z.of_nat block_width) * Z.of_nat digits10 - 2).

Definition fractional_result (fuel : nat) (acc : list Z) : result (list Z * list ascii) :=
  f <- skip_zero_down acc (Z.to_nat (to_unsigned (Z.of_nat (length acc) - 1))) ;;
  fractional_digits fuel acc (pow10_loop digits10 1) (dec_digits_of acc) f [].

Definition print_fractional_part (fuel : nat) (acc : list Z) : result (list Z * string) :=
  r <- fractional_result fuel acc ;;
  let '(acc1, res) := r in
  if (length res =? 0)%nat then Ret (acc1, ""%string)
  else Ret (acc1, String "." (string_of_list_ascii res)).

(** ** The program *)

Definition default_args : list string :=
  [""; "17"; "4"; "5"; "7"; "4"; "68"; "2"; "117"]%string.

(** [main] up to the end of its outer loop. *)
Definition compute (fuel : nat) (argv : list string) : result (params * state) :=
  match argv with
  | [] => Undefined NullString
  | progname :: rest =>
      p <- read_parameters progname (match rest with [] => default_args | _ => argv end) ;;
      st <- initialize_variables p ;;
      st1 <- main_loop fuel p st ;;
      Ret (p, st1)
  end.

(** [Ret out]: [main] returned, with exit status 0, after writing [out] to
    the standard output. *)
Definition main (fuel : nat) (argv : list string) : result string :=
  r <- compute fuel argv ;;
  let '(p, st) := r in
  r1 <- print_integer_part fuel (accumulator st) ;;
  let '(acc1, out1) := r1 in
  r2 <- print_fractional_part fuel acc1 ;;
  let '(acc2, out2) := r2 in
  Ret (out1 ++ out2 ++ String "010" "")%string.

Definition exit_code {A : Type} (r : result A) : option Z :=
  match r with
  | Ret _ => Some 0
  | Exit c _ _ => Some c
  | _ => None
  end.


(** * Vocabulary of the properties, and the runs they are checked on *)

Definition is_limb (x : Z) : Prop := 0 <= x < 2 ^ 32.

Definition is_limbb (x : Z) : bool := (0 <=? x) && (x <? 2 ^ 32).

(** Every string of [strs] is a number for [std::stoul], and [nums] are the
    numbers. *)
Definition parses (strs : list string) (nums : list Z) : Prop :=
  Forall2 (fun s n => stoul s = Ret n) strs nums.

Fixpoint flatten (terms : list (Z * Z)) : list Z :=
  match terms with
  | [] => []
  | (m, a) :: rest => m :: a :: flatten rest
  end.

Definition squares (az : list Z) : list Z := map (fun a => a * a) az.

Definition numeric (s : string) : Prop := exists n, stoul s = Ret n.

(** What holds of the parameters once validation has accepted them. *)
Record wf_params (p : params) : Prop := {
  wf_precision : 1 <= precision p < 2 ^ 64;
  wf_pi_d : 0 < pi_d p < 2 ^ 64;
  wf_length : length (multipliers p) = length (args p);
  wf_arg_sq : arg_sq p = squares (args p);
  wf_terms : (0 < length (args p))%nat;
  wf_multipliers : Forall (fun m => 0 <= m <= limb_max) (multipliers p);
  wf_args : Forall (fun a => 0 <= a <= arg_max) (args p)
}.

(** The scaled numerator as the loop of [initialize_variables] computes it. *)
Definition scaled (p : params) (a m : Z) : Z := to_limb2 (to_limb2 (a * m) * pi_d p).

Definition default_params : params :=
  {| precision := 17; pi_d := 4; multipliers := [5; 4; 2]; args := [7; 68; 117];
     arg_sq := [49; 4624; 13689] |}.

(** The limbs read as one number, most significant limb first. *)
Definition limbs_value (l : list Z) : Z := fold_left (fun v x => v * 2 ^ 32 + x) l 0.

(** An outcome of the computation proper: it neither calls [std::exit] nor
    throws. *)
Definition quiet {A : Type} (r : result A) : Prop :=
  match r with
  | Exit _ _ _ | Throw _ => False
  | _ => True
  end.




Definition all_zero (l : list Z) : Prop := forall j x, l !! j = Some x -> x = 0.

Definition first_term_zero (q : list Z) : Prop :=
  forall j x, q !! j = Some x -> Nat.Even j -> x = 0.

Fixpoint even_zero (q : list Z) (even : bool) : bool :=
  match q with
  | [] => true
  | x :: r => (if even then x =? 0 else true) && even_zero r (negb even)
  end.

Definition argv_B : list string := ["pi"; "1"; "1"; "1"; "65535"; "1"; "2"]%string.

Definition params_B : params :=
  {| precision := 1; pi_d := 1; multipliers := [1; 1]; args := [65535; 2];
     arg_sq := [4294836225; 4] |}.

Definition with_offsets (st : state) (digit divisor : Z) : state :=
  {| accumulator := accumulator st; quotents := quotents st;
     remainder_column := remainder_column st;
     block_digit_offset := digit; block_divisor_offset := divisor |}.

Definition unwrap {A} (d : A) (r : result A) : A :=
  match r with Ret a => a | _ => d end.

Definition empty_state : state :=
  {| accumulator := []; quotents := []; remainder_column := [];
     block_digit_offset := 0; block_divisor_offset := 0 |}.

Definition state_B0 : state := Eval vm_compute in unwrap empty_state (initialize_variables params_B).
Definition state_B1 : state :=
  Eval vm_compute in unwrap empty_state (column_loop 300 params_B (with_offsets state_B0 0 1) 2 0).
Definition state_B2 : state * nat :=
  Eval vm_compute in unwrap (empty_state, 0%nat) (column_body 300 params_B (with_offsets state_B1 64 1) 2 0).
Definition state_B3 : state * nat :=
  Eval vm_compute in unwrap (empty_state, 0%nat) (column_body 300 params_B (fst state_B2) (snd state_B2) 1).

(** [arccot a] for a positive integer [a]. *)
Definition arccot (a : Z) : R := atan (/ IZR a).

(** Partial sums of the series of [arccot a] as fractions: the sum of the
    terms [0..n] is [P / (Q * a^(2n+1))]. *)
Fixpoint series_fraction (a : Z) (n : nat) : Z * Z :=
  match n with
  | O => (1, 1)
  | S k =>
      let '(P, Q) := series_fraction a k in
      let c := 2 * Z.of_nat k + 3 in
      (P * (a * a) * c + (if Nat.even k then -1 else 1) * Q, Q * c)
  end.

Definition argv_H : list string :=
  ["pi"; "1"; "1099511627776"; "1"; "65535"; "1"; "13"; "1"; "65535"; "1"; "65535"]%string.

Definition params_H : params :=
  {| precision := 1; pi_d := 1099511627776; multipliers := [1; 1; 1; 1];
     args := [65535; 13; 65535; 65535];
     arg_sq := [4294836225; 169; 4294836225; 4294836225] |}.

Definition result_H : result (params * state) := Eval vm_compute in compute 300 argv_H.

Definition state_H : state :=
  Eval cbv in
    match result_H with
    | Ret (_, st) => st
    | _ => {| accumulator := []; quotents := []; remainder_column := [];
              block_digit_offset := 0; block_divisor_offset := 0 |}
    end.

(** The input is valid in the sense of the specification. *)
Definition valid_input (p : params) : Prop :=
  1 <= precision p /\ 1 <= pi_d p /\ args p <> [] /\
  Forall (fun a => 2 <= a <= 2 ^ 16 - 1) (args p) /\
  Forall2 (fun m a => 0 <= m * a * pi_d p < 2 ^ 64) (multipliers p) (args p).

(** The number the program is to compute, and the accumulator read as a
    fixed-point number with [length acc - block_width] fractional limbs. *)
Definition series_value (p : params) : R :=
  (IZR (pi_d p)
   * fold_right Rplus 0 (zip_with (fun m a => IZR m * arccot a) (multipliers p) (args p)))%R.

Definition fixed_point_value (acc : list Z) : R :=
  (IZR (limbs_value acc) / 2 ^ (32 * (length acc - block_width)))%R.

Definition accurate (p : params) (acc : list Z) : Prop :=
  (Rabs (fixed_point_value acc - series_value p)
   < / 2 ^ (32 * (length acc - block_width - 1)))%R.

Definition value_H : Z := Eval vm_compute in limbs_value (accumulator state_H).

(** The partial sums that bound [arccot 65535] and [arccot 13] from above. *)
Definition fraction_65535 : Z * Z := Eval vm_compute in series_fraction 65535 (2 * 25).
Definition fraction_13 : Z * Z := Eval vm_compute in series_fraction 13 (2 * 106).

Definition above_check (A w s d p1 d1 p2 d2 : Z) : bool :=
  let dd := d1 * d2 in
  d * w * (3 * p1 * d2 + p2 * d1) + s * dd <=? A * dd.

(** Reading a string of decimal digits back. *)
Definition parse_decimal (s : string) : Z :=
  fold_left (fun v c => v * 10 + (Z.of_nat (nat_of_ascii c) - 48)) (list_ascii_of_string s) 0.

(** ** Vocabulary of the further properties *)

Definition term_zero (q : list Z) (n i : nat) : Prop :=
  forall s, (s < block_width)%nat -> q !! (s * n + i)%nat = Some 0.

Definition term_ok (t : Z * Z) : Prop := fst t <= limb_max /\ snd t <= arg_max.

(** The numbers of a command line up to its first defect pass the checks
    that [read_parameters] makes on them. *)
Fixpoint terms_prefix_ok (nums : list Z) : bool :=
  match nums with
  | [] => true
  | [m] => m <=? limb_max
  | m :: a :: rest => (m <=? limb_max) && (a <=? arg_max) && terms_prefix_ok rest
  end.

Definition prefix_ok (nums : list Z) : bool :=
  match nums with
  | [] => true
  | [P] => 1 <=? P
  | P :: D :: rest => (1 <=? P) && negb (D =? 0) && terms_prefix_ok rest
  end.

Definition sum_list (l : list Z) : Z := fold_right Z.add 0 l.

(** One row of a remainder block: the remainders of the terms and the
    remainder of the division by the odd divisor. *)
Definition row : Type := (list Z * Z)%type.

Fixpoint flat_rows (rows : list row) : list Z :=
  match rows with
  | [] => []
  | r :: rest => fst r ++ snd r :: flat_rows rest
  end.

(** Dividing, term by term, the number made of the remainder [r] (in front)
    and [y] (one digit of base [K]) by the square [a]. *)
Fixpoint term_quotients (K : Z) (sq rs ys : list Z) : list Z :=
  match sq, rs, ys with
  | a :: sq', r :: rs', y :: ys' => (r * K + y) / a :: term_quotients K sq' rs' ys'
  | _, _, _ => []
  end.

Fixpoint term_remainders (K : Z) (sq rs ys : list Z) : list Z :=
  match sq, rs, ys with
  | a :: sq', r :: rs', y :: ys' => (r * K + y) mod a :: term_remainders K sq' rs' ys'
  | _, _, _ => []
  end.

(** The rows of a block applied to the digits [ys] of the terms, in base
    [K]: each row divides every term by its square, adds the quotients up
    and divides the sum by its odd divisor; the result is the digits after
    the last row, the new rows and the alternating sum of the quotients by
    the odd divisors. *)
Fixpoint divide_block (K : Z) (sq : list Z) (divisor : Z) (addition : bool)
    (ys : list Z) (rows : list row) : list Z * list row * Z :=
  match rows with
  | [] => (ys, [], 0)
  | r :: rest =>
      let ys1 := term_quotients K sq (fst r) ys in
      let total := snd r * K + sum_list ys1 in
      let '(ysf, rest1, d) := divide_block K sq (divisor + 2) (negb addition) ys1 rest in
      (ysf, (term_remainders K sq (fst r) ys, total mod divisor) :: rest1,
       (if addition then total / divisor else - (total / divisor)) + d)
  end.

(** The slots of the quotient vector, one after the other, through the rows
    of a block, as [process_block] goes. *)
Fixpoint divide_slots (sq : list Z) (divisor : Z) (slots : list (list Z)) (rows : list row)
    : list (list Z) * list row * list Z :=
  match slots with
  | [] => ([], rows, [])
  | xs :: rest =>
      let '(ys, rows1, d) := divide_block (2 ^ 32) sq divisor true xs rows in
      let '(rest1, rows2, ds) := divide_slots sq divisor rest rows1 in
      (ys :: rest1, rows2, d :: ds)
  end.

(** The remainders of a row are below their divisors. *)
Definition row_ok (sq : list Z) (divisor : Z) (r : row) : Prop :=
  Forall2 (fun x a => 0 <= x < a) (fst r) sq /\ 0 <= snd r < divisor.

Fixpoint rows_ok (sq : list Z) (divisor : Z) (rows : list row) : Prop :=
  match rows with
  | [] => True
  | r :: rest => row_ok sq divisor r /\ rows_ok sq (divisor + 2) rest
  end.

(** The terms' quotients as numbers: slot after slot, most significant
    first. *)
Definition extend (vs xs : list Z) : list Z := zip_with (fun v x => v * 2 ^ 32 + x) vs xs.

Definition slot_values (n : nat) (slots : list (list Z)) : list Z :=
  fold_left extend slots (replicate n 0).

Definition row_shape (n : nat) (r : row) : Prop := length (fst r) = n.

Definition params_five : params :=
  {| precision := 1; pi_d := 4; multipliers := [1]; args := [5]; arg_sq := [25] |}.

Definition state_five : state :=
  {| accumulator := replicate 128 0; quotents := replicate 63 0 ++ [20];
     remainder_column := []; block_digit_offset := 0; block_divisor_offset := 1 |}.

(** The deltas of successive slots, added at the offsets [o], [o + 1], ...
    of an accumulator of [L] limbs. *)
Fixpoint place (L o : Z) (ds : list Z) : Z :=
  match ds with
  | [] => 0
  | d :: rest => d * 2 ^ (32 * (L - 1 - o)) + place L (o + 1) rest
  end.

Definition is_digit (c : ascii) : Prop := (48 <= nat_of_ascii c <= 57)%nat.

(** The number a list of decimal digits stands for, most significant first. *)
Definition digits_value (l : list ascii) : Z :=
  fold_left (fun v c => v * 10 + (Z.of_nat (nat_of_ascii c) - 48)) l 0.

Definition same_shape (l l' : list Z) : Prop :=
  length l' = length l /\ (Forall is_limb l -> Forall is_limb l').

(** The rows of a block that has not been used. *)
Definition fresh_rows (n rows : nat) : list row := replicate rows (replicate n 0, 0).

Definition block_of (n : nat) (rows : list row) : remainder_block :=
  {| arg_count := n; remainders := flat_rows rows |}.

(** The blocks of the column are what unused blocks become when the numbers
    [Yin], in base [K], go through them one after the other; [Yout] comes
    out of the last one and [D] is the alternating sum over all the rows. *)
Fixpoint chain (K : Z) (sq : list Z) (dv : Z) (Yin : list Z)
    (blocks : list remainder_block) (Yout : list Z) (D : Z) : Prop :=
  match blocks with
  | [] => Yout = Yin /\ D = 0
  | b :: rest =>
      exists Ymid rows Db Drest,
        b = block_of (length sq) rows /\
        divide_block K sq dv true Yin (fresh_rows (length sq) block_height) = (Ymid, rows, Db) /\
        chain K sq (dv + 2 * Z.of_nat block_height) Ymid rest Yout Drest /\
        D = Db + Drest
  end.

(** The series as the program sums it: row after row, every term divided
    by its square once more, the sum of the terms divided by the odd
    divisor of the row, with alternating signs. *)
Fixpoint series (sq : list Z) (dv : Z) (addition : bool) (Y : list Z) (rows : nat)
    : list Z * Z :=
  match rows with
  | O => (Y, 0)
  | S r =>
      let Y1 := zip_with Z.div Y sq in
      let '(Yf, d) := series sq (dv + 2) (negb addition) Y1 r in
      (Yf, (if addition then sum_list Y1 / dv else - (sum_list Y1 / dv)) + d)
  end.

(** When the first of the numbers has become zero, after the rows of one
    block at least, all of them have. *)
Definition first_alive (sq X : list Z) : Prop :=
  forall r, (block_height <= r)%nat ->
    head (fst (series sq 1 true X r)) = Some 0 ->
    Forall (fun y => y = 0) (fst (series sq 1 true X r)).

Definition scaled_alive (sq X : list Z) : Prop :=
  forall c, 0 <= c -> first_alive sq (map (fun x => x * c) X).

(** The first term has the least argument, and after the rows of one block
    its number is the greatest. *)
Definition first_term_dominates (sq X : list Z) : Prop :=
  Forall2 (fun x s => hd 0 sq <= s /\ x * hd 0 sq ^ Z.of_nat block_height
                                    <= hd 0 X * s ^ Z.of_nat block_height) X sq.

(** What holds at the head of the loop over the columns, in a pass that
    started with the numbers [Xnew] in base [K * 2^(32 * block_width)]: the
    blocks [done] have been processed in this pass, the blocks [todo] are
    as the pass before left them, in base [K]; [Ycur] went into the first
    of them then, and the quotient vector continues it by [slots]. *)
Record column_inv (p : params) (K : Z) (Xnew : list Z) (st : state) (next ci : nat)
    (done todo : list remainder_block) (slots : list (list Z)) (Ycur : list Z)
    (Dtodo Ddone : Z) : Prop := {
  ci_column : remainder_column st = done ++ todo;
  ci_index : length done = ci;
  ci_quotents : quotents st = concat slots;
  ci_slots : Forall (fun xs => length xs = length (arg_sq p) /\ Forall is_limb xs) slots;
  ci_width : length slots = block_width;
  ci_done : forall rest' Yo D',
    chain (K * 2 ^ (32 * Z.of_nat block_width)) (arg_sq p) (block_divisor_offset st)
      (fold_left extend slots Ycur) rest' Yo D' ->
    chain (K * 2 ^ (32 * Z.of_nat block_width)) (arg_sq p) 1 Xnew (done ++ rest') Yo
      (Ddone + D');
  ci_todo : chain K (arg_sq p) (block_divisor_offset st) Ycur todo
              (replicate (length (arg_sq p)) 0) Dtodo;
  ci_Ylen : length Ycur = length (arg_sq p);
  ci_Ypos : Forall (fun y => 0 <= y) Ycur;
  ci_divisor : block_divisor_offset st = 1 + 2 * Z.of_nat block_height * Z.of_nat ci;
  ci_limbs : Forall is_limb (accumulator st);
  ci_size : Z.of_nat (length (accumulator st)) <= 2 ^ 26;
  ci_offset : 0 <= block_digit_offset st;
  ci_room : block_digit_offset st + Z.of_nat block_width
            <= Z.of_nat (length (accumulator st));
  ci_value : limbs_value (accumulator st)
             = Ddone * 2 ^ (32 * (Z.of_nat (length (accumulator st)) - block_digit_offset st
                                  - Z.of_nat block_width))
               + Dtodo * 2 ^ (32 * (Z.of_nat (length (accumulator st))
                                    - block_digit_offset st));
  ci_new : todo = [] -> next = length (arg_sq p);
  ci_next : (next <= length (arg_sq p))%nat;
  ci_count : ci <> 0%nat -> count_non_zero_quotents p (quotents st) = Ret next;
  ci_Xsum : sum_list Xnew < 2 ^ (32 * (block_digit_offset st + Z.of_nat block_width));
  ci_blocks : 128 * Z.of_nat (length done + length todo)
              <= 32 * (block_digit_offset st + Z.of_nat block_width) + 128
}.

(** What holds at the head of the loop over the passes: the limbs before
    [block_digit_offset] have gone through the column, as the numbers [X];
    the accumulator holds their sum [D], and the quotient vector the limbs
    that the next pass will bring in. *)
Record pass_inv (p : params) (st : state) (X : list Z) (D : Z) (slots : list (list Z))
    : Prop := {
  pi_offset : 0 <= block_digit_offset st;
  pi_passes : exists j, 0 <= j /\
      Z.of_nat (length (accumulator st)) = block_digit_offset st + Z.of_nat block_width * j;
  pi_size : Z.of_nat (length (accumulator st)) <= 2 ^ 26;
  pi_limbs : Forall is_limb (accumulator st);
  pi_quotents : quotents st = concat slots;
  pi_slots : Forall (fun xs => length xs = length (arg_sq p) /\ Forall is_limb xs) slots;
  pi_width : length slots = block_width;
  pi_chain : chain (2 ^ (32 * block_digit_offset st)) (arg_sq p) 1 X (remainder_column st)
               (replicate (length (arg_sq p)) 0) D;
  pi_Xlen : length X = length (arg_sq p);
  pi_Xpos : Forall (fun x => 0 <= x) X;
  pi_Xsum : sum_list (fold_left extend slots X)
            < 2 ^ (32 * (block_digit_offset st + Z.of_nat block_width));
  pi_alive : scaled_alive (arg_sq p) (fold_left extend slots X);
  pi_value : limbs_value (accumulator st)
             = D * 2 ^ (32 * (Z.of_nat (length (accumulator st)) - block_digit_offset st));
  pi_blocks : 128 * Z.of_nat (length (remainder_column st))
              <= 32 * block_digit_offset st + 128
}.

(** The state in which a pass starts and the one in which it ends. *)
Definition pass_first (st : state) : state :=
  {| accumulator := accumulator st; quotents := quotents st;
     remainder_column := remainder_column st;
     block_digit_offset := block_digit_offset st;
     block_divisor_offset := 1 |}.

Definition pass_next (st1 : state) : state :=
  {| accumulator := accumulator st1; quotents := quotents st1;
     remainder_column := remainder_column st1;
     block_digit_offset := to_unsigned (block_digit_offset st1 + Z.of_nat block_width);
     block_divisor_offset := block_divisor_offset st1 |}.

(** The numerators of the terms, as [initialize_variables] computes them. *)
Definition seeds (p : params) : list Z := zip_with (scaled p) (args p) (multipliers p).

(** The row [k] of the series with the numerators [X], rounded down the way
    the program does it: every numerator divided by its square for every
    row up to the [k]-th, then the sum by the odd divisor of the row. *)
Definition row_term (sq X : list Z) (k : nat) : Z :=
  sum_list (zip_with (fun x s => x / s ^ Z.of_nat (S k)) X sq) / (2 * Z.of_nat k + 1).

(** The alternating sum of the first [n] rows. *)
Fixpoint row_sum (sq X : list Z) (n : nat) : Z :=
  match n with
  | O => 0
  | S k => row_sum sq X k + (if Nat.even k then row_term sq X k else - row_term sq X k)
  end.

(** The sum, over the terms, of the multiplier times a function of the
    argument. *)
Definition terms_R (f : Z -> R) (ms az : list Z) : R :=
  fold_right Rplus 0%R (zip_with (fun m a => (IZR m * f a)%R) ms az).

(** The alternating sum of the first [n] values of [f]. *)
Fixpoint alt_sum (f : nat -> R) (n : nat) : R :=
  match n with
  | O => 0
  | S k => alt_sum f k + (if Nat.even k then f k else - f k)
  end.

(** The numerators when nothing wraps around, scaled by [C]. *)
Definition numerators (C : Z) (az ms : list Z) : list Z :=
  zip_with (fun a m => a * m * C) az ms.

(** * Properties *)

(** ** Machine integers *)

Lemma limbs_check (l : list Z) : forallb is_limbb l = true -> Forall is_limb l.
Proof.
  induction l as [|x l IH]; intros H; [constructor|].
  cbn [forallb] in H. apply andb_true_iff in H as [Hx Hl].
  constructor; [|auto]. unfold is_limbb in Hx. apply andb_true_iff in Hx as [H1 H2].
  unfold is_limb. lia.
Qed.

Lemma to_limb_mod z : to_limb z = z mod 2 ^ 32.
Proof. unfold to_limb. apply Z.land_ones. lia. Qed.

Lemma to_limb2_mod z : to_limb2 z = z mod 2 ^ 64.
Proof. unfold to_limb2. apply Z.land_ones. lia. Qed.

Lemma to_unsigned_mod z : to_unsigned z = z mod 2 ^ 32.
Proof. unfold to_unsigned. apply Z.land_ones. lia. Qed.

Lemma to_ulong_mod z : to_ulong z = z mod 2 ^ 64.
Proof. unfold to_ulong. apply Z.land_ones. lia. Qed.

Lemma to_signed2_mod z : to_signed2 z = (z + 2 ^ 63) mod 2 ^ 64 - 2 ^ 63.
Proof.
  unfold to_signed2. rewrite Z.land_ones by lia.
  rewrite Z.shiftl_1_l. reflexivity.
Qed.

Lemma to_limb_is_limb z : is_limb (to_limb z).
Proof. rewrite to_limb_mod. unfold is_limb. apply Z.mod_pos_bound. lia. Qed.

Lemma to_limb_small z : is_limb z -> to_limb z = z.
Proof. intros H. rewrite to_limb_mod. apply Z.mod_small. exact H. Qed.

Lemma to_limb2_small z : 0 <= z < 2 ^ 64 -> to_limb2 z = z.
Proof. intros H. rewrite to_limb2_mod. apply Z.mod_small. exact H. Qed.

Lemma to_unsigned_small z : 0 <= z < 2 ^ 32 -> to_unsigned z = z.
Proof. intros H. rewrite to_unsigned_mod. apply Z.mod_small. exact H. Qed.

Lemma to_ulong_small z : 0 <= z < 2 ^ 64 -> to_ulong z = z.
Proof. intros H. rewrite to_ulong_mod. apply Z.mod_small. exact H. Qed.

Lemma to_signed2_small z : - 2 ^ 63 <= z < 2 ^ 63 -> to_signed2 z = z.
Proof. intros H. rewrite to_signed2_mod. rewrite Z.mod_small; lia. Qed.

Lemma limb_max_eq : limb_max = 2 ^ 32 - 1.
Proof. reflexivity. Qed.

Lemma arg_max_eq : arg_max = 2 ^ 16 - 1.
Proof. reflexivity. Qed.

(** ** Vectors *)

Lemma get_Ret (v : list Z) i x : v !! i = Some x -> get v i = Ret x.
Proof. unfold get. intros ->. reflexivity. Qed.

Lemma get_inv (v : list Z) i x : get v i = Ret x -> v !! i = Some x.
Proof. unfold get. destruct (v !! i); congruence. Qed.

Lemma set_Ret (v : list Z) i x : (i < length v)%nat -> set v i x = Ret (<[i := x]> v).
Proof.
  unfold set. intros H. destruct (lookup_lt_is_Some_2 v i H) as [y ->]. reflexivity.
Qed.

Lemma set_inv (v w : list Z) i x :
  set v i x = Ret w -> (i < length v)%nat /\ w = <[i := x]> v.
Proof.
  unfold set. destruct (v !! i) eqn:E; [|discriminate].
  intros [= <-]. split; [|reflexivity]. eapply lookup_lt_Some. exact E.
Qed.

Lemma bind_Ret_inv {A B} (m : result A) (k : A -> result B) b :
  bind m k = Ret b -> exists a, m = Ret a /\ k a = Ret b.
Proof. destruct m; simpl; try discriminate. eauto. Qed.

(** ** Command line *)

Lemma pair_ind {A : Type} (P : list A -> Prop) :
  P [] -> (forall x, P [x]) -> (forall x y l, P l -> P (x :: y :: l)) -> forall l, P l.
Proof.
  intros H0 H1 H2 l.
  enough (P l /\ forall x, P (x :: l)) by tauto.
  induction l as [|y l [IH1 IH2]]; split; auto.
Qed.

Lemma read_digits_nonneg s : forall acc v,
  0 <= default 0 acc -> read_digits s acc = Some v -> 0 <= v.
Proof.
  induction s as [|c r IH]; intros acc v Hacc; simpl.
  - intros ->. exact Hacc.
  - unfold digit_value.
    destruct ((48 <=? nat_of_ascii c)%nat && (nat_of_ascii c <=? 57)%nat) eqn:E.
    + apply IH. simpl. apply andb_true_iff in E as [E1 E2].
      apply Nat.leb_le in E1. lia.
    + intros ->. exact Hacc.
Qed.

Lemma stoul_range s n : stoul s = Ret n -> 0 <= n < 2 ^ 64.
Proof.
  unfold stoul.
  destruct (match skip_space s with
            | String "-" r => (true, r)
            | String "+" r => (false, r)
            | _ => (false, skip_space s)
            end) as [neg s2].
  destruct (read_digits s2 None) as [v|] eqn:E; [|discriminate].
  apply read_digits_nonneg in E; [|simpl; lia].
  destruct (v >? Z.ones 64) eqn:Hv; [discriminate|].
  assert (v <= 2 ^ 64 - 1) by (change (Z.ones 64) with (2 ^ 64 - 1) in Hv; lia).
  intros [= <-]. destruct neg.
  - rewrite to_ulong_mod. apply Z.mod_pos_bound. lia.
  - lia.
Qed.

Lemma read_terms_accept progname terms : forall strs ms az sq,
  parses strs (flatten terms) ->
  Forall (fun t => fst t <= limb_max /\ snd t <= arg_max) terms ->
  read_terms progname strs ms az sq
  = Ret (ms ++ map fst terms, az ++ map snd terms, sq ++ squares (map snd terms)).
Proof.
  induction terms as [|[m a] terms IH]; intros strs ms az sq Hp Hok.
  - inversion Hp; subst. simpl. rewrite !app_nil_r. reflexivity.
  - simpl in Hp. inversion Hp as [|sm m' rest1 ? Hm Hp1]; subst.
    inversion Hp1 as [|sa a' rest2 ? Ha Hp2]; subst.
    inversion Hok as [|? ? [Hm1 Ha1] Hok']; subst. simpl in Hm1, Ha1.
    pose proof (stoul_range _ _ Hm) as Rm. pose proof (stoul_range _ _ Ha) as Ra.
    simpl. rewrite Hm. simpl.
    destruct (m >? limb_max) eqn:E1; [lia|].
    rewrite Ha. simpl.
    destruct (a >? arg_max) eqn:E2; [lia|].
    rewrite IH by assumption.
    rewrite limb_max_eq in Hm1. rewrite arg_max_eq in Ha1.
    rewrite (to_limb_small m) by (unfold is_limb; lia).
    rewrite (to_limb_small a) by (unfold is_limb; lia).
    rewrite (to_ulong_small (a * a)) by nia.
    rewrite (to_limb_small (a * a)) by (unfold is_limb; nia).
    unfold squares. simpl. rewrite <- !app_assoc. reflexivity.
Qed.

(** What validation accepts: a precision of at least one, a non-zero [d],
    at least one term, multipliers up to [limb_max] and arguments up to
    [arg_max]; there is no lower bound on an argument. *)
Lemma read_parameters_accept progname s0 strs P D terms :
  parses strs (P :: D :: flatten terms) ->
  1 <= P -> D <> 0 -> terms <> [] ->
  Forall (fun t => fst t <= limb_max /\ snd t <= arg_max) terms ->
  read_parameters progname (s0 :: strs)
  = Ret {| precision := P; pi_d := D; multipliers := map fst terms;
           args := map snd terms; arg_sq := squares (map snd terms) |}.
Proof.
  intros Hp HP HD Hne Hok.
  inversion Hp as [|sp ? rest1 ? HsP Hp1]; subst.
  inversion Hp1 as [|sd ? rest2 ? HsD Hp2]; subst.
  unfold read_parameters. rewrite HsP. simpl.
  destruct (P <? 1) eqn:E1; [lia|].
  rewrite HsD. simpl.
  destruct (D =? 0) eqn:E2; [lia|].
  rewrite (read_terms_accept progname terms) by assumption. simpl.
  destruct terms; [congruence|]. reflexivity.
Qed.

Lemma usage_and_exit_1 {A} progname :
  @usage_and_exit A progname 1 = Exit 1 "" (usage_text progname).
Proof. reflexivity. Qed.

(** An argument above [arg_max] among numeric strings ends in the usage exit. *)
Lemma read_terms_reject progname strs : forall ms az sq k s a,
  Forall numeric strs ->
  strs !! (2 * k + 1)%nat = Some s -> stoul s = Ret a -> arg_max < a ->
  read_terms progname strs ms az sq = Exit 1 "" (usage_text progname).
Proof.
  induction strs as [|x|x y l IH] using pair_ind; intros ms az sq k s a Hn Hk Hs Ha.
  - rewrite lookup_nil in Hk. discriminate.
  - replace (2 * k + 1)%nat with (S (2 * k)) in Hk by lia. simpl in Hk.
    rewrite lookup_nil in Hk. discriminate.
  - inversion Hn as [|? ? [n Hx] Hn1]; subst.
    inversion Hn1 as [|? ? [b Hy] Hn2]; subst.
    simpl. rewrite Hx. simpl.
    destruct (n >? limb_max); [reflexivity|].
    rewrite Hy. simpl.
    destruct (b >? arg_max) eqn:E; [reflexivity|].
    destruct k as [|k].
    + simpl in Hk. injection Hk as <-. rewrite Hs in Hy. injection Hy as <-. lia.
    + replace (2 * S k + 1)%nat with (S (S (2 * k + 1))) in Hk by lia. simpl in Hk.
      exact (IH _ _ _ k s a Hn2 Hk Hs Ha).
Qed.

Lemma read_parameters_reject progname s0 sp sd strs k s a :
  numeric sp -> numeric sd -> Forall numeric strs ->
  strs !! (2 * k + 1)%nat = Some s -> stoul s = Ret a -> arg_max < a ->
  read_parameters progname (s0 :: sp :: sd :: strs) = Exit 1 "" (usage_text progname).
Proof.
  intros [P HP] [D HD] Hn Hk Hs Ha.
  unfold read_parameters. rewrite HP. simpl.
  destruct (P <? 1); [reflexivity|].
  rewrite HD. simpl.
  destruct (D =? 0); [reflexivity|].
  erewrite read_terms_reject; eauto.
Qed.

Lemma read_parameters_no_terms progname s0 sp sd :
  numeric sp -> numeric sd ->
  read_parameters progname [s0; sp; sd] = Exit 1 "" (usage_text progname).
Proof.
  intros [P HP] [D HD].
  unfold read_parameters. rewrite HP. simpl.
  destruct (P <? 1); [reflexivity|].
  rewrite HD. simpl.
  destruct (D =? 0); reflexivity.
Qed.

Lemma read_terms_wf progname strs : forall ms az sq ms' az' sq',
  read_terms progname strs ms az sq = Ret (ms', az', sq') ->
  length ms = length az -> sq = squares az ->
  Forall (fun m => 0 <= m <= limb_max) ms -> Forall (fun a => 0 <= a <= arg_max) az ->
  length ms' = length az' /\ sq' = squares az' /\
  Forall (fun m => 0 <= m <= limb_max) ms' /\ Forall (fun a => 0 <= a <= arg_max) az'.
Proof.
  induction strs as [|x|x y l IH] using pair_ind; intros ms az sq ms' az' sq' H Hl Hsq Hm Ha.
  - simpl in H. injection H as <- <- <-. auto.
  - simpl in H. destruct (stoul x) as [n| | | |]; simpl in H; try discriminate.
    destruct (n >? limb_max); discriminate.
  - simpl in H.
    destruct (stoul x) as [n| | | |] eqn:Hx; simpl in H; try discriminate.
    destruct (n >? limb_max) eqn:E1; [discriminate|].
    destruct (stoul y) as [a| | | |] eqn:Hy; simpl in H; try discriminate.
    destruct (a >? arg_max) eqn:E2; [discriminate|].
    pose proof (stoul_range _ _ Hx) as Rn. pose proof (stoul_range _ _ Hy) as Ra.
    assert (n <= 2 ^ 32 - 1) by (rewrite <- limb_max_eq; lia).
    assert (a <= 2 ^ 16 - 1) by (rewrite <- arg_max_eq; lia).
    rewrite (to_limb_small n) in H by (unfold is_limb; lia).
    rewrite (to_limb_small a) in H by (unfold is_limb; lia).
    rewrite (to_ulong_small (a * a)) in H by nia.
    rewrite (to_limb_small (a * a)) in H by (unfold is_limb; nia).
    eapply IH in H; eauto.
    + rewrite !length_app. simpl. lia.
    + subst sq. unfold squares. rewrite map_app. reflexivity.
    + apply Forall_app. split; [assumption|]. constructor; [|constructor]. lia.
    + apply Forall_app. split; [assumption|]. constructor; [|constructor]. lia.
Qed.

Lemma read_parameters_wf progname argv p :
  read_parameters progname argv = Ret p -> wf_params p.
Proof.
  unfold read_parameters.
  destruct argv as [|s0 [|sp rest]]; try discriminate.
  destruct (stoul sp) as [P| | | |] eqn:HP; simpl; try discriminate.
  destruct (P <? 1) eqn:E1; [discriminate|].
  destruct rest as [|sd rest]; [discriminate|].
  destruct (stoul sd) as [D| | | |] eqn:HD; simpl; try discriminate.
  destruct (D =? 0) eqn:E2; [discriminate|].
  destruct (read_terms progname rest [] [] []) as [[[ms az] sq]| | | |] eqn:Ht;
    simpl; try discriminate.
  destruct (length az =? 0)%nat eqn:E3; [discriminate|].
  intros [= <-].
  apply read_terms_wf in Ht as (H1 & H2 & H3 & H4); auto.
  pose proof (stoul_range _ _ HP). pose proof (stoul_range _ _ HD).
  apply Nat.eqb_neq in E3.
  constructor; simpl; auto; lia.
Qed.

(** ** Seeding *)

Lemma scaled_mod p a m : scaled p a m = (m * a * pi_d p) mod 2 ^ 64.
Proof.
  unfold scaled. rewrite !to_limb2_mod. rewrite Z.mul_mod_idemp_l by lia.
  f_equal. ring.
Qed.

Lemma split_limb2 n :
  0 <= n < 2 ^ 64 ->
  to_limb (Z.shiftr n limb_bits) * 2 ^ 32 + to_limb n = n /\
  is_limb (to_limb (Z.shiftr n limb_bits)).
Proof.
  intros Hn. unfold limb_bits. rewrite Z.shiftr_div_pow2 by lia.
  rewrite !to_limb_mod.
  assert (0 <= n / 2 ^ 32 < 2 ^ 32).
  { split; [apply Z.div_pos; lia|]. apply Z.div_lt_upper_bound; lia. }
  rewrite (Z.mod_small (n / 2 ^ 32)) by lia.
  split; [|exact H].
  pose proof (Z.div_mod n (2 ^ 32)). lia.
Qed.

Lemma seed_quotents_spec p : forall todo i q,
  length (multipliers p) = length (args p) ->
  length q = (block_width * length (args p))%nat ->
  (i + todo = length (args p))%nat ->
  exists q',
    seed_quotents p todo i q = Ret q' /\
    length q' = length q /\
    (forall j a m, (i <= j < i + todo)%nat ->
       args p !! j = Some a -> multipliers p !! j = Some m ->
       q' !! ((block_width - 1) * length (args p) + j)%nat = Some (to_limb (scaled p a m)) /\
       q' !! ((block_width - 2) * length (args p) + j)%nat
         = Some (to_limb (Z.shiftr (scaled p a m) limb_bits))) /\
    (forall k,
       ~ ((block_width - 1) * length (args p) + i <= k
           < (block_width - 1) * length (args p) + i + todo)%nat ->
       ~ ((block_width - 2) * length (args p) + i <= k
           < (block_width - 2) * length (args p) + i + todo)%nat ->
       q' !! k = q !! k).
Proof.
  unfold block_width.
  induction todo as [|todo IH]; intros i q Hlen Hq Hi.
  - exists q. simpl. repeat split; auto; intros; lia.
  - destruct (lookup_lt_is_Some_2 (args p) i ltac:(lia)) as [a Ha].
    destruct (lookup_lt_is_Some_2 (multipliers p) i ltac:(lia)) as [m Hm].
    simpl. rewrite (get_Ret _ _ _ Ha), (get_Ret _ _ _ Hm). simpl.
    fold (scaled p a m).
    rewrite set_Ret by lia. simpl.
    rewrite set_Ret by (rewrite length_insert; lia). simpl.
    destruct (IH (S i) (<[(62 * length (args p) + i)%nat :=
                            to_limb (Z.shiftr (scaled p a m) limb_bits)]>
                        (<[(63 * length (args p) + i)%nat := to_limb (scaled p a m)]> q)))
      as (q' & Hrun & Hl & Hterms & Hrest); auto.
    { rewrite !length_insert. exact Hq. }
    { lia. }
    exists q'. split; [exact Hrun|]. split; [rewrite Hl, !length_insert; reflexivity|].
    split.
    + intros j a' m' Hj Ha' Hm'.
      destruct (decide (j = i)) as [->|Hne].
      * rewrite Ha in Ha'. rewrite Hm in Hm'. injection Ha' as <-. injection Hm' as <-.
        rewrite !Hrest by lia.
        split.
        -- rewrite list_lookup_insert_ne by lia.
           apply list_lookup_insert_eq. lia.
        -- apply list_lookup_insert_eq. rewrite length_insert. lia.
      * apply Hterms; auto. lia.
    + intros k H1 H2. rewrite Hrest by lia.
      rewrite !list_lookup_insert_ne by lia. reflexivity.
Qed.

Lemma initialize_variables_spec p :
  wf_params p ->
  exists st,
    initialize_variables p = Ret st /\
    accumulator st
      = replicate (Z.to_nat (to_ulong (fractional_size p + Z.of_nat block_width))) 0 /\
    remainder_column st = [] /\ block_digit_offset st = 0 /\
    length (quotents st) = (block_width * length (args p))%nat /\
    (forall i a m, args p !! i = Some a -> multipliers p !! i = Some m ->
       quotents st !! ((block_width - 1) * length (args p) + i)%nat
         = Some (to_limb (scaled p a m)) /\
       quotents st !! ((block_width - 2) * length (args p) + i)%nat
         = Some (to_limb (Z.shiftr (scaled p a m) limb_bits))) /\
    (forall k, (k < (block_width - 2) * length (args p))%nat -> quotents st !! k = Some 0).
Proof.
  intros W.
  destruct (seed_quotents_spec p (length (args p)) 0
              (replicate (block_width * length (args p)) 0))
    as (q & Hrun & Hl & Hterms & Hrest).
  { apply W. } { apply length_replicate. } { lia. }
  unfold initialize_variables. rewrite Hrun. cbn [bind].
  eexists. split; [reflexivity|].
  cbn [accumulator quotents remainder_column block_digit_offset].
  rewrite length_replicate in Hl.
  repeat split; auto.
  - eapply Hterms; eauto. apply lookup_lt_Some in H. lia.
  - eapply Hterms; eauto. apply lookup_lt_Some in H. lia.
  - intros k Hk. rewrite Hrest by (unfold block_width in *; lia).
    apply lookup_replicate_2. unfold block_width in *. lia.
Qed.

Lemma scaled_limbs p a m :
  exists hi lo,
    hi = to_limb (Z.shiftr (scaled p a m) limb_bits) /\ lo = to_limb (scaled p a m) /\
    is_limb hi /\ is_limb lo /\ hi * 2 ^ 32 + lo = (m * a * pi_d p) mod 2 ^ 64.
Proof.
  assert (R : 0 <= scaled p a m < 2 ^ 64).
  { rewrite scaled_mod. apply Z.mod_pos_bound. lia. }
  destruct (split_limb2 _ R) as [E L].
  do 2 eexists. split; [reflexivity|]. split; [reflexivity|].
  split; [exact L|]. split; [apply to_limb_is_limb|].
  rewrite E. apply scaled_mod.
Qed.

(** C2. After [initialize_variables] has run on parameters that
    [read_parameters] accepted, for every term [i] whose scaled numerator
    [m * a * d] fits in two limbs the two-limb value
    [Q[W-2][i] * 2^32 + Q[W-1][i]] equals [m * a * d], and every entry of the
    quotient vector outside rows [W-2] and [W-1] is zero. *)
Theorem seeded_quotients_hold_scaled_numerators progname argv p :
  read_parameters progname argv = Ret p ->
  exists st,
    initialize_variables p = Ret st /\
    length (quotents st) = (block_width * length (args p))%nat /\
    (forall i m a,
       multipliers p !! i = Some m -> args p !! i = Some a ->
       m * a * pi_d p < 2 ^ 64 ->
       exists hi lo,
         quotents st !! ((block_width - 2) * length (args p) + i)%nat = Some hi /\
         quotents st !! ((block_width - 1) * length (args p) + i)%nat = Some lo /\
         is_limb hi /\ is_limb lo /\
         hi * 2 ^ 32 + lo = m * a * pi_d p) /\
    (forall k, (k < (block_width - 2) * length (args p))%nat -> quotents st !! k = Some 0).
Proof.
  intros Hread. pose proof (read_parameters_wf _ _ _ Hread) as W.
  destruct (initialize_variables_spec p W) as (st & Hinit & _ & _ & _ & Hlen & Hterms & Hzero).
  exists st. split; [exact Hinit|]. split; [exact Hlen|]. split; [|exact Hzero].
  intros i m a Hm Ha Hfit.
  destruct (Hterms i a m Ha Hm) as [Hlo Hhi].
  destruct (scaled_limbs p a m) as (hi & lo & -> & -> & Lhi & Llo & E).
  exists (to_limb (Z.shiftr (scaled p a m) limb_bits)), (to_limb (scaled p a m)).
  repeat split; try assumption; try apply Lhi; try apply Llo.
  rewrite E. apply Z.mod_small.
  pose proof (wf_pi_d p W).
  pose proof (proj1 (Forall_lookup _ _) (wf_multipliers p W) i m Hm) as Rm.
  pose proof (proj1 (Forall_lookup _ _) (wf_args p W) i a Ha) as Ra.
  simpl in Rm, Ra. split; [|exact Hfit].
  apply Z.mul_nonneg_nonneg; [apply Z.mul_nonneg_nonneg|]; lia.
Qed.

(** The seeding at the default arguments [17 4 5 7 4 68 2 117]. *)
Lemma seeded_quotients_default_witness :
  exists st,
    initialize_variables default_params = Ret st /\
    length (quotents st) = (block_width * length (args default_params))%nat /\
    (forall i m a,
       multipliers default_params !! i = Some m -> args default_params !! i = Some a ->
       m * a * pi_d default_params < 2 ^ 64 ->
       exists hi lo,
         quotents st !! ((block_width - 2) * length (args default_params) + i)%nat = Some hi /\
         quotents st !! ((block_width - 1) * length (args default_params) + i)%nat = Some lo /\
         is_limb hi /\ is_limb lo /\
         hi * 2 ^ 32 + lo = m * a * pi_d default_params) /\
    (forall k, (k < (block_width - 2) * length (args default_params))%nat ->
       quotents st !! k = Some 0).
Proof.
  apply (seeded_quotients_hold_scaled_numerators ""%string default_args default_params).
  vm_compute. reflexivity.
Defined.

(** C8, as amended.  No overflow of a scaled numerator is detected: every
    command line that passes the checks of [read_parameters] (a precision of
    at least one, a non-zero [d], at least one term, multipliers up to
    [limb_max], arguments up to [arg_max]) is accepted whatever the size of
    [m * a * d], and [initialize_variables] seeds term [i] with
    [m * a * d] reduced modulo [2^64]. *)
Theorem seeding_reduces_scaled_numerators progname s0 strs P D terms :
  parses strs (P :: D :: flatten terms) ->
  1 <= P -> D <> 0 -> terms <> [] ->
  Forall (fun t => fst t <= limb_max /\ snd t <= arg_max) terms ->
  exists p st,
    read_parameters progname (s0 :: strs) = Ret p /\
    initialize_variables p = Ret st /\
    forall i m a, terms !! i = Some (m, a) ->
      exists hi lo,
        quotents st !! ((block_width - 2) * length terms + i)%nat = Some hi /\
        quotents st !! ((block_width - 1) * length terms + i)%nat = Some lo /\
        is_limb hi /\ is_limb lo /\
        hi * 2 ^ 32 + lo = (m * a * D) mod 2 ^ 64.
Proof.
  intros Hp HP HD Hne Hok.
  pose proof (read_parameters_accept progname s0 strs P D terms Hp HP HD Hne Hok) as Hread.
  pose proof (read_parameters_wf _ _ _ Hread) as W.
  destruct (initialize_variables_spec _ W) as (st & Hinit & _ & _ & _ & Hlen & Hterms & _).
  eexists. exists st. split; [exact Hread|]. split; [exact Hinit|].
  intros i m a Hi.
  cbn [args multipliers] in Hterms. rewrite length_map in Hterms.
  destruct (Hterms i a m) as [Hlo Hhi].
  { rewrite list_lookup_fmap, Hi. reflexivity. }
  { rewrite list_lookup_fmap, Hi. reflexivity. }
  destruct (scaled_limbs {| precision := P; pi_d := D; multipliers := map fst terms;
                           args := map snd terms; arg_sq := squares (map snd terms) |} a m)
    as (hi & lo & -> & -> & Lhi & Llo & E).
  do 2 eexists. split; [exact Hhi|]. split; [exact Hlo|].
  split; [exact Lhi|]. split; [exact Llo|]. exact E.
Qed.

(** The seeding for [d = 2^63] and the term [(1, 2)], whose scaled numerator
    is [2^64]. *)
Lemma seeding_reduces_witness :
  exists p st,
    read_parameters "pi" ["pi"; "1"; "9223372036854775808"; "1"; "2"]%string = Ret p /\
    initialize_variables p = Ret st /\
    forall i m a, [(1, 2)] !! i = Some (m, a) ->
      exists hi lo,
        quotents st !! ((block_width - 2) * length [(1, 2)] + i)%nat = Some hi /\
        quotents st !! ((block_width - 1) * length [(1, 2)] + i)%nat = Some lo /\
        is_limb hi /\ is_limb lo /\
        hi * 2 ^ 32 + lo = (m * a * 9223372036854775808) mod 2 ^ 64.
Proof.
  apply (seeding_reduces_scaled_numerators "pi" "pi"
           ["1"; "9223372036854775808"; "1"; "2"]%string 1 9223372036854775808 [(1, 2)]).
  - repeat constructor.
  - lia.
  - lia.
  - discriminate.
  - repeat constructor; vm_compute; discriminate.
Defined.

(** The claim C8 as stated fails: for [d = 2^63] and the term [(1, 2)] the
    scaled numerator is [2^64], and the run is not rejected: it returns from
    [main] after printing 0. *)
Lemma overflow_is_not_rejected :
  2 ^ 64 <= 1 * 2 * 9223372036854775808 /\
  main 300 ["pi"; "1"; "9223372036854775808"; "1"; "2"]%string = Ret ("0" ++ String "010" "")%string.
Proof. split; [lia|]. vm_compute. reflexivity. Qed.

(** ** The accumulator *)

Lemma fold_limbs (l : list Z) : forall v,
  fold_left (fun v x => v * 2 ^ 32 + x) l v
  = v * 2 ^ (32 * Z.of_nat (length l)) + limbs_value l.
Proof.
  unfold limbs_value.
  induction l as [|x l IH]; intros v.
  - simpl. lia.
  - cbn [fold_left length]. rewrite IH. rewrite (IH (0 * 2 ^ 32 + x)).
    replace (32 * Z.of_nat (S (length l))) with (32 + 32 * Z.of_nat (length l)) by lia.
    rewrite Z.pow_add_r by lia. ring.
Qed.

Lemma limbs_value_app l1 l2 :
  limbs_value (l1 ++ l2)
  = limbs_value l1 * 2 ^ (32 * Z.of_nat (length l2)) + limbs_value l2.
Proof. unfold limbs_value at 1. rewrite fold_left_app. apply fold_limbs. Qed.

Lemma limbs_value_snoc l x : limbs_value (l ++ [x]) = limbs_value l * 2 ^ 32 + x.
Proof. rewrite limbs_value_app. reflexivity. Qed.

Lemma limbs_value_bound l :
  Forall is_limb l -> 0 <= limbs_value l < 2 ^ (32 * Z.of_nat (length l)).
Proof.
  induction l as [|x l IH] using rev_ind; intros H.
  - simpl. unfold limbs_value. simpl. lia.
  - apply Forall_app in H as [H1 H2]. inversion H2; subst.
    specialize (IH H1). rewrite limbs_value_snoc, length_app. simpl.
    replace (32 * Z.of_nat (length l + 1)) with (32 * Z.of_nat (length l) + 32) by lia.
    rewrite Z.pow_add_r by lia. unfold is_limb in *. nia.
Qed.

Lemma lookup_snoc_app (pre post : list Z) a :
  (pre ++ [a] ++ post) !! length pre = Some a.
Proof. apply list_lookup_middle. reflexivity. Qed.

Lemma insert_snoc_app (pre post : list Z) a b :
  <[length pre := b]> (pre ++ [a] ++ post) = pre ++ [b] ++ post.
Proof.
  rewrite insert_app_r_alt by lia. rewrite Nat.sub_diag. reflexivity.
Qed.

Lemma carry_loop_spec pre : forall post d offset fuel,
  Forall is_limb pre ->
  0 <= d < 2 ^ 63 ->
  limbs_value pre + d < 2 ^ (32 * Z.of_nat (length pre)) ->
  (d <> 0 -> offset = Z.of_nat (length pre) - 1) ->
  Z.of_nat (length pre) <= 2 ^ 32 ->
  (length pre < fuel)%nat ->
  exists pre',
    carry_loop fuel (pre ++ post) d offset = Ret (pre' ++ post) /\
    length pre' = length pre /\ Forall is_limb pre' /\
    limbs_value pre' = limbs_value pre + d.
Proof.
  induction pre as [|a pre IH] using rev_ind; intros post d offset fuel Hl Hd Hv Ho Hlen Hf.
  - assert (d = 0) by (unfold limbs_value in Hv; simpl in Hv; lia). subst d.
    destruct fuel; [simpl in Hf; lia|]. simpl.
    exists []. repeat split; auto.
  - destruct fuel as [|fuel]; [lia|].
    apply Forall_app in Hl as [Hl1 Hl2]. inversion Hl2 as [|? ? La _]; subst.
    rewrite length_app in *. cbn [length] in *.
    rewrite limbs_value_snoc in *.
    cbn [carry_loop]. destruct (d =? 0) eqn:E.
    + exists (pre ++ [a]). apply Z.eqb_eq in E. subst d.
      rewrite length_app, limbs_value_snoc. cbn [length].
      repeat split; auto; [apply Forall_app; split; auto | lia].
    + apply Z.eqb_neq in E. rewrite (Ho E).
      replace (Z.to_nat (Z.of_nat (length pre + 1) - 1)) with (length pre) by lia.
      rewrite <- app_assoc.
      rewrite (get_Ret _ _ _ (lookup_snoc_app pre post a)). cbn [bind].
      rewrite set_Ret by (rewrite !length_app; simpl; lia). cbn [bind].
      rewrite insert_snoc_app.
      unfold is_limb in La.
      rewrite (to_limb2_small (d + a)) by lia.
      unfold limb_bits. rewrite Z.shiftr_div_pow2 by lia. rewrite to_limb_mod.
      pose proof (Z.div_mod (d + a) (2 ^ 32) ltac:(lia)) as DM.
      pose proof (Z.mod_pos_bound (d + a) (2 ^ 32) ltac:(lia)) as MB.
      assert (0 <= (d + a) / 2 ^ 32) by (apply Z.div_pos; lia).
      assert ((d + a) / 2 ^ 32 < 2 ^ 63) by (apply Z.div_lt_upper_bound; lia).
      replace (32 * Z.of_nat (length pre + 1)) with (32 * Z.of_nat (length pre) + 32) in Hv by lia.
      rewrite Z.pow_add_r in Hv by lia.
      pose proof (limbs_value_bound pre Hl1) as VB.
      assert (Hv1 : limbs_value pre + (d + a) / 2 ^ 32 < 2 ^ (32 * Z.of_nat (length pre))).
      { remember (2 ^ (32 * Z.of_nat (length pre))) as X. nia. }
      assert (Ho1 : (d + a) / 2 ^ 32 <> 0 ->
                    to_unsigned (Z.of_nat (length pre + 1) - 1 - 1) = Z.of_nat (length pre) - 1).
      { intros Hne.
        assert (length pre <> 0%nat).
        { intros Hz. rewrite Hz in Hv1. simpl in Hv1. destruct pre; [|discriminate].
          unfold limbs_value in Hv1. simpl in Hv1. lia. }
        rewrite to_unsigned_small; lia. }
      destruct (IH ([(d + a) mod 2 ^ 32] ++ post) ((d + a) / 2 ^ 32)
                  (to_unsigned (Z.of_nat (length pre + 1) - 1 - 1)) fuel
                  Hl1 ltac:(lia) Hv1 Ho1 ltac:(lia) ltac:(lia))
        as (pre' & Hrun & Hlen' & Hl' & Hv').
      cut True; [intros _|exact I].
      * exists (pre' ++ [(d + a) mod 2 ^ 32]).
        rewrite <- app_assoc. split; [exact Hrun|].
        rewrite !length_app, limbs_value_snoc. cbn [length].
        repeat split; [lia| |nia].
        apply Forall_app. split; [exact Hl'|]. constructor; [|constructor].
        unfold is_limb. lia.
Qed.

Lemma limbs_value_pos_nonempty (l : list Z) : 0 < limbs_value l -> l <> [].
Proof. intros H ->. unfold limbs_value in H. simpl in H. lia. Qed.

Lemma borrow_spec pre : forall post d offset fuel,
  Forall is_limb pre ->
  pre <> [] ->
  0 <= d < 2 ^ 64 ->
  d <= limbs_value pre ->
  offset = Z.of_nat (length pre) - 1 ->
  Z.of_nat (length pre) <= 2 ^ 32 ->
  (length pre <= fuel)%nat ->
  exists pre',
    bind (borrow_loop fuel (pre ++ post) d offset) borrow_finish = Ret (pre' ++ post) /\
    length pre' = length pre /\ Forall is_limb pre' /\
    limbs_value pre' = limbs_value pre - d.
Proof.
  induction pre as [|a pre IH] using rev_ind;
    intros post d offset fuel Hl Hne Hd Hv Ho Hlen Hf; [congruence|].
  apply Forall_app in Hl as [Hl1 Hl2]. inversion Hl2 as [|? ? La _]; subst.
  rewrite length_app in *. cbn [length] in *.
  rewrite limbs_value_snoc in *.
  destruct fuel as [|fuel]; [lia|].
  replace (Z.to_nat (Z.of_nat (length pre + 1) - 1)) with (length pre) by lia.
  pose proof (limbs_value_bound pre Hl1) as VB.
  unfold is_limb in La.
  pose proof (Z.div_mod d (2 ^ 32) ltac:(lia)) as DM.
  pose proof (Z.mod_pos_bound d (2 ^ 32) ltac:(lia)) as MB.
  assert (D1 : 0 <= d / 2 ^ 32 < 2 ^ 32).
  { split; [apply Z.div_pos; lia|apply Z.div_lt_upper_bound; lia]. }
  cbn [borrow_loop].
  replace (Z.to_nat (Z.of_nat (length pre + 1) - 1)) with (length pre) by lia.
  rewrite <- app_assoc.
  rewrite (get_Ret _ _ _ (lookup_snoc_app pre post a)). cbn [bind].
  unfold limb_bits. rewrite !Z.shiftr_div_pow2 by lia. rewrite (to_limb_mod d).
  assert (Hoff : to_unsigned (Z.of_nat (length pre + 1) - 1 - 1) = Z.of_nat (length pre) - 1
                 \/ pre = []).
  { destruct pre; [right; reflexivity|left]. simpl length in *.
    rewrite to_unsigned_small; lia. }
  destruct (d >? a) eqn:E1.
  - destruct (d mod 2 ^ 32 >? a) eqn:E2.
    + rewrite Z.shiftl_1_l.
      rewrite (to_limb2_small (2 ^ 32 + a - d mod 2 ^ 32)) by lia.
      rewrite (to_limb_small (2 ^ 32 + a - d mod 2 ^ 32)) by (unfold is_limb; lia).
      rewrite set_Ret by (rewrite !length_app; simpl; lia). cbn [bind].
      rewrite insert_snoc_app.
      rewrite (Z.div_small (2 ^ 32 + a - d mod 2 ^ 32)) by lia.
      cbn [Z.eqb].
      rewrite (to_limb2_small (d / 2 ^ 32 + 1)) by lia.
      assert (Hv1 : d / 2 ^ 32 + 1 <= limbs_value pre) by lia.
      assert (Hne1 : pre <> []) by (apply limbs_value_pos_nonempty; lia).
      destruct Hoff as [Hoff|]; [|congruence].
      destruct (IH ([2 ^ 32 + a - d mod 2 ^ 32] ++ post) (d / 2 ^ 32 + 1)
                  (to_unsigned (Z.of_nat (length pre + 1) - 1 - 1)) fuel
                  Hl1 Hne1 ltac:(lia) Hv1 Hoff ltac:(lia) ltac:(lia))
        as (pre' & Hrun & Hlen' & Hl' & Hv').
      exists (pre' ++ [2 ^ 32 + a - d mod 2 ^ 32]).
      rewrite <- app_assoc. split; [exact Hrun|].
      rewrite !length_app, limbs_value_snoc. cbn [length].
      repeat split; [lia| |lia].
      apply Forall_app. split; [exact Hl'|]. constructor; [|constructor].
      unfold is_limb. lia.
    + rewrite (to_limb_small (a - d mod 2 ^ 32)) by (unfold is_limb; lia).
      rewrite set_Ret by (rewrite !length_app; simpl; lia). cbn [bind].
      rewrite insert_snoc_app.
      assert (Hv1 : d / 2 ^ 32 <= limbs_value pre) by lia.
      assert (Hne1 : pre <> []) by (apply limbs_value_pos_nonempty; lia).
      destruct Hoff as [Hoff|]; [|congruence].
      destruct (IH ([a - d mod 2 ^ 32] ++ post) (d / 2 ^ 32)
                  (to_unsigned (Z.of_nat (length pre + 1) - 1 - 1)) fuel
                  Hl1 Hne1 ltac:(lia) Hv1 Hoff ltac:(lia) ltac:(lia))
        as (pre' & Hrun & Hlen' & Hl' & Hv').
      exists (pre' ++ [a - d mod 2 ^ 32]).
      rewrite <- app_assoc. split; [exact Hrun|].
      rewrite !length_app, limbs_value_snoc. cbn [length].
      repeat split; [lia| |lia].
      apply Forall_app. split; [exact Hl'|]. constructor; [|constructor].
      unfold is_limb. lia.
  - cbn [bind borrow_finish].
    replace (Z.to_nat (Z.of_nat (length pre + 1) - 1)) with (length pre) by lia.
    rewrite (get_Ret _ _ _ (lookup_snoc_app pre post a)). cbn [bind].
    rewrite (to_limb_small (a - d)) by (unfold is_limb; lia).
    rewrite set_Ret by (rewrite !length_app; simpl; lia).
    rewrite insert_snoc_app.
    exists (pre ++ [a - d]). rewrite <- app_assoc. split; [reflexivity|].
    rewrite !length_app, limbs_value_snoc. cbn [length].
    repeat split; [|lia].
    apply Forall_app. split; [exact Hl1|]. constructor; [|constructor].
    unfold is_limb. lia.
Qed.

(** C3. For every accumulator of limbs, signed double-limb [delta] and offset
    [o] inside the accumulator, [accumulate] returns (no access out of bounds,
    no failed assertion) and changes the value of the accumulator, read as a
    base-[2^32] integer, by exactly [delta * 2^(32 * (L - 1 - o))], provided
    that limbs [0..o] hold at least [|delta|] when [delta < 0] and that the
    carry stays within limbs [0..o] when [delta >= 0]. *)
Theorem accumulate_adds_delta (acc : list Z) (delta o : Z) (fuel : nat) :
  Forall is_limb acc ->
  - 2 ^ 63 <= delta < 2 ^ 63 ->
  0 <= o < Z.of_nat (length acc) ->
  o < 2 ^ 32 ->
  (delta < 0 -> - delta <= limbs_value (take (Z.to_nat o + 1) acc)) ->
  (0 <= delta -> limbs_value (take (Z.to_nat o + 1) acc) + delta < 2 ^ (32 * (o + 1))) ->
  (Z.to_nat o + 1 < fuel)%nat ->
  exists acc',
    accumulate fuel acc delta o = Ret acc' /\
    length acc' = length acc /\
    Forall is_limb acc' /\
    limbs_value acc'
    = limbs_value acc + delta * 2 ^ (32 * (Z.of_nat (length acc) - 1 - o)).
Proof.
  intros Hl Hd Ho Ho32 Hneg Hpos Hf.
  pose proof (take_drop (Z.to_nat o + 1) acc) as Hsplit.
  set (pre := take (Z.to_nat o + 1) acc) in *.
  set (post := drop (Z.to_nat o + 1) acc) in *.
  assert (Hpre : length pre = (Z.to_nat o + 1)%nat).
  { unfold pre. rewrite length_take. lia. }
  assert (Hpost : Z.of_nat (length post) = Z.of_nat (length acc) - 1 - o).
  { unfold post. rewrite length_drop. lia. }
  assert (Hlpre : Forall is_limb pre) by (apply Forall_take; exact Hl).
  assert (Hlpost : Forall is_limb post) by (apply Forall_drop; exact Hl).
  clearbody pre post. subst acc. clear Hl.
  replace (32 * (Z.of_nat (length (pre ++ post)) - 1 - o))
    with (32 * Z.of_nat (length post)) by lia.
  rewrite length_app in Ho. clear Hpost.
  unfold accumulate. destruct (delta <? 0) eqn:E.
  - apply Z.ltb_lt in E.
    rewrite (to_limb2_small (- delta)) by lia.
    destruct (borrow_spec pre post (- delta) o fuel) as (pre' & Hrun & Hlen' & Hl' & Hv');
      try lia; auto.
    { intros Hnil. rewrite Hnil in Hpre. simpl in Hpre. lia. }
    exists (pre' ++ post). split; [exact Hrun|].
    rewrite !length_app, !limbs_value_app, Hv', Hlen'.
    repeat split; [apply Forall_app; auto|]. ring.
  - apply Z.ltb_ge in E.
    destruct (carry_loop_spec pre post delta o fuel) as (pre' & Hrun & Hlen' & Hl' & Hv');
      try lia; auto.
    { rewrite Hpre. replace (Z.of_nat (Z.to_nat o + 1)) with (o + 1) by lia. auto. }
    exists (pre' ++ post). split; [exact Hrun|].
    rewrite !length_app, !limbs_value_app, Hv', Hlen'.
    repeat split; [apply Forall_app; auto|]. ring.
Qed.

(** Subtracting [2^32 + 2] at offset 1 of the limbs [2; 1; 7]: limb 1
    borrows from limb 0. *)
Lemma accumulate_borrow_witness :
  exists acc',
    accumulate 5 [2; 1; 7] (- 4294967298) 1 = Ret acc' /\
    length acc' = length [2; 1; 7] /\
    Forall is_limb acc' /\
    limbs_value acc'
    = limbs_value [2; 1; 7] + - 4294967298 * 2 ^ (32 * (Z.of_nat (length [2; 1; 7]) - 1 - 1)).
Proof.
  apply (accumulate_adds_delta [2; 1; 7] (- 4294967298) 1 5).
  - repeat constructor; vm_compute; congruence.
  - lia.
  - simpl. lia.
  - lia.
  - intros _. vm_compute. congruence.
  - intros H. lia.
  - simpl. lia.
Defined.

(** ** A zero argument *)







(** ** Exit codes *)

Lemma quiet_bind {A B} (m : result A) (k : A -> result B) :
  quiet m -> (forall a, quiet (k a)) -> quiet (bind m k).
Proof. destruct m; simpl; auto. Qed.

Lemma quiet_get v i : quiet (get v i).
Proof. unfold get. destruct (v !! i); exact I. Qed.

Lemma quiet_set v i x : quiet (set v i x).
Proof. unfold set. destruct (v !! i); exact I. Qed.

Create HintDb quiet.
#[local] Hint Resolve quiet_get quiet_set : quiet.

Ltac quiet_step :=
  match goal with
  | |- quiet (Ret _) => exact I
  | |- quiet (Undefined _) => exact I
  | |- quiet OutOfFuel => exact I
  | |- quiet (bind _ _) => apply quiet_bind; [|intros ?]
  | |- quiet (if ?b then _ else _) => destruct b
  | |- quiet (match ?x with _ => _ end) => destruct x
  | |- _ => solve [auto with quiet]
  end.

Ltac quiet_tac := repeat quiet_step.

Lemma quiet_seed_quotents p : forall todo i q, quiet (seed_quotents p todo i q).
Proof. induction todo; intros; cbn [seed_quotents]; quiet_tac. Qed.

Lemma quiet_initialize_variables p : quiet (initialize_variables p).
Proof.
  unfold initialize_variables. apply quiet_bind; [apply quiet_seed_quotents|].
  intros. exact I.
Qed.

Lemma quiet_term_non_zero q n : forall todo pos, quiet (term_non_zero q n todo pos).
Proof. induction todo; intros; cbn [term_non_zero]; quiet_tac. Qed.
#[local] Hint Resolve quiet_term_non_zero : quiet.

Lemma quiet_count_from q n : forall todo argi, quiet (count_from q n todo argi).
Proof. induction todo; intros; cbn [count_from]; quiet_tac. Qed.

Lemma quiet_count_non_zero_quotents p q : quiet (count_non_zero_quotents p q).
Proof. apply quiet_count_from. Qed.
#[local] Hint Resolve quiet_count_non_zero_quotents : quiet.

Lemma quiet_borrow_loop : forall fuel acc d offset, quiet (borrow_loop fuel acc d offset).
Proof. induction fuel; intros; cbn [borrow_loop]; quiet_tac. Qed.

Lemma quiet_carry_loop : forall fuel acc d offset, quiet (carry_loop fuel acc d offset).
Proof. induction fuel; intros; cbn [carry_loop]; quiet_tac. Qed.

Lemma quiet_accumulate fuel acc delta offset : quiet (accumulate fuel acc delta offset).
Proof.
  unfold accumulate. destruct (delta <? 0); [|apply quiet_carry_loop].
  apply quiet_bind; [apply quiet_borrow_loop|].
  intros [[a d] o]. unfold borrow_finish. quiet_tac.
Qed.
#[local] Hint Resolve quiet_accumulate : quiet.

Lemma quiet_term_loop sq qpos : forall todo i q rem rpos sum,
  quiet (term_loop sq todo i qpos q rem rpos sum).
Proof. induction todo; intros; cbn [term_loop]; quiet_tac. Qed.
#[local] Hint Resolve quiet_term_loop : quiet.

Lemma quiet_row_loop sq count qpos : forall fuel q rem rpos divisor addition delta,
  quiet (row_loop fuel sq count qpos q rem rpos divisor addition delta).
Proof. induction fuel; intros; cbn [row_loop]; quiet_tac. Qed.
#[local] Hint Resolve quiet_row_loop : quiet.

Lemma quiet_slot_loop p count divisor_offset : forall fuel qpos digit_offset q acc rem,
  quiet (slot_loop fuel p count divisor_offset qpos digit_offset q acc rem).
Proof. induction fuel; intros; cbn [slot_loop]; quiet_tac. Qed.

Lemma quiet_process_block fuel p st block : quiet (process_block fuel p st block).
Proof.
  unfold process_block. apply quiet_bind; [apply quiet_slot_loop|].
  intros [[q acc] rem]. exact I.
Qed.
#[local] Hint Resolve quiet_process_block : quiet.

Lemma quiet_column_body fuel p st next_arg_count column_index :
  quiet (column_body fuel p st next_arg_count column_index).
Proof. unfold column_body. quiet_tac. Qed.
#[local] Hint Resolve quiet_column_body : quiet.

Lemma quiet_column_loop p : forall fuel st next_arg_count column_index,
  quiet (column_loop fuel p st next_arg_count column_index).
Proof. induction fuel; intros; cbn [column_loop]; quiet_tac. Qed.
#[local] Hint Resolve quiet_column_loop : quiet.

Lemma quiet_main_loop p : forall fuel st, quiet (main_loop fuel p st).
Proof. induction fuel; intros; cbn [main_loop]; quiet_tac. Qed.

Lemma quiet_skip_zero_up acc : forall todo f, quiet (skip_zero_up acc todo f).
Proof. induction todo; intros; cbn [skip_zero_up]; quiet_tac. Qed.
#[local] Hint Resolve quiet_skip_zero_up : quiet.

Lemma quiet_div10_loop : forall todo acc i n, quiet (div10_loop acc todo i n).
Proof. induction todo; intros; cbn [div10_loop]; quiet_tac. Qed.
#[local] Hint Resolve quiet_div10_loop : quiet.

Lemma quiet_integer_digits : forall fuel acc f res, quiet (integer_digits fuel acc f res).
Proof. induction fuel; intros; cbn [integer_digits]; quiet_tac. Qed.

Lemma quiet_print_integer_part fuel acc : quiet (print_integer_part fuel acc).
Proof.
  unfold print_integer_part. apply quiet_bind; [apply quiet_skip_zero_up|]. intros f.
  apply quiet_bind; [apply quiet_integer_digits|]. intros [acc1 res]. quiet_tac.
Qed.

Lemma quiet_skip_zero_down acc : forall f, quiet (skip_zero_down acc f).
Proof. induction f; intros; cbn [skip_zero_down]; quiet_tac. Qed.
#[local] Hint Resolve quiet_skip_zero_down : quiet.

Lemma quiet_mul_loop pow10 : forall todo acc i n, quiet (mul_loop acc pow10 todo i n).
Proof. induction todo; intros; cbn [mul_loop]; quiet_tac. Qed.
#[local] Hint Resolve quiet_mul_loop : quiet.

Lemma quiet_digit_loop : forall todo acc p res, quiet (digit_loop acc todo p res).
Proof. induction todo; intros; cbn [digit_loop]; quiet_tac. Qed.
#[local] Hint Resolve quiet_digit_loop : quiet.

Lemma quiet_fractional_digits pow10 dec_digits : forall fuel acc f res,
  quiet (fractional_digits fuel acc pow10 dec_digits f res).
Proof. induction fuel; intros; cbn [fractional_digits]; quiet_tac. Qed.

Lemma quiet_print_fractional_part fuel acc : quiet (print_fractional_part fuel acc).
Proof.
  unfold print_fractional_part, fractional_result.
  apply quiet_bind.
  - apply quiet_bind; [apply quiet_skip_zero_down|]. intros. apply quiet_fractional_digits.
  - intros [acc1 res]. quiet_tac.
Qed.

Lemma stoul_cases s : (exists n, stoul s = Ret n) \/ (exists e, stoul s = Throw e).
Proof.
  unfold stoul.
  destruct (match skip_space s with
            | String "-" r => (true, r)
            | String "+" r => (false, r)
            | _ => (false, skip_space s)
            end) as [neg s2].
  destruct (read_digits s2 None) as [v|]; [|right; eauto].
  destruct (v >? Z.ones 64); [right; eauto|left; eauto].
Qed.

(** The only exit other than the return from [main] is the usage exit of
    [read_parameters], with status 1. *)
Lemma read_terms_exit progname strs : forall ms az sq c o e,
  read_terms progname strs ms az sq = Exit c o e ->
  c = 1 /\ o = ""%string /\ e = usage_text progname.
Proof.
  induction strs as [|x|x y l IH] using pair_ind; intros ms az sq c o e H; simpl in H.
  - discriminate.
  - destruct (stoul_cases x) as [[n Hx]|[ex Hx]]; rewrite Hx in H; simpl in H;
      [|discriminate].
    destruct (n >? limb_max); injection H as <- <- <-; auto.
  - destruct (stoul_cases x) as [[n Hx]|[ex Hx]]; rewrite Hx in H; simpl in H;
      [|discriminate].
    destruct (n >? limb_max); [injection H as <- <- <-; auto|].
    destruct (stoul_cases y) as [[a Hy]|[ey Hy]]; rewrite Hy in H; simpl in H;
      [|discriminate].
    destruct (a >? arg_max); [injection H as <- <- <-; auto|]. eauto.
Qed.

Lemma read_parameters_exit progname argv c o e :
  read_parameters progname argv = Exit c o e ->
  c = 1 /\ o = ""%string /\ e = usage_text progname.
Proof.
  unfold read_parameters.
  destruct argv as [|s0 [|sp rest]]; try (intros [= <- <- <-]; auto).
  destruct (stoul_cases sp) as [[P HP]|[ex HP]]; rewrite HP; simpl; [|discriminate].
  destruct (P <? 1); [intros [= <- <- <-]; auto|].
  destruct rest as [|sd rest]; [discriminate|].
  destruct (stoul_cases sd) as [[D HD]|[ex HD]]; rewrite HD; simpl; [|discriminate].
  destruct (D =? 0); [intros [= <- <- <-]; auto|].
  destruct (read_terms progname rest [] [] []) as [[[ms az] sq]| | | |] eqn:Ht;
    simpl; try discriminate.
  - destruct (length az =? 0)%nat; [intros [= <- <- <-]; auto|discriminate].
  - intros [= <- <- <-]. eapply read_terms_exit. exact Ht.
Qed.

Lemma quiet_not_exit {A} (r : result A) c o e : quiet r -> r <> Exit c o e.
Proof. intros H ->. exact H. Qed.

(** The exit status of the program: 0 when [main] returns, 1 when the
    arguments are rejected with the usage text on the standard error. *)
Lemma main_exit_codes fuel progname rest c :
  exit_code (main fuel (progname :: rest)) = Some c ->
  (c = 0 /\ exists out, main fuel (progname :: rest) = Ret out) \/
  (c = 1 /\ main fuel (progname :: rest) = Exit 1 "" (usage_text progname)).
Proof.
  unfold main, compute.
  set (argv := match rest with [] => default_args | _ => progname :: rest end).
  destruct (read_parameters progname argv) as [p|c' o e|ex|f|] eqn:Hread; cbn [bind exit_code];
    try discriminate.
  - pose proof (quiet_initialize_variables p) as Q1.
    destruct (initialize_variables p) as [st| | | |]; cbn [bind exit_code];
      try discriminate; try contradiction.
    pose proof (quiet_main_loop p fuel st) as Q2.
    destruct (main_loop fuel p st) as [st1| | | |]; cbn [bind exit_code];
      try discriminate; try contradiction.
    pose proof (quiet_print_integer_part fuel (accumulator st1)) as Q3.
    destruct (print_integer_part fuel (accumulator st1)) as [[acc1 out1]| | | |];
      cbn [bind exit_code]; try discriminate; try contradiction.
    pose proof (quiet_print_fractional_part fuel acc1) as Q4.
    destruct (print_fractional_part fuel acc1) as [[acc2 out2]| | | |];
      cbn [bind exit_code]; try discriminate; try contradiction.
    intros [= <-]. left. eauto.
  - apply read_parameters_exit in Hread as (-> & -> & ->).
    intros [= <-]. right. auto.
Qed.

(** ** An argument equal to one *)

Lemma div_eucl_fst n a : fst (Z.div_eucl n a) = n / a.
Proof. unfold Z.div. destruct (Z.div_eucl n a). reflexivity. Qed.

Lemma div_eucl_snd n a : snd (Z.div_eucl n a) = n mod a.
Proof. unfold Z.modulo. destruct (Z.div_eucl n a). reflexivity. Qed.





Lemma process_block_inv fuel p st block st1 block1 :
  process_block fuel p st block = Ret (st1, block1) ->
  exists q acc rem,
    slot_loop fuel p (arg_count block) (block_divisor_offset st) 0 (block_digit_offset st)
      (quotents st) (accumulator st) (remainders block) = Ret (q, acc, rem) /\
    st1 = {| accumulator := acc; quotents := q;
             remainder_column := remainder_column st;
             block_digit_offset := block_digit_offset st;
             block_divisor_offset := block_divisor_offset st |} /\
    block1 = {| arg_count := arg_count block; remainders := rem |}.
Proof.
  unfold process_block. intros H.
  apply bind_Ret_inv in H as ([[q acc] rem] & Hs & H).
  injection H as <- <-. eauto 6.
Qed.



(** A run whose outer loop never returns has no exit status. *)
Lemma never_returning_has_no_exit_code fuel progname rest p st :
  read_parameters progname (match rest with [] => default_args | _ => progname :: rest end)
  = Ret p ->
  initialize_variables p = Ret st ->
  (forall f st', main_loop f p st <> Ret st') ->
  exit_code (main fuel (progname :: rest)) = None.
Proof.
  intros Hread Hinit Hloop. unfold main, compute.
  rewrite Hread. cbn [bind]. rewrite Hinit. cbn [bind].
  pose proof (quiet_main_loop p fuel st) as Q.
  destruct (main_loop fuel p st) as [st1| | | |] eqn:E; try contradiction; try reflexivity.
  exfalso. exact (Hloop _ _ E).
Qed.





(** ** Fuel

    A result does not depend on the fuel that was enough to reach it. *)

Ltac ret_inv H :=
  repeat match type of H with
         | bind _ _ = Ret _ =>
             let x := fresh "x" in let E := fresh "E" in
             apply bind_Ret_inv in H as (x & E & H)
         end.

Lemma borrow_loop_mono : forall f g acc d offset r,
  (f <= g)%nat -> borrow_loop f acc d offset = Ret r -> borrow_loop g acc d offset = Ret r.
Proof.
  induction f as [|f IH]; intros g acc d offset r Hfg H; [discriminate|].
  destruct g as [|g]; [lia|]. cbn [borrow_loop] in *.
  apply bind_Ret_inv in H as (a & Ea & H). rewrite Ea. cbn [bind].
  destruct (d >? a); [|exact H].
  destruct (to_limb d >? a).
  - apply bind_Ret_inv in H as (acc1 & E1 & H). rewrite E1. cbn [bind].
    destruct (Z.shiftr _ _ =? 0); [|discriminate]. apply IH; [lia|exact H].
  - apply bind_Ret_inv in H as (acc1 & E1 & H). rewrite E1. cbn [bind].
    apply IH; [lia|exact H].
Qed.

Lemma carry_loop_mono : forall f g acc d offset r,
  (f <= g)%nat -> carry_loop f acc d offset = Ret r -> carry_loop g acc d offset = Ret r.
Proof.
  induction f as [|f IH]; intros g acc d offset r Hfg H; [discriminate|].
  destruct g as [|g]; [lia|]. cbn [carry_loop] in *.
  destruct (d =? 0); [exact H|].
  apply bind_Ret_inv in H as (a & Ea & H). rewrite Ea. cbn [bind].
  apply bind_Ret_inv in H as (acc1 & E1 & H). rewrite E1. cbn [bind].
  apply IH; [lia|exact H].
Qed.

Lemma accumulate_mono f g acc delta offset r :
  (f <= g)%nat -> accumulate f acc delta offset = Ret r -> accumulate g acc delta offset = Ret r.
Proof.
  unfold accumulate. intros Hfg H. destruct (delta <? 0).
  - apply bind_Ret_inv in H as (x & E & H).
    rewrite (borrow_loop_mono _ _ _ _ _ _ Hfg E). exact H.
  - eapply carry_loop_mono; eauto.
Qed.

Lemma row_loop_mono sq count qpos : forall f g q rem rpos divisor addition delta r,
  (f <= g)%nat ->
  row_loop f sq count qpos q rem rpos divisor addition delta = Ret r ->
  row_loop g sq count qpos q rem rpos divisor addition delta = Ret r.
Proof.
  induction f as [|f IH]; intros g q rem rpos divisor addition delta r Hfg H; [discriminate|].
  destruct g as [|g]; [lia|]. cbn [row_loop] in *.
  destruct (rpos =? length rem)%nat; [exact H|].
  apply bind_Ret_inv in H as ([[[q1 rem1] rpos1] sum] & Et & H). rewrite Et. cbn [bind].
  apply bind_Ret_inv in H as (x & Ex & H). rewrite Ex. cbn [bind].
  destruct (divisor =? 0); [discriminate|].
  apply bind_Ret_inv in H as (rem2 & E2 & H). rewrite E2. cbn [bind].
  apply IH; [lia|exact H].
Qed.

Lemma slot_loop_mono p count divisor_offset : forall f g qpos digit_offset q acc rem r,
  (f <= g)%nat ->
  slot_loop f p count divisor_offset qpos digit_offset q acc rem = Ret r ->
  slot_loop g p count divisor_offset qpos digit_offset q acc rem = Ret r.
Proof.
  induction f as [|f IH]; intros g qpos digit_offset q acc rem r Hfg H; [discriminate|].
  destruct g as [|g]; [lia|]. cbn [slot_loop] in *.
  destruct (qpos =? length q)%nat; [exact H|].
  apply bind_Ret_inv in H as ([[q1 rem1] delta] & Er & H).
  rewrite (row_loop_mono _ _ _ f g _ _ _ _ _ _ _ ltac:(lia) Er). cbn [bind].
  apply bind_Ret_inv in H as (acc1 & Ea & H).
  rewrite (accumulate_mono f g _ _ _ _ ltac:(lia) Ea). cbn [bind].
  apply IH; [lia|exact H].
Qed.

Lemma process_block_mono f g p st block r :
  (f <= g)%nat -> process_block f p st block = Ret r -> process_block g p st block = Ret r.
Proof.
  unfold process_block. intros Hfg H.
  apply bind_Ret_inv in H as (x & E & H).
  rewrite (slot_loop_mono _ _ _ _ _ _ _ _ _ _ _ Hfg E). exact H.
Qed.

Lemma column_body_mono f g p st n c r :
  (f <= g)%nat -> column_body f p st n c = Ret r -> column_body g p st n c = Ret r.
Proof.
  unfold column_body. intros Hfg H.
  destruct (_ !! c) as [b|]; [|discriminate].
  apply bind_Ret_inv in H as (x & E & H).
  rewrite (process_block_mono _ _ _ _ _ _ Hfg E). exact H.
Qed.

Lemma column_loop_mono p : forall f g st n c r,
  (f <= g)%nat -> column_loop f p st n c = Ret r -> column_loop g p st n c = Ret r.
Proof.
  induction f as [|f IH]; intros g st n c r Hfg H; [discriminate|].
  destruct g as [|g]; [lia|]. cbn [column_loop] in *.
  apply bind_Ret_inv in H as ([st1 next] & E & H).
  rewrite (column_body_mono f g _ _ _ _ _ ltac:(lia) E). cbn [bind].
  destruct (_ || _); [|exact H]. apply IH; [lia|exact H].
Qed.

(** Two runs that both return agree. *)
Lemma column_body_agree f g p st n c r1 r2 :
  column_body f p st n c = Ret r1 -> column_body g p st n c = Ret r2 -> r1 = r2.
Proof.
  intros H1 H2.
  apply (column_body_mono f (Nat.max f g)) in H1; [|lia].
  apply (column_body_mono g (Nat.max f g)) in H2; [|lia].
  congruence.
Qed.

Lemma column_loop_agree f g p st n c r1 r2 :
  column_loop f p st n c = Ret r1 -> column_loop g p st n c = Ret r2 -> r1 = r2.
Proof.
  intros H1 H2.
  apply (column_loop_mono p f (Nat.max f g)) in H1; [|lia].
  apply (column_loop_mono p g (Nat.max f g)) in H2; [|lia].
  congruence.
Qed.

(** ** A term that is skipped

    With two terms of which the first has decayed, a fresh block is
    processed with [arg_count = 1]: only the first term is divided, the
    second stays as it is and [count_non_zero_quotents] stays at one. *)

Lemma all_zero_replicate n : all_zero (replicate n 0).
Proof. intros j x H. apply lookup_replicate in H as [-> _]. reflexivity. Qed.

Lemma row_loop_zero sq qpos q rem :
  all_zero rem -> (forall x, q !! qpos = Some x -> x = 0) ->
  forall fuel rpos divisor addition q1 rem1 delta1,
  row_loop fuel sq 1 qpos q rem rpos divisor addition 0 = Ret (q1, rem1, delta1) ->
  q1 = q /\ rem1 = rem /\ delta1 = 0.
Proof.
  intros Hrem Hq.
  induction fuel as [|fuel IH]; intros rpos divisor addition q1 rem1 delta1 H; [discriminate|].
  cbn [row_loop] in H.
  destruct (rpos =? length rem)%nat; [injection H as <- <- <-; auto|].
  cbn [term_loop] in H.
  apply bind_Ret_inv in H as ([[[q2 rem2] rpos2] sum2] & Et & H).
  apply bind_Ret_inv in Et as (r & Er & Et).
  apply bind_Ret_inv in Et as (x & Ex & Et).
  apply bind_Ret_inv in Et as (a & Ea & Et).
  apply get_inv in Er, Ex. rewrite Nat.add_0_r in Ex.
  pose proof (Hrem _ _ Er). pose proof (Hq _ Ex). subst r x.
  destruct (a =? 0); [discriminate|].
  change (to_limb2 (to_limb2 (Z.shiftl 0 limb_bits) + 0)) with 0 in Et.
  change (Z.div_eucl 0 a) with (0, 0) in Et. cbn [fst snd] in Et.
  change (to_limb 0) with 0 in Et. change (to_limb2 (0 + 0)) with 0 in Et.
  rewrite Nat.add_0_r in Et.
  apply bind_Ret_inv in Et as (q3 & E3 & Et). apply set_inv in E3 as [_ ->].
  apply bind_Ret_inv in Et as (rem3 & E4 & Et). apply set_inv in E4 as [_ ->].
  rewrite !list_insert_id in Et by assumption.
  injection Et as <- <- <- <-.
  apply bind_Ret_inv in H as (r & Er2 & H). apply get_inv in Er2.
  pose proof (Hrem _ _ Er2). subst r.
  destruct (divisor =? 0); [discriminate|].
  change (to_limb2 (0 + to_limb2 (Z.shiftl 0 limb_bits))) with 0 in H.
  change (Z.div_eucl 0 divisor) with (0, 0) in H. cbn [fst snd] in H.
  change (to_limb 0) with 0 in H.
  apply bind_Ret_inv in H as (rem3 & E4 & H). apply set_inv in E4 as [_ ->].
  rewrite list_insert_id in H by assumption.
  replace (if addition then to_signed2 (0 + 0) else to_signed2 (0 - 0)) with 0 in H
    by (destruct addition; reflexivity).
  eapply IH. exact H.
Qed.

Lemma slot_loop_zero p divisor_offset q rem :
  length (args p) = 2%nat -> first_term_zero q -> all_zero rem ->
  forall fuel qpos digit_offset acc q1 acc1 rem1,
  Nat.Even qpos ->
  slot_loop fuel p 1 divisor_offset qpos digit_offset q acc rem = Ret (q1, acc1, rem1) ->
  q1 = q /\ acc1 = acc /\ rem1 = rem.
Proof.
  intros HN Hq Hrem.
  induction fuel as [|fuel IH]; intros qpos digit_offset acc q1 acc1 rem1 Hev H; [discriminate|].
  cbn [slot_loop] in H.
  destruct (qpos =? length q)%nat; [injection H as <- <- <-; auto|].
  apply bind_Ret_inv in H as ([[q2 rem2] delta] & Er & H).
  apply row_loop_zero in Er as (-> & -> & ->); auto.
  2:{ intros x Hx. eapply Hq; eauto. }
  apply bind_Ret_inv in H as (acc2 & Ea & H).
  unfold accumulate in Ea. cbn [Z.ltb Z.compare] in Ea.
  destruct fuel as [|fuel']; [discriminate|]. cbn [carry_loop Z.eqb] in Ea.
  injection Ea as <-.
  eapply IH; [|exact H]. rewrite HN.
  destruct Hev as [k ->]. exists (S k). lia.
Qed.

Lemma column_loop_skips_second_term p :
  length (args p) = 2%nat ->
  forall fuel st column_index st',
  first_term_zero (quotents st) ->
  count_non_zero_quotents p (quotents st) = Ret 1%nat ->
  length (remainder_column st) = column_index ->
  column_loop fuel p st 1 column_index <> Ret st'.
Proof.
  intros HN.
  induction fuel as [|fuel IH]; intros st c st' Hq Hcount Hlen H; [discriminate|].
  cbn [column_loop] in H.
  apply bind_Ret_inv in H as ([st1 next] & Hbody & H).
  unfold column_body in Hbody.
  rewrite Hlen, Nat.leb_refl in Hbody.
  rewrite lookup_app_r in Hbody by lia.
  rewrite Hlen, Nat.sub_diag in Hbody. cbn [lookup list_lookup new_block arg_count remainders] in Hbody.
  apply bind_Ret_inv in Hbody as ([st2 b2] & Hpb & Hbody).
  apply process_block_inv in Hpb as (q & acc & rem & Hs & -> & ->).
  cbn [arg_count remainders Nat.max] in Hs.
  apply slot_loop_zero in Hs as (-> & -> & ->); auto.
  2:{ apply all_zero_replicate. }
  2:{ exists 0%nat. reflexivity. }
  cbn [quotents] in Hbody. rewrite Hcount in Hbody. cbn [bind] in Hbody.
  injection Hbody as <- <-.
  rewrite orb_true_r in H.
  revert H. apply IH; cbn [quotents remainder_column]; auto.
  rewrite length_insert, length_app, Hlen. simpl. lia.
Qed.

Lemma even_zero_spec q : forall b,
  even_zero q b = true ->
  forall j x, q !! j = Some x -> Nat.even j = b -> x = 0.
Proof.
  induction q as [|y q IH]; intros b H j x Hj Hb; [rewrite lookup_nil in Hj; discriminate|].
  cbn [even_zero] in H. apply andb_true_iff in H as [H1 H2].
  destruct j as [|j].
  - simpl in Hj, Hb. injection Hj as <-. subst b. lia.
  - simpl in Hj. eapply (IH _ H2 j); eauto.
    rewrite Nat.even_succ, <- Nat.negb_even in Hb.
    destruct (Nat.even j), b; simpl in *; congruence.
Qed.

Lemma first_term_zero_check q : even_zero q true = true -> first_term_zero q.
Proof.
  intros H j x Hj Hev. eapply even_zero_spec; eauto.
  apply Nat.even_spec. exact Hev.
Qed.

Lemma run_B0 : initialize_variables params_B = Ret state_B0.
Proof. vm_compute. reflexivity. Qed.

Lemma run_B1 : column_loop 300 params_B (with_offsets state_B0 0 1) 2 0 = Ret state_B1.
Proof. vm_compute. reflexivity. Qed.

Lemma run_B2 :
  column_body 300 params_B (with_offsets state_B1 64 1) 2 0 = Ret state_B2.
Proof. vm_compute. reflexivity. Qed.

Lemma run_B3 :
  column_body 300 params_B (fst state_B2) (snd state_B2) 1 = Ret state_B3.
Proof. vm_compute. reflexivity. Qed.

(** The run on [argv_B]: the first pass and two columns of the second pass
    go as usual; then the term of argument 65535 has decayed, the term of
    argument 2 has not, and the column loop never ends. *)
Lemma main_loop_B_never_returns fuel st' : main_loop fuel params_B state_B0 <> Ret st'.
Proof.
  intros H.
  destruct fuel as [|fuel]; [discriminate|]. cbn [main_loop] in H.
  change (block_digit_offset state_B0 <? Z.of_nat (length (accumulator state_B0)))
    with true in H. cbv iota in H.
  apply bind_Ret_inv in H as (s1 & H1 & H).
  pose proof (column_loop_agree _ _ _ _ _ _ _ _ H1 run_B1). subst s1. clear H1.
  destruct fuel as [|fuel]; [discriminate|]. cbn [main_loop] in H.
  change (block_digit_offset _ <? Z.of_nat (length (accumulator _))) with true in H.
  cbv iota in H.
  apply bind_Ret_inv in H as (s2 & H2 & _).
  destruct fuel as [|fuel]; [discriminate|]. cbn [column_loop] in H2.
  apply bind_Ret_inv in H2 as (r2 & Hb2 & H2).
  pose proof (column_body_agree _ _ _ _ _ _ _ _ Hb2 run_B2). subst r2. clear Hb2.
  change (let '(st1, next) := state_B2 in
          if (1 <? length (remainder_column st1))%nat || (0 <? next)%nat
          then column_loop fuel params_B st1 next 1 else Ret st1)
    with (column_loop fuel params_B (fst state_B2) (snd state_B2) 1) in H2.
  destruct fuel as [|fuel]; [discriminate|]. cbn [column_loop] in H2.
  apply bind_Ret_inv in H2 as (r3 & Hb3 & H2).
  pose proof (column_body_agree _ _ _ _ _ _ _ _ Hb3 run_B3). subst r3. clear Hb3.
  change (let '(st1, next) := state_B3 in
          if (2 <? length (remainder_column st1))%nat || (0 <? next)%nat
          then column_loop fuel params_B st1 next 2 else Ret st1)
    with (column_loop fuel params_B (fst state_B3) 1 2) in H2.
  revert H2. apply column_loop_skips_second_term.
  - reflexivity.
  - apply first_term_zero_check. vm_compute. reflexivity.
  - vm_compute. reflexivity.
  - reflexivity.
Qed.

(** ** The series of the inverse cotangent *)

Lemma ps_atan_cv x : (0 <= x <= 1)%R ->
  Un_cv (fun N => sum_f_R0 (tg_alt (Ratan_seq x)) N) (ps_atan x).
Proof.
  intros Hx. unfold ps_atan.
  destruct (Ratan.in_int x) as [h|h].
  - destruct (ps_atan_exists_1 x h) as [v Hv]. exact Hv.
  - exfalso. apply h. lra.
Qed.

Lemma atan_series_bounds x n : (0 < x < 1)%R ->
  (sum_f_R0 (tg_alt (Ratan_seq x)) (S (2 * n)) <= atan x
   <= sum_f_R0 (tg_alt (Ratan_seq x)) (2 * n))%R.
Proof.
  intros Hx. rewrite (atan_eq_ps_atan x Hx).
  apply alternated_series_ineq.
  - apply Ratan_seq_decreasing. lra.
  - apply Ratan_seq_converging. lra.
  - apply ps_atan_cv. lra.
Qed.

Lemma series_fraction_pos a n : 0 < snd (series_fraction a n).
Proof.
  induction n as [|n IH]; simpl; [lia|].
  destruct (series_fraction a n) as [P Q]. simpl in *. nia.
Qed.

Lemma pow_m1_even k : ((-1) ^ S k = if Nat.even k then -1 else 1)%R.
Proof.
  induction k as [|k IH].
  - simpl. lra.
  - change ((-1) ^ S (S k))%R with (-1 * (-1) ^ S k)%R. rewrite IH.
    rewrite Nat.even_succ, <- Nat.negb_even.
    destruct (Nat.even k); simpl; lra.
Qed.

Lemma series_fraction_sum a n : 0 < a ->
  sum_f_R0 (tg_alt (Ratan_seq (/ IZR a))) n
  = (IZR (fst (series_fraction a n))
     / (IZR (snd (series_fraction a n)) * IZR a ^ (2 * n + 1)))%R.
Proof.
  intros Ha.
  assert (Ha' : (0 < IZR a)%R) by (apply IZR_lt; exact Ha).
  induction n as [|n IH].
  - simpl. unfold tg_alt, Ratan_seq. simpl. field. lra.
  - cbn [sum_f_R0]. rewrite IH. clear IH.
    pose proof (series_fraction_pos a n) as HO.
    cbn [series_fraction].
    destruct (series_fraction a n) as [P Q]. cbn [fst snd] in *.
    assert (HO' : (0 < IZR Q)%R) by (apply IZR_lt; exact HO).
    unfold tg_alt, Ratan_seq. rewrite pow_m1_even.
    rewrite (INR_IZR_INZ (2 * S n + 1)).
    replace (Z.of_nat (2 * S n + 1)) with (2 * Z.of_nat n + 3) by lia.
    assert (Hc : (0 < IZR (2 * Z.of_nat n + 3))%R) by (apply IZR_lt; lia).
    set (c := 2 * Z.of_nat n + 3) in *.
    rewrite plus_IZR, !mult_IZR.
    replace (2 * S n + 1)%nat with (S (S (2 * n + 1))) by lia.
    rewrite pow_inv. cbn [pow].
    assert (Hp : (0 < IZR a ^ (2 * n + 1))%R) by (apply pow_lt; exact Ha').
    destruct (Nat.even n); rewrite ?(IZR_NEG 1); field; repeat split; lra.
Qed.

(** An upper bound of [arccot a] as a fraction of integers. *)
Lemma arccot_upper a n : 2 <= a ->
  (arccot a <= IZR (fst (series_fraction a (2 * n)))
               / IZR (snd (series_fraction a (2 * n)) * a ^ Z.of_nat (2 * (2 * n) + 1)))%R.
Proof.
  intros Ha. rewrite mult_IZR, <- pow_IZR.
  rewrite <- series_fraction_sum by lia.
  apply atan_series_bounds.
  assert (2 <= IZR a)%R by (apply IZR_le; exact Ha).
  split.
  - apply Rinv_0_lt_compat. lra.
  - rewrite <- Rinv_1. apply Rinv_lt_contravar; lra.
Qed.

(** From an inequality of integers to the distance between the fixed-point
    value [A / w] and a number [T] below [d * (3 * p1 / d1 + p2 / d2)]. *)
Lemma above_by_fractions (A w s d p1 d1 p2 d2 : Z) (T : R) :
  0 < w -> 0 < d1 -> 0 < d2 -> 0 <= d ->
  (T <= IZR d * (3 * (IZR p1 / IZR d1) + IZR p2 / IZR d2))%R ->
  d * w * (3 * p1 * d2 + p2 * d1) + s * (d1 * d2) <= A * (d1 * d2) ->
  (IZR s / IZR w <= IZR A / IZR w - T)%R.
Proof.
  intros Hw H1 H2 Hd HT Hint.
  apply IZR_le in Hint.
  rewrite !plus_IZR, !mult_IZR, plus_IZR, !mult_IZR in Hint.
  apply IZR_lt in Hw, H1, H2. apply IZR_le in Hd.
  set (rw := IZR w) in *. set (r1 := IZR d1) in *. set (r2 := IZR d2) in *.
  set (rd := IZR d) in *. set (x1 := IZR p1) in *. set (x2 := IZR p2) in *.
  set (rs := IZR s) in *. set (rA := IZR A) in *.
  assert (E : (rA / rw - rd * (3 * (x1 / r1) + x2 / r2) - rs / rw
               = (rA * (r1 * r2) - (rd * rw * (3 * x1 * r2 + x2 * r1) + rs * (r1 * r2)))
                 / (rw * (r1 * r2)))%R).
  { field. repeat split; lra. }
  assert (0 <= (rA * (r1 * r2) - (rd * rw * (3 * x1 * r2 + x2 * r1) + rs * (r1 * r2)))
               / (rw * (r1 * r2)))%R.
  { apply Rmult_le_pos; [lra|]. apply Rlt_le, Rinv_0_lt_compat.
    apply Rmult_lt_0_compat; [lra|]. apply Rmult_lt_0_compat; lra. }
  lra.
Qed.

(** ** A run with four terms

    [pi 1 1099511627776 1 65535 1 13 1 65535 1 65535]: one limb of
    precision, [d = 2^40], all multipliers one, arguments 65535, 13, 65535
    and 65535.  The three terms of argument 65535 have decayed after the
    second column of the second pass; the term of argument 13 has not. *)

Lemma run_H : compute 300 argv_H = Ret (params_H, state_H).
Proof. vm_compute. reflexivity. Qed.

Lemma valid_input_H : valid_input params_H.
Proof.
  unfold valid_input, params_H; cbn [precision pi_d args multipliers].
  repeat split; try lia; try discriminate; repeat constructor; lia.
Qed.

Lemma fraction_65535_eq : series_fraction 65535 (2 * 25) = fraction_65535.
Proof. vm_compute. reflexivity. Qed.

Lemma fraction_13_eq : series_fraction 13 (2 * 106) = fraction_13.
Proof. vm_compute. reflexivity. Qed.

Lemma above_check_spec A w s d p1 d1 p2 d2 :
  above_check A w s d p1 d1 p2 d2 = true ->
  d * w * (3 * p1 * d2 + p2 * d1) + s * (d1 * d2) <= A * (d1 * d2).
Proof. unfold above_check. cbv zeta. apply Z.leb_le. Qed.

Lemma value_H_above :
  above_check value_H (2 ^ 2048) (2 ^ 32) 1099511627776
    (fst fraction_65535) (snd fraction_65535 * 65535 ^ 101)
    (fst fraction_13) (snd fraction_13 * 13 ^ 425) = true.
Proof. vm_compute. reflexivity. Qed.

Lemma series_value_H_upper :
  (series_value params_H
   <= IZR 1099511627776
      * (3 * (IZR (fst fraction_65535) / IZR (snd fraction_65535 * 65535 ^ 101))
         + IZR (fst fraction_13) / IZR (snd fraction_13 * 13 ^ 425)))%R.
Proof.
  unfold series_value, params_H.
  cbn [pi_d multipliers args zip_with fold_right].
  apply Rmult_le_compat_l; [apply IZR_le; lia|].
  pose proof (arccot_upper 65535 25 ltac:(lia)) as H1.
  pose proof (arccot_upper 13 106 ltac:(lia)) as H2.
  rewrite fraction_65535_eq in H1. rewrite fraction_13_eq in H2.
  change (Z.of_nat (2 * (2 * 25) + 1)) with 101 in H1.
  change (Z.of_nat (2 * (2 * 106) + 1)) with 425 in H2.
  lra.
Qed.

Lemma fixed_point_value_H :
  fixed_point_value (accumulator state_H) = (IZR value_H / IZR (2 ^ 2048))%R.
Proof.
  unfold fixed_point_value.
  change (limbs_value (accumulator state_H)) with value_H.
  change (32 * (length (accumulator state_H) - block_width))%nat with 2048%nat.
  change 2%R with (IZR 2). rewrite pow_IZR. reflexivity.
Qed.

(** C1 at the input above: the input is valid, the outer loop of [main]
    ends, and the accumulator is off the value of
    [d * (arccot 65535 + arccot 13 + arccot 65535 + arccot 65535)] by more
    than [2^(-32 * (L - W - 1))].  The column that follows a column of
    [arg_count = 3] starts [128] odd divisors later although the column has
    taken [80] rows. *)
Theorem four_terms_inaccurate :
  valid_input params_H /\
  compute 300 argv_H = Ret (params_H, state_H) /\
  ~ accurate params_H (accumulator state_H).
Proof.
  split; [exact valid_input_H|]. split; [exact run_H|].
  unfold accurate. rewrite fixed_point_value_H.
  change (32 * (length (accumulator state_H) - block_width - 1))%nat with 2016%nat.
  pose proof (above_check_spec _ _ _ _ _ _ _ _ value_H_above) as HA.
  assert (D1 : 0 < snd fraction_65535 * 65535 ^ 101) by (vm_compute; reflexivity).
  assert (D2 : 0 < snd fraction_13 * 13 ^ 425) by (vm_compute; reflexivity).
  pose proof (above_by_fractions value_H (2 ^ 2048) (2 ^ 32) 1099511627776
                (fst fraction_65535) (snd fraction_65535 * 65535 ^ 101)
                (fst fraction_13) (snd fraction_13 * 13 ^ 425) (series_value params_H)
                ltac:(lia) D1 D2 ltac:(lia) series_value_H_upper HA) as HB.
  replace (IZR (2 ^ 32) / IZR (2 ^ 2048))%R with (/ 2 ^ 2016)%R in HB.
  2:{ change 2%R with (IZR 2). rewrite pow_IZR.
      change (2 ^ 2048) with (2 ^ 32 * 2 ^ 2016). rewrite mult_IZR.
      change (Z.of_nat 2016) with 2016.
      assert (0 < IZR (2 ^ 32))%R by (apply IZR_lt; lia).
      assert (0 < IZR (2 ^ 2016))%R by (apply IZR_lt; apply Z.pow_pos_nonneg; lia).
      field. split; lra. }
  intros H. apply Rabs_def2 in H. lra.
Qed.

(** C4 at the same input.  The block of column 2 is processed with
    [arg_count = 3] while there are [N = 4] terms: its rows are
    [arg_count + 1 = 4] limbs apart, not [N + 1 = 5].  After the last call of
    [process_block] on it, the limb at [r * (N + 1) + i] for row [r = 10] and
    term [i = 1] holds 190, which is not below [a_1^2 = 169]: that limb is
    the remainder of a division by an odd divisor. *)
Theorem remainder_not_below_square :
  compute 300 argv_H = Ret (params_H, state_H) /\
  exists block,
    remainder_column state_H !! 2%nat = Some block /\
    arg_count block = 3%nat /\
    (10 < block_height)%nat /\ (1 < arg_count block)%nat /\
    Forall (fun a => 1 <= a) (args params_H) /\
    arg_sq params_H !! 1%nat = Some (13 * 13) /\
    remainders block !! (10 * (length (args params_H) + 1) + 1)%nat = Some 190 /\
    ~ 190 < 13 * 13.
Proof.
  split; [exact run_H|].
  eexists. split; [reflexivity|]. cbn [arg_count remainders].
  split; [reflexivity|]. split; [unfold block_height; lia|]. split; [lia|].
  split; [repeat constructor; lia|]. split; [reflexivity|].
  split; [reflexivity|lia].
Qed.

(** C6 at the same input.  The top [block_width] limbs of the accumulator
    hold 84461919553 (limb 62 is 19, limb 63 is 2857539969);
    [print_integer_part] prints 84461919599: each digit is taken from
    [accumulator[block_width-1] % 10], the lowest limb alone, instead of the
    remainder of the division of all the limbs. *)
Theorem integer_part_misprinted :
  compute 300 argv_H = Ret (params_H, state_H) /\
  Forall is_limb (accumulator state_H) /\
  limbs_value (take block_width (accumulator state_H)) = 84461919553 /\
  exists acc',
    print_integer_part 300 (accumulator state_H) = Ret (acc', "84461919599"%string) /\
    parse_decimal "84461919599" <> limbs_value (take block_width (accumulator state_H)).
Proof.
  split; [exact run_H|].
  split; [apply limbs_check; vm_compute; reflexivity|].
  split; [vm_compute; reflexivity|].
  eexists. split; [vm_compute; reflexivity|].
  vm_compute. congruence.
Qed.

(** ** The fractional digits *)

Lemma mul_loop_spec pow10 : forall todo acc i n,
  (i < length acc)%nat ->
  exists acc',
    mul_loop acc pow10 todo i n = Ret acc' /\
    length acc' = length acc /\
    forall j, (i < j)%nat -> acc' !! j = acc !! j.
Proof.
  induction todo as [|todo IH]; intros acc i n Hi.
  - exists acc. auto.
  - destruct (lookup_lt_is_Some_2 acc i Hi) as [a Ha].
    cbn [mul_loop]. rewrite (get_Ret _ _ _ Ha). cbn [bind].
    rewrite set_Ret by exact Hi. cbn [bind].
    destruct (IH (<[i := to_limb (to_limb2 (n + to_limb2 (a * pow10)))]> acc) (i - 1)%nat
                (Z.shiftr (to_limb2 (n + to_limb2 (a * pow10))) limb_bits))
      as (acc' & Hrun & Hlen & Hsame).
    { rewrite length_insert. lia. }
    exists acc'. split; [exact Hrun|]. rewrite Hlen, length_insert. split; [reflexivity|].
    intros j Hj. rewrite Hsame by lia. apply list_lookup_insert_ne. lia.
Qed.

Lemma digit_loop_spec : forall todo acc p res,
  (block_width - 1 < length acc)%nat ->
  10 ^ (Z.of_nat todo - 1) <= p ->
  exists acc' res',
    digit_loop acc todo p res = Ret (acc', res') /\
    length acc' = length acc /\
    length res' = (length res + todo)%nat /\
    forall j, j <> (block_width - 1)%nat -> acc' !! j = acc !! j.
Proof.
  induction todo as [|todo IH]; intros acc p res Hlen Hp.
  - exists acc, res. repeat split; auto.
  - destruct (lookup_lt_is_Some_2 acc _ Hlen) as [a Ha].
    cbn [digit_loop]. rewrite (get_Ret _ _ _ Ha). cbn [bind].
    assert (0 < p).
    { eapply Z.lt_le_trans; [|exact Hp]. apply Z.pow_pos_nonneg; lia. }
    destruct (p =? 0) eqn:E; [lia|].
    rewrite set_Ret by exact Hlen. cbn [bind].
    destruct (IH (<[(block_width - 1)%nat := a mod p]> acc) (p / 10)
                (res ++ [to_char (to_unsigned (48 + a / p))]))
      as (acc' & res' & Hrun & Hl & Hr & Hsame).
    { rewrite length_insert. exact Hlen. }
    { destruct todo as [|todo].
      - simpl. apply Z.div_pos; lia.
      - apply Z.div_le_lower_bound; [lia|].
        replace (Z.of_nat (S (S todo)) - 1) with (1 + (Z.of_nat (S todo) - 1)) in Hp by lia.
        rewrite Z.pow_add_r in Hp by lia. lia. }
    exists acc', res'. split; [exact Hrun|]. rewrite Hl, Hr, length_insert, length_app.
    cbn [length]. repeat split; [lia|].
    intros j Hj. rewrite Hsame by exact Hj. apply list_lookup_insert_ne. lia.
Qed.

Lemma skip_zero_down_spec acc : forall f,
  (f < length acc)%nat ->
  exists f',
    skip_zero_down acc f = Ret f' /\ (f' <= f)%nat /\
    forall j, (f' < j <= f)%nat -> acc !! j = Some 0.
Proof.
  induction f as [|f IH]; intros Hf.
  - exists 0%nat. repeat split; auto. intros; lia.
  - destruct (lookup_lt_is_Some_2 acc _ Hf) as [a Ha].
    cbn [skip_zero_down]. rewrite (get_Ret _ _ _ Ha). cbn [bind].
    destruct (a =? 0) eqn:E.
    + apply Z.eqb_eq in E. subst a.
      destruct (IH ltac:(lia)) as (f' & Hrun & Hle & Hz).
      exists f'. split; [exact Hrun|]. split; [lia|].
      intros j Hj. destruct (decide (j = S f)) as [->|]; [exact Ha|]. apply Hz. lia.
    + exists (S f). repeat split; auto. intros; lia.
Qed.

Lemma fractional_digits_spec dd : forall fuel acc f res,
  (block_width <= length acc)%nat ->
  (f < length acc)%nat ->
  (forall j, (f < j < length acc)%nat -> acc !! j = Some 0) ->
  (1 <= fuel)%nat ->
  dd + 18 <= Z.of_nat (length res) + 9 * Z.of_nat fuel ->
  exists acc' res' k,
    fractional_digits fuel acc (pow10_loop digits10 1) dd f res = Ret (acc', res') /\
    length acc' = length acc /\
    length res' = (length res + k * digits10)%nat /\
    (Z.of_nat (length res) <= dd -> Z.of_nat (length res') <= dd + 9) /\
    (dd < Z.of_nat (length res') \/
     forall j, (1 <= j < length acc)%nat -> acc' !! j = Some 0).
Proof.
  change (pow10_loop digits10 1) with 1000000000.
  induction fuel as [|fuel IH]; intros acc f res HL Hf Hz Hfuel Hdd; [lia|].
  cbn [fractional_digits].
  destruct ((0 <? f)%nat && (Z.of_nat (length res) <=? dd)) eqn:E.
  - apply andb_true_iff in E as [E1 E2].
    apply Nat.ltb_lt in E1. apply Z.leb_le in E2.
    destruct (mul_loop_spec 1000000000 (f + 1 - (block_width - 1)) acc f 0 Hf)
      as (acc1 & Hm & Hl1 & Hs1).
    rewrite Hm. cbn [bind].
    destruct (digit_loop_spec digits10 acc1 (1000000000 / 10) res)
      as (acc2 & res1 & Hd & Hl2 & Hr1 & Hs2).
    { unfold block_width in *. lia. }
    { vm_compute. congruence. }
    rewrite Hd. cbn [bind].
    rewrite set_Ret by (unfold block_width in *; lia). cbn [bind].
    set (acc3 := <[(block_width - 1)%nat := 0]> acc2).
    assert (Hl3 : length acc3 = length acc)
      by (unfold acc3; rewrite length_insert; lia).
    assert (Hz3 : forall j, (f < j < length acc3)%nat -> acc3 !! j = Some 0).
    { intros j Hj. unfold acc3.
      destruct (decide (j = (block_width - 1)%nat)) as [->|Hne].
      - apply list_lookup_insert_eq. unfold block_width in *. lia.
      - rewrite list_lookup_insert_ne by lia.
        rewrite Hs2 by exact Hne. rewrite Hs1 by lia. apply Hz. lia. }
    destruct (skip_zero_down_spec acc3 f ltac:(lia)) as (f' & Hsk & Hle & Hzz).
    rewrite Hsk. cbn [bind].
    assert (Hfuel' : (1 <= fuel)%nat) by (unfold digits10 in *; lia).
    destruct (IH acc3 f' res1 ltac:(lia) ltac:(lia)) as (acc' & res' & k & Hrun & Hl' & Hr' & Hb & Hstop);
      auto.
    { intros j Hj. destruct (decide (j <= f)%nat); [apply Hzz; lia|apply Hz3; lia]. }
    { unfold digits10 in *. lia. }
    exists acc', res', (S k). split; [exact Hrun|].
    split; [lia|]. split; [unfold digits10 in *; lia|].
    split.
    + intros _. destruct (Z_le_gt_dec (Z.of_nat (length res1)) dd) as [Hle1|Hgt1].
      * auto.
      * (* the next iteration stops at once *)
        destruct fuel as [|fuel']; [lia|]. cbn [fractional_digits] in Hrun.
        replace (Z.of_nat (length res1) <=? dd) with false in Hrun
          by (symmetry; apply Z.leb_gt; lia).
        rewrite andb_false_r in Hrun. injection Hrun as <- <-.
        unfold digits10 in *. lia.
    + rewrite Hl3 in Hstop. exact Hstop.
  - exists acc, res, 0%nat. split; [reflexivity|]. split; [reflexivity|].
    split; [lia|]. split; [lia|].
    apply andb_false_iff in E as [E|E].
    + right. apply Nat.ltb_ge in E. assert (f = 0%nat) by lia. subst f.
      intros j Hj. apply Hz. lia.
    + left. apply Z.leb_gt in E. lia.
Qed.

Lemma dec_digits_of_eq acc :
  (block_width <= length acc)%nat -> Z.of_nat (length acc) <= 2 ^ 32 ->
  (block_width < length acc)%nat ->
  dec_digits_of acc = Z.of_nat ((length acc - block_width) * digits10 - 2).
Proof.
  intros H1 H2 H3. unfold dec_digits_of, block_width, digits10 in *.
  rewrite (to_ulong_small (Z.of_nat (length acc) - Z.of_nat 64)) by lia.
  rewrite to_ulong_small by lia. lia.
Qed.

(** C7, as amended.  [print_fractional_part] emits the fractional digits in
    groups of [digits10 = 9]: a further group is emitted as long as the
    number of digits is at most [(L - W) * 9 - 2] and a limb below limb 0
    is not zero.  So the string has a multiple of nine digits, at most
    [(L - W) * 9] of them, and the extraction has stopped because the count
    has gone beyond [(L - W) * 9 - 2] or because all those limbs are zero. *)
Theorem fractional_digits_come_in_groups (acc : list Z) (fuel : nat) :
  (block_width < length acc)%nat ->
  Z.of_nat (length acc) <= 2 ^ 32 ->
  (length acc - 62 <= fuel)%nat ->
  exists acc' res k,
    fractional_result fuel acc = Ret (acc', res) /\
    length res = (k * digits10)%nat /\
    (length res <= (length acc - block_width) * digits10)%nat /\
    (((length acc - block_width) * digits10 - 2 < length res)%nat \/
     forall j, (1 <= j < length acc)%nat -> acc' !! j = Some 0).
Proof.
  intros HL H32 Hfuel. unfold fractional_result.
  rewrite to_unsigned_small by lia.
  destruct (skip_zero_down_spec acc (Z.to_nat (Z.of_nat (length acc) - 1)) ltac:(lia))
    as (f & Hsk & Hle & Hz).
  rewrite Hsk. cbn [bind].
  rewrite dec_digits_of_eq by lia.
  destruct (fractional_digits_spec (Z.of_nat ((length acc - block_width) * digits10 - 2))
              fuel acc f []) as (acc' & res & k & Hrun & Hl & Hr & Hb & Hstop); auto.
  - lia.
  - lia.
  - intros j Hj. apply Hz. lia.
  - unfold block_width in *. lia.
  - cbn [length]. unfold block_width, digits10 in *. lia.
  - exists acc', res, k. split; [exact Hrun|]. cbn [length] in Hr, Hb.
    split; [lia|]. split.
    + unfold block_width, digits10 in *. lia.
    + destruct Hstop as [Hs|Hs]; [left; lia|right; exact Hs].
Qed.

(** One fractional limb, holding 1: a single group of nine digits. *)
Lemma fractional_digits_witness :
  exists acc' res k,
    fractional_result 3 (replicate 64 0 ++ [1]) = Ret (acc', res) /\
    length res = (k * digits10)%nat /\
    (length res <= (length (replicate 64 0 ++ [1]) - block_width) * digits10)%nat /\
    (((length (replicate 64 0 ++ [1]) - block_width) * digits10 - 2 < length res)%nat \/
     forall j, (1 <= j < length (replicate 64 0 ++ [1]))%nat -> acc' !! j = Some 0).
Proof.
  apply (fractional_digits_come_in_groups (replicate 64 0 ++ [1]) 3).
  - vm_compute. lia.
  - simpl. lia.
  - vm_compute. lia.
Defined.

(** The claim C7 as stated fails on the run above: [L = 128] and [W = 64]
    give a budget of [64 * 9 - 2 = 574] digits, and 576 are printed. *)
Lemma fractional_digits_exceed_budget :
  compute 300 argv_H = Ret (params_H, state_H) /\
  exists acc1 out acc2 res,
    print_integer_part 300 (accumulator state_H) = Ret (acc1, out) /\
    fractional_result 300 acc1 = Ret (acc2, res) /\
    ((length acc1 - block_width) * digits10 - 2)%nat = 574%nat /\
    length res = 576%nat.
Proof.
  split; [exact run_H|].
  do 4 eexists. split; [vm_compute; reflexivity|].
  split; [vm_compute; reflexivity|].
  split; vm_compute; reflexivity.
Qed.

(** ** Validation and exit status *)

Lemma main_H_returns : exists out, main 300 argv_H = Ret out.
Proof.
  unfold main. rewrite run_H. cbn [bind].
  eexists. vm_compute. reflexivity.
Qed.

Lemma valid_input_B : valid_input params_B.
Proof.
  unfold valid_input, params_B; cbn [precision pi_d args multipliers].
  repeat split; try lia; try discriminate; repeat constructor; lia.
Qed.

(** C9 at the input [1 1 1 65535 1 2].  The arguments are valid (a
    precision and a [d] of one, arguments within [2 .. 2^16 - 1], scaled
    numerators of one limb) and [read_parameters] accepts them, yet the run
    has no exit status: whatever the number of steps, [main] has neither
    returned nor called [exit].  Once the first term has decayed,
    [count_non_zero_quotents] returns one and the blocks are processed with
    [arg_count = 1]: the loop over the terms in [process_block] starts at
    the first term again, and the second, the one still alive, is left
    undivided. *)
Theorem descending_arguments_never_exit :
  valid_input params_B /\
  read_parameters "pi" argv_B = Ret params_B /\
  forall fuel, exit_code (main fuel argv_B) = None.
Proof.
  split; [exact valid_input_B|]. split; [reflexivity|].
  intros fuel.
  apply (never_returning_has_no_exit_code fuel "pi" _ params_B state_B0).
  - reflexivity.
  - exact run_B0.
  - apply main_loop_B_never_returns.
Qed.

(** Validation at the boundary of the arguments.  On numeric arguments,
    [read_parameters] accepts every argument up to [2^16 - 1] and rejects
    every argument [2^16] by printing the usage text and exiting with
    status 1; an empty list of terms is rejected in the same way. *)
Lemma validation_at_the_boundary :
  (forall progname s0 strs P D terms,
     parses strs (P :: D :: flatten terms) ->
     1 <= P -> D <> 0 -> terms <> [] ->
     Forall (fun t => fst t <= limb_max /\ snd t <= 2 ^ 16 - 1) terms ->
     exists p, read_parameters progname (s0 :: strs) = Ret p /\ args p = map snd terms) /\
  (forall progname s0 sp sd strs k s,
     numeric sp -> numeric sd -> Forall numeric strs ->
     strs !! (2 * k + 1)%nat = Some s -> stoul s = Ret (2 ^ 16) ->
     read_parameters progname (s0 :: sp :: sd :: strs) = Exit 1 "" (usage_text progname)) /\
  (forall progname s0 sp sd,
     numeric sp -> numeric sd ->
     read_parameters progname [s0; sp; sd] = Exit 1 "" (usage_text progname)).
Proof.
  split; [|split].
  - intros progname s0 strs P D terms Hp HP HD Hne Hok.
    eexists. split.
    + apply read_parameters_accept; eauto.
    + reflexivity.
  - intros progname s0 sp sd strs k s Hsp Hsd Hn Hk Hs.
    eapply read_parameters_reject; eauto. rewrite arg_max_eq. lia.
  - intros. apply read_parameters_no_terms; assumption.
Qed.

(** The boundary on concrete command lines: [65535] is accepted, [65536]
    and an empty list of terms are rejected. *)
Lemma validation_boundary_examples :
  (exists p, read_parameters "pi" ["pi"; "1"; "4"; "1"; "65535"]%string = Ret p /\
             args p = map snd [(1, 65535)]) /\
  read_parameters "pi" ["pi"; "1"; "4"; "1"; "65536"]%string = Exit 1 "" (usage_text "pi") /\
  read_parameters "pi" ["pi"; "1"; "4"]%string = Exit 1 "" (usage_text "pi").
Proof.
  destruct validation_at_the_boundary as (Hacc & Hrej & Hnone).
  split; [|split].
  - apply (Hacc "pi"%string "pi"%string ["1"; "4"; "1"; "65535"]%string 1 4 [(1, 65535)]).
    + repeat constructor.
    + lia.
    + lia.
    + discriminate.
    + repeat constructor; vm_compute; discriminate.
  - apply (Hrej "pi"%string "pi"%string "1"%string "4"%string ["1"; "65536"]%string
             0%nat "65536"%string).
    + exists 1. reflexivity.
    + exists 4. reflexivity.
    + repeat constructor; eexists; reflexivity.
    + reflexivity.
    + reflexivity.
  - apply (Hnone "pi"%string "pi"%string "1"%string "4"%string).
    + exists 1. reflexivity.
    + exists 4. reflexivity.
Qed.

(** * Further properties of the code *)

(** ** Counting the terms still alive *)

Lemma term_non_zero_spec q n : forall todo pos,
  (0 < todo -> pos + (todo - 1) * n < length q)%nat ->
  exists b, term_non_zero q n todo pos = Ret b /\
    (b = false <-> forall s, (s < todo)%nat -> q !! (pos + s * n)%nat = Some 0).
Proof.
  induction todo as [|todo IH]; intros pos Hlen.
  - exists false. split; [reflexivity|]. split; [intros _ s Hs; lia|reflexivity].
  - cbn [term_non_zero].
    destruct (lookup_lt_is_Some_2 q pos) as [x Hx]; [nia|].
    rewrite (get_Ret _ _ _ Hx). cbn [bind].
    destruct (Z.eqb_spec x 0) as [->|Hne].
    + destruct (IH (pos + n)%nat) as (b & Hb & Hiff).
      { intros Ht. destruct todo; [lia|]. 
        replace (S (S todo) - 1)%nat with (S todo) in Hlen by lia.
        replace (S todo - 1)%nat with todo by lia. nia. }
      exists b. split; [exact Hb|]. rewrite Hiff. split.
      * intros H [|s] Hs.
        -- rewrite Nat.mul_0_l, Nat.add_0_r. exact Hx.
        -- replace (pos + S s * n)%nat with (pos + n + s * n)%nat by lia.
           apply H. lia.
      * intros H s Hs.
        replace (pos + n + s * n)%nat with (pos + S s * n)%nat by lia.
        apply H. lia.
    + exists true. split; [reflexivity|]. split; [discriminate|].
      intros H. specialize (H 0%nat ltac:(lia)).
      rewrite Nat.mul_0_l, Nat.add_0_r, Hx in H. congruence.
Qed.

Lemma count_from_spec q n : forall todo argi,
  length q = (block_width * n)%nat ->
  (argi + todo = n)%nat ->
  exists c, count_from q n todo argi = Ret c /\
    ((c = 0%nat /\ forall i, (argi <= i < n)%nat -> term_zero q n i) \/
     (exists j, (argi <= j < n)%nat /\ c = (n - j)%nat /\
        (forall i, (argi <= i < j)%nat -> term_zero q n i) /\ ~ term_zero q n j)).
Proof.
  induction todo as [|todo IH]; intros argi Hlen Hn.
  - exists 0%nat. split; [reflexivity|]. left. split; [reflexivity|]. intros i Hi. lia.
  - cbn [count_from].
    destruct (term_non_zero_spec q n block_width argi) as (b & Hb & Hiff).
    { intros _. rewrite Hlen. unfold block_width. lia. }
    rewrite Hb. cbn [bind].
    assert (Hz : b = false <-> term_zero q n argi).
    { rewrite Hiff. unfold term_zero. split; intros H s Hs.
      - rewrite Nat.add_comm. apply H, Hs.
      - rewrite Nat.add_comm. apply H, Hs. }
    destruct b.
    + exists (n - argi)%nat. split; [reflexivity|]. right.
      exists argi. split; [lia|]. split; [reflexivity|]. split; [intros i Hi; lia|].
      intros H. apply Hz in H. discriminate.
    + destruct (IH (S argi) Hlen ltac:(lia)) as (c & Hc & Hcase).
      assert (H0 : term_zero q n argi) by (apply Hz; reflexivity).
      exists c. split; [exact Hc|].
      destruct Hcase as [[-> Hall]|(j & Hj & -> & Hbefore & Hnz)].
      * left. split; [reflexivity|]. intros i Hi.
        destruct (Nat.eq_dec i argi) as [->|]; [exact H0|]. apply Hall. lia.
      * right. exists j. split; [lia|]. split; [reflexivity|]. split; [|exact Hnz].
        intros i Hi. destruct (Nat.eq_dec i argi) as [->|]; [exact H0|]. apply Hbefore. lia.
Qed.

Lemma all_terms_zero q n :
  length q = (block_width * n)%nat ->
  (forall i, (i < n)%nat -> term_zero q n i) -> all_zero q.
Proof.
  intros Hlen H k x Hk.
  assert (Hlt : (k < length q)%nat) by (apply lookup_lt_is_Some; eauto).
  assert (Hn : (0 < n)%nat) by (destruct n; [rewrite Hlen in Hlt; lia|lia]).
  specialize (H (k mod n)%nat ltac:(apply Nat.mod_upper_bound; lia) (k / n)%nat).
  assert (Hd : (k / n < block_width)%nat).
  { apply Nat.Div0.div_lt_upper_bound. rewrite Hlen in Hlt. lia. }
  specialize (H Hd).
  replace (k / n * n + k mod n)%nat with k in H
    by (rewrite (Nat.div_mod_eq k n) at 1; lia).
  congruence.
Qed.

Lemma count_non_zero_quotents_spec p q :
  length q = (block_width * length (args p))%nat ->
  exists c,
    count_non_zero_quotents p q = Ret c /\
    (c <= length (args p))%nat /\
    (c = 0%nat <-> all_zero q) /\
    (c <> 0%nat ->
     exists j, (j < length (args p))%nat /\ c = (length (args p) - j)%nat /\
       (forall i, (i < j)%nat -> term_zero q (length (args p)) i) /\
       ~ term_zero q (length (args p)) j).
Proof.
  intros Hlen. unfold count_non_zero_quotents.
  destruct (count_from_spec q (length (args p)) (length (args p)) 0 Hlen eq_refl)
    as (c & Hc & Hcase).
  exists c. split; [exact Hc|].
  destruct Hcase as [[-> Hall]|(j & Hj & -> & Hbefore & Hnz)].
  - split; [lia|]. split; [|congruence].
    split; [|reflexivity]. intros _.
    apply (all_terms_zero q _ Hlen). intros i Hi. apply Hall. lia.
  - split; [lia|]. split.
    + split; [lia|]. intros Hz. exfalso. apply Hnz. intros s Hs.
      destruct (lookup_lt_is_Some_2 q (s * length (args p) + j)) as [x Hx].
      { rewrite Hlen. unfold block_width in *. nia. }
      rewrite Hx. f_equal. eapply Hz, Hx.
    + intros _. exists j. split; [lia|]. split; [reflexivity|]. split; [|exact Hnz].
      intros i Hi. apply Hbefore. lia.
Qed.

(** X1. On a quotient vector of [block_width] limbs per term,
    [count_non_zero_quotents] returns [N - j] for the first term [j] one of
    whose limbs is not zero, and 0 exactly when every limb is zero; the
    result is never above the number of terms. *)
Theorem count_non_zero_quotents_counts_from_first_live_term p q :
  length q = (block_width * length (args p))%nat ->
  exists c,
    count_non_zero_quotents p q = Ret c /\
    (c <= length (args p))%nat /\
    (c = 0%nat <-> all_zero q) /\
    (c <> 0%nat ->
     exists j, (j < length (args p))%nat /\ c = (length (args p) - j)%nat /\
       (forall i, (i < j)%nat -> term_zero q (length (args p)) i) /\
       ~ term_zero q (length (args p)) j).
Proof. apply count_non_zero_quotents_spec. Qed.

Lemma count_witness :
  exists c,
    count_non_zero_quotents params_B (quotents state_B0) = Ret c /\
    (c <= length (args params_B))%nat /\
    (c = 0%nat <-> all_zero (quotents state_B0)) /\
    (c <> 0%nat ->
     exists j, (j < length (args params_B))%nat /\ c = (length (args params_B) - j)%nat /\
       (forall i, (i < j)%nat -> term_zero (quotents state_B0) (length (args params_B)) i) /\
       ~ term_zero (quotents state_B0) (length (args params_B)) j).
Proof.
  apply (count_non_zero_quotents_counts_from_first_live_term params_B (quotents state_B0)).
  reflexivity.
Defined.

(** ** Validation, case by case *)

Lemma read_terms_inv progname : forall strs nums ms az sq ms' az' sq',
  parses strs nums ->
  read_terms progname strs ms az sq = Ret (ms', az', sq') ->
  exists terms,
    nums = flatten terms /\ Forall term_ok terms /\
    ms' = ms ++ map fst terms /\ az' = az ++ map snd terms /\
    sq' = sq ++ squares (map snd terms).
Proof.
  intros strs. induction strs as [| s | sm sa strs IH] using pair_ind;
    intros nums ms az sq ms' az' sq' Hp H.
  - inversion Hp; subst. cbn in H. injection H as <- <- <-.
    exists []. cbn. rewrite !app_nil_r. auto.
  - inversion Hp as [|? n ? ? Hs Hp']; subst. inversion Hp'; subst.
    cbn [read_terms] in H. rewrite Hs in H. cbn [bind] in H.
    destruct (n >? limb_max); discriminate H.
  - inversion Hp as [|? m ? ? Hm Hp']; subst.
    inversion Hp' as [|? a ? nums' Ha Hp'']; subst.
    cbn [read_terms] in H. rewrite Hm in H. cbn [bind] in H.
    destruct (Z.gtb_spec m limb_max) as [|Hm']; [discriminate H|].
    rewrite Ha in H. cbn [bind] in H.
    destruct (Z.gtb_spec a arg_max) as [|Ha']; [discriminate H|].
    destruct (IH _ _ _ _ _ _ _ Hp'' H) as (terms & -> & Hok & -> & -> & ->).
    pose proof (stoul_range _ _ Hm) as Rm. pose proof (stoul_range _ _ Ha) as Ra.
    exists ((m, a) :: terms). cbn [flatten map fst snd squares].
    split; [reflexivity|]. split; [constructor; [split; assumption|exact Hok]|].
    rewrite <- !app_assoc. cbn [app].
    rewrite arg_max_eq in Ha'. rewrite limb_max_eq in Hm'.
    rewrite (to_limb_small m) by (unfold is_limb; lia).
    rewrite (to_limb_small a) by (unfold is_limb; lia).
    rewrite (to_ulong_small (a * a)) by nia.
    rewrite (to_limb_small (a * a)) by (unfold is_limb; nia).
    auto.
Qed.

(** X2. On numeric arguments [read_parameters] returns exactly when the
    numbers are a precision of at least one, a [d] that is not zero and a
    non-empty list of pairs with multipliers up to [limb_max] and arguments
    up to [arg_max]; the parameters are then these numbers, with the squares
    of the arguments. *)
Theorem read_parameters_accepts_exactly progname s0 strs nums p :
  parses strs nums ->
  read_parameters progname (s0 :: strs) = Ret p <->
  exists P D terms,
    nums = P :: D :: flatten terms /\
    1 <= P /\ D <> 0 /\ terms <> [] /\ Forall term_ok terms /\
    p = {| precision := P; pi_d := D; multipliers := map fst terms;
           args := map snd terms; arg_sq := squares (map snd terms) |}.
Proof.
  intros Hp. split.
  - intros H. destruct Hp as [|sp P strs1 nums1 HP Hp1]; [discriminate H|].
    cbn [read_parameters] in H. rewrite HP in H. cbn [bind] in H.
    destruct (Z.ltb_spec P 1) as [|HP1]; [discriminate H|].
    destruct Hp1 as [|sd D strs2 nums2 HD Hp2]; [discriminate H|].
    rewrite HD in H. cbn [bind] in H.
    destruct (Z.eqb_spec D 0) as [|HD0]; [discriminate H|].
    destruct (read_terms progname strs2 [] [] []) as [[[ms az] sq]| | | |] eqn:E;
      try discriminate H.
    cbn [bind] in H.
    destruct (read_terms_inv _ _ _ _ _ _ _ _ _ Hp2 E) as (terms & -> & Hok & -> & -> & ->).
    cbn [app] in H.
    destruct (Nat.eqb_spec (length (map snd terms)) 0) as [|Hlen]; [discriminate H|].
    injection H as <-.
    exists P, D, terms. repeat split; try assumption; try lia.
    intros ->. apply Hlen. reflexivity.
  - intros (P & D & terms & -> & HP & HD & Hne & Hok & ->).
    apply read_parameters_accept; assumption.
Qed.

Lemma read_parameters_accepts_witness :
  read_parameters "pi" ["pi"; "17"; "4"; "5"; "7"]%string
  = Ret {| precision := 17; pi_d := 4; multipliers := [5]; args := [7]; arg_sq := [49] |} <->
  exists P D terms,
    [17; 4; 5; 7] = P :: D :: flatten terms /\
    1 <= P /\ D <> 0 /\ terms <> [] /\ Forall term_ok terms /\
    {| precision := 17; pi_d := 4; multipliers := [5]; args := [7]; arg_sq := [49] |}
    = {| precision := P; pi_d := D; multipliers := map fst terms;
         args := map snd terms; arg_sq := squares (map snd terms) |}.
Proof.
  apply (read_parameters_accepts_exactly "pi" "pi" ["17"; "4"; "5"; "7"]%string [17; 4; 5; 7]).
  repeat constructor.
Defined.

Lemma read_terms_numeric progname : forall strs nums ms az sq,
  parses strs nums ->
  (exists r, read_terms progname strs ms az sq = Ret r) \/
  read_terms progname strs ms az sq = Exit 1 "" (usage_text progname).
Proof.
  intros strs. induction strs as [| s | sm sa strs IH] using pair_ind;
    intros nums ms az sq Hp.
  - left. eexists. reflexivity.
  - inversion Hp as [|? n ? ? Hs Hp']; subst.
    right. cbn [read_terms]. rewrite Hs. cbn [bind].
    destruct (n >? limb_max); apply usage_and_exit_1.
  - inversion Hp as [|? m ? ? Hm Hp']; subst.
    inversion Hp' as [|? a ? nums' Ha Hp'']; subst.
    cbn [read_terms]. rewrite Hm. cbn [bind].
    destruct (m >? limb_max); [right; apply usage_and_exit_1|].
    rewrite Ha. cbn [bind].
    destruct (a >? arg_max); [right; apply usage_and_exit_1|].
    eapply IH, Hp''.
Qed.

(** X3. Every other numeric command line that gives a precision and a [d]
    is rejected: the usage text goes to the standard error and the exit
    status is 1. *)
Theorem read_parameters_rejects_the_rest progname s0 strs P D rest :
  parses strs (P :: D :: rest) ->
  ~ (1 <= P /\ D <> 0 /\
     exists terms, rest = flatten terms /\ terms <> [] /\ Forall term_ok terms) ->
  read_parameters progname (s0 :: strs) = Exit 1 "" (usage_text progname).
Proof.
  intros Hp Hbad.
  assert (Hcases : (exists p, read_parameters progname (s0 :: strs) = Ret p) \/
                   read_parameters progname (s0 :: strs) = Exit 1 "" (usage_text progname)).
  { inversion Hp as [|sp ? strs1 ? HP Hp1]; subst.
    inversion Hp1 as [|sd ? strs2 ? HD Hp2]; subst.
    cbn [read_parameters]. rewrite HP. cbn [bind].
    destruct (P <? 1); [right; apply usage_and_exit_1|].
    rewrite HD. cbn [bind].
    destruct (D =? 0); [right; apply usage_and_exit_1|].
    destruct (read_terms_numeric progname strs2 rest [] [] [] Hp2) as [[[[ms az] sq] E]|E];
      rewrite E; cbn [bind].
    - destruct (length az =? 0)%nat; [right; apply usage_and_exit_1|].
      left. eexists. reflexivity.
    - right. reflexivity. }
  destruct Hcases as [[p H]|H]; [|exact H].
  exfalso. apply Hbad.
  apply (read_parameters_accepts_exactly _ _ _ _ _ Hp) in H
    as (P' & D' & terms & E & HP & HD & Hne & Hok & _).
  injection E as <- <- ->. eauto 10.
Qed.

Lemma read_parameters_rejects_witness :
  read_parameters "pi" ["pi"; "17"; "4"; "5"]%string = Exit 1 "" (usage_text "pi").
Proof.
  apply (read_parameters_rejects_the_rest "pi" "pi" ["17"; "4"; "5"]%string 17 4 [5]).
  - repeat constructor.
  - intros (_ & _ & terms & E & _ & _).
    destruct terms as [|[m a] terms]; discriminate E.
Defined.

(** X4. A command line that ends after a precision of at least one makes
    [read_parameters] build a [std::string] from the null pointer that ends
    [argv]: undefined behaviour, where a usage message would be expected. *)
Theorem missing_d_is_undefined fuel s0 sp P :
  stoul sp = Ret P -> 1 <= P ->
  main fuel [s0; sp] = Undefined NullString.
Proof.
  intros HP H1. unfold main, compute. cbn [read_parameters].
  rewrite HP. cbn [bind].
  destruct (Z.ltb_spec P 1); [lia|]. reflexivity.
Qed.

Lemma missing_d_witness : main 0 ["pi"; "17"]%string = Undefined NullString.
Proof.
  apply (missing_d_is_undefined 0 "pi" "17" 17); [reflexivity|lia].
Defined.

Lemma read_terms_throws progname e s post : forall pre nums ms az sq,
  parses pre nums -> terms_prefix_ok nums = true -> stoul s = Throw e ->
  read_terms progname (pre ++ s :: post) ms az sq = Throw e.
Proof.
  intros pre. induction pre as [| s1 | sm sa pre IH] using pair_ind;
    intros nums ms az sq Hp Hok Hs.
  - cbn [app read_terms]. rewrite Hs. reflexivity.
  - inversion Hp as [|? m ? ? Hm Hp']; subst. inversion Hp'; subst.
    cbn [terms_prefix_ok] in Hok. apply Z.leb_le in Hok.
    cbn [app read_terms]. rewrite Hm. cbn [bind].
    destruct (Z.gtb_spec m limb_max); [lia|].
    rewrite Hs. reflexivity.
  - inversion Hp as [|? m ? ? Hm Hp']; subst.
    inversion Hp' as [|? a ? nums' Ha Hp'']; subst.
    cbn [terms_prefix_ok] in Hok.
    apply andb_prop in Hok as [Hok Hrest]. apply andb_prop in Hok as [Hm' Ha'].
    apply Z.leb_le in Hm', Ha'.
    cbn [app read_terms]. rewrite Hm. cbn [bind].
    destruct (Z.gtb_spec m limb_max); [lia|].
    rewrite Ha. cbn [bind].
    destruct (Z.gtb_spec a arg_max); [lia|].
    eapply IH; eassumption.
Qed.

(** X5. [main] catches nothing.  When the numbers before it pass the
    checks, the first argument that [std::stoul] refuses ends the run by the
    exception thrown: nothing is printed and [main] does not return. *)
Theorem non_numeric_argument_throws fuel s0 pre s post nums e :
  parses pre nums -> prefix_ok nums = true -> stoul s = Throw e ->
  main fuel (s0 :: pre ++ s :: post) = Throw e.
Proof.
  intros Hp Hok Hs.
  assert (H : read_parameters s0 (s0 :: pre ++ s :: post) = Throw e).
  { destruct Hp as [|sp P pre1 nums1 HP Hp1].
    - cbn [app read_parameters]. rewrite Hs. reflexivity.
    - destruct Hp1 as [|sd D pre2 nums2 HD Hp2].
      + cbn [prefix_ok] in Hok. apply Z.leb_le in Hok.
        cbn [app read_parameters]. rewrite HP. cbn [bind].
        destruct (Z.ltb_spec P 1); [lia|]. rewrite Hs. reflexivity.
      + cbn [prefix_ok] in Hok.
        apply andb_prop in Hok as [Hok Hrest]. apply andb_prop in Hok as [HP1 HD0].
        apply Z.leb_le in HP1. apply negb_true_iff, Z.eqb_neq in HD0.
        cbn [app read_parameters]. rewrite HP. cbn [bind].
        destruct (Z.ltb_spec P 1); [lia|]. rewrite HD. cbn [bind].
        destruct (Z.eqb_spec D 0); [contradiction|].
        rewrite (read_terms_throws s0 e s post pre2 nums2 [] [] [] Hp2 Hrest Hs).
        reflexivity. }
  unfold main, compute.
  destruct (pre ++ s :: post) eqn:E; [destruct pre; discriminate E|].
  rewrite H. reflexivity.
Qed.

Lemma non_numeric_argument_witness :
  main 0 ["pi"; "17"; "4"; "5"; "x7"]%string = Throw invalid_argument.
Proof.
  apply (non_numeric_argument_throws 0 "pi" ["17"; "4"; "5"]%string "x7" [] [17; 4; 5]).
  - repeat constructor.
  - reflexivity.
  - reflexivity.
Defined.

(** X6. [initialize_variables] gives the accumulator [block_width] limbs
    for the integer part and, for the fraction, the precision rounded up to
    a multiple of [block_width]; every limb is zero. *)
Theorem accumulator_holds_precision_rounded_up p st :
  1 <= precision p -> precision p + 128 <= 2 ^ 64 ->
  initialize_variables p = Ret st ->
  accumulator st = replicate (length (accumulator st)) 0 /\
  exists k,
    Z.of_nat (length (accumulator st)) = 64 * (k + 1) /\
    64 * (k - 1) < precision p <= 64 * k.
Proof.
  intros H1 H2 H. unfold initialize_variables in H.
  apply bind_Ret_inv in H as (q & _ & H). injection H as <-.
  cbn [accumulator]. rewrite length_replicate. split; [reflexivity|].
  unfold fractional_size. change (Z.of_nat block_width) with 64.
  pose proof (Z.div_mod (precision p) 64 ltac:(lia)) as Hdm.
  pose proof (Z.mod_pos_bound (precision p) 64 ltac:(lia)) as Hm.
  destruct (Z.eqb_spec (precision p mod 64) 0) as [E|E].
  - exists (precision p / 64).
    rewrite to_ulong_small by lia. rewrite Z2Nat.id by lia. lia.
  - exists (precision p / 64 + 1).
    rewrite (to_ulong_small ((precision p / 64 + 1) * 64)) by lia.
    rewrite to_ulong_small by lia. rewrite Z2Nat.id by lia. lia.
Qed.

Lemma accumulator_default_witness :
  exists st, initialize_variables default_params = Ret st /\
  accumulator st = replicate (length (accumulator st)) 0 /\
  exists k,
    Z.of_nat (length (accumulator st)) = 64 * (k + 1) /\
    64 * (k - 1) < precision default_params <= 64 * k.
Proof.
  eexists. split; [reflexivity|].
  apply (accumulator_holds_precision_rounded_up default_params); [cbn; lia|cbn; lia|reflexivity].
Defined.

(** ** The accumulator out of range *)

Lemma get_out_of_bounds (v : list Z) i : (length v <= i)%nat -> get v i = Undefined OutOfBounds.
Proof. intros H. unfold get. rewrite lookup_ge_None_2 by exact H. reflexivity. Qed.

Lemma carry_loop_overflow pre : forall post d offset fuel,
  Forall is_limb pre ->
  0 <= d < 2 ^ 63 ->
  2 ^ (32 * Z.of_nat (length pre)) <= limbs_value pre + d ->
  offset = to_unsigned (Z.of_nat (length pre) - 1) ->
  Z.of_nat (length (pre ++ post)) < 2 ^ 32 ->
  (length pre < fuel)%nat ->
  carry_loop fuel (pre ++ post) d offset = Undefined OutOfBounds.
Proof.
  induction pre as [|a pre IH] using rev_ind; intros post d offset fuel Hl Hd Hv Ho Hlen Hf.
  - destruct fuel; [lia|]. cbn [carry_loop].
    unfold limbs_value in Hv. simpl in Hv.
    destruct (Z.eqb_spec d 0); [lia|].
    subst offset. change (to_unsigned (Z.of_nat (length []) - 1)) with (2 ^ 32 - 1).
    rewrite get_out_of_bounds by lia. reflexivity.
  - destruct fuel as [|fuel]; [lia|].
    apply Forall_app in Hl as [Hl1 Hl2]. inversion Hl2 as [|? ? La _]; subst.
    rewrite !length_app in *. cbn [length] in *.
    rewrite limbs_value_snoc in *.
    pose proof (limbs_value_bound pre Hl1) as VB.
    replace (32 * Z.of_nat (length pre + 1)) with (32 * Z.of_nat (length pre) + 32) in Hv by lia.
    rewrite Z.pow_add_r in Hv by lia.
    unfold is_limb in La.
    cbn [carry_loop]. destruct (Z.eqb_spec d 0) as [->|E].
    { exfalso. remember (2 ^ (32 * Z.of_nat (length pre))) as X. nia. }
    rewrite to_unsigned_small by lia.
    replace (Z.to_nat (Z.of_nat (length pre + 1) - 1)) with (length pre) by lia.
    rewrite <- app_assoc.
    rewrite (get_Ret _ _ _ (lookup_snoc_app pre post a)). cbn [bind].
    rewrite set_Ret by (rewrite !length_app; simpl; lia). cbn [bind].
    rewrite insert_snoc_app.
    rewrite (to_limb2_small (d + a)) by lia.
    unfold limb_bits. rewrite Z.shiftr_div_pow2 by lia. rewrite to_limb_mod.
    pose proof (Z.div_mod (d + a) (2 ^ 32) ltac:(lia)) as DM.
    pose proof (Z.mod_pos_bound (d + a) (2 ^ 32) ltac:(lia)) as MB.
    assert (0 <= (d + a) / 2 ^ 32) by (apply Z.div_pos; lia).
    assert ((d + a) / 2 ^ 32 < 2 ^ 63) by (apply Z.div_lt_upper_bound; lia).
    apply IH; try lia; auto.
    + f_equal. lia.
    + rewrite !length_app. cbn [length]. lia.
Qed.

Lemma borrow_loop_underflow pre : forall post d offset fuel,
  Forall is_limb pre ->
  0 <= d < 2 ^ 64 ->
  limbs_value pre < d ->
  offset = to_unsigned (Z.of_nat (length pre) - 1) ->
  Z.of_nat (length (pre ++ post)) < 2 ^ 32 ->
  (length pre < fuel)%nat ->
  borrow_loop fuel (pre ++ post) d offset = Undefined OutOfBounds.
Proof.
  induction pre as [|a pre IH] using rev_ind; intros post d offset fuel Hl Hd Hv Ho Hlen Hf.
  - destruct fuel; [lia|]. cbn [borrow_loop].
    subst offset. change (to_unsigned (Z.of_nat (length []) - 1)) with (2 ^ 32 - 1).
    rewrite get_out_of_bounds by lia. reflexivity.
  - destruct fuel as [|fuel]; [lia|].
    apply Forall_app in Hl as [Hl1 Hl2]. inversion Hl2 as [|? ? La _]; subst.
    rewrite !length_app in *. cbn [length] in *.
    rewrite limbs_value_snoc in *.
    pose proof (limbs_value_bound pre Hl1) as VB.
    unfold is_limb in La.
    cbn [borrow_loop].
    rewrite to_unsigned_small by lia.
    replace (Z.to_nat (Z.of_nat (length pre + 1) - 1)) with (length pre) by lia.
    rewrite <- app_assoc.
    rewrite (get_Ret _ _ _ (lookup_snoc_app pre post a)). cbn [bind].
    destruct (Z.gtb_spec d a) as [Hda|Hda]; [|lia].
    unfold limb_bits. rewrite !Z.shiftr_div_pow2 by lia. rewrite to_limb_mod.
    pose proof (Z.div_mod d (2 ^ 32) ltac:(lia)) as DM.
    pose proof (Z.mod_pos_bound d (2 ^ 32) ltac:(lia)) as MB.
    assert (0 <= d / 2 ^ 32) by (apply Z.div_pos; lia).
    assert (d / 2 ^ 32 < 2 ^ 32) by (apply Z.div_lt_upper_bound; lia).
    destruct (Z.gtb_spec (d mod 2 ^ 32) a) as [Hlow|Hlow].
    + rewrite Z.shiftl_1_l.
      rewrite (to_limb2_small (2 ^ 32 + a - d mod 2 ^ 32)) by lia.
      rewrite set_Ret by (rewrite !length_app; simpl; lia). cbn [bind].
      rewrite insert_snoc_app.
      rewrite Z.div_small by lia. cbn [Z.eqb].
      rewrite (to_limb2_small (d / 2 ^ 32 + 1)) by lia.
      apply IH; try lia; auto.
      * f_equal. lia.
      * rewrite !length_app. cbn [length]. lia.
    + rewrite set_Ret by (rewrite !length_app; simpl; lia). cbn [bind].
      rewrite insert_snoc_app.
      apply IH; try lia; auto.
      * f_equal. lia.
      * rewrite !length_app. cbn [length]. lia.
Qed.

Lemma accumulate_out_of_range_is_undefined_aux (acc : list Z) (delta o : Z) (fuel : nat) :
  Forall is_limb acc ->
  - 2 ^ 63 <= delta < 2 ^ 63 ->
  0 <= o < Z.of_nat (length acc) ->
  Z.of_nat (length acc) < 2 ^ 32 ->
  (delta < 0 /\ limbs_value (take (Z.to_nat o + 1) acc) < - delta) \/
  (0 <= delta /\ 2 ^ (32 * (o + 1)) <= limbs_value (take (Z.to_nat o + 1) acc) + delta) ->
  (Z.to_nat o + 1 < fuel)%nat ->
  accumulate fuel acc delta o = Undefined OutOfBounds.
Proof.
  intros Hl Hd Ho Hlen Hcase Hf.
  pose proof (take_drop (Z.to_nat o + 1) acc) as Hsplit.
  set (pre := take (Z.to_nat o + 1) acc) in *.
  set (post := drop (Z.to_nat o + 1) acc) in *.
  assert (Hpre : length pre = (Z.to_nat o + 1)%nat).
  { unfold pre. rewrite length_take. lia. }
  assert (Hlpre : Forall is_limb pre) by (apply Forall_take; exact Hl).
  clearbody pre post. subst acc. clear Hl.
  unfold accumulate. destruct Hcase as [[Hneg Hv]|[Hpos Hv]].
  - destruct (Z.ltb_spec delta 0); [|lia].
    rewrite (to_limb2_small (- delta)) by lia.
    rewrite (borrow_loop_underflow pre post (- delta) o fuel); try lia; auto.
    rewrite Hpre. rewrite to_unsigned_small; lia.
  - destruct (Z.ltb_spec delta 0); [lia|].
    apply carry_loop_overflow; try lia; auto.
    + rewrite Hpre. replace (Z.of_nat (Z.to_nat o + 1)) with (o + 1) by lia. exact Hv.
    + rewrite Hpre. rewrite to_unsigned_small; lia.
Qed.

(** X7. Out of range [accumulate] leaves the accumulator: when [|delta|]
    exceeds what the limbs [0..o] hold, or the carry goes beyond limb 0, the
    offset wraps around below zero and the next access is out of bounds. *)
Theorem accumulate_out_of_range_is_undefined (acc : list Z) (delta o : Z) (fuel : nat) :
  Forall is_limb acc ->
  - 2 ^ 63 <= delta < 2 ^ 63 ->
  0 <= o < Z.of_nat (length acc) ->
  Z.of_nat (length acc) < 2 ^ 32 ->
  (delta < 0 /\ limbs_value (take (Z.to_nat o + 1) acc) < - delta) \/
  (0 <= delta /\ 2 ^ (32 * (o + 1)) <= limbs_value (take (Z.to_nat o + 1) acc) + delta) ->
  (Z.to_nat o + 1 < fuel)%nat ->
  accumulate fuel acc delta o = Undefined OutOfBounds.
Proof. apply accumulate_out_of_range_is_undefined_aux. Qed.

Lemma accumulate_carry_out_witness :
  accumulate 3 [4294967295; 7] 1 0 = Undefined OutOfBounds.
Proof.
  apply (accumulate_out_of_range_is_undefined [4294967295; 7] 1 0 3).
  - repeat constructor; unfold is_limb; lia.
  - lia.
  - simpl. lia.
  - simpl. lia.
  - right. vm_compute. split; discriminate.
  - simpl. lia.
Defined.

Lemma accumulate_in_range (acc : list Z) (delta o : Z) (fuel : nat) :
  Forall is_limb acc ->
  - 2 ^ 63 <= delta < 2 ^ 63 ->
  0 <= o < Z.of_nat (length acc) ->
  o < 2 ^ 32 ->
  (delta < 0 -> - delta <= limbs_value (take (Z.to_nat o + 1) acc)) ->
  (0 <= delta -> limbs_value (take (Z.to_nat o + 1) acc) + delta < 2 ^ (32 * (o + 1))) ->
  (Z.to_nat o + 1 < fuel)%nat ->
  exists acc',
    accumulate fuel acc delta o = Ret acc' /\
    length acc' = length acc /\
    Forall is_limb acc' /\
    limbs_value acc'
    = limbs_value acc + delta * 2 ^ (32 * (Z.of_nat (length acc) - 1 - o)).
Proof.
  intros Hl Hd Ho Ho32 Hneg Hpos Hf.
  pose proof (take_drop (Z.to_nat o + 1) acc) as Hsplit.
  set (pre := take (Z.to_nat o + 1) acc) in *.
  set (post := drop (Z.to_nat o + 1) acc) in *.
  assert (Hpre : length pre = (Z.to_nat o + 1)%nat).
  { unfold pre. rewrite length_take. lia. }
  assert (Hpost : Z.of_nat (length post) = Z.of_nat (length acc) - 1 - o).
  { unfold post. rewrite length_drop. lia. }
  assert (Hlpre : Forall is_limb pre) by (apply Forall_take; exact Hl).
  assert (Hlpost : Forall is_limb post) by (apply Forall_drop; exact Hl).
  clearbody pre post. subst acc. clear Hl.
  replace (32 * (Z.of_nat (length (pre ++ post)) - 1 - o))
    with (32 * Z.of_nat (length post)) by lia.
  rewrite length_app in Ho. clear Hpost.
  unfold accumulate. destruct (delta <? 0) eqn:E.
  - apply Z.ltb_lt in E.
    rewrite (to_limb2_small (- delta)) by lia.
    destruct (borrow_spec pre post (- delta) o fuel) as (pre' & Hrun & Hlen' & Hl' & Hv');
      try lia; auto.
    { intros Hnil. rewrite Hnil in Hpre. simpl in Hpre. lia. }
    exists (pre' ++ post). split; [exact Hrun|].
    rewrite !length_app, !limbs_value_app, Hv', Hlen'.
    repeat split; [apply Forall_app; auto|]. ring.
  - apply Z.ltb_ge in E.
    destruct (carry_loop_spec pre post delta o fuel) as (pre' & Hrun & Hlen' & Hl' & Hv');
      try lia; auto.
    { rewrite Hpre. replace (Z.of_nat (Z.to_nat o + 1)) with (o + 1) by lia. auto. }
    exists (pre' ++ post). split; [exact Hrun|].
    rewrite !length_app, !limbs_value_app, Hv', Hlen'.
    repeat split; [apply Forall_app; auto|]. ring.
Qed.

(** Whenever [accumulate] returns, it has added [delta] at [offset]. *)
Lemma accumulate_Ret_exact (acc : list Z) (delta o : Z) (fuel : nat) acc' :
  Forall is_limb acc ->
  - 2 ^ 63 <= delta < 2 ^ 63 ->
  0 <= o < 2 ^ 32 ->
  Z.of_nat (length acc) < 2 ^ 32 ->
  accumulate fuel acc delta o = Ret acc' ->
  length acc' = length acc /\
  Forall is_limb acc' /\
  limbs_value acc'
  = limbs_value acc + delta * 2 ^ (32 * (Z.of_nat (length acc) - 1 - o)) /\
  (delta <> 0 -> o < Z.of_nat (length acc) /\
     0 <= limbs_value (take (Z.to_nat o + 1) acc) + delta < 2 ^ (32 * (o + 1))).
Proof.
  intros Hl Hd Ho Hlen H.
  destruct (Z.eq_dec delta 0) as [->|Hne].
  { unfold accumulate in H. cbn [Z.ltb Z.compare] in H.
    destruct fuel; [discriminate H|]. cbn in H. injection H as <-.
    repeat split; auto; try lia. }
  assert (Hin : o < Z.of_nat (length acc)).
  { destruct (Z.lt_ge_cases o (Z.of_nat (length acc))) as [|Hge]; [assumption|].
    exfalso. unfold accumulate in H. destruct (delta <? 0).
    - destruct fuel; [discriminate H|]. cbn [borrow_loop] in H.
      rewrite get_out_of_bounds in H by lia. discriminate H.
    - destruct fuel; [discriminate H|]. cbn [carry_loop] in H.
      destruct (Z.eqb_spec delta 0); [contradiction|].
      rewrite get_out_of_bounds in H by lia. discriminate H. }
  set (F := (fuel + Z.to_nat o + 2)%nat).
  assert (HF : accumulate F acc delta o = Ret acc').
  { apply (accumulate_mono fuel F); [unfold F; lia|exact H]. }
  pose proof (limbs_value_bound (take (Z.to_nat o + 1) acc) (Forall_take _ _ _ Hl)) as VB.
  rewrite length_take, Nat.min_l in VB by lia.
  replace (32 * Z.of_nat (Z.to_nat o + 1)) with (32 * (o + 1)) in VB by lia.
  destruct (Z.lt_ge_cases delta 0) as [Hneg|Hpos].
  - destruct (Z.lt_ge_cases (limbs_value (take (Z.to_nat o + 1) acc)) (- delta)) as [Hu|Hok].
    + rewrite (accumulate_out_of_range_is_undefined_aux acc delta o F) in HF; try lia; auto.
      discriminate HF.
    + destruct (accumulate_in_range acc delta o F) as (acc2 & Hrun & Hlen2 & Hl2 & Hv2);
        try lia; auto; try (unfold F; lia).
      rewrite Hrun in HF. injection HF as <-.
      repeat split; auto; lia.
  - destruct (Z.lt_ge_cases (limbs_value (take (Z.to_nat o + 1) acc) + delta)
                (2 ^ (32 * (o + 1)))) as [Hok|Hu].
    + destruct (accumulate_in_range acc delta o F) as (acc2 & Hrun & Hlen2 & Hl2 & Hv2);
        try lia; auto; try (unfold F; lia).
      rewrite Hrun in HF. injection HF as <-.
      repeat split; auto; lia.
    + rewrite (accumulate_out_of_range_is_undefined_aux acc delta o F) in HF; try lia; auto.
      discriminate HF.
Qed.

(** X8. Whenever [accumulate] returns, it has added
    [delta * 2^(32 * (L - 1 - o))] to the accumulator, limbs and length
    kept; and for a [delta] that is not zero the sum fitted in the limbs
    [0..o]. *)
Theorem accumulate_returns_only_in_range (acc : list Z) (delta o : Z) (fuel : nat) acc' :
  Forall is_limb acc ->
  - 2 ^ 63 <= delta < 2 ^ 63 ->
  0 <= o < 2 ^ 32 ->
  Z.of_nat (length acc) < 2 ^ 32 ->
  accumulate fuel acc delta o = Ret acc' ->
  length acc' = length acc /\
  Forall is_limb acc' /\
  limbs_value acc'
  = limbs_value acc + delta * 2 ^ (32 * (Z.of_nat (length acc) - 1 - o)) /\
  (delta <> 0 -> o < Z.of_nat (length acc) /\
     0 <= limbs_value (take (Z.to_nat o + 1) acc) + delta < 2 ^ (32 * (o + 1))).
Proof. apply accumulate_Ret_exact. Qed.

Lemma accumulate_returns_witness :
  length [0; 4294967295; 7] = length [2; 1; 7] /\
  Forall is_limb [0; 4294967295; 7] /\
  limbs_value [0; 4294967295; 7]
  = limbs_value [2; 1; 7] + - 4294967298 * 2 ^ (32 * (Z.of_nat (length [2; 1; 7]) - 1 - 1)) /\
  (- 4294967298 <> 0 -> 1 < Z.of_nat (length [2; 1; 7]) /\
     0 <= limbs_value (take (Z.to_nat 1 + 1) [2; 1; 7]) + - 4294967298 < 2 ^ (32 * (1 + 1))).
Proof.
  apply (accumulate_returns_only_in_range [2; 1; 7] (- 4294967298) 1 5 [0; 4294967295; 7]).
  - apply limbs_check. reflexivity.
  - lia.
  - lia.
  - simpl. lia.
  - reflexivity.
Defined.

(** ** A block is a long division *)

Lemma term_quotients_length K sq : forall rs ys,
  length rs = length sq -> length ys = length sq ->
  length (term_quotients K sq rs ys) = length sq.
Proof.
  induction sq as [|a sq IH]; intros [|r rs] [|y ys] Hr Hy; try discriminate; [reflexivity|].
  cbn [term_quotients length]. f_equal. apply IH; simpl in *; lia.
Qed.

Lemma term_remainders_length K sq : forall rs ys,
  length rs = length sq -> length ys = length sq ->
  length (term_remainders K sq rs ys) = length sq.
Proof.
  induction sq as [|a sq IH]; intros [|r rs] [|y ys] Hr Hy; try discriminate; [reflexivity|].
  cbn [term_remainders length]. f_equal. apply IH; simpl in *; lia.
Qed.

Lemma term_remainders_ok K sq : forall rs ys,
  Forall (fun a => 0 < a) sq ->
  length rs = length sq -> length ys = length sq ->
  Forall2 (fun x a => 0 <= x < a) (term_remainders K sq rs ys) sq.
Proof.
  induction sq as [|a sq IH]; intros [|r rs] [|y ys] Hsq Hr Hy; try discriminate;
    [constructor|].
  inversion Hsq; subst.
  cbn [term_remainders]. constructor.
  - apply Z.mod_pos_bound. assumption.
  - apply IH; simpl in *; auto; lia.
Qed.

Lemma term_quotients_limbs sq : forall rs ys,
  Forall2 (fun x a => 0 <= x < a) rs sq ->
  Forall is_limb ys -> length ys = length sq ->
  Forall is_limb (term_quotients (2 ^ 32) sq rs ys) /\
  0 <= sum_list (term_quotients (2 ^ 32) sq rs ys) <= Z.of_nat (length sq) * (2 ^ 32 - 1).
Proof.
  induction sq as [|a sq IH]; intros rs ys Hrs Hys Hlen.
  - inversion Hrs; subst. cbn. split; [constructor|lia].
  - inversion Hrs as [|r ? rs' ? Hr Hrs']; subst.
    destruct ys as [|y ys]; [discriminate|]. inversion Hys as [|? ? Hy Hys']; subst.
    cbn [term_quotients sum_list fold_right].
    destruct (IH rs' ys Hrs' Hys' ltac:(simpl in Hlen; lia)) as [IH1 IH2].
    unfold is_limb in Hy.
    assert (Hq : 0 <= (r * 2 ^ 32 + y) / a < 2 ^ 32).
    { split; [apply Z.div_pos; lia|]. apply Z.div_lt_upper_bound; nia. }
    split.
    + constructor; [exact Hq|exact IH1].
    + fold (sum_list (term_quotients (2 ^ 32) sq rs' ys)).
      cbn [length]. lia.
Qed.

Lemma term_loop_run : forall sqb sqa rs ys qpre qb ra rb sum qpos,
  length qpre = (qpos + length sqa)%nat ->
  Forall2 (fun x a => 0 <= x < a) rs sqb ->
  Forall (fun a => a < 2 ^ 32) sqb ->
  Forall is_limb ys -> length ys = length sqb ->
  0 <= sum -> sum + Z.of_nat (length sqb) * 2 ^ 32 <= 2 ^ 64 ->
  term_loop (sqa ++ sqb) (length sqb) (length sqa) qpos (qpre ++ ys ++ qb)
    (ra ++ rs ++ rb) (length ra) sum
  = Ret (qpre ++ term_quotients (2 ^ 32) sqb rs ys ++ qb,
         ra ++ term_remainders (2 ^ 32) sqb rs ys ++ rb,
         (length ra + length sqb)%nat,
         sum + sum_list (term_quotients (2 ^ 32) sqb rs ys)).
Proof.
  induction sqb as [|a sqb IH]; intros sqa rs ys qpre qb ra rb sum qpos Hq Hrs Hsq Hys Hlen Hs0 Hs1.
  - inversion Hrs; subst. destruct ys; [|discriminate].
    cbn. rewrite Nat.add_0_r, Z.add_0_r. reflexivity.
  - inversion Hrs as [|r ? rs' ? Hr Hrs']; subst.
    destruct ys as [|y ys]; [discriminate|]. inversion Hys as [|? ? Hy Hys']; subst.
    inversion Hsq as [|? ? Ha Hsq']; subst.
    cbn [length] in *. unfold is_limb in Hy.
    cbn [term_loop term_quotients term_remainders sum_list fold_right].
    fold (sum_list (term_quotients (2 ^ 32) sqb rs' ys)).
    change ((r :: rs') ++ rb) with ([r] ++ rs' ++ rb).
    rewrite (get_Ret _ _ _ (lookup_snoc_app ra (rs' ++ rb) r)). cbn [bind].
    rewrite <- Hq.
    change ((y :: ys) ++ qb) with ([y] ++ ys ++ qb).
    rewrite (get_Ret _ _ _ (lookup_snoc_app qpre (ys ++ qb) y)). cbn [bind].
    rewrite (get_Ret (sqa ++ a :: sqb) (length sqa) a) by apply list_lookup_middle, eq_refl.
    cbn [bind].
    destruct (Z.eqb_spec a 0) as [->|Ha0]; [lia|].
    rewrite div_eucl_fst, div_eucl_snd.
    unfold limb_bits. rewrite Z.shiftl_mul_pow2 by lia.
    rewrite (to_limb2_small (r * 2 ^ 32)) by nia.
    rewrite (to_limb2_small (r * 2 ^ 32 + y)) by nia.
    assert (Hquot : 0 <= (r * 2 ^ 32 + y) / a < 2 ^ 32).
    { split; [apply Z.div_pos; lia|]. apply Z.div_lt_upper_bound; nia. }
    pose proof (Z.mod_pos_bound (r * 2 ^ 32 + y) a ltac:(lia)) as Hrem.
    rewrite (to_limb_small ((r * 2 ^ 32 + y) / a)) by exact Hquot.
    rewrite (to_limb_small ((r * 2 ^ 32 + y) mod a)) by (unfold is_limb; lia).
    rewrite set_Ret by (rewrite !length_app; cbn [length]; lia). cbn [bind].
    rewrite insert_snoc_app.
    rewrite set_Ret by (rewrite !length_app; cbn [length]; lia). cbn [bind].
    rewrite insert_snoc_app.
    rewrite (to_limb2_small (sum + (r * 2 ^ 32 + y) / a)) by lia.
    specialize (IH (sqa ++ [a]) rs' ys (qpre ++ [(r * 2 ^ 32 + y) / a]) qb
                  (ra ++ [(r * 2 ^ 32 + y) mod a]) rb (sum + (r * 2 ^ 32 + y) / a) qpos).
    rewrite !length_app in IH. cbn [length] in IH.
    rewrite <- !app_assoc in IH. cbn [app] in IH.
    replace (length sqa + 1)%nat with (S (length sqa)) in IH by lia.
    replace (length ra + 1)%nat with (S (length ra)) in IH by lia.
    cbn [app]. rewrite IH; auto; try lia.
    f_equal. f_equal; [|lia]. f_equal. lia.
Qed.

Lemma rows_ok_lengths sq : forall rows divisor,
  rows_ok sq divisor rows -> Forall (fun r : row => length (fst r) = length sq) rows.
Proof.
  induction rows as [|r rest IH]; intros divisor H; [constructor|].
  destruct H as [[H1 _] H2]. constructor.
  - eapply Forall2_length, H1.
  - eapply IH, H2.
Qed.

(** The pure block on limbs: what it returns stays within the machine types. *)
Lemma divide_block_bounds sq : forall rows divisor addition qs ys rows' d,
  Forall (fun a => 0 < a) sq ->
  rows_ok sq divisor rows ->
  Forall is_limb qs -> length qs = length sq ->
  1 <= divisor ->
  divide_block (2 ^ 32) sq divisor addition qs rows = (ys, rows', d) ->
  Forall is_limb ys /\ length ys = length sq /\
  rows_ok sq divisor rows' /\ length rows' = length rows /\
  Z.abs d <= Z.of_nat (length rows) * (2 ^ 32 * (Z.of_nat (length sq) + 1)).
Proof.
  induction rows as [|[rs rd] rest IH]; intros divisor addition qs ys rows' d Hsq Hok Hqs Hlen Hdiv H.
  - cbn in H. injection H as <- <- <-. cbn. repeat split; auto. lia.
  - destruct Hok as [[Hrs Hrd] Hrest]. cbn [fst snd] in *.
    cbn [divide_block fst snd] in H.
    destruct (divide_block (2 ^ 32) sq (divisor + 2) (negb addition)
                (term_quotients (2 ^ 32) sq rs qs) rest) as [[ysf rest1] d1] eqn:E.
    injection H as <- <- <-.
    destruct (term_quotients_limbs sq rs qs Hrs Hqs Hlen) as [Hl Hs].
    pose proof (Forall2_length _ _ _ Hrs) as Hrl.
    destruct (IH _ _ _ _ _ _ Hsq Hrest Hl (term_quotients_length _ _ _ _ Hrl Hlen)
                ltac:(lia) E) as (I1 & I2 & I3 & I4 & I5).
    split; [exact I1|]. split; [exact I2|]. split.
    + split; [|exact I3]. split; cbn [fst snd].
      * apply term_remainders_ok; auto.
      * apply Z.mod_pos_bound. lia.
    + split; [cbn [length]; lia|].
      set (total := rd * 2 ^ 32 + sum_list (term_quotients (2 ^ 32) sq rs qs)) in *.
      assert (Ht : 0 <= total / divisor < 2 ^ 32 * (Z.of_nat (length sq) + 1)).
      { split; [apply Z.div_pos; lia|]. apply Z.div_lt_upper_bound; [lia|].
        unfold total. nia. }
      cbn [length]. rewrite Nat2Z.inj_succ. destruct addition; lia.
Qed.

Lemma row_loop_run sq : forall rows fuel qa qs qb ra divisor addition delta ys rows' d,
  Forall (fun a => 0 < a < 2 ^ 32) sq ->
  rows_ok sq divisor rows ->
  Forall is_limb qs -> length qs = length sq ->
  1 <= divisor ->
  divisor + 2 * Z.of_nat (length rows) + Z.of_nat (length sq) < 2 ^ 32 ->
  Z.abs delta + Z.of_nat (length rows) * (2 ^ 32 * (Z.of_nat (length sq) + 1)) < 2 ^ 63 ->
  (length rows < fuel)%nat ->
  divide_block (2 ^ 32) sq divisor addition qs rows = (ys, rows', d) ->
  row_loop fuel sq (length sq) (length qa) (qa ++ qs ++ qb) (ra ++ flat_rows rows)
    (length ra) divisor addition delta
  = Ret (qa ++ ys ++ qb, ra ++ flat_rows rows', delta + d).
Proof.
  induction rows as [|[rs rd] rest IH];
    intros fuel qa qs qb ra divisor addition delta ys rows' d Hsq Hok Hqs Hlen Hdiv Hwrap Hdelta Hf H.
  - cbn in H. injection H as <- <- <-.
    destruct fuel; [simpl in Hf; lia|]. cbn [row_loop flat_rows].
    rewrite app_nil_r, Nat.eqb_refl, Z.add_0_r. reflexivity.
  - destruct Hok as [[Hrs Hrd] Hrest]. cbn [fst snd] in *.
    cbn [divide_block fst snd] in H.
    destruct (divide_block (2 ^ 32) sq (divisor + 2) (negb addition)
                (term_quotients (2 ^ 32) sq rs qs) rest) as [[ysf rest1] d1] eqn:E.
    injection H as <- <- <-.
    destruct fuel as [|fuel]; [simpl in Hf; lia|].
    cbn [length] in *. rewrite Nat2Z.inj_succ in *.
    assert (Hpos : Forall (fun a => 0 < a) sq) by (eapply Forall_impl; [exact Hsq|]; simpl; lia).
    assert (Hlt : Forall (fun a => a < 2 ^ 32) sq) by (eapply Forall_impl; [exact Hsq|]; simpl; lia).
    destruct (term_quotients_limbs sq rs qs Hrs Hqs Hlen) as [Hl Hs].
    pose proof (Forall2_length _ _ _ Hrs) as Hrl.
    pose proof (term_quotients_length (2 ^ 32) sq rs qs Hrl Hlen) as Hql.
    pose proof (term_remainders_length (2 ^ 32) sq rs qs Hrl Hlen) as Hrml.
    cbn [row_loop flat_rows fst snd].
    destruct (Nat.eqb_spec (length ra) (length (ra ++ rs ++ rd :: flat_rows rest))) as [Hbad|_].
    { rewrite !length_app in Hbad. cbn [length] in Hbad. lia. }
    pose proof (term_loop_run sq [] rs qs qa qb ra (rd :: flat_rows rest) 0 (length qa)
                  ltac:(simpl; lia) Hrs Hlt Hqs Hlen ltac:(lia) ltac:(lia)) as Hterm.
    cbn [app length] in Hterm. rewrite Hterm. cbn [bind]. clear Hterm.
    set (tq := term_quotients (2 ^ 32) sq rs qs) in *.
    set (tr := term_remainders (2 ^ 32) sq rs qs) in *.
    rewrite Z.add_0_l.
    assert (Hget : (ra ++ tr ++ rd :: flat_rows rest) !! (length ra + length sq)%nat = Some rd).
    { rewrite app_assoc. apply list_lookup_middle. rewrite length_app. lia. }
    rewrite (get_Ret _ _ _ Hget). cbn [bind].
    unfold limb_bits. rewrite Z.shiftl_mul_pow2 by lia.
    rewrite (to_limb2_small (rd * 2 ^ 32)) by nia.
    rewrite (to_limb2_small (sum_list tq + rd * 2 ^ 32)) by nia.
    destruct (Z.eqb_spec divisor 0) as [->|_]; [lia|].
    rewrite div_eucl_fst, div_eucl_snd.
    replace (sum_list tq + rd * 2 ^ 32) with (rd * 2 ^ 32 + sum_list tq) by lia.
    set (total := rd * 2 ^ 32 + sum_list tq) in *.
    pose proof (Z.mod_pos_bound total divisor ltac:(lia)) as Hmod.
    assert (Ht : 0 <= total / divisor < 2 ^ 32 * (Z.of_nat (length sq) + 1)).
    { split; [apply Z.div_pos; lia|]. apply Z.div_lt_upper_bound; [lia|].
      unfold total. nia. }
    rewrite (to_limb_small (total mod divisor)) by (unfold is_limb; lia).
    rewrite set_Ret by (rewrite !length_app; cbn [length]; lia). cbn [bind].
    replace (<[(length ra + length sq)%nat := total mod divisor]> (ra ++ tr ++ rd :: flat_rows rest))
      with ((ra ++ tr ++ [total mod divisor]) ++ flat_rows rest).
    2:{ rewrite (app_assoc ra tr (rd :: _)).
        replace (length ra + length sq)%nat with (length (ra ++ tr)) by (rewrite length_app; lia).
        change (rd :: flat_rows rest) with ([rd] ++ flat_rows rest).
        rewrite insert_snoc_app. rewrite <- !app_assoc. reflexivity. }
    rewrite (to_unsigned_small (divisor + 2)) by lia.
    replace (S (length ra + length sq)) with (length (ra ++ tr ++ [total mod divisor]))
      by (rewrite !length_app; cbn [length]; lia).
    assert (Hd1 : (if addition then to_signed2 (delta + total / divisor)
                   else to_signed2 (delta - total / divisor))
                  = delta + (if addition then total / divisor else - (total / divisor))).
    { destruct addition; rewrite to_signed2_small; lia. }
    rewrite Hd1.
    rewrite (IH fuel qa tq qb (ra ++ tr ++ [total mod divisor]) (divisor + 2) (negb addition)
               (delta + (if addition then total / divisor else - (total / divisor)))
               ysf rest1 d1); auto; try lia.
    + rewrite <- !app_assoc. cbn [app]. f_equal. f_equal. lia.
    + destruct addition; lia.
Qed.

Lemma slot_loop_inv p divisor :
  length (args p) = length (arg_sq p) ->
  (0 < length (arg_sq p))%nat ->
  Forall (fun a => 0 < a < 2 ^ 32) (arg_sq p) ->
  1 <= divisor ->
  forall slots fuel qdone acc rows o q1 acc1 rem1,
  Forall (fun xs => length xs = length (arg_sq p) /\ Forall is_limb xs) slots ->
  rows_ok (arg_sq p) divisor rows ->
  divisor + 2 * Z.of_nat (length rows) + Z.of_nat (length (arg_sq p)) < 2 ^ 32 ->
  Z.of_nat (length rows) * (2 ^ 32 * (Z.of_nat (length (arg_sq p)) + 1)) < 2 ^ 63 ->
  Forall is_limb acc -> Z.of_nat (length acc) < 2 ^ 32 ->
  0 <= o -> o + Z.of_nat (length slots) <= Z.of_nat (length acc) ->
  slot_loop fuel p (length (arg_sq p)) divisor (length qdone) o (qdone ++ concat slots) acc
    (flat_rows rows) = Ret (q1, acc1, rem1) ->
  exists slots' rows' ds,
    divide_slots (arg_sq p) divisor slots rows = (slots', rows', ds) /\
    q1 = qdone ++ concat slots' /\ rem1 = flat_rows rows' /\
    length acc1 = length acc /\ Forall is_limb acc1 /\
    limbs_value acc1 = limbs_value acc + place (Z.of_nat (length acc)) o ds.
Proof.
  intros Hargs HN Hsq Hdiv.
  assert (Hpos : Forall (fun a => 0 < a) (arg_sq p))
    by (eapply Forall_impl; [exact Hsq|]; simpl; lia).
  induction slots as [|xs rest IH];
    intros fuel qdone acc rows o q1 acc1 rem1 Hslots Hok Hwrap Hbound Hacc Hlen Ho Hol H.
  - destruct fuel; [discriminate H|]. cbn [slot_loop concat] in H.
    rewrite app_nil_r, Nat.eqb_refl in H. injection H as <- <- <-.
    exists [], rows, []. cbn. rewrite app_nil_r, Z.add_0_r. auto 10.
  - destruct fuel as [|fuel]; [discriminate H|].
    inversion Hslots as [|? ? [Hxl Hxs] Hrest]; subst.
    cbn [length] in Hol. rewrite Nat2Z.inj_succ in Hol.
    cbn [slot_loop concat] in H.
    destruct (Nat.eqb_spec (length qdone) (length (qdone ++ xs ++ concat rest))) as [Hbad|_].
    { rewrite !length_app in Hbad. lia. }
    apply bind_Ret_inv in H as ([[q2 rem2] delta] & Hrow & H).
    destruct (divide_block (2 ^ 32) (arg_sq p) divisor true xs rows) as [[ys rows1] d] eqn:E.
    pose proof (row_loop_run (arg_sq p) rows (fuel + length rows + 1) qdone xs (concat rest) []
                  divisor true 0 ys rows1 d Hsq Hok Hxs Hxl Hdiv Hwrap
                  ltac:(simpl; lia) ltac:(lia) E) as Hrun.
    cbn [app length] in Hrun.
    apply (row_loop_mono _ _ _ fuel (fuel + length rows + 1)) in Hrow; [|lia].
    rewrite Hrun in Hrow. injection Hrow as <- <- <-. clear Hrun.
    destruct (divide_block_bounds _ _ _ _ _ _ _ _ Hpos Hok Hxs Hxl Hdiv E)
      as (Hys & Hyl & Hok1 & Hrl1 & Hd).
    apply bind_Ret_inv in H as (acc2 & Hacc2 & H).
    rewrite Z.add_0_l in Hacc2.
    destruct (accumulate_Ret_exact acc d o fuel acc2 Hacc ltac:(lia) ltac:(lia) Hlen Hacc2)
      as (Hl2 & Hlimb2 & Hv2 & _).
    rewrite (to_unsigned_small (o + 1)) in H by lia.
    rewrite Hargs in H.
    replace (length qdone + length (arg_sq p))%nat with (length (qdone ++ ys)) in H
      by (rewrite length_app; lia).
    rewrite (app_assoc qdone ys) in H.
    destruct (IH fuel (qdone ++ ys) acc2 rows1 (o + 1) q1 acc1 rem1 Hrest Hok1
                ltac:(lia) ltac:(lia) Hlimb2 ltac:(lia) ltac:(lia) ltac:(lia) H)
      as (slots' & rows' & ds & Eslots & -> & -> & Hl1 & Hlimb1 & Hv1).
    exists (ys :: slots'), rows', (d :: ds).
    cbn [divide_slots]. rewrite E, Eslots.
    split; [reflexivity|]. split; [cbn [concat]; rewrite <- app_assoc; reflexivity|].
    split; [reflexivity|]. split; [lia|]. split; [exact Hlimb1|].
    cbn [place]. rewrite Hv1, Hv2, Hl2. lia.
Qed.

(** ** The slots together: a division in base [2^(32 * slots)] *)

Lemma extend_length vs xs : length xs = length vs -> length (extend vs xs) = length vs.
Proof. intros H. unfold extend. rewrite length_zip_with. lia. Qed.

Lemma sum_extend : forall vs xs, length xs = length vs ->
  sum_list (extend vs xs) = sum_list vs * 2 ^ 32 + sum_list xs.
Proof.
  induction vs as [|v vs IH]; intros [|x xs] H; try discriminate; [reflexivity|].
  cbn [extend zip_with sum_list fold_right].
  fold (extend vs xs). fold (sum_list (extend vs xs)). fold (sum_list vs). fold (sum_list xs).
  rewrite IH by (simpl in H; lia). ring.
Qed.

Lemma div_compose T a x :
  0 < a ->
  (T * 2 ^ 32 + x) / a = T / a * 2 ^ 32 + (T mod a * 2 ^ 32 + x) / a /\
  (T * 2 ^ 32 + x) mod a = (T mod a * 2 ^ 32 + x) mod a.
Proof.
  intros Ha.
  pose proof (Z.div_mod T a ltac:(lia)) as DM.
  replace (T * 2 ^ 32 + x) with (T / a * 2 ^ 32 * a + (T mod a * 2 ^ 32 + x)) by nia.
  split.
  - rewrite Z.div_add_l by lia. reflexivity.
  - rewrite Z.add_comm, Z.mod_add by lia. reflexivity.
Qed.

Lemma term_compose K sq : forall rs Ys xs,
  Forall (fun a => 0 < a) sq ->
  length rs = length sq -> length Ys = length sq -> length xs = length sq ->
  term_quotients (K * 2 ^ 32) sq rs (extend Ys xs)
  = extend (term_quotients K sq rs Ys)
      (term_quotients (2 ^ 32) sq (term_remainders K sq rs Ys) xs) /\
  term_remainders (K * 2 ^ 32) sq rs (extend Ys xs)
  = term_remainders (2 ^ 32) sq (term_remainders K sq rs Ys) xs.
Proof.
  induction sq as [|a sq IH]; intros [|r rs] [|Y Ys] [|x xs] Hsq Hr HY Hx;
    try discriminate; [split; reflexivity|].
  inversion Hsq as [|? ? Ha Hsq']; subst.
  cbn [extend zip_with term_quotients term_remainders].
  fold (extend Ys xs).
  destruct (IH rs Ys xs Hsq' ltac:(simpl in *; lia) ltac:(simpl in *; lia)
              ltac:(simpl in *; lia)) as [IH1 IH2].
  rewrite IH1, IH2.
  destruct (div_compose (r * K + Y) a x Ha) as [D1 D2].
  replace (r * (K * 2 ^ 32) + (Y * 2 ^ 32 + x)) with ((r * K + Y) * 2 ^ 32 + x) by ring.
  rewrite D1, D2. split; reflexivity.
Qed.

Lemma divide_block_shape K sq : forall rows divisor addition Ys Ys1 rows1 D,
  Forall (row_shape (length sq)) rows -> length Ys = length sq ->
  divide_block K sq divisor addition Ys rows = (Ys1, rows1, D) ->
  length Ys1 = length sq /\ Forall (row_shape (length sq)) rows1 /\
  length rows1 = length rows.
Proof.
  induction rows as [|[rs rd] rest IH]; intros divisor addition Ys Ys1 rows1 D Hsh HY H.
  - cbn in H. injection H as <- <- <-. auto.
  - inversion Hsh as [|? ? Hr Hrest]; subst. unfold row_shape in Hr. cbn [fst] in Hr.
    cbn [divide_block fst snd] in H.
    destruct (divide_block K sq (divisor + 2) (negb addition)
                (term_quotients K sq rs Ys) rest) as [[ysf rest1] d1] eqn:E.
    injection H as <- <- <-.
    destruct (IH _ _ _ _ _ _ Hrest (term_quotients_length _ _ _ _ Hr HY) E) as (I1 & I2 & I3).
    split; [exact I1|]. split.
    + constructor; [|exact I2]. unfold row_shape. cbn [fst].
      apply term_remainders_length; assumption.
    + cbn [length]. lia.
Qed.

Lemma divide_block_compose K sq : forall rows0 divisor addition Ys xs Ys1 rows1 D ys rows2 d,
  Forall (fun a => 0 < a) sq -> 0 < divisor ->
  Forall (row_shape (length sq)) rows0 ->
  length Ys = length sq -> length xs = length sq ->
  divide_block K sq divisor addition Ys rows0 = (Ys1, rows1, D) ->
  divide_block (2 ^ 32) sq divisor addition xs rows1 = (ys, rows2, d) ->
  divide_block (K * 2 ^ 32) sq divisor addition (extend Ys xs) rows0
  = (extend Ys1 ys, rows2, D * 2 ^ 32 + d).
Proof.
  induction rows0 as [|[rs rd] rest0 IH];
    intros divisor addition Ys xs Ys1 rows1 D ys rows2 d Hsq Hdiv Hsh HY Hx H1 H2.
  - cbn in H1. injection H1 as <- <- <-. cbn in H2. injection H2 as <- <- <-. reflexivity.
  - inversion Hsh as [|? ? Hr Hrest]; subst. unfold row_shape in Hr. cbn [fst] in Hr.
    cbn [divide_block fst snd] in H1.
    destruct (divide_block K sq (divisor + 2) (negb addition)
                (term_quotients K sq rs Ys) rest0) as [[Ysf rest1] D1] eqn:E1.
    injection H1 as <- <- <-.
    cbn [divide_block fst snd] in H2.
    destruct (divide_block (2 ^ 32) sq (divisor + 2) (negb addition)
                (term_quotients (2 ^ 32) sq (term_remainders K sq rs Ys) xs) rest1)
      as [[ysf rest2] d2] eqn:E2.
    injection H2 as <- <- <-.
    pose proof (term_quotients_length K sq rs Ys Hr HY) as HQ1.
    pose proof (term_remainders_length K sq rs Ys Hr HY) as HR1.
    pose proof (term_quotients_length (2 ^ 32) sq _ xs HR1 Hx) as Hq2.
    destruct (term_compose K sq rs Ys xs Hsq Hr HY Hx) as [TC1 TC2].
    cbn [divide_block fst snd]. rewrite TC1, TC2.
    rewrite (IH (divisor + 2) (negb addition) _ _ _ _ _ _ _ _ Hsq ltac:(lia) Hrest HQ1 Hq2 E1 E2).
    rewrite sum_extend by lia.
    set (Q1 := term_quotients K sq rs Ys) in *.
    set (q2 := term_quotients (2 ^ 32) sq (term_remainders K sq rs Ys) xs) in *.
    destruct (div_compose (rd * K + sum_list Q1) divisor (sum_list q2) Hdiv) as [D1' D2'].
    replace (rd * (K * 2 ^ 32) + (sum_list Q1 * 2 ^ 32 + sum_list q2))
      with ((rd * K + sum_list Q1) * 2 ^ 32 + sum_list q2) by ring.
    rewrite D1', D2'. f_equal. destruct addition; ring.
Qed.

Lemma term_start sq : forall rs,
  Forall2 (fun x a => 0 <= x < a) rs sq ->
  term_quotients 1 sq rs (replicate (length sq) 0) = replicate (length sq) 0 /\
  term_remainders 1 sq rs (replicate (length sq) 0) = rs.
Proof.
  induction sq as [|a sq IH]; intros rs H.
  - inversion H; subst. split; reflexivity.
  - inversion H as [|r ? rs' ? Hr H']; subst. destruct (IH rs' H') as [I1 I2].
    cbn [length replicate term_quotients term_remainders]. rewrite I1, I2.
    rewrite Z.mul_1_r, Z.add_0_r, Z.div_small, Z.mod_small by lia. split; reflexivity.
Qed.

Lemma sum_list_zero n : sum_list (replicate n 0) = 0.
Proof. induction n as [|n IH]; [reflexivity|]. cbn [replicate sum_list fold_right]. exact IH. Qed.

Lemma divide_block_start sq : forall rows divisor addition,
  rows_ok sq divisor rows -> 0 < divisor ->
  divide_block 1 sq divisor addition (replicate (length sq) 0) rows
  = (replicate (length sq) 0, rows, 0).
Proof.
  induction rows as [|[rs rd] rest IH]; intros divisor addition Hok Hdiv; [reflexivity|].
  destruct Hok as [[Hrs Hrd] Hrest]. cbn [fst snd] in *.
  destruct (term_start sq rs Hrs) as [T1 T2].
  cbn [divide_block fst snd]. rewrite T1, T2, (IH _ _ Hrest) by lia.
  rewrite sum_list_zero, Z.mul_1_r, Z.add_0_r, Z.div_small, Z.mod_small by lia.
  destruct addition; reflexivity.
Qed.

Lemma divide_slots_value sq divisor :
  Forall (fun a => 0 < a) sq -> 0 < divisor ->
  forall slots K Ys rows0 Ys1 rows1 D slots' rows' ds,
  Forall (row_shape (length sq)) rows0 ->
  length Ys = length sq ->
  Forall (fun xs => length xs = length sq) slots ->
  divide_block K sq divisor true Ys rows0 = (Ys1, rows1, D) ->
  divide_slots sq divisor slots rows1 = (slots', rows', ds) ->
  divide_block (K * 2 ^ (32 * Z.of_nat (length slots))) sq divisor true
    (fold_left extend slots Ys) rows0
  = (fold_left extend slots' Ys1, rows', fold_left (fun v x => v * 2 ^ 32 + x) ds D) /\
  Forall (fun xs => length xs = length sq) slots' /\ length slots' = length slots.
Proof.
  intros Hsq Hdiv.
  induction slots as [|xs rest IH];
    intros K Ys rows0 Ys1 rows1 D slots' rows' ds Hsh HY Hslots H1 H2.
  - cbn in H2. injection H2 as <- <- <-. cbn. rewrite Z.mul_1_r. auto.
  - inversion Hslots as [|? ? Hx Hrest]; subst.
    cbn [divide_slots] in H2.
    destruct (divide_block (2 ^ 32) sq divisor true xs rows1) as [[ys rows2] d] eqn:E.
    destruct (divide_slots sq divisor rest rows2) as [[rest' rows3] ds'] eqn:E'.
    injection H2 as <- <- <-.
    pose proof (divide_block_compose K sq rows0 divisor true Ys xs Ys1 rows1 D ys rows2 d
                  Hsq Hdiv Hsh HY Hx H1 E) as Hc.
    assert (He : length (extend Ys xs) = length sq) by (rewrite extend_length; lia).
    destruct (IH (K * 2 ^ 32) (extend Ys xs) rows0 (extend Ys1 ys) rows2 (D * 2 ^ 32 + d)
                rest' rows3 ds' Hsh He Hrest Hc E')
      as (I1 & I2 & I3).
    cbn [fold_left length]. rewrite Nat2Z.inj_succ.
    replace (K * 2 ^ (32 * Z.succ (Z.of_nat (length rest))))
      with (K * 2 ^ 32 * 2 ^ (32 * Z.of_nat (length rest))).
    2:{ replace (32 * Z.succ (Z.of_nat (length rest))) with (32 + 32 * Z.of_nat (length rest)) by lia.
        rewrite Z.pow_add_r by lia. ring. }
    split; [exact I1|]. split; [|lia]. constructor; [|exact I2].
    destruct (divide_block_shape K sq rows0 divisor true Ys Ys1 rows1 D Hsh HY H1) as (S1 & S2 & S3).
    destruct (divide_block_shape _ sq rows1 divisor true xs ys rows2 d S2 Hx E) as (S4 & _).
    exact S4.
Qed.

Lemma place_value L : forall ds o,
  0 <= o -> o + Z.of_nat (length ds) <= L ->
  place L o ds = limbs_value ds * 2 ^ (32 * (L - o - Z.of_nat (length ds))).
Proof.
  induction ds as [|d ds IH]; intros o Ho HL; [reflexivity|].
  cbn [place length] in *. rewrite Nat2Z.inj_succ in *.
  rewrite IH by lia.
  change (d :: ds) with ([d] ++ ds). rewrite limbs_value_app.
  change (limbs_value [d]) with d.
  replace (32 * (L - 1 - o)) with (32 * Z.of_nat (length ds) + 32 * (L - o - Z.succ (Z.of_nat (length ds)))) by lia.
  rewrite Z.pow_add_r by lia.
  replace (32 * (L - (o + 1) - Z.of_nat (length ds))) with (32 * (L - o - Z.succ (Z.of_nat (length ds)))) by lia.
  ring.
Qed.

Lemma divide_slots_bounds sq divisor :
  Forall (fun a => 0 < a) sq -> 1 <= divisor ->
  forall slots rows slots' rows' ds,
  Forall (fun xs => length xs = length sq /\ Forall is_limb xs) slots ->
  rows_ok sq divisor rows ->
  divide_slots sq divisor slots rows = (slots', rows', ds) ->
  Forall (fun xs => length xs = length sq /\ Forall is_limb xs) slots' /\
  rows_ok sq divisor rows' /\ length rows' = length rows.
Proof.
  intros Hsq Hdiv.
  induction slots as [|xs rest IH]; intros rows slots' rows' ds Hslots Hok H.
  - cbn in H. injection H as <- <- <-. auto.
  - inversion Hslots as [|? ? [Hxl Hxs] Hrest]; subst.
    cbn [divide_slots] in H.
    destruct (divide_block (2 ^ 32) sq divisor true xs rows) as [[ys rows1] d] eqn:E.
    destruct (divide_slots sq divisor rest rows1) as [[rest' rows2] ds'] eqn:E'.
    injection H as <- <- <-.
    destruct (divide_block_bounds _ _ _ _ _ _ _ _ Hsq Hok Hxs Hxl Hdiv E)
      as (Hys & Hyl & Hok1 & Hrl1 & _).
    destruct (IH _ _ _ _ Hrest Hok1 E') as (I1 & I2 & I3).
    split; [constructor; auto|]. split; [exact I2|]. lia.
Qed.

(** X9. A block processed with [arg_count = N] is a long division.  Read
    every term of the quotient vector as one number, slot after slot.  Each
    row divides every term by the square of its argument, the remainder the
    row has kept in front, adds the quotients up and divides the sum by the
    odd divisor of the row, again with the remainder kept in front:
    [divide_block], in base [2^(32 * slots)].  When [process_block] returns,
    the quotient vector holds the numbers after the last row, the block the
    new remainders, each below its divisor, and the accumulator has received
    the alternating sum of the quotients at [block_digit_offset]. *)
Theorem process_block_is_a_long_division fuel p st block slots rows st1 block1 :
  length (args p) = length (arg_sq p) ->
  arg_count block = length (arg_sq p) ->
  (0 < length (arg_sq p))%nat ->
  Forall (fun a => 0 < a < 2 ^ 32) (arg_sq p) ->
  quotents st = concat slots ->
  Forall (fun xs => length xs = length (arg_sq p) /\ Forall is_limb xs) slots ->
  remainders block = flat_rows rows ->
  rows_ok (arg_sq p) (block_divisor_offset st) rows ->
  1 <= block_divisor_offset st ->
  block_divisor_offset st + 2 * Z.of_nat (length rows) + Z.of_nat (length (arg_sq p)) < 2 ^ 32 ->
  Z.of_nat (length rows) * (2 ^ 32 * (Z.of_nat (length (arg_sq p)) + 1)) < 2 ^ 63 ->
  Forall is_limb (accumulator st) ->
  Z.of_nat (length (accumulator st)) < 2 ^ 32 ->
  0 <= block_digit_offset st ->
  block_digit_offset st + Z.of_nat (length slots) <= Z.of_nat (length (accumulator st)) ->
  process_block fuel p st block = Ret (st1, block1) ->
  exists slots' rows' D,
    quotents st1 = concat slots' /\
    Forall (fun xs => length xs = length (arg_sq p) /\ Forall is_limb xs) slots' /\
    length slots' = length slots /\
    remainders block1 = flat_rows rows' /\
    rows_ok (arg_sq p) (block_divisor_offset st) rows' /\
    length rows' = length rows /\
    divide_block (2 ^ (32 * Z.of_nat (length slots))) (arg_sq p) (block_divisor_offset st) true
      (slot_values (length (arg_sq p)) slots) rows
    = (slot_values (length (arg_sq p)) slots', rows', D) /\
    Forall is_limb (accumulator st1) /\
    length (accumulator st1) = length (accumulator st) /\
    limbs_value (accumulator st1)
    = limbs_value (accumulator st)
      + D * 2 ^ (32 * (Z.of_nat (length (accumulator st)) - block_digit_offset st
                       - Z.of_nat (length slots))).
Proof.
  intros Hargs Hcount HN Hsq Hq Hslots Hrem Hok Hdiv Hwrap Hbound Hacc Hlen Ho Hol H.
  assert (Hpos : Forall (fun a => 0 < a) (arg_sq p))
    by (eapply Forall_impl; [exact Hsq|]; simpl; lia).
  apply process_block_inv in H as (q & acc & rem & Hrun & -> & ->).
  rewrite Hcount, Hq, Hrem in Hrun.
  destruct (slot_loop_inv p (block_divisor_offset st) Hargs HN Hsq Hdiv slots fuel []
              (accumulator st) rows (block_digit_offset st) q acc rem
              Hslots Hok Hwrap Hbound Hacc Hlen Ho Hol Hrun)
    as (slots' & rows' & ds & Eslots & -> & -> & Hl1 & Hlimb1 & Hv1).
  destruct (divide_slots_bounds _ _ Hpos Hdiv _ _ _ _ _ Hslots Hok Eslots) as (B1 & B2 & B3).
  assert (Hshape : Forall (fun xs => length xs = length (arg_sq p)) slots)
    by (eapply Forall_impl; [exact Hslots|]; simpl; tauto).
  destruct (divide_slots_value (arg_sq p) (block_divisor_offset st) Hpos ltac:(lia)
              slots 1 (replicate (length (arg_sq p)) 0) rows
              (replicate (length (arg_sq p)) 0) rows 0 slots' rows' ds
              (rows_ok_lengths _ _ _ Hok) (length_replicate _ _) Hshape
              (divide_block_start _ _ _ true Hok ltac:(lia)) Eslots)
    as (V1 & V2 & V3).
  rewrite Z.mul_1_l in V1.
  exists slots', rows', (limbs_value ds).
  cbn [quotents accumulator remainders app].
  repeat split; auto.
  assert (Hds : length ds = length slots).
  { clear - Eslots. revert rows slots' rows' ds Eslots.
    induction slots as [|xs rest IH]; intros rows slots' rows' ds H.
    - cbn in H. injection H as <- <- <-. reflexivity.
    - cbn [divide_slots] in H.
      destruct (divide_block (2 ^ 32) (arg_sq p) (block_divisor_offset st) true xs rows)
        as [[ys rows1] d].
      destruct (divide_slots (arg_sq p) (block_divisor_offset st) rest rows1)
        as [[rest' rows2] ds'] eqn:E'.
      injection H as <- <- <-. cbn [length]. f_equal. eapply IH, E'. }
  rewrite Hv1, place_value by lia. rewrite Hds. reflexivity.
Qed.

Lemma rows_ok_fresh sq : forall n divisor,
  Forall (fun a => 0 < a) sq -> 1 <= divisor ->
  rows_ok sq divisor (replicate n (replicate (length sq) 0, 0)).
Proof.
  induction n as [|n IH]; intros divisor Hsq Hdiv; [exact I|].
  cbn [replicate rows_ok]. split.
  - split; cbn [fst snd]; [|lia].
    clear - Hsq. induction Hsq as [|a sq Ha Hsq IH]; [constructor|].
    cbn [length replicate]. constructor; [lia|exact IH].
  - apply IH; [exact Hsq|lia].
Qed.

Lemma process_block_witness :
  exists st1 block1 slots' rows' D,
    process_block 200 params_five state_five (new_block params_five 1) = Ret (st1, block1) /\
    quotents st1 = concat slots' /\
    Forall (fun xs => length xs = length (arg_sq params_five) /\ Forall is_limb xs) slots' /\
    length slots' = length (replicate 63 [0] ++ [[20]]) /\
    remainders block1 = flat_rows rows' /\
    rows_ok (arg_sq params_five) (block_divisor_offset state_five) rows' /\
    length rows' = length (replicate 64 ([0], 0)) /\
    divide_block (2 ^ (32 * Z.of_nat (length (replicate 63 [0] ++ [[20]]))))
      (arg_sq params_five) (block_divisor_offset state_five) true
      (slot_values (length (arg_sq params_five)) (replicate 63 [0] ++ [[20]]))
      (replicate 64 ([0], 0))
    = (slot_values (length (arg_sq params_five)) slots', rows', D) /\
    Forall is_limb (accumulator st1) /\
    length (accumulator st1) = length (accumulator state_five) /\
    limbs_value (accumulator st1)
    = limbs_value (accumulator state_five)
      + D * 2 ^ (32 * (Z.of_nat (length (accumulator state_five))
                       - block_digit_offset state_five
                       - Z.of_nat (length (replicate 63 [0] ++ [[20]])))).
Proof.
  assert (E : exists r, process_block 200 params_five state_five (new_block params_five 1)
                        = Ret r) by (vm_compute; eexists; reflexivity).
  destruct E as [[st1 block1] E]. exists st1, block1.
  destruct (process_block_is_a_long_division 200 params_five state_five
              (new_block params_five 1) (replicate 63 [0] ++ [[20]]) (replicate 64 ([0], 0))
              st1 block1) as (slots' & rows' & D & H).
  - reflexivity.
  - reflexivity.
  - cbn. lia.
  - repeat constructor.
  - reflexivity.
  - apply Forall_app. split.
    + apply Forall_replicate. split; [reflexivity|]. repeat constructor; unfold is_limb; lia.
    + repeat constructor; unfold is_limb; lia.
  - reflexivity.
  - apply (rows_ok_fresh (arg_sq params_five) 64 1); [repeat constructor|lia].
  - cbn. lia.
  - vm_compute. reflexivity.
  - vm_compute. reflexivity.
  - apply Forall_replicate. unfold is_limb. lia.
  - vm_compute. reflexivity.
  - cbn. lia.
  - vm_compute. discriminate.
  - exact E.
  - exists slots', rows', D. split; [exact E|exact H].
Defined.

(** ** The integer part in decimal *)

Lemma digits_value_snoc l c :
  digits_value (l ++ [c]) = digits_value l * 10 + (Z.of_nat (nat_of_ascii c) - 48).
Proof. unfold digits_value. rewrite fold_left_app. reflexivity. Qed.

Lemma digits_value_fold l : forall v,
  fold_left (fun v c => v * 10 + (Z.of_nat (nat_of_ascii c) - 48)) l v
  = v * 10 ^ Z.of_nat (length l) + digits_value l.
Proof.
  unfold digits_value.
  induction l as [|c l IH]; intros v.
  - cbn. lia.
  - cbn [fold_left length]. rewrite IH, (IH (0 * 10 + _)).
    rewrite Nat2Z.inj_succ, Z.pow_succ_r by lia. ring.
Qed.

Lemma digits_value_app l1 l2 :
  digits_value (l1 ++ l2) = digits_value l1 * 10 ^ Z.of_nat (length l2) + digits_value l2.
Proof. unfold digits_value at 1. rewrite fold_left_app. apply digits_value_fold. Qed.

Lemma to_char_digit d :
  0 <= d <= 9 ->
  nat_of_ascii (to_char (to_unsigned (48 + d))) = Z.to_nat (48 + d).
Proof.
  intros Hd. unfold to_char. rewrite to_unsigned_small by lia.
  rewrite Z.mod_small by lia. apply nat_ascii_embedding. lia.
Qed.

Lemma to_char_is_digit d : 0 <= d <= 9 -> is_digit (to_char (to_unsigned (48 + d))).
Proof. intros Hd. unfold is_digit. rewrite to_char_digit by exact Hd. lia. Qed.

Lemma to_char_value d :
  0 <= d <= 9 -> Z.of_nat (nat_of_ascii (to_char (to_unsigned (48 + d)))) - 48 = d.
Proof. intros Hd. rewrite to_char_digit by exact Hd. lia. Qed.

Lemma limbs_value_cons x l : limbs_value (x :: l) = x * 2 ^ (32 * Z.of_nat (length l)) + limbs_value l.
Proof.
  change (x :: l) with ([x] ++ l). rewrite limbs_value_app. reflexivity.
Qed.

Lemma limbs_value_zeros n : limbs_value (replicate n 0) = 0.
Proof.
  induction n as [|n IH]; [reflexivity|].
  cbn [replicate]. rewrite limbs_value_cons, IH. lia.
Qed.

Lemma limbs_value_zeros_app n l : limbs_value (replicate n 0 ++ l) = limbs_value l.
Proof. rewrite limbs_value_app, limbs_value_zeros. lia. Qed.

(** The division by ten runs over a segment and goes on with the carry. *)
Lemma div10_loop_step : forall xs pre post c m,
  Forall is_limb xs -> 0 <= c < 10 ->
  exists xs' c',
    div10_loop (pre ++ xs ++ post) (length xs + m) (length pre) (c * 2 ^ 32)
    = div10_loop (pre ++ xs' ++ post) m (length pre + length xs) (c' * 2 ^ 32) /\
    length xs' = length xs /\ Forall is_limb xs' /\ 0 <= c' < 10 /\
    c * 2 ^ (32 * Z.of_nat (length xs)) + limbs_value xs = 10 * limbs_value xs' + c' /\
    (c = 0 -> xs = replicate (length xs) 0 -> xs' = xs /\ c' = 0).
Proof.
  induction xs as [|a xs IH]; intros pre post c m Hl Hc.
  - exists [], c. cbn [length app]. rewrite Nat.add_0_r.
    repeat split; auto; try lia. unfold limbs_value. cbn. lia.
  - inversion Hl as [|? ? Ha Hl']; subst. unfold is_limb in Ha.
    cbn [length Nat.add div10_loop].
    change ((a :: xs) ++ post) with ([a] ++ xs ++ post).
    rewrite (get_Ret _ _ _ (lookup_snoc_app pre (xs ++ post) a)). cbn [bind].
    rewrite (to_limb2_small (c * 2 ^ 32 + a)) by lia.
    pose proof (Z.div_mod (c * 2 ^ 32 + a) 10 ltac:(lia)) as DM.
    pose proof (Z.mod_pos_bound (c * 2 ^ 32 + a) 10 ltac:(lia)) as MB.
    assert (Hq : 0 <= (c * 2 ^ 32 + a) / 10 < 2 ^ 32).
    { split; [apply Z.div_pos; lia|]. apply Z.div_lt_upper_bound; lia. }
    rewrite (to_limb_small _ Hq).
    rewrite set_Ret by (rewrite !length_app; cbn [length]; lia). cbn [bind].
    rewrite insert_snoc_app.
    unfold limb_bits. rewrite Z.shiftl_mul_pow2 by lia.
    rewrite (to_limb2_small ((c * 2 ^ 32 + a) mod 10 * 2 ^ 32)) by lia.
    destruct (IH (pre ++ [(c * 2 ^ 32 + a) / 10]) post ((c * 2 ^ 32 + a) mod 10) m Hl' MB)
      as (xs' & c' & Hrun & Hlen & Hl2 & Hc' & Hv & Hz).
    rewrite length_app in Hrun. cbn [length] in Hrun.
    replace (length pre + 1)%nat with (S (length pre)) in Hrun by lia.
    rewrite <- !app_assoc in Hrun. cbn [app] in Hrun.
    exists ((c * 2 ^ 32 + a) / 10 :: xs'), c'.
    split; [cbn [app]; rewrite Hrun; f_equal; lia|].
    split; [cbn [length]; lia|]. split; [constructor; assumption|].
    split; [exact Hc'|]. split.
    + rewrite !limbs_value_cons, Hlen. cbn [length]. rewrite Nat2Z.inj_succ.
      replace (32 * Z.succ (Z.of_nat (length xs))) with (32 + 32 * Z.of_nat (length xs)) by lia.
      rewrite Z.pow_add_r by lia.
      remember (2 ^ (32 * Z.of_nat (length xs))) as X. nia.
    + intros -> Hzero. cbn [replicate] in Hzero. injection Hzero as -> Hzero.
      change (0 * 2 ^ 32 + 0) with 0 in *. change (0 mod 10) with 0 in *.
      change (0 / 10) with 0.
      destruct (Hz eq_refl Hzero) as [-> ->]. split; reflexivity.
Qed.

Lemma skip_zero_up_spec : forall xs pre post,
  exists z xs2,
    skip_zero_up (pre ++ xs ++ post) (length xs) (length pre) = Ret (length pre + z)%nat /\
    xs = replicate z 0 ++ xs2 /\
    (xs2 = [] \/ exists h t, xs2 = h :: t /\ h <> 0).
Proof.
  induction xs as [|a xs IH]; intros pre post.
  - exists 0%nat, []. cbn. rewrite Nat.add_0_r. auto.
  - cbn [length skip_zero_up].
    change ((a :: xs) ++ post) with ([a] ++ xs ++ post).
    rewrite (get_Ret _ _ _ (lookup_snoc_app pre (xs ++ post) a)). cbn [bind].
    destruct (Z.eqb_spec a 0) as [->|Hne].
    + destruct (IH (pre ++ [0]) post) as (z & xs2 & Hrun & Hxs & Hhd).
      rewrite length_app in Hrun. cbn [length] in Hrun.
      replace (length pre + 1)%nat with (S (length pre)) in Hrun by lia.
      rewrite <- !app_assoc in Hrun. cbn [app] in Hrun.
      exists (S z), xs2. cbn [app]. rewrite Hrun. split; [f_equal; lia|].
      split; [cbn [replicate app]; f_equal; exact Hxs|exact Hhd].
    + exists 0%nat, (a :: xs). rewrite Nat.add_0_r. split; [reflexivity|].
      split; [reflexivity|]. right. eauto.
Qed.

Lemma limbs_value_head_pos h t :
  Forall is_limb (h :: t) -> h <> 0 -> 0 < limbs_value (h :: t).
Proof.
  intros Hl Hh. inversion Hl as [|? ? Ha Hl']; subst. unfold is_limb in Ha.
  rewrite limbs_value_cons. pose proof (limbs_value_bound t Hl').
  assert (0 < 2 ^ (32 * Z.of_nat (length t))) by (apply Z.pow_pos_nonneg; lia).
  nia.
Qed.

Lemma limbs_value_last l a : limbs_value (l ++ [a]) mod 2 ^ 32 = a mod 2 ^ 32.
Proof.
  rewrite limbs_value_snoc.
  rewrite Z.add_comm, Z.mod_add by lia. reflexivity.
Qed.

Lemma integer_digits_spec : forall fuel f rest frac res,
  (f + length rest = block_width)%nat ->
  Forall is_limb rest ->
  (rest = [] \/ exists h t, rest = h :: t /\ h <> 0) ->
  limbs_value rest < 10 ^ (Z.of_nat fuel - 1) ->
  exists ds,
    integer_digits fuel (replicate f 0 ++ rest ++ frac) f res
    = Ret (replicate block_width 0 ++ frac, res ++ ds) /\
    Forall is_digit ds /\
    (limbs_value rest = 0 -> ds = []) /\
    (0 < limbs_value rest ->
     10 ^ (Z.of_nat (length ds) - 1) <= limbs_value rest < 10 ^ Z.of_nat (length ds)) /\
    (limbs_value rest < 2 ^ 32 -> digits_value (rev ds) = limbs_value rest).
Proof.
  induction fuel as [|fuel IH]; intros f rest frac res Hf Hl Hhd Hv.
  { exfalso. pose proof (limbs_value_bound rest Hl). cbn in Hv.
    rewrite Z.pow_neg_r in Hv by lia. lia. }
  cbn [integer_digits].
  destruct Hhd as [->|(h & t & -> & Hh)].
  - replace f with block_width by (cbn [length] in Hf; lia).
    rewrite Nat.ltb_irrefl. exists []. cbn [app]. rewrite app_nil_r.
    split; [reflexivity|]. split; [constructor|]. split; [reflexivity|].
    unfold limbs_value. cbn. split; [lia|reflexivity].
  - set (rest := h :: t) in *.
    assert (Hpos : 0 < limbs_value rest) by (apply limbs_value_head_pos; assumption).
    assert (Hrl : (0 < length rest)%nat) by (unfold rest; cbn [length]; lia).
    clearbody rest.
    destruct (Nat.ltb_spec f block_width) as [Hlt|Hge]; [|lia].
    (* the lowest limb of the integer part *)
    destruct (exists_last (l := rest)) as (init & a & Hrest); [intros ->; cbn in Hrl; lia|].
    assert (Hget : (replicate f 0 ++ rest ++ frac) !! (block_width - 1)%nat = Some a).
    { rewrite Hrest, <- app_assoc, app_assoc.
      apply list_lookup_middle. rewrite length_app, length_replicate.
      rewrite Hrest, length_app in Hf. cbn [length] in Hf. lia. }
    rewrite (get_Ret _ _ _ Hget). cbn [bind].
    (* the division by ten *)
    destruct (div10_loop_step (replicate f 0) [] (rest ++ frac) 0 (length rest))
      as (z' & c0 & Hrun0 & _ & _ & _ & _ & Hz0);
      [apply Forall_replicate; unfold is_limb; lia|lia|].
    rewrite length_replicate in Hz0.
    destruct (Hz0 eq_refl eq_refl) as [-> ->].
    rewrite length_replicate in Hrun0. cbn [app length Nat.add] in Hrun0.
    replace (f + length rest)%nat with block_width in Hrun0 by lia.
    change (0 * 2 ^ 32) with 0 in Hrun0.
    rewrite Hrun0. clear Hrun0 Hz0.
    destruct (div10_loop_step rest (replicate f 0) frac 0 0 Hl ltac:(lia))
      as (rest' & c' & Hrun1 & Hlen1 & Hl1 & Hc' & Hv1 & _).
    rewrite length_replicate, Nat.add_0_r in Hrun1.
    change (0 * 2 ^ 32) with 0 in Hrun1.
    rewrite Hrun1. cbn [div10_loop bind]. clear Hrun1.
    (* the next limb that is not zero *)
    destruct (skip_zero_up_spec rest' (replicate f 0) frac) as (z & xs2 & Hskip & Hxs & Hhd2).
    rewrite length_replicate, Hlen1 in Hskip.
    replace (block_width - f)%nat with (length rest) by lia.
    rewrite Hskip. cbn [bind]. clear Hskip.
    assert (Hv' : limbs_value xs2 = limbs_value rest / 10).
    { rewrite Hxs, limbs_value_zeros_app in Hv1. rewrite Z.mul_0_l in Hv1.
      apply (Z.div_unique_pos _ _ _ c'); lia. }
    assert (Hl2 : Forall is_limb xs2).
    { rewrite Hxs in Hl1. apply Forall_app in Hl1. tauto. }
    assert (Hlen2 : (f + z + length xs2 = block_width)%nat).
    { rewrite Hxs, length_app, length_replicate in Hlen1. lia. }
    assert (Hshape : replicate f 0 ++ rest' ++ frac = replicate (f + z) 0 ++ xs2 ++ frac).
    { rewrite Hxs, replicate_add, <- !app_assoc. reflexivity. }
    rewrite Hshape.
    assert (Hfuel : limbs_value xs2 < 10 ^ (Z.of_nat fuel - 1)).
    { rewrite Hv'. apply Z.div_lt_upper_bound; [lia|].
      destruct fuel as [|fuel'].
      - cbn in Hv. lia.
      - replace (Z.of_nat (S (S fuel')) - 1) with (Z.succ (Z.of_nat (S fuel') - 1)) in Hv by lia.
        rewrite Z.pow_succ_r in Hv by lia. exact Hv. }
    destruct (IH (f + z)%nat xs2 frac
                (res ++ [to_char (to_unsigned (48 + a mod 10))]) Hlen2 Hl2 Hhd2 Hfuel)
      as (ds & Hrun & Hdig & Hzero & Hcount & Hval).
    rewrite Hrun. exists (to_char (to_unsigned (48 + a mod 10)) :: ds).
    rewrite <- app_assoc. split; [reflexivity|].
    pose proof (Z.mod_pos_bound a 10 ltac:(lia)) as Hd.
    split; [constructor; [apply to_char_is_digit; lia|exact Hdig]|].
    split; [lia|].
    pose proof (Z.div_mod (limbs_value rest) 10 ltac:(lia)) as DM.
    pose proof (Z.mod_pos_bound (limbs_value rest) 10 ltac:(lia)) as MB.
    split.
    + intros _. cbn [length]. rewrite Nat2Z.inj_succ.
      replace (Z.succ (Z.of_nat (length ds)) - 1) with (Z.of_nat (length ds)) by lia.
      rewrite Z.pow_succ_r by lia.
      destruct (Z.eq_dec (limbs_value xs2) 0) as [E0|E0].
      * rewrite (Hzero E0). cbn. lia.
      * pose proof (limbs_value_bound xs2 Hl2).
        destruct (Hcount ltac:(lia)) as [C1 C2].
        assert (10 ^ Z.of_nat (length ds) = 10 * 10 ^ (Z.of_nat (length ds) - 1)).
        { rewrite <- Z.pow_succ_r by (destruct ds; [exfalso; cbn in C2; lia|cbn [length]; lia]).
          f_equal. lia. }
        lia.
    + intros Hsmall.
      assert (Ha : a = limbs_value rest).
      { pose proof (limbs_value_last init a) as Hlast. rewrite <- Hrest in Hlast.
        assert (is_limb a).
        { rewrite Hrest in Hl. apply Forall_app in Hl as [_ Hl].
          inversion Hl; assumption. }
        unfold is_limb in *. rewrite (Z.mod_small (limbs_value rest)) in Hlast by lia.
        rewrite (Z.mod_small a) in Hlast by lia. lia. }
      cbn [rev]. rewrite digits_value_snoc, to_char_value by lia.
      rewrite Hval by lia. rewrite Hv', Ha. lia.
Qed.

Lemma string_length_of_list l : String.length (string_of_list_ascii l) = length l.
Proof. induction l as [|c l IH]; [reflexivity|]. cbn. f_equal. exact IH. Qed.

Lemma pow2_2048_lt : 2 ^ (32 * Z.of_nat block_width) < 10 ^ 617.
Proof. vm_compute. reflexivity. Qed.

Lemma print_integer_part_spec (acc : list Z) (fuel : nat) :
  Forall is_limb acc ->
  (block_width <= length acc)%nat ->
  (618 <= fuel)%nat ->
  exists s,
    print_integer_part fuel acc = Ret (replicate block_width 0 ++ drop block_width acc, s) /\
    Forall is_digit (list_ascii_of_string s) /\
    (limbs_value (take block_width acc) = 0 -> s = "0"%string) /\
    (0 < limbs_value (take block_width acc) ->
     10 ^ (Z.of_nat (String.length s) - 1) <= limbs_value (take block_width acc)
       < 10 ^ Z.of_nat (String.length s)) /\
    (limbs_value (take block_width acc) < 2 ^ 32 ->
     parse_decimal s = limbs_value (take block_width acc)).
Proof.
  intros Hl Hlen Hfuel.
  pose proof (take_drop block_width acc) as Hsplit.
  set (top := take block_width acc) in *. set (frac := drop block_width acc) in *.
  assert (Htl : length top = block_width) by (unfold top; rewrite length_take; lia).
  assert (Hltop : Forall is_limb top) by (apply Forall_take; exact Hl).
  clearbody top frac. subst acc. clear Hl Hlen.
  unfold print_integer_part.
  destruct (skip_zero_up_spec top [] frac) as (z & xs2 & Hskip & Hxs & Hhd).
  cbn [app length Nat.add] in Hskip. rewrite Htl in Hskip. rewrite Hskip. cbn [bind].
  assert (Hl2 : Forall is_limb xs2).
  { rewrite Hxs in Hltop. apply Forall_app in Hltop. tauto. }
  assert (Hv : limbs_value top = limbs_value xs2).
  { rewrite Hxs. apply limbs_value_zeros_app. }
  assert (Hlen2 : (z + length xs2 = block_width)%nat).
  { rewrite Hxs, length_app, length_replicate in Htl. lia. }
  assert (Hfuel' : limbs_value xs2 < 10 ^ (Z.of_nat fuel - 1)).
  { pose proof (limbs_value_bound top Hltop) as Hb. rewrite Htl in Hb.
    pose proof pow2_2048_lt.
    assert (10 ^ 617 <= 10 ^ (Z.of_nat fuel - 1)) by (apply Z.pow_le_mono_r; lia).
    lia. }
  destruct (integer_digits_spec fuel z xs2 frac [] Hlen2 Hl2 Hhd Hfuel')
    as (ds & Hrun & Hdig & Hzero & Hcount & Hval).
  rewrite Hxs, <- app_assoc, Hrun. cbn [bind app].
  rewrite <- Hxs, Hv.
  destruct ds as [|d ds].
  - cbn [length Nat.eqb]. exists "0"%string. split; [reflexivity|].
    split; [repeat constructor; unfold is_digit; cbn; lia|].
    split; [reflexivity|]. split.
    + intros Hpos. destruct (Hcount Hpos) as [_ C]. cbn in C. lia.
    + intros Hs. rewrite <- (Hval Hs). reflexivity.
  - cbn [length Nat.eqb]. exists (string_of_list_ascii (rev (d :: ds))).
    split; [reflexivity|].
    rewrite list_ascii_of_string_of_list_ascii, string_length_of_list, length_rev.
    split; [apply Forall_rev; exact Hdig|].
    split; [intros H0; discriminate (Hzero H0)|].
    split; [exact Hcount|].
    intros Hs. unfold parse_decimal. rewrite list_ascii_of_string_of_list_ascii.
    exact (Hval Hs).
Qed.

(** X10. [print_integer_part] returns for every accumulator of at least
    [block_width] limbs.  It leaves the integer limbs zero and the other
    limbs as they were; it prints decimal digits, as many as the integer
    has, 0 for zero; and when the integer fits in one limb it prints the
    integer. *)
Theorem print_integer_part_digits (acc : list Z) (fuel : nat) :
  Forall is_limb acc ->
  (block_width <= length acc)%nat ->
  (618 <= fuel)%nat ->
  exists s,
    print_integer_part fuel acc = Ret (replicate block_width 0 ++ drop block_width acc, s) /\
    Forall is_digit (list_ascii_of_string s) /\
    (limbs_value (take block_width acc) = 0 -> s = "0"%string) /\
    (0 < limbs_value (take block_width acc) ->
     10 ^ (Z.of_nat (String.length s) - 1) <= limbs_value (take block_width acc)
       < 10 ^ Z.of_nat (String.length s)) /\
    (limbs_value (take block_width acc) < 2 ^ 32 ->
     parse_decimal s = limbs_value (take block_width acc)).
Proof. apply print_integer_part_spec. Qed.

Lemma print_integer_part_witness :
  exists s,
    print_integer_part 618 (replicate 63 0 ++ [42; 7])
    = Ret (replicate block_width 0 ++ drop block_width (replicate 63 0 ++ [42; 7]), s) /\
    Forall is_digit (list_ascii_of_string s) /\
    (limbs_value (take block_width (replicate 63 0 ++ [42; 7])) = 0 -> s = "0"%string) /\
    (0 < limbs_value (take block_width (replicate 63 0 ++ [42; 7])) ->
     10 ^ (Z.of_nat (String.length s) - 1)
       <= limbs_value (take block_width (replicate 63 0 ++ [42; 7]))
       < 10 ^ Z.of_nat (String.length s)) /\
    (limbs_value (take block_width (replicate 63 0 ++ [42; 7])) < 2 ^ 32 ->
     parse_decimal s = limbs_value (take block_width (replicate 63 0 ++ [42; 7]))).
Proof.
  apply (print_integer_part_digits (replicate 63 0 ++ [42; 7]) 618).
  - apply limbs_check. vm_compute. reflexivity.
  - vm_compute. lia.
  - lia.
Defined.

(** ** The fraction in decimal *)

Lemma mod_shift T a m :
  0 <= m -> 0 <= a < 2 ^ 32 ->
  (T * 2 ^ 32 + a) mod 2 ^ (32 * (m + 1)) = T mod 2 ^ (32 * m) * 2 ^ 32 + a.
Proof.
  intros Hm Ha.
  replace (32 * (m + 1)) with (32 * m + 32) by lia. rewrite Z.pow_add_r by lia.
  assert (HX : 0 < 2 ^ (32 * m)) by (apply Z.pow_pos_nonneg; lia).
  pose proof (Z.div_mod T (2 ^ (32 * m)) ltac:(lia)) as DM.
  pose proof (Z.mod_pos_bound T (2 ^ (32 * m)) HX) as MB.
  symmetry. apply (Z.mod_unique_pos _ _ (T / 2 ^ (32 * m))).
  - remember (2 ^ (32 * m)) as X. nia.
  - remember (2 ^ (32 * m)) as X. nia.
Qed.

(** The multiplication of a segment of limbs by [pow10], from its last limb
    up to its first. *)
Lemma mul_loop_value pow :
  0 <= pow < 2 ^ 30 ->
  forall xs pre post n,
  Forall is_limb xs -> 0 <= n < 2 ^ 32 ->
  exists xs',
    mul_loop (pre ++ xs ++ post) pow (length xs) (length pre + length xs - 1) n
    = Ret (pre ++ xs' ++ post) /\
    length xs' = length xs /\ Forall is_limb xs' /\
    limbs_value xs' = (limbs_value xs * pow + n) mod 2 ^ (32 * Z.of_nat (length xs)).
Proof.
  intros Hpow.
  induction xs as [|a xs IH] using rev_ind; intros pre post n Hl Hn.
  - exists []. cbn. repeat split; auto. rewrite Z.mod_1_r. reflexivity.
  - apply Forall_app in Hl as [Hl Ha]. inversion Ha as [|? ? La _]; subst.
    unfold is_limb in La.
    rewrite length_app. cbn [length]. rewrite Nat.add_1_r. cbn [mul_loop].
    replace (length pre + S (length xs) - 1)%nat with (length (pre ++ xs))
      by (rewrite length_app; lia).
    rewrite <- (app_assoc xs [a] post), (app_assoc pre xs ([a] ++ post)).
    rewrite (get_Ret _ _ _ (lookup_snoc_app (pre ++ xs) post a)). cbn [bind].
    rewrite (to_limb2_small (a * pow)) by nia.
    rewrite (to_limb2_small (n + a * pow)) by nia.
    rewrite set_Ret by (rewrite !length_app; cbn [length]; lia). cbn [bind].
    rewrite insert_snoc_app.
    unfold limb_bits. rewrite Z.shiftr_div_pow2 by lia. rewrite to_limb_mod.
    pose proof (Z.div_mod (n + a * pow) (2 ^ 32) ltac:(lia)) as DM.
    pose proof (Z.mod_pos_bound (n + a * pow) (2 ^ 32) ltac:(lia)) as MB.
    assert (Hc : 0 <= (n + a * pow) / 2 ^ 32 < 2 ^ 32).
    { split; [apply Z.div_pos; nia|]. apply Z.div_lt_upper_bound; nia. }
    destruct (IH pre ([(n + a * pow) mod 2 ^ 32] ++ post) ((n + a * pow) / 2 ^ 32) Hl Hc)
      as (xs' & Hrun & Hlen & Hl' & Hv).
    rewrite <- (app_assoc pre xs).
    replace (length (pre ++ xs) - 1)%nat with (length pre + length xs - 1)%nat
      by (rewrite length_app; lia).
    rewrite Hrun. exists (xs' ++ [(n + a * pow) mod 2 ^ 32]).
    rewrite <- !app_assoc. split; [reflexivity|].
    split; [rewrite length_app; cbn [length]; lia|].
    split; [apply Forall_app; split; [exact Hl'|repeat constructor; unfold is_limb; lia]|].
    rewrite !limbs_value_snoc, Hv.
    replace (32 * Z.of_nat (S (length xs))) with (32 * (Z.of_nat (length xs) + 1)) by lia.
    rewrite <- mod_shift by lia. f_equal. lia.
Qed.

Lemma digit_loop_value pre post :
  length pre = (block_width - 1)%nat ->
  forall todo a p res,
  0 <= a < 10 ^ Z.of_nat todo ->
  (todo <> 0%nat -> p = 10 ^ (Z.of_nat todo - 1)) ->
  exists ds a',
    digit_loop (pre ++ [a] ++ post) todo p res = Ret (pre ++ [a'] ++ post, res ++ ds) /\
    length ds = todo /\ Forall is_digit ds /\ digits_value ds = a.
Proof.
  intros Hpre. induction todo as [|todo IH]; intros a p res Ha Hp.
  - exists [], a. cbn. rewrite app_nil_r. cbn in Ha. repeat split; auto. lia.
  - specialize (Hp ltac:(lia)).
    replace (Z.of_nat (S todo) - 1) with (Z.of_nat todo) in Hp by lia. subst p.
    rewrite Nat2Z.inj_succ, Z.pow_succ_r in Ha by lia.
    assert (Hpp : 0 < 10 ^ Z.of_nat todo) by (apply Z.pow_pos_nonneg; lia).
    cbn [digit_loop]. rewrite <- Hpre.
    rewrite (get_Ret _ _ _ (lookup_snoc_app pre post a)). cbn [bind].
    destruct (Z.eqb_spec (10 ^ Z.of_nat todo) 0) as [E|_]; [lia|].
    rewrite set_Ret by (rewrite !length_app; cbn [length]; lia). cbn [bind].
    rewrite insert_snoc_app.
    pose proof (Z.div_mod a (10 ^ Z.of_nat todo) ltac:(lia)) as DM.
    pose proof (Z.mod_pos_bound a (10 ^ Z.of_nat todo) Hpp) as MB.
    assert (Hd : 0 <= a / 10 ^ Z.of_nat todo <= 9).
    { split; [apply Z.div_pos; lia|].
      assert (a / 10 ^ Z.of_nat todo < 10) by (apply Z.div_lt_upper_bound; lia). lia. }
    destruct (IH (a mod 10 ^ Z.of_nat todo) (10 ^ Z.of_nat todo / 10)
                (res ++ [to_char (to_unsigned (48 + a / 10 ^ Z.of_nat todo))]) MB)
      as (ds & a' & Hrun & Hlen & Hdig & Hv).
    { intros Ht. replace (Z.of_nat todo) with (Z.succ (Z.of_nat todo - 1)) at 1 by lia.
      rewrite Z.pow_succ_r by lia. rewrite Z.mul_comm, Z.div_mul by lia. reflexivity. }
    rewrite Hrun.
    exists (to_char (to_unsigned (48 + a / 10 ^ Z.of_nat todo)) :: ds), a'.
    rewrite <- app_assoc. split; [reflexivity|].
    split; [cbn [length]; lia|].
    split; [constructor; [apply to_char_is_digit; exact Hd|exact Hdig]|].
    change (?c :: ds) with ([c] ++ ds). rewrite digits_value_app, Hv, Hlen.
    unfold digits_value at 1. cbn [fold_left]. rewrite to_char_value by exact Hd. lia.
Qed.

Lemma zero_tail_replicate (l : list Z) :
  (forall i x, l !! i = Some x -> x = 0) -> l = replicate (length l) 0.
Proof.
  intros H. symmetry. apply replicate_as_Forall. split; [reflexivity|].
  apply Forall_lookup. intros i x Hx. symmetry. eapply H, Hx.
Qed.

(** One pass of the multiplication by [10^9] over the limbs from
    [first_non_zero] up to limb [block_width - 1]. *)
Lemma group_value top frac f :
  length top = (block_width - 1)%nat ->
  Forall is_limb frac ->
  (forall j x, (f < j)%nat -> (top ++ [0] ++ frac) !! j = Some x -> x = 0) ->
  (f < length (top ++ [0%Z] ++ frac))%nat ->
  exists l63 frac1,
    mul_loop (top ++ [0] ++ frac) 1000000000 (f + 1 - (block_width - 1)) f 0
    = Ret (top ++ [l63] ++ frac1) /\
    length frac1 = length frac /\ Forall is_limb frac1 /\
    (forall j x, (f < j)%nat -> (top ++ [0] ++ frac1) !! j = Some x -> x = 0) /\
    l63 = limbs_value frac * 1000000000 / 2 ^ (32 * Z.of_nat (length frac)) /\
    limbs_value frac1 = (limbs_value frac * 1000000000) mod 2 ^ (32 * Z.of_nat (length frac)).
Proof.
  intros Htop Hl Hz Hf. unfold block_width in *.
  rewrite !length_app in Hf. cbn [length] in Hf.
  destruct (Nat.lt_ge_cases f 63) as [Hlow|Hhigh].
  - (* nothing below limb 63 is multiplied; the fraction is zero *)
    replace (f + 1 - (64 - 1))%nat with 0%nat by lia. cbn [mul_loop].
    assert (Hfz : frac = replicate (length frac) 0).
    { apply zero_tail_replicate. intros i x Hx. apply (Hz (64 + i)%nat x); [lia|].
      rewrite app_assoc, lookup_app_r by (rewrite length_app; cbn [length]; lia).
      rewrite length_app. cbn [length]. rewrite <- Hx. f_equal. lia. }
    exists 0, frac. split; [reflexivity|]. split; [reflexivity|]. split; [exact Hl|].
    split; [exact Hz|]. rewrite Hfz, limbs_value_zeros, length_replicate.
    rewrite Z.mul_0_l, Z.div_0_l, Z.mod_0_l; auto;
      apply Z.pow_nonzero; lia.
  - set (m := (f - 63)%nat).
    pose proof (take_drop m frac) as Hsplit.
    set (fa := take m frac) in *. set (fz := drop m frac) in *.
    assert (Hfa : length fa = m) by (unfold fa; rewrite length_take; lia).
    assert (Hlfa : Forall is_limb fa) by (apply Forall_take; exact Hl).
    assert (Hfz : fz = replicate (length fz) 0).
    { apply zero_tail_replicate. intros i x Hx. apply (Hz (64 + m + i)%nat x); [lia|].
      rewrite app_assoc, lookup_app_r by (rewrite length_app; cbn [length]; lia).
      rewrite length_app. cbn [length]. unfold fz in Hx. rewrite lookup_drop in Hx.
      rewrite <- Hx. f_equal. lia. }
    clearbody fa fz. subst frac.
    destruct (mul_loop_value 1000000000 ltac:(lia) (0 :: fa) top fz 0
                ltac:(constructor; [unfold is_limb; lia|exact Hlfa]) ltac:(lia))
      as (xs' & Hrun & Hlen & Hl' & Hv).
    cbn [length] in Hrun, Hlen, Hv.
    replace (length top + S (length fa) - 1)%nat with f in Hrun by lia.
    replace (f + 1 - (64 - 1))%nat with (S (length fa)) by lia.
    change ([0] ++ fa ++ fz) with ((0 :: fa) ++ fz). rewrite Hrun.
    destruct xs' as [|l63 fa']; [discriminate Hlen|].
    inversion Hl' as [|? ? Hl63 Hlfa']; subst. unfold is_limb in Hl63.
    cbn [length] in Hlen.
    exists l63, (fa' ++ fz). split; [reflexivity|].
    split; [rewrite !length_app; lia|].
    split; [apply Forall_app; split; [exact Hlfa'|apply Forall_app in Hl; tauto]|].
    pose proof (limbs_value_bound fa Hlfa) as Bfa.
    pose proof (limbs_value_bound fa' Hlfa') as Bfa'.
    assert (Hfa' : length fa' = length fa) by lia.
    rewrite limbs_value_cons, limbs_value_cons in Hv. rewrite Hfa' in *.
    rewrite Z.mul_0_l, Z.add_0_l, Z.add_0_r in Hv.
    assert (HX : 0 < 2 ^ (32 * Z.of_nat (length fa))) by (apply Z.pow_pos_nonneg; lia).
    assert (HZ : 0 < 2 ^ (32 * Z.of_nat (length fz))) by (apply Z.pow_pos_nonneg; lia).
    rewrite Nat2Z.inj_succ in Hv.
    replace (32 * Z.succ (Z.of_nat (length fa))) with (32 * Z.of_nat (length fa) + 32) in Hv by lia.
    rewrite Z.pow_add_r in Hv by lia.
    rewrite Z.mod_small in Hv by (remember (2 ^ (32 * Z.of_nat (length fa))) as X; nia).
    assert (Hq : l63 = limbs_value fa * 1000000000 / 2 ^ (32 * Z.of_nat (length fa))).
    { apply (Z.div_unique_pos _ _ _ (limbs_value fa')); lia. }
    assert (Hr : limbs_value fa' = (limbs_value fa * 1000000000) mod 2 ^ (32 * Z.of_nat (length fa))).
    { apply (Z.mod_unique_pos _ _ l63); lia. }
    split.
    { intros j x Hj Hx. apply (Hz j x Hj).
      rewrite !app_assoc in Hx |- *.
      rewrite lookup_app_r in Hx |- * by (rewrite !length_app; cbn [length]; lia).
      rewrite !length_app in Hx |- *. cbn [length] in Hx |- *.
      rewrite Hfa' in Hx. exact Hx. }
    rewrite !limbs_value_app, !length_app, Hfz, limbs_value_zeros, length_replicate, !Z.add_0_r.
    rewrite Nat2Z.inj_add.
    replace (32 * (Z.of_nat (length fa) + Z.of_nat (length fz)))
      with (32 * Z.of_nat (length fa) + 32 * Z.of_nat (length fz)) by lia.
    rewrite Z.pow_add_r by lia.
    replace (limbs_value fa * 2 ^ (32 * Z.of_nat (length fz)) * 1000000000)
      with (limbs_value fa * 1000000000 * 2 ^ (32 * Z.of_nat (length fz))) by ring.
    rewrite Z.div_mul_cancel_r by lia.
    rewrite Z.mul_mod_distr_r by lia.
    rewrite Hq, Hr. split; reflexivity.
Qed.

Lemma expansion_step F M P d1 F1 k :
  0 < M -> 0 <= k ->
  d1 = F * P / M -> F1 = (F * P) mod M ->
  d1 * P ^ k + F1 * P ^ k / M = F * P ^ (k + 1) / M /\
  (F1 * P ^ k) mod M = (F * P ^ (k + 1)) mod M.
Proof.
  intros HM Hk -> ->.
  pose proof (Z.div_mod (F * P) M ltac:(lia)) as DM.
  rewrite Z.pow_add_r, Z.pow_1_r by lia.
  replace (F * (P ^ k * P)) with (F * P / M * P ^ k * M + (F * P) mod M * P ^ k) by nia.
  split.
  - rewrite Z.div_add_l by lia. reflexivity.
  - rewrite Z.add_comm, Z.mod_add by lia. reflexivity.
Qed.

Lemma fractional_digits_value dd : forall fuel top frac f res acc' res',
  length top = (block_width - 1)%nat ->
  Forall is_limb frac ->
  (forall j x, (f < j)%nat -> (top ++ [0] ++ frac) !! j = Some x -> x = 0) ->
  (f < length (top ++ [0%Z] ++ frac))%nat ->
  fractional_digits fuel (top ++ [0] ++ frac) 1000000000 dd f res = Ret (acc', res') ->
  exists k ds frac',
    acc' = top ++ [0] ++ frac' /\ res' = res ++ ds /\
    length ds = (k * digits10)%nat /\ Forall is_digit ds /\
    length frac' = length frac /\ Forall is_limb frac' /\
    digits_value ds
    = limbs_value frac * 1000000000 ^ Z.of_nat k / 2 ^ (32 * Z.of_nat (length frac)) /\
    limbs_value frac'
    = (limbs_value frac * 1000000000 ^ Z.of_nat k) mod 2 ^ (32 * Z.of_nat (length frac)).
Proof.
  induction fuel as [|fuel IH]; intros top frac f res acc' res' Htop Hl Hz Hf H;
    [discriminate H|].
  pose proof (limbs_value_bound frac Hl) as BF.
  assert (HM : 0 < 2 ^ (32 * Z.of_nat (length frac))) by (apply Z.pow_pos_nonneg; lia).
  cbn [fractional_digits] in H.
  destruct ((0 <? f)%nat && (Z.of_nat (length res) <=? dd)) eqn:E.
  - destruct (group_value top frac f Htop Hl Hz Hf)
      as (l63 & frac1 & Hmul & Hlen1 & Hl1 & Hz1 & Hq & Hr).
    rewrite Hmul in H. cbn [bind] in H.
    assert (Hl63 : 0 <= l63 < 10 ^ Z.of_nat digits10).
    { subst l63. split; [apply Z.div_pos; lia|].
      apply Z.div_lt_upper_bound; [lia|]. change (10 ^ Z.of_nat digits10) with 1000000000.
      nia. }
    destruct (digit_loop_value top frac1 Htop digits10 l63 (1000000000 / 10) res Hl63
                ltac:(intros _; reflexivity))
      as (ds1 & a' & Hdig & Hlen & Hdg & Hv).
    rewrite Hdig in H. cbn [bind] in H.
    rewrite set_Ret in H by (rewrite !length_app; cbn [length]; unfold block_width in *; lia).
    cbn [bind] in H. rewrite <- Htop, insert_snoc_app in H.
    assert (Hf1 : (f < length (top ++ [0%Z] ++ frac1))%nat).
    { rewrite !length_app in Hf |- *. cbn [length] in Hf |- *. lia. }
    destruct (skip_zero_down_spec (top ++ [0] ++ frac1) f Hf1) as (f' & Hsk & Hle & Hzz).
    rewrite Hsk in H. cbn [bind] in H.
    destruct (IH top frac1 f' (res ++ ds1) acc' res' Htop Hl1) as
      (k & ds & frac' & -> & -> & Hk & Hdgs & Hlen' & Hl' & Hv' & Hr'); auto.
    { intros j x Hj Hx. destruct (Nat.le_gt_cases j f) as [Hjf|Hjf].
      - specialize (Hzz j ltac:(lia)). congruence.
      - eapply Hz1; eassumption. }
    { lia. }
    exists (S k), (ds1 ++ ds), frac'.
    split; [reflexivity|]. split; [rewrite app_assoc; reflexivity|].
    split; [rewrite length_app; unfold digits10 in *; lia|].
    split; [apply Forall_app; split; assumption|].
    split; [lia|]. split; [exact Hl'|].
    rewrite Hlen1 in Hv', Hr'.
    destruct (expansion_step (limbs_value frac) (2 ^ (32 * Z.of_nat (length frac)))
                1000000000 l63 (limbs_value frac1) (Z.of_nat k) HM ltac:(lia) Hq Hr)
      as [E1 E2].
    rewrite Nat2Z.inj_succ, <- Z.add_1_r.
    split.
    + rewrite digits_value_app, Hv, Hv', Hk, <- E1.
      f_equal. f_equal. unfold digits10.
      rewrite Nat2Z.inj_mul. change (Z.of_nat 9) with 9.
      rewrite Z.mul_comm, Z.pow_mul_r by lia. reflexivity.
    + rewrite Hr', E2. reflexivity.
  - injection H as <- <-. exists 0%nat, [], frac.
    rewrite app_nil_r. cbn [length Nat.mul Z.of_nat].
    rewrite Z.pow_0_r, Z.mul_1_r, Z.div_small, Z.mod_small by lia.
    repeat split; auto.
Qed.

Lemma fractional_result_spec (acc : list Z) (fuel : nat) :
  Forall is_limb acc ->
  (block_width < length acc)%nat ->
  Z.of_nat (length acc) <= 2 ^ 32 ->
  acc !! (block_width - 1)%nat = Some 0 ->
  (length acc - 62 <= fuel)%nat ->
  exists acc' res k,
    fractional_result fuel acc = Ret (acc', res) /\
    length res = (k * digits10)%nat /\
    Forall is_digit res /\
    digits_value res
    = limbs_value (drop block_width acc) * 10 ^ Z.of_nat (length res)
      / 2 ^ (32 * Z.of_nat (length acc - block_width)) /\
    take block_width acc' = take block_width acc /\
    length acc' = length acc /\
    limbs_value (drop block_width acc')
    = (limbs_value (drop block_width acc) * 10 ^ Z.of_nat (length res))
      mod 2 ^ (32 * Z.of_nat (length acc - block_width)).
Proof.
  intros Hl HL H32 H63 Hfuel.
  (* the limbs in three parts *)
  pose proof (take_drop block_width acc) as Hsplit.
  pose proof (take_drop (block_width - 1) (take block_width acc)) as Hsplit2.
  rewrite take_take, Nat.min_l in Hsplit2 by (unfold block_width; lia).
  set (top := take (block_width - 1) acc) in *.
  set (frac := drop block_width acc) in *.
  assert (Htop : length top = (block_width - 1)%nat)
    by (unfold top; rewrite length_take; unfold block_width in *; lia).
  assert (Hmid : drop (block_width - 1) (take block_width acc) = [0]).
  { apply list_eq. intros i. rewrite lookup_drop. destruct i as [|i].
    - rewrite Nat.add_0_r, lookup_take_lt by (unfold block_width; lia). exact H63.
    - cbn. apply lookup_ge_None_2. rewrite length_take. unfold block_width in *. lia. }
  rewrite Hmid in Hsplit2.
  assert (Hacc : acc = top ++ [0] ++ frac).
  { rewrite app_assoc, Hsplit2. symmetry. exact Hsplit. }
  assert (Hlf : Forall is_limb frac) by (apply Forall_drop; exact Hl).
  assert (Hfl : length frac = (length acc - block_width)%nat) by (unfold frac; apply length_drop).
  (* the run *)
  unfold fractional_result.
  rewrite to_unsigned_small by lia.
  destruct (skip_zero_down_spec acc (Z.to_nat (Z.of_nat (length acc) - 1)) ltac:(lia))
    as (f & Hsk & Hle & Hz).
  rewrite Hsk. cbn [bind].
  rewrite dec_digits_of_eq by lia.
  remember (Z.of_nat ((length acc - block_width) * digits10 - 2)) as dd eqn:Edd.
  destruct (fractional_digits_spec dd fuel acc f []) as (acc' & res & k0 & Hrun & _); auto.
  { lia. }
  { lia. }
  { intros j Hj. apply Hz. lia. }
  { unfold block_width in *. lia. }
  { subst dd. cbn [length]. unfold block_width, digits10 in *. lia. }
  change (pow10_loop digits10 1) with 1000000000 in *.
  rewrite Hrun. exists acc', res.
  rewrite Hacc in Hrun.
  destruct (fractional_digits_value dd fuel top frac f [] acc' res Htop Hlf) as
    (k & ds & frac' & -> & Hres & Hk & Hdgs & Hlen' & Hl' & Hv' & Hr'); auto.
  { intros j x Hj Hx. rewrite <- Hacc in Hx.
    destruct (Nat.lt_ge_cases j (length acc)) as [Hjl|Hjl].
    - specialize (Hz j ltac:(lia)). congruence.
    - rewrite lookup_ge_None_2 in Hx by lia. discriminate Hx. }
  { rewrite <- Hacc. lia. }
  cbn [app] in Hres. subst ds.
  exists k. split; [reflexivity|]. split; [exact Hk|]. split; [exact Hdgs|].
  assert (Hpow : 1000000000 ^ Z.of_nat k = 10 ^ Z.of_nat (length res)).
  { rewrite Hk. unfold digits10. rewrite Nat2Z.inj_mul. change (Z.of_nat 9) with 9.
    rewrite Z.mul_comm, Z.pow_mul_r by lia. reflexivity. }
  rewrite <- Hpow, <- Hfl.
  split; [exact Hv'|].
  split.
  { rewrite Hacc. rewrite !app_assoc.
    rewrite !take_app_length' by (rewrite length_app; cbn [length]; unfold block_width in *; lia).
    reflexivity. }
  split.
  { rewrite Hacc, !length_app. cbn [length]. lia. }
  replace (drop block_width (top ++ [0] ++ frac')) with frac'.
  2:{ rewrite app_assoc, drop_app_length'; [reflexivity|].
      rewrite length_app. cbn [length]. unfold block_width in *. lia. }
  exact Hr'.
Qed.

(** X11. When limb [block_width - 1] is zero, as [print_integer_part]
    leaves it, the digits of [print_fractional_part] are the decimal
    expansion of the fraction [F / 2^(32 * (L - W))] held by the limbs from
    [block_width] on, cut off after [n] digits: read as a number they are
    [F * 10^n / 2^(32 * (L - W))], and the fraction limbs are left with the
    rest. *)
Theorem fractional_digits_are_the_expansion (acc : list Z) (fuel : nat) :
  Forall is_limb acc ->
  (block_width < length acc)%nat ->
  Z.of_nat (length acc) <= 2 ^ 32 ->
  acc !! (block_width - 1)%nat = Some 0 ->
  (length acc - 62 <= fuel)%nat ->
  exists acc' res k,
    fractional_result fuel acc = Ret (acc', res) /\
    length res = (k * digits10)%nat /\
    Forall is_digit res /\
    digits_value res
    = limbs_value (drop block_width acc) * 10 ^ Z.of_nat (length res)
      / 2 ^ (32 * Z.of_nat (length acc - block_width)) /\
    take block_width acc' = take block_width acc /\
    length acc' = length acc /\
    limbs_value (drop block_width acc')
    = (limbs_value (drop block_width acc) * 10 ^ Z.of_nat (length res))
      mod 2 ^ (32 * Z.of_nat (length acc - block_width)).
Proof. apply fractional_result_spec. Qed.

Lemma fractional_digits_expansion_witness :
  exists acc' res k,
    fractional_result 3 (replicate 64 0 ++ [2147483648]) = Ret (acc', res) /\
    length res = (k * digits10)%nat /\
    Forall is_digit res /\
    digits_value res
    = limbs_value (drop block_width (replicate 64 0 ++ [2147483648]))
      * 10 ^ Z.of_nat (length res)
      / 2 ^ (32 * Z.of_nat (length (replicate 64 0 ++ [2147483648]) - block_width)) /\
    take block_width acc' = take block_width (replicate 64 0 ++ [2147483648]) /\
    length acc' = length (replicate 64 0 ++ [2147483648]) /\
    limbs_value (drop block_width acc')
    = (limbs_value (drop block_width (replicate 64 0 ++ [2147483648]))
       * 10 ^ Z.of_nat (length res))
      mod 2 ^ (32 * Z.of_nat (length (replicate 64 0 ++ [2147483648]) - block_width)).
Proof.
  apply (fractional_digits_are_the_expansion (replicate 64 0 ++ [2147483648]) 3).
  - apply limbs_check. vm_compute. reflexivity.
  - vm_compute. lia.
  - vm_compute. discriminate.
  - reflexivity.
  - vm_compute. lia.
Defined.

(** ** The whole run *)

(** ** Lengths and limbs are kept *)

Lemma same_shape_refl l : same_shape l l.
Proof. split; auto. Qed.

Lemma same_shape_trans l1 l2 l3 : same_shape l1 l2 -> same_shape l2 l3 -> same_shape l1 l3.
Proof. intros [H1 H2] [H3 H4]. split; [congruence|auto]. Qed.

Lemma set_shape v i x w : set v i (to_limb x) = Ret w -> same_shape v w.
Proof.
  intros H. apply set_inv in H as [Hi ->]. split; [apply length_insert|].
  intros Hl. apply Forall_insert; [exact Hl|apply to_limb_is_limb].
Qed.

Lemma carry_loop_shape : forall fuel acc d offset acc',
  carry_loop fuel acc d offset = Ret acc' -> same_shape acc acc'.
Proof.
  induction fuel as [|fuel IH]; intros acc d offset acc' H; [discriminate H|].
  cbn [carry_loop] in H. destruct (d =? 0).
  - injection H as <-. apply same_shape_refl.
  - ret_inv H. eapply same_shape_trans; [eapply set_shape; eassumption|].
    eapply IH; eassumption.
Qed.

Lemma borrow_loop_shape : forall fuel acc d offset acc' d' o',
  borrow_loop fuel acc d offset = Ret (acc', d', o') -> same_shape acc acc'.
Proof.
  induction fuel as [|fuel IH]; intros acc d offset acc' d' o' H; [discriminate H|].
  cbn [borrow_loop] in H. ret_inv H.
  destruct (d >? x).
  - destruct (to_limb d >? x).
    + ret_inv H. destruct (Z.shiftr _ _ =? 0); [|discriminate H].
      eapply same_shape_trans; [eapply set_shape; eassumption|]. eapply IH; eassumption.
    + ret_inv H.
      eapply same_shape_trans; [eapply set_shape; eassumption|]. eapply IH; eassumption.
  - injection H as <- <- <-. apply same_shape_refl.
Qed.

Lemma accumulate_shape fuel acc delta offset acc' :
  accumulate fuel acc delta offset = Ret acc' -> same_shape acc acc'.
Proof.
  unfold accumulate. intros H. destruct (delta <? 0).
  - ret_inv H. destruct x as [[acc1 d1] o1]. cbn [borrow_finish] in H. ret_inv H.
    eapply same_shape_trans; [eapply borrow_loop_shape; eassumption|].
    eapply set_shape; eassumption.
  - eapply carry_loop_shape; eassumption.
Qed.

Lemma term_loop_shape sq qpos : forall todo i q rem rpos sum q1 rem1 rpos1 sum1,
  term_loop sq todo i qpos q rem rpos sum = Ret (q1, rem1, rpos1, sum1) ->
  same_shape q q1.
Proof.
  induction todo as [|todo IH]; intros i q rem rpos sum q1 rem1 rpos1 sum1 H.
  - injection H as <- <- <- <-. apply same_shape_refl.
  - cbn [term_loop] in H. ret_inv H. destruct (x1 =? 0); [discriminate H|].
    cbv zeta in H. ret_inv H.
    eapply same_shape_trans; [eapply set_shape; eassumption|]. eapply IH; eassumption.
Qed.

Lemma row_loop_shape sq count qpos : forall fuel q rem rpos divisor addition delta q1 rem1 delta1,
  row_loop fuel sq count qpos q rem rpos divisor addition delta = Ret (q1, rem1, delta1) ->
  same_shape q q1.
Proof.
  induction fuel as [|fuel IH]; intros q rem rpos divisor addition delta q1 rem1 delta1 H;
    [discriminate H|].
  cbn [row_loop] in H. destruct (rpos =? length rem)%nat.
  - injection H as <- <- <-. apply same_shape_refl.
  - ret_inv H. destruct x as [[[q2 rem2] rpos2] sum2]. ret_inv H.
    destruct (divisor =? 0); [discriminate H|]. cbv zeta in H. ret_inv H.
    eapply same_shape_trans; [eapply term_loop_shape; eassumption|]. eapply IH; eassumption.
Qed.

Lemma slot_loop_shape p count divisor : forall fuel qpos digit_offset q acc rem q1 acc1 rem1,
  slot_loop fuel p count divisor qpos digit_offset q acc rem = Ret (q1, acc1, rem1) ->
  same_shape q q1 /\ same_shape acc acc1.
Proof.
  induction fuel as [|fuel IH]; intros qpos digit_offset q acc rem q1 acc1 rem1 H;
    [discriminate H|].
  cbn [slot_loop] in H. destruct (qpos =? length q)%nat.
  - injection H as <- <- <-. split; apply same_shape_refl.
  - ret_inv H. destruct x as [[q2 rem2] delta]. ret_inv H.
    destruct (IH _ _ _ _ _ _ _ _ H) as [I1 I2]. split.
    + eapply same_shape_trans; [eapply row_loop_shape; eassumption|exact I1].
    + eapply same_shape_trans; [eapply accumulate_shape; eassumption|exact I2].
Qed.

Lemma process_block_shape fuel p st block st1 block1 :
  process_block fuel p st block = Ret (st1, block1) ->
  same_shape (quotents st) (quotents st1) /\ same_shape (accumulator st) (accumulator st1).
Proof.
  intros H. apply process_block_inv in H as (q & acc & rem & Hrun & -> & ->).
  cbn [quotents accumulator]. eapply slot_loop_shape, Hrun.
Qed.

Lemma column_body_shape fuel p st n c st1 next :
  column_body fuel p st n c = Ret (st1, next) ->
  same_shape (quotents st) (quotents st1) /\ same_shape (accumulator st) (accumulator st1) /\
  count_non_zero_quotents p (quotents st1) = Ret next.
Proof.
  unfold column_body. intros H.
  destruct (_ !! c) as [b|]; [|discriminate H].
  ret_inv H. destruct x as [st2 b2]. ret_inv H. injection H as <- <-.
  cbn [quotents accumulator].
  destruct (process_block_shape _ _ _ _ _ _ E) as [H1 H2]. auto.
Qed.

Lemma column_loop_shape p : forall fuel st n c st1,
  column_loop fuel p st n c = Ret st1 ->
  same_shape (quotents st) (quotents st1) /\ same_shape (accumulator st) (accumulator st1) /\
  count_non_zero_quotents p (quotents st1) = Ret 0%nat.
Proof.
  induction fuel as [|fuel IH]; intros st n c st1 H; [discriminate H|].
  cbn [column_loop] in H. ret_inv H. destruct x as [st2 next].
  destruct (column_body_shape _ _ _ _ _ _ _ E) as (B1 & B2 & B3).
  destruct ((S c <? length (remainder_column st2))%nat || (0 <? next)%nat) eqn:Econt.
  - destruct (IH _ _ _ _ H) as (I1 & I2 & I3).
    split; [eapply same_shape_trans; eassumption|].
    split; [eapply same_shape_trans; eassumption|exact I3].
  - injection H as <-. split; [exact B1|]. split; [exact B2|].
    apply orb_false_iff in Econt as [_ Hn]. apply Nat.ltb_ge in Hn.
    replace next with 0%nat in B3 by lia. exact B3.
Qed.

Lemma main_loop_shape p : forall fuel st st1,
  main_loop fuel p st = Ret st1 ->
  same_shape (quotents st) (quotents st1) /\ same_shape (accumulator st) (accumulator st1) /\
  ((block_digit_offset st <? Z.of_nat (length (accumulator st))) = true ->
   count_non_zero_quotents p (quotents st1) = Ret 0%nat).
Proof.
  induction fuel as [|fuel IH]; intros st st1 H; [discriminate H|].
  cbn [main_loop] in H.
  destruct (block_digit_offset st <? Z.of_nat (length (accumulator st))) eqn:Econd.
  - ret_inv H. destruct (column_loop_shape _ _ _ _ _ _ E) as (C1 & C2 & C3).
    cbn [quotents accumulator] in C1, C2.
    destruct (IH _ _ H) as (I1 & I2 & I3). cbn [quotents accumulator block_digit_offset] in *.
    split; [eapply same_shape_trans; eassumption|].
    split; [eapply same_shape_trans; eassumption|].
    intros _.
    destruct (to_unsigned (block_digit_offset x + Z.of_nat block_width)
              <? Z.of_nat (length (accumulator x))) eqn:Enext.
    + apply I3. reflexivity.
    + destruct fuel; [discriminate H|]. cbn [main_loop] in H.
      cbn [accumulator block_digit_offset] in H. rewrite Enext in H.
      injection H as <-. exact C3.
  - injection H as <-. split; [apply same_shape_refl|]. split; [apply same_shape_refl|].
    discriminate.
Qed.

Lemma compute_spec fuel progname rest p st :
  compute fuel (progname :: rest) = Ret (p, st) ->
  precision p + 128 <= 2 ^ 64 ->
  wf_params p /\
  all_zero (quotents st) /\
  length (quotents st) = (block_width * length (args p))%nat /\
  Forall is_limb (accumulator st) /\
  exists k, Z.of_nat (length (accumulator st)) = 64 * (k + 1) /\
            64 * (k - 1) < precision p <= 64 * k.
Proof.
  intros H Hprec. unfold compute in H. ret_inv H. injection H as <- <-.
  pose proof (read_parameters_wf _ _ _ E) as W.
  destruct (initialize_variables_spec x W) as (st0 & Hinit & Hacc & _ & Hbdo & Hq & _).
  rewrite Hinit in E0. injection E0 as <-.
  destruct (main_loop_shape _ _ _ _ E1) as ([Sq _] & [Sa1 Sa2] & Hcount).
  pose proof (wf_precision x W) as HP.
  assert (Hsize : exists k, Z.of_nat (length (accumulator st0)) = 64 * (k + 1) /\
                            64 * (k - 1) < precision x <= 64 * k).
  { rewrite Hacc, length_replicate. unfold fractional_size.
    change (Z.of_nat block_width) with 64.
    pose proof (Z.div_mod (precision x) 64 ltac:(lia)) as Hdm.
    pose proof (Z.mod_pos_bound (precision x) 64 ltac:(lia)) as Hm.
    destruct (Z.eqb_spec (precision x mod 64) 0) as [E0|E0].
    - exists (precision x / 64).
      rewrite to_ulong_small by lia. rewrite Z2Nat.id by lia. lia.
    - exists (precision x / 64 + 1).
      rewrite (to_ulong_small ((precision x / 64 + 1) * 64)) by lia.
      rewrite to_ulong_small by lia. rewrite Z2Nat.id by lia. lia. }
  assert (Hlimb0 : Forall is_limb (accumulator st0)).
  { rewrite Hacc. apply Forall_replicate. unfold is_limb. lia. }
  split; [exact W|].
  split.
  - destruct (count_non_zero_quotents_spec x (quotents x1))
      as (c & Hc & _ & Hiff & _); [lia|].
    rewrite Hcount in Hc.
    + injection Hc as <-. apply Hiff. reflexivity.
    + rewrite Hbdo. apply Z.ltb_lt. destruct Hsize as (k & Hk & Hk'). lia.
  - split; [lia|]. split; [auto|]. rewrite Sa1. exact Hsize.
Qed.

(** X12. When the outer loop of [main] ends, every limb of the quotient
    vector is zero, and the accumulator still has the limbs that
    [initialize_variables] gave it. *)
Theorem quotients_are_zero_when_the_loop_ends fuel progname rest p st :
  compute fuel (progname :: rest) = Ret (p, st) ->
  precision p + 128 <= 2 ^ 64 ->
  all_zero (quotents st) /\
  length (quotents st) = (block_width * length (args p))%nat /\
  Forall is_limb (accumulator st) /\
  exists k, Z.of_nat (length (accumulator st)) = 64 * (k + 1) /\
            64 * (k - 1) < precision p <= 64 * k.
Proof. intros H Hprec. apply (compute_spec _ _ _ _ _ H Hprec). Qed.

Lemma quotients_are_zero_witness :
  all_zero (quotents state_H) /\
  length (quotents state_H) = (block_width * length (args params_H))%nat /\
  Forall is_limb (accumulator state_H) /\
  exists k, Z.of_nat (length (accumulator state_H)) = 64 * (k + 1) /\
            64 * (k - 1) < precision params_H <= 64 * k.
Proof.
  apply (quotients_are_zero_when_the_loop_ends 300 "pi"
           (tl argv_H) params_H state_H).
  - exact run_H.
  - vm_compute. discriminate.
Defined.

(** ** More fuel keeps what the printing loops return *)

Lemma integer_digits_mono : forall f g acc fnz res r,
  (f <= g)%nat -> integer_digits f acc fnz res = Ret r -> integer_digits g acc fnz res = Ret r.
Proof.
  induction f as [|f IH]; intros g acc fnz res r Hfg H; [discriminate H|].
  destruct g as [|g]; [lia|]. cbn [integer_digits] in *.
  destruct (fnz <? block_width)%nat; [|exact H].
  ret_inv H. rewrite E. cbn [bind]. rewrite E0. cbn [bind]. rewrite E1. cbn [bind].
  apply IH; [lia|exact H].
Qed.

Lemma fractional_digits_mono pow10 dd : forall f g acc fnz res r,
  (f <= g)%nat ->
  fractional_digits f acc pow10 dd fnz res = Ret r ->
  fractional_digits g acc pow10 dd fnz res = Ret r.
Proof.
  induction f as [|f IH]; intros g acc fnz res r Hfg H; [discriminate H|].
  destruct g as [|g]; [lia|]. cbn [fractional_digits] in *.
  destruct ((0 <? fnz)%nat && (Z.of_nat (length res) <=? dd)); [|exact H].
  ret_inv H. destruct x0 as [acc2 res1]. ret_inv H.
  rewrite E. cbn [bind]. rewrite E0. cbn [bind]. rewrite E1. cbn [bind]. rewrite E2. cbn [bind].
  apply IH; [lia|exact H].
Qed.

Lemma print_integer_part_mono f g acc r :
  (f <= g)%nat -> print_integer_part f acc = Ret r -> print_integer_part g acc = Ret r.
Proof.
  unfold print_integer_part. intros Hfg H. ret_inv H.
  rewrite E. cbn [bind]. rewrite (integer_digits_mono f g _ _ _ _ Hfg E0). exact H.
Qed.

Lemma fractional_result_mono f g acc r :
  (f <= g)%nat -> fractional_result f acc = Ret r -> fractional_result g acc = Ret r.
Proof.
  unfold fractional_result. intros Hfg H. ret_inv H.
  rewrite E. cbn [bind]. eapply fractional_digits_mono; eassumption.
Qed.

(** ** The two parts of the output together *)

Lemma printed_number_spec (acc : list Z) (fuel : nat) :
  Forall is_limb acc ->
  (block_width < length acc)%nat ->
  Z.of_nat (length acc) <= 2 ^ 32 ->
  (618 <= fuel)%nat -> (length acc - 62 <= fuel)%nat ->
  exists acc1 s acc2 res k,
    print_integer_part fuel acc = Ret (acc1, s) /\
    fractional_result fuel acc1 = Ret (acc2, res) /\
    s <> ""%string /\
    Forall is_digit (list_ascii_of_string s) /\
    Forall is_digit res /\ length res = (k * digits10)%nat /\
    (limbs_value (take block_width acc) < 2 ^ 32 ->
     parse_decimal s * 10 ^ Z.of_nat (length res) + digits_value res
     = limbs_value acc * 10 ^ Z.of_nat (length res)
       / 2 ^ (32 * Z.of_nat (length acc - block_width))).
Proof.
  intros Hl HL H32 Hf1 Hf2.
  destruct (print_integer_part_spec acc fuel Hl ltac:(lia) Hf1)
    as (s & Hint & Hdig & Hzero & Hcount & Hval).
  set (acc1 := replicate block_width 0 ++ drop block_width acc) in *.
  assert (Hlen1 : length acc1 = length acc).
  { unfold acc1. rewrite length_app, length_replicate, length_drop. lia. }
  assert (Hl1 : Forall is_limb acc1).
  { unfold acc1. apply Forall_app. split.
    - apply Forall_replicate. unfold is_limb. lia.
    - apply Forall_drop. exact Hl. }
  assert (H63 : acc1 !! (block_width - 1)%nat = Some 0).
  { unfold acc1. rewrite lookup_app_l by (rewrite length_replicate; unfold block_width; lia).
    apply lookup_replicate_2. unfold block_width. lia. }
  destruct (fractional_result_spec acc1 fuel Hl1 ltac:(lia) ltac:(lia) H63 ltac:(lia))
    as (acc2 & res & k & Hfrac & Hk & Hdg & Hv & _ & _ & _).
  exists acc1, s, acc2, res, k.
  split; [exact Hint|]. split; [exact Hfrac|].
  split.
  { intros ->. destruct (Z.eq_dec (limbs_value (take block_width acc)) 0) as [E0|E0].
    - discriminate (Hzero E0).
    - pose proof (limbs_value_bound (take block_width acc) (Forall_take _ _ _ Hl)).
      destruct (Hcount ltac:(lia)) as [_ C].
      change (Z.of_nat (String.length "")) with 0 in C. rewrite Z.pow_0_r in C. lia. }
  split; [exact Hdig|]. split; [exact Hdg|]. split; [exact Hk|].
  intros Hsmall. rewrite (Hval Hsmall), Hv.
  replace (drop block_width acc1) with (drop block_width acc).
  2:{ unfold acc1. rewrite drop_app_length'; [reflexivity|symmetry; apply length_replicate]. }
  rewrite Hlen1.
  assert (HA : limbs_value acc
               = limbs_value (take block_width acc)
                 * 2 ^ (32 * Z.of_nat (length acc - block_width))
                 + limbs_value (drop block_width acc)).
  { rewrite <- (take_drop block_width acc) at 1.
    rewrite limbs_value_app, length_drop. reflexivity. }
  rewrite HA.
  assert (HM : 0 < 2 ^ (32 * Z.of_nat (length acc - block_width)))
    by (apply Z.pow_pos_nonneg; lia).
  rewrite Z.mul_add_distr_r.
  replace (limbs_value (take block_width acc) * 2 ^ (32 * Z.of_nat (length acc - block_width))
           * 10 ^ Z.of_nat (length res))
    with (limbs_value (take block_width acc) * 10 ^ Z.of_nat (length res)
          * 2 ^ (32 * Z.of_nat (length acc - block_width))) by ring.
  rewrite Z.div_add_l by lia. reflexivity.
Qed.

(** X13. The two printing functions one after the other, as [main] calls
    them: both return, the first prints at least one digit, the second a
    multiple of nine digits; and when the integer part fits in one limb, the
    number printed is the accumulator [A / 2^(32 * (L - W))] cut off after
    the [n] digits of the fraction. *)
Theorem printed_number_is_the_accumulator_truncated (acc : list Z) (fuel : nat) :
  Forall is_limb acc ->
  (block_width < length acc)%nat ->
  Z.of_nat (length acc) <= 2 ^ 32 ->
  (618 <= fuel)%nat -> (length acc - 62 <= fuel)%nat ->
  exists acc1 s acc2 res k,
    print_integer_part fuel acc = Ret (acc1, s) /\
    fractional_result fuel acc1 = Ret (acc2, res) /\
    s <> ""%string /\
    Forall is_digit (list_ascii_of_string s) /\
    Forall is_digit res /\ length res = (k * digits10)%nat /\
    (limbs_value (take block_width acc) < 2 ^ 32 ->
     parse_decimal s * 10 ^ Z.of_nat (length res) + digits_value res
     = limbs_value acc * 10 ^ Z.of_nat (length res)
       / 2 ^ (32 * Z.of_nat (length acc - block_width))).
Proof. apply printed_number_spec. Qed.

Lemma printed_number_witness :
  exists acc1 s acc2 res k,
    print_integer_part 618 (replicate 63 0 ++ [3; 611085824]) = Ret (acc1, s) /\
    fractional_result 618 acc1 = Ret (acc2, res) /\
    s <> ""%string /\
    Forall is_digit (list_ascii_of_string s) /\
    Forall is_digit res /\ length res = (k * digits10)%nat /\
    (limbs_value (take block_width (replicate 63 0 ++ [3; 611085824])) < 2 ^ 32 ->
     parse_decimal s * 10 ^ Z.of_nat (length res) + digits_value res
     = limbs_value (replicate 63 0 ++ [3; 611085824]) * 10 ^ Z.of_nat (length res)
       / 2 ^ (32 * Z.of_nat (length (replicate 63 0 ++ [3; 611085824]) - block_width))).
Proof.
  apply (printed_number_is_the_accumulator_truncated (replicate 63 0 ++ [3; 611085824]) 618).
  - apply limbs_check. vm_compute. reflexivity.
  - vm_compute. lia.
  - vm_compute. discriminate.
  - lia.
  - vm_compute. lia.
Defined.

Lemma main_prints_spec fuel progname rest p st out :
  compute fuel (progname :: rest) = Ret (p, st) ->
  precision p + 128 <= 2 ^ 32 ->
  main fuel (progname :: rest) = Ret out ->
  exists s res k,
    out = (s ++ (if (length res =? 0)%nat then "" else String "." (string_of_list_ascii res))
             ++ String "010" "")%string /\
    s <> ""%string /\
    Forall is_digit (list_ascii_of_string s) /\
    Forall is_digit res /\ length res = (k * digits10)%nat /\
    (limbs_value (take block_width (accumulator st)) < 2 ^ 32 ->
     parse_decimal s * 10 ^ Z.of_nat (length res) + digits_value res
     = limbs_value (accumulator st) * 10 ^ Z.of_nat (length res)
       / 2 ^ (32 * Z.of_nat (length (accumulator st) - block_width))).
Proof.
  intros Hc Hprec Hmain.
  destruct (compute_spec _ _ _ _ _ Hc ltac:(lia)) as (W & _ & _ & Hl & k0 & HL & Hk0).
  pose proof (wf_precision p W) as HP.
  unfold main in Hmain. rewrite Hc in Hmain. cbn [bind] in Hmain.
  ret_inv Hmain. destruct x as [acc1 out1]. ret_inv Hmain. destruct x as [acc2 out2].
  injection Hmain as <-.
  unfold print_fractional_part in E0. ret_inv E0. destruct x as [acc2' res].
  set (F := (fuel + 618 + length (accumulator st))%nat).
  apply (print_integer_part_mono fuel F) in E; [|unfold F; lia].
  apply (fractional_result_mono fuel F) in E1; [|unfold F; lia].
  destruct (printed_number_spec (accumulator st) F Hl) as
    (acc1' & s & acc2'' & res' & k & Hint & Hfrac & Hne & Hdig & Hdg & Hk & Hv);
    try (unfold F, block_width; lia).
  rewrite Hint in E. injection E as <- <-.
  rewrite Hfrac in E1. injection E1 as <- <-.
  exists s, res', k. split.
  - destruct (length res' =? 0)%nat; injection E0 as _ <-; reflexivity.
  - auto.
Qed.

(** X14. What [main] prints when it returns is a decimal number: digits,
    then nothing or a point and a multiple of nine digits, then a newline.
    When the integer part of the accumulator fits in one limb, it is the
    accumulator cut off after the digits printed. *)
Theorem main_prints_a_decimal fuel progname rest p st out :
  compute fuel (progname :: rest) = Ret (p, st) ->
  precision p + 128 <= 2 ^ 32 ->
  main fuel (progname :: rest) = Ret out ->
  exists s res k,
    out = (s ++ (if (length res =? 0)%nat then "" else String "." (string_of_list_ascii res))
             ++ String "010" "")%string /\
    s <> ""%string /\
    Forall is_digit (list_ascii_of_string s) /\
    Forall is_digit res /\ length res = (k * digits10)%nat /\
    (limbs_value (take block_width (accumulator st)) < 2 ^ 32 ->
     parse_decimal s * 10 ^ Z.of_nat (length res) + digits_value res
     = limbs_value (accumulator st) * 10 ^ Z.of_nat (length res)
       / 2 ^ (32 * Z.of_nat (length (accumulator st) - block_width))).
Proof. apply main_prints_spec. Qed.

Lemma main_prints_a_decimal_witness :
  exists out s res k,
    main 300 argv_H = Ret out /\
    out = (s ++ (if (length res =? 0)%nat then "" else String "." (string_of_list_ascii res))
             ++ String "010" "")%string /\
    s <> ""%string /\
    Forall is_digit (list_ascii_of_string s) /\
    Forall is_digit res /\ length res = (k * digits10)%nat /\
    (limbs_value (take block_width (accumulator state_H)) < 2 ^ 32 ->
     parse_decimal s * 10 ^ Z.of_nat (length res) + digits_value res
     = limbs_value (accumulator state_H) * 10 ^ Z.of_nat (length res)
       / 2 ^ (32 * Z.of_nat (length (accumulator state_H) - block_width))).
Proof.
  destruct main_H_returns as [out Hout]. exists out.
  destruct (main_prints_a_decimal 300 "pi" (tl argv_H) params_H state_H out run_H
              ltac:(vm_compute; discriminate) Hout) as (s & res & k & H).
  exists s, res, k. split; [exact Hout|exact H].
Defined.

(** ** Unused blocks and the series *)

Lemma term_fresh K sq : forall Y,
  length Y = length sq ->
  Forall (fun a => 0 < a) sq -> Forall (fun y => 0 <= y) Y ->
  term_quotients K sq (replicate (length sq) 0) Y = zip_with Z.div Y sq /\
  Forall2 (fun x a => 0 <= x < a) (term_remainders K sq (replicate (length sq) 0) Y) sq.
Proof.
  induction sq as [|a sq IH]; intros [|y Y] Hlen Hsq HY; try discriminate.
  - split; [reflexivity|constructor].
  - inversion Hsq; subst. inversion HY; subst.
    destruct (IH Y ltac:(simpl in Hlen; lia)) as [I1 I2]; auto.
    cbn [length replicate term_quotients term_remainders zip_with].
    rewrite Z.mul_0_l, Z.add_0_l, I1. split; [reflexivity|].
    constructor; [apply Z.mod_pos_bound; lia|exact I2].
Qed.

Lemma zip_div_nonneg sq : forall Y,
  Forall (fun a => 0 < a) sq -> Forall (fun y => 0 <= y) Y ->
  Forall (fun y => 0 <= y) (zip_with Z.div Y sq).
Proof.
  induction sq as [|a sq IH]; intros [|y Y] Hsq HY; try constructor.
  - inversion Hsq; inversion HY; subst. apply Z.div_pos; lia.
  - inversion Hsq; inversion HY; subst. apply IH; assumption.
Qed.

Lemma zip_div_length sq Y : length Y = length sq -> length (zip_with Z.div Y sq) = length sq.
Proof. intros H. rewrite length_zip_with. lia. Qed.

Lemma sum_list_nonneg Y : Forall (fun y => 0 <= y) Y -> 0 <= sum_list Y.
Proof.
  unfold sum_list. induction 1 as [|y Y Hy HY IH]; cbn [fold_right]; lia.
Qed.

(** Unused rows: the base does not matter, and the block is the series. *)
Lemma divide_block_fresh K sq : forall rows dv addition Y Yf rows' D,
  length Y = length sq ->
  Forall (fun a => 0 < a) sq -> Forall (fun y => 0 <= y) Y -> 0 < dv ->
  divide_block K sq dv addition Y (fresh_rows (length sq) rows) = (Yf, rows', D) ->
  series sq dv addition Y rows = (Yf, D) /\
  rows_ok sq dv rows' /\ length rows' = rows /\
  length Yf = length sq /\ Forall (fun y => 0 <= y) Yf.
Proof.
  induction rows as [|rows IH]; intros dv addition Y Yf rows' D Hlen Hsq HY Hdv H.
  - cbn in H. injection H as <- <- <-. cbn. auto.
  - cbn [fresh_rows replicate divide_block fst snd] in H.
    fold (fresh_rows (length sq) rows) in H.
    destruct (term_fresh K sq Y Hlen Hsq HY) as [T1 T2].
    rewrite T1 in H.
    destruct (divide_block K sq (dv + 2) (negb addition) (zip_with Z.div Y sq)
                (fresh_rows (length sq) rows)) as [[Yf1 rows1] d1] eqn:E.
    injection H as <- <- <-.
    assert (Hdv2 : 0 < dv + 2) by lia.
    destruct (IH _ _ _ _ _ _ (zip_div_length sq Y Hlen) Hsq (zip_div_nonneg sq Y Hsq HY)
                Hdv2 E) as (I1 & I2 & I3 & I4 & I5).
    cbn [series]. rewrite I1. rewrite Z.mul_0_l, Z.add_0_l.
    split; [reflexivity|].
    split.
    + split; [|exact I2]. split; cbn [fst snd]; [exact T2|].
      apply Z.mod_pos_bound. lia.
    + cbn [length]. auto.
Qed.

Lemma series_app sq : forall r1 r2 dv addition Y Y1 D1 Y2 D2,
  series sq dv addition Y r1 = (Y1, D1) ->
  series sq (dv + 2 * Z.of_nat r1) (if Nat.even r1 then addition else negb addition) Y1 r2
  = (Y2, D2) ->
  series sq dv addition Y (r1 + r2) = (Y2, D1 + D2).
Proof.
  induction r1 as [|r1 IH]; intros r2 dv addition Y Y1 D1 Y2 D2 H1 H2.
  - cbn in H1. injection H1 as <- <-. cbn [Nat.even Nat.add] in *.
    rewrite Z.mul_0_r, Z.add_0_r in H2. rewrite H2. reflexivity.
  - cbn [series] in H1.
    destruct (series sq (dv + 2) (negb addition) (zip_with Z.div Y sq) r1) as [Yf d] eqn:E.
    injection H1 as <- <-.
    cbn [Nat.add series].
    rewrite (IH r2 (dv + 2) (negb addition) _ Yf d Y2 D2 E).
    + f_equal. lia.
    + rewrite <- H2. f_equal; [lia|].
      rewrite Nat.even_succ, <- Nat.negb_even.
      destruct (Nat.even r1), addition; reflexivity.
Qed.

Lemma chain_series K sq : forall blocks dv Yin Yout D,
  Forall (fun a => 0 < a) sq -> 0 < dv ->
  length Yin = length sq -> Forall (fun y => 0 <= y) Yin ->
  chain K sq dv Yin blocks Yout D ->
  series sq dv true Yin (block_height * length blocks) = (Yout, D) /\
  length Yout = length sq /\ Forall (fun y => 0 <= y) Yout.
Proof.
  induction blocks as [|b rest IH]; intros dv Yin Yout D Hsq Hdv Hlen HY H.
  - destruct H as [-> ->]. rewrite Nat.mul_0_r. auto.
  - destruct H as (Ymid & rows & Db & Drest & -> & Hb & Hrest & ->).
    destruct (divide_block_fresh K sq _ _ _ _ _ _ _ Hlen Hsq HY Hdv Hb)
      as (S1 & _ & _ & S4 & S5).
    assert (Hdv2 : 0 < dv + 2 * Z.of_nat block_height) by lia.
    destruct (IH _ _ _ _ Hsq Hdv2 S4 S5 Hrest) as (I1 & I2 & I3).
    split; [|auto].
    cbn [length]. replace (block_height * S (length rest))%nat
      with (block_height + block_height * length rest)%nat by lia.
    eapply series_app; [exact S1|]. exact I1.
Qed.

(** ** A block continued by the slots *)

Lemma divide_slots_length sq dv : forall slots rows slots' rows' ds,
  divide_slots sq dv slots rows = (slots', rows', ds) -> length ds = length slots.
Proof.
  induction slots as [|xs rest IH]; intros rows slots' rows' ds H.
  - cbn in H. injection H as <- <- <-. reflexivity.
  - cbn [divide_slots] in H.
    destruct (divide_block (2 ^ 32) sq dv true xs rows) as [[ys rows1] d].
    destruct (divide_slots sq dv rest rows1) as [[rest' rows2] ds'] eqn:E'.
    injection H as <- <- <-. cbn [length]. f_equal. eapply IH, E'.
Qed.

(** [process_block] on a block that is what an unused block became when the
    numbers [Ys] went through it in base [K]: afterwards it is what an
    unused block becomes when the numbers, continued by the slots of the
    quotient vector, go through it in base [K * 2^(32 * slots)]. *)
Lemma process_block_continues fuel p st block slots K Ys Ymid rows Db st1 block1 :
  length (args p) = length (arg_sq p) ->
  (0 < length (arg_sq p))%nat ->
  Forall (fun a => 0 < a < 2 ^ 32) (arg_sq p) ->
  block = block_of (length (arg_sq p)) rows ->
  divide_block K (arg_sq p) (block_divisor_offset st) true Ys
    (fresh_rows (length (arg_sq p)) block_height) = (Ymid, rows, Db) ->
  length Ys = length (arg_sq p) -> Forall (fun y => 0 <= y) Ys ->
  quotents st = concat slots ->
  Forall (fun xs => length xs = length (arg_sq p) /\ Forall is_limb xs) slots ->
  1 <= block_divisor_offset st ->
  block_divisor_offset st + 2 * Z.of_nat block_height + Z.of_nat (length (arg_sq p)) < 2 ^ 32 ->
  Z.of_nat (length (arg_sq p)) < 2 ^ 24 ->
  Forall is_limb (accumulator st) ->
  Z.of_nat (length (accumulator st)) < 2 ^ 32 ->
  0 <= block_digit_offset st ->
  block_digit_offset st + Z.of_nat (length slots) <= Z.of_nat (length (accumulator st)) ->
  process_block fuel p st block = Ret (st1, block1) ->
  exists slots' rows' ds,
    quotents st1 = concat slots' /\
    Forall (fun xs => length xs = length (arg_sq p) /\ Forall is_limb xs) slots' /\
    length slots' = length slots /\
    block1 = block_of (length (arg_sq p)) rows' /\
    divide_block (K * 2 ^ (32 * Z.of_nat (length slots))) (arg_sq p) (block_divisor_offset st)
      true (fold_left extend slots Ys) (fresh_rows (length (arg_sq p)) block_height)
    = (fold_left extend slots' Ymid, rows',
       Db * 2 ^ (32 * Z.of_nat (length slots)) + limbs_value ds) /\
    length ds = length slots /\
    Forall is_limb (accumulator st1) /\
    length (accumulator st1) = length (accumulator st) /\
    limbs_value (accumulator st1)
    = limbs_value (accumulator st)
      + limbs_value ds
        * 2 ^ (32 * (Z.of_nat (length (accumulator st)) - block_digit_offset st
                     - Z.of_nat (length slots))) /\
    remainder_column st1 = remainder_column st /\
    block_digit_offset st1 = block_digit_offset st /\
    block_divisor_offset st1 = block_divisor_offset st.
Proof.
  intros Hargs HN Hsq -> Hb HYl HY Hq Hslots Hdiv Hwrap HN24 Hacc Hlen Ho Hol H.
  assert (Hpos : Forall (fun a => 0 < a) (arg_sq p))
    by (eapply Forall_impl; [exact Hsq|]; simpl; lia).
  assert (Hdv0 : 0 < block_divisor_offset st) by lia.
  destruct (divide_block_fresh K (arg_sq p) _ _ _ _ _ _ _ HYl Hpos HY Hdv0 Hb)
    as (_ & Hok & Hrl & HYm & _).
  apply process_block_inv in H as (q & acc & rem & Hrun & -> & ->).
  cbn [block_of arg_count remainders] in Hrun. rewrite Hq in Hrun.
  destruct (slot_loop_inv p (block_divisor_offset st) Hargs HN Hsq Hdiv slots fuel []
              (accumulator st) rows (block_digit_offset st) q acc rem
              Hslots Hok) as (slots' & rows' & ds & Eslots & -> & -> & Hl1 & Hlimb1 & Hv1);
    auto.
  { rewrite Hrl. exact Hwrap. }
  { rewrite Hrl. unfold block_height. lia. }
  destruct (divide_slots_bounds _ _ Hpos Hdiv _ _ _ _ _ Hslots Hok Eslots) as (B1 & B2 & B3).
  assert (Hshape : Forall (fun xs => length xs = length (arg_sq p)) slots)
    by (eapply Forall_impl; [exact Hslots|]; simpl; tauto).
  assert (Hfresh : Forall (row_shape (length (arg_sq p)))
                     (fresh_rows (length (arg_sq p)) block_height)).
  { apply Forall_replicate. unfold row_shape. cbn [fst]. apply length_replicate. }
  destruct (divide_slots_value (arg_sq p) (block_divisor_offset st) Hpos ltac:(lia)
              slots K Ys _ Ymid rows Db slots' rows' ds Hfresh HYl Hshape Hb Eslots)
    as (V1 & V2 & V3).
  pose proof (divide_slots_length _ _ _ _ _ _ _ Eslots) as Hds.
  exists slots', rows', ds. cbn [quotents accumulator remainder_column block_digit_offset
                                  block_divisor_offset app].
  split; [reflexivity|]. split; [exact B1|]. split; [exact V3|].
  split; [reflexivity|].
  split.
  { rewrite V1. f_equal. rewrite fold_limbs, Hds. reflexivity. }
  split; [exact Hds|]. split; [exact Hlimb1|]. split; [exact Hl1|].
  split; [|auto].
  rewrite Hv1, place_value by lia. rewrite Hds. reflexivity.
Qed.

(** ** Unused blocks and zero input *)

Lemma flat_rows_fresh n : forall r,
  flat_rows (fresh_rows n r) = replicate ((n + 1) * r) 0.
Proof.
  induction r as [|r IH]; [rewrite Nat.mul_0_r; reflexivity|].
  cbn [fresh_rows replicate flat_rows fst snd]. fold (fresh_rows n r). rewrite IH.
  replace ((n + 1) * S r)%nat with (n + S ((n + 1) * r))%nat by lia.
  rewrite replicate_add. reflexivity.
Qed.

Lemma new_block_fresh p :
  length (args p) = length (arg_sq p) ->
  new_block p (length (arg_sq p)) = block_of (length (arg_sq p)) (fresh_rows (length (arg_sq p)) block_height).
Proof.
  intros H. unfold new_block, block_of. rewrite flat_rows_fresh, H. reflexivity.
Qed.

Lemma term_zero_input K sq :
  Forall (fun a => 0 < a) sq ->
  term_quotients K sq (replicate (length sq) 0) (replicate (length sq) 0)
  = replicate (length sq) 0 /\
  term_remainders K sq (replicate (length sq) 0) (replicate (length sq) 0)
  = replicate (length sq) 0.
Proof.
  induction 1 as [|a sq Ha Hsq [IH1 IH2]]; [split; reflexivity|].
  cbn [length replicate term_quotients term_remainders].
  rewrite IH1, IH2, Z.mul_0_l, Z.add_0_l, Z.div_0_l, Z.mod_0_l by lia.
  split; reflexivity.
Qed.

Lemma divide_block_zero_input K sq : forall rows dv addition,
  Forall (fun a => 0 < a) sq -> 0 < dv ->
  divide_block K sq dv addition (replicate (length sq) 0) (fresh_rows (length sq) rows)
  = (replicate (length sq) 0, fresh_rows (length sq) rows, 0).
Proof.
  induction rows as [|rows IH]; intros dv addition Hsq Hdv; [reflexivity|].
  cbn [fresh_rows replicate divide_block fst snd]. fold (fresh_rows (length sq) rows).
  destruct (term_zero_input K sq Hsq) as [-> ->].
  rewrite IH by (auto; lia).
  rewrite sum_list_zero, Z.mul_0_l, Z.add_0_l, Z.mod_0_l, Z.div_0_l by lia.
  destruct addition; reflexivity.
Qed.

(** ** Every row divides by at least four *)

Lemma zip_div_sum sq : forall Y,
  Forall (fun a => 4 <= a) sq -> Forall (fun y => 0 <= y) Y ->
  4 * sum_list (zip_with Z.div Y sq) <= sum_list Y.
Proof.
  induction sq as [|a sq IH]; intros [|y Y] Hsq HY; cbn [zip_with sum_list fold_right].
  - lia.
  - inversion HY; subst. pose proof (sum_list_nonneg Y H2). unfold sum_list in *. lia.
  - lia.
  - inversion Hsq; inversion HY; subst. specialize (IH Y H2 H6). unfold sum_list in IH.
    assert (4 * (y / a) <= y).
    { pose proof (Z.mul_div_le y a ltac:(lia)).
      assert (0 <= y / a) by (apply Z.div_pos; lia). nia. }
    lia.
Qed.

Lemma series_sum_bound sq : forall r dv addition Y Yf D,
  Forall (fun a => 4 <= a) sq -> Forall (fun y => 0 <= y) Y ->
  series sq dv addition Y r = (Yf, D) ->
  4 ^ Z.of_nat r * sum_list Yf <= sum_list Y.
Proof.
  induction r as [|r IH]; intros dv addition Y Yf D Hsq HY H.
  - cbn in H. injection H as <- <-. cbn. lia.
  - cbn [series] in H.
    destruct (series sq (dv + 2) (negb addition) (zip_with Z.div Y sq) r) as [Yf1 d] eqn:E.
    injection H as <- <-.
    assert (Hpos : Forall (fun a => 0 < a) sq)
      by (eapply Forall_impl; [exact Hsq|]; simpl; lia).
    pose proof (IH _ _ _ _ _ Hsq (zip_div_nonneg sq Y Hpos HY) E) as I.
    pose proof (zip_div_sum sq Y Hsq HY).
    rewrite Nat2Z.inj_succ, Z.pow_succ_r by lia. lia.
Qed.

(** ** The sum of a block lies between zero and a quarter of what goes in *)

Lemma zip_div_sum_le sq : forall Y,
  Forall (fun a => 0 < a) sq -> Forall (fun y => 0 <= y) Y ->
  sum_list (zip_with Z.div Y sq) <= sum_list Y.
Proof.
  induction sq as [|a sq IH]; intros [|y Y] Hsq HY; cbn [zip_with sum_list fold_right].
  - lia.
  - inversion HY; subst. pose proof (sum_list_nonneg Y H2). unfold sum_list in *. lia.
  - lia.
  - inversion Hsq; inversion HY; subst. specialize (IH Y H2 H6). unfold sum_list in IH.
    assert (y / a <= y) by (apply Z.div_le_upper_bound; nia).
    lia.
Qed.

(** A stretch of the series lies between zero and its first term. *)
Lemma series_segment sq : Forall (fun a => 0 < a) sq -> forall r dv addition Y Yf D,
  Forall (fun y => 0 <= y) Y -> 0 < dv ->
  series sq dv addition Y r = (Yf, D) ->
  if addition
  then 0 <= D <= sum_list (zip_with Z.div Y sq) / dv
  else - (sum_list (zip_with Z.div Y sq) / dv) <= D <= 0.
Proof.
  intros Hsq. induction r as [|r IH]; intros dv addition Y Yf D HY Hdv H.
  - cbn in H. injection H as <- <-.
    assert (0 <= sum_list (zip_with Z.div Y sq) / dv).
    { apply Z.div_pos; [|lia]. apply sum_list_nonneg, zip_div_nonneg; assumption. }
    destruct addition; lia.
  - cbn [series] in H.
    destruct (series sq (dv + 2) (negb addition) (zip_with Z.div Y sq) r) as [Yf1 d] eqn:E.
    injection H as <- <-.
    pose proof (zip_div_nonneg sq Y Hsq HY) as HY1.
    assert (Hdv2 : 0 < dv + 2) by lia.
    pose proof (IH _ _ _ _ _ HY1 Hdv2 E) as I.
    pose proof (zip_div_sum_le sq _ Hsq HY1) as Hle.
    pose proof (sum_list_nonneg _ (zip_div_nonneg sq _ Hsq HY1)) as Hnn.
    assert (Hdec : sum_list (zip_with Z.div (zip_with Z.div Y sq) sq) / (dv + 2)
                   <= sum_list (zip_with Z.div Y sq) / dv).
    { etransitivity; [apply Z.div_le_mono; [lia|exact Hle]|].
      apply Z.div_le_compat_l; [|lia]. apply sum_list_nonneg. exact HY1. }
    assert (0 <= sum_list (zip_with Z.div (zip_with Z.div Y sq) sq) / (dv + 2))
      by (apply Z.div_pos; lia).
    destruct addition; cbn [negb] in I; lia.
Qed.

Lemma series_range sq r dv Y Yf D :
  Forall (fun a => 4 <= a) sq -> Forall (fun y => 0 <= y) Y -> 0 < dv ->
  series sq dv true Y r = (Yf, D) ->
  0 <= D /\ 4 * D <= sum_list Y.
Proof.
  intros Hsq HY Hdv H.
  assert (Hpos : Forall (fun a => 0 < a) sq)
    by (eapply Forall_impl; [exact Hsq|]; simpl; lia).
  pose proof (series_segment sq Hpos _ _ _ _ _ _ HY Hdv H) as S. cbn in S.
  pose proof (zip_div_sum sq Y Hsq HY) as Hq.
  assert (sum_list (zip_with Z.div Y sq) / dv <= sum_list (zip_with Z.div Y sq)).
  { apply Z.div_le_upper_bound; [lia|].
    pose proof (sum_list_nonneg _ (zip_div_nonneg sq Y Hpos HY)). nia. }
  lia.
Qed.

(** ** Numbers continued by slots *)

Lemma all_zero_Forall (l : list Z) : all_zero l <-> Forall (fun x => x = 0) l.
Proof. unfold all_zero. rewrite Forall_lookup. reflexivity. Qed.

Lemma all_zero_slots n : forall slots,
  Forall (fun xs => length xs = n) slots -> all_zero (concat slots) ->
  Forall (fun xs => xs = replicate n 0) slots.
Proof.
  intros slots Hsh Hz. apply all_zero_Forall, Forall_concat in Hz.
  rewrite Forall_forall in *. intros xs Hin.
  specialize (Hsh xs Hin). specialize (Hz xs Hin). subst n.
  symmetry. apply replicate_as_Forall. split; [reflexivity|].
  eapply Forall_impl; [exact Hz|]. simpl. intros; subst; reflexivity.
Qed.

Lemma fold_extend_length : forall slots X,
  Forall (fun xs => length xs = length X) slots ->
  length (fold_left extend slots X) = length X.
Proof.
  induction slots as [|xs rest IH]; intros X H; [reflexivity|].
  inversion H; subst. cbn [fold_left].
  rewrite IH; rewrite extend_length; auto.
Qed.

Lemma extend_zero : forall X,
  extend X (replicate (length X) 0) = map (fun v => v * 2 ^ 32) X.
Proof.
  induction X as [|x X IH]; [reflexivity|].
  cbn [length replicate extend zip_with map]. fold (extend X (replicate (length X) 0)).
  rewrite IH, Z.add_0_r. reflexivity.
Qed.

Lemma fold_extend_zero : forall slots X,
  Forall (fun xs => xs = replicate (length X) 0) slots ->
  fold_left extend slots X = map (fun v => v * 2 ^ (32 * Z.of_nat (length slots))) X.
Proof.
  induction slots as [|xs rest IH]; intros X H.
  - cbn. rewrite <- (map_id X) at 1. apply map_ext. intros; lia.
  - inversion H; subst. cbn [fold_left]. rewrite extend_zero, IH.
    + rewrite map_map. apply map_ext. intros v. cbn [length].
      rewrite Nat2Z.inj_succ.
      replace (32 * Z.succ (Z.of_nat (length rest))) with (32 + 32 * Z.of_nat (length rest))
        by lia.
      rewrite Z.pow_add_r by lia. ring.
    + rewrite length_map. assumption.
Qed.

Lemma sum_list_zero_inv : forall l,
  Forall (fun x => 0 <= x) l -> sum_list l <= 0 -> Forall (fun x => x = 0) l.
Proof.
  induction 1 as [|x l Hx Hl IH]; intros H; [constructor|].
  cbn [sum_list fold_right] in H. fold (sum_list l) in H.
  pose proof (sum_list_nonneg l Hl).
  constructor; [lia|apply IH; lia].
Qed.

Lemma extend_nonneg : forall X xs,
  Forall (fun v => 0 <= v) X -> Forall is_limb xs -> Forall (fun v => 0 <= v) (extend X xs).
Proof.
  induction X as [|v X IH]; intros [|x xs] HX Hx; try constructor.
  - inversion HX; inversion Hx; subst. unfold is_limb in *. lia.
  - inversion HX; inversion Hx; subst. apply IH; assumption.
Qed.

Lemma fold_extend_nonneg : forall slots X,
  Forall (fun xs => Forall is_limb xs) slots -> Forall (fun v => 0 <= v) X ->
  Forall (fun v => 0 <= v) (fold_left extend slots X).
Proof.
  induction slots as [|xs rest IH]; intros X Hs HX; [exact HX|].
  inversion Hs; subst. cbn [fold_left]. apply IH; [assumption|].
  apply extend_nonneg; assumption.
Qed.

Lemma is_limb_nonneg xs : Forall is_limb xs -> Forall (fun x => 0 <= x) xs.
Proof. intros H. eapply Forall_impl; [exact H|]. unfold is_limb. simpl. lia. Qed.

Lemma fold_extend_sum_le : forall slots X,
  Forall (fun xs => length xs = length X /\ Forall is_limb xs) slots ->
  Forall (fun v => 0 <= v) X ->
  sum_list X <= sum_list (fold_left extend slots X).
Proof.
  induction slots as [|xs rest IH]; intros X Hs HX; [cbn [fold_left]; lia|].
  inversion Hs as [|? ? [Hxl Hxs] Hrest]; subst. cbn [fold_left].
  specialize (IH (extend X xs)). rewrite extend_length in IH by assumption.
  specialize (IH Hrest (extend_nonneg X xs HX Hxs)).
  rewrite sum_extend in IH by assumption.
  pose proof (sum_list_nonneg X HX).
  pose proof (sum_list_nonneg xs (is_limb_nonneg xs Hxs)).
  lia.
Qed.

(** When the numbers have all become zero, the slots were zero. *)
Lemma fold_extend_sum_zero n : forall slots X,
  Forall (fun xs => length xs = n /\ Forall is_limb xs) slots ->
  length X = n -> Forall (fun v => 0 <= v) X ->
  sum_list (fold_left extend slots X) <= 0 ->
  all_zero (concat slots).
Proof.
  induction slots as [|xs rest IH]; intros X Hs HXl HX H.
  - intros j x Hj. destruct j; discriminate Hj.
  - inversion Hs as [|? ? [Hxl Hxs] Hrest]; subst. cbn [fold_left concat] in *.
    pose proof (extend_nonneg X xs HX Hxs) as Hnn.
    pose proof (IH (extend X xs) Hrest (extend_length X xs Hxl) Hnn H) as Hz.
    assert (Hsum : sum_list (extend X xs) <= 0).
    { etransitivity; [|exact H]. apply fold_extend_sum_le; [|exact Hnn].
      rewrite extend_length by assumption. exact Hrest. }
    rewrite sum_extend in Hsum by assumption.
    pose proof (sum_list_nonneg X HX).
    pose proof (sum_list_nonneg xs (is_limb_nonneg xs Hxs)).
    assert (Hxz : Forall (fun x => x = 0) xs)
      by (apply sum_list_zero_inv; [apply is_limb_nonneg; assumption|lia]).
    apply all_zero_Forall, Forall_app. split; [exact Hxz|]. apply all_zero_Forall, Hz.
Qed.

(** ** The first term lives longest *)

Lemma zip_div_one : forall (sq X : list Z),
  length X = length sq -> zip_with (fun x s => x / s ^ 0) X sq = X.
Proof.
  induction sq as [|s sq IH]; intros [|x X] H; try discriminate; [reflexivity|].
  cbn [zip_with]. rewrite Z.pow_0_r, Z.div_1_r, IH by (simpl in H; lia). reflexivity.
Qed.

Lemma series_fst sq : forall r dv addition X,
  Forall (fun a => 0 < a) sq -> length X = length sq ->
  fst (series sq dv addition X r) = zip_with (fun x s => x / s ^ Z.of_nat r) X sq.
Proof.
  intros r dv addition X Hsq. revert dv addition X.
  induction r as [|r IH]; intros dv addition X Hlen.
  - cbn [series fst]. symmetry. apply zip_div_one. exact Hlen.
  - cbn [series].
    destruct (series sq (dv + 2) (negb addition) (zip_with Z.div X sq) r) as [Yf d] eqn:E.
    cbn [fst]. pose proof (IH (dv + 2) (negb addition) (zip_with Z.div X sq)
                             (zip_div_length sq X Hlen)) as I.
    rewrite E in I. cbn [fst] in I. rewrite I. clear -Hsq.
    revert X. induction Hsq as [|s sq Hs Hsq IHs]; intros [|x X]; try reflexivity.
    cbn [zip_with]. f_equal; [|apply IHs].
    rewrite Nat2Z.inj_succ, Z.pow_succ_r by lia.
    apply Z.div_div; [lia|]. apply Z.pow_pos_nonneg; lia.
Qed.

Lemma dominates_alive sq X :
  Forall (fun a => 0 < a) sq -> Forall (fun y => 0 <= y) X ->
  first_term_dominates sq X -> scaled_alive sq X.
Proof.
  intros Hsq HX Hdom c Hc r Hr.
  rewrite series_fst by (try assumption; rewrite length_map; eapply Forall2_length, Hdom).
  unfold first_term_dominates in Hdom.
  destruct sq as [|s0 sq'], X as [|x0 X']; try (inversion Hdom; fail);
    [intros _; constructor|].
  cbn [hd] in Hdom. inversion Hdom as [|? ? ? ? _ Hrest]; subst. clear Hdom.
  cbn [map zip_with head] in *. intros Hhead. injection Hhead as Hhead.
  inversion Hsq as [|? ? Hs0 Hsq']; subst. inversion HX as [|? ? Hx0 HX']; subst.
  assert (Hp0 : 0 < s0 ^ Z.of_nat r) by (apply Z.pow_pos_nonneg; lia).
  assert (Hlt : x0 * c < s0 ^ Z.of_nat r).
  { apply Z.div_small_iff in Hhead; [|lia]. destruct Hhead; lia. }
  constructor; [exact Hhead|].
  clear Hhead Hsq HX. revert Hsq' HX'.
  induction Hrest as [|x s X'' sq'' [Hs Hx] Hrest IH]; intros Hsq' HX'; [constructor|].
  inversion Hsq' as [|? ? Hs' Hsq'']; subst. inversion HX' as [|? ? Hx' HX'']; subst.
  cbn [map zip_with]. constructor; [|apply IH; assumption].
  apply Z.div_small. split; [nia|].
  replace (Z.of_nat r) with (Z.of_nat block_height + (Z.of_nat r - Z.of_nat block_height))
    in Hlt |- * by lia.
  rewrite Z.pow_add_r in Hlt |- * by lia.
  set (e := Z.of_nat r - Z.of_nat block_height) in *.
  assert (He : 0 <= e) by (unfold e; lia).
  assert (H0 : 0 < s0 ^ Z.of_nat block_height) by (apply Z.pow_pos_nonneg; lia).
  assert (H1 : 0 < s ^ Z.of_nat block_height) by (apply Z.pow_pos_nonneg; lia).
  assert (H2 : 0 < s0 ^ e) by (apply Z.pow_pos_nonneg; lia).
  assert (H3 : s0 ^ e <= s ^ e) by (apply Z.pow_le_mono_l; lia).
  set (P0 := s0 ^ Z.of_nat block_height) in *. set (P := s ^ Z.of_nat block_height) in *.
  set (Q0 := s0 ^ e) in *. set (Q := s ^ e) in *. clearbody P0 P Q0 Q.
  (* x c P0 <= x0 c P < P0 Q0 P, hence x c < Q0 P <= Q P *)
  assert (Hstep : x * c * P0 < P0 * (Q0 * P)) by nia.
  assert (x * c < Q0 * P) by nia.
  nia.
Qed.

(** The first limb of every slot is zero: the first term is zero. *)
Lemma head_window n : (0 < n)%nat -> forall (slots : list (list Z)) Y,
  Forall (fun xs => length xs = n) slots ->
  (forall s, (s < length slots)%nat -> concat slots !! (s * n)%nat = Some 0) ->
  head Y = Some 0 ->
  head (fold_left extend slots Y) = Some 0.
Proof.
  intros Hn. induction slots as [|xs rest IH]; intros Y Hsh Hz HY; [exact HY|].
  inversion Hsh as [|? ? Hxl Hrest]; subst.
  cbn [fold_left]. apply IH; [exact Hrest| |].
  - intros s Hs. specialize (Hz (S s) ltac:(cbn [length]; lia)).
    cbn [concat] in Hz. rewrite lookup_app_r in Hz by nia.
    replace (S s * length xs - length xs)%nat with (s * length xs)%nat in Hz by nia.
    exact Hz.
  - specialize (Hz 0%nat ltac:(cbn [length]; lia)). cbn [concat Nat.mul] in Hz.
    destruct xs as [|x xs]; [cbn in Hn; lia|]. cbn in Hz. injection Hz as ->.
    destruct Y as [|y Y]; [discriminate HY|]. cbn in HY. injection HY as ->.
    reflexivity.
Qed.

Lemma fold_extend_sum_scale : forall slots X,
  Forall (fun xs => length xs = length X /\ Forall is_limb xs) slots ->
  Forall (fun v => 0 <= v) X ->
  sum_list X * 2 ^ (32 * Z.of_nat (length slots)) <= sum_list (fold_left extend slots X).
Proof.
  induction slots as [|xs rest IH]; intros X Hs HX.
  { cbn [fold_left length]. change (Z.of_nat 0) with 0. rewrite Z.mul_0_r, Z.pow_0_r. lia. }
  inversion Hs as [|? ? [Hxl Hxs] Hrest]; subst. cbn [fold_left length].
  specialize (IH (extend X xs)). rewrite extend_length in IH by assumption.
  specialize (IH Hrest (extend_nonneg X xs HX Hxs)).
  rewrite sum_extend in IH by assumption.
  pose proof (sum_list_nonneg X HX).
  pose proof (sum_list_nonneg xs (is_limb_nonneg xs Hxs)).
  rewrite Nat2Z.inj_succ.
  replace (32 * Z.succ (Z.of_nat (length rest))) with (32 + 32 * Z.of_nat (length rest)) by lia.
  rewrite Z.pow_add_r by lia.
  assert (0 < 2 ^ (32 * Z.of_nat (length rest))) by (apply Z.pow_pos_nonneg; lia).
  nia.
Qed.

(** ** One column of a pass *)

(** The block of the column that [column_body] hands to [process_block]:
    the next one that the pass before has left, or an unused one. *)
Lemma column_block p st next ci K done todo Ycur Dtodo :
  length (args p) = length (arg_sq p) ->
  Forall (fun a => 0 < a) (arg_sq p) ->
  0 < block_divisor_offset st ->
  remainder_column st = done ++ todo -> length done = ci ->
  chain K (arg_sq p) (block_divisor_offset st) Ycur todo
    (replicate (length (arg_sq p)) 0) Dtodo ->
  (todo = [] -> next = length (arg_sq p)) -> (next <= length (arg_sq p))%nat ->
  exists b Ymid rows Db Drest,
    (if (length (remainder_column st) <=? ci)%nat
     then remainder_column st ++ [new_block p next]
     else remainder_column st) = done ++ b :: tail todo /\
    {| arg_count := Nat.max (arg_count b) next; remainders := remainders b |}
    = block_of (length (arg_sq p)) rows /\
    divide_block K (arg_sq p) (block_divisor_offset st) true Ycur
      (fresh_rows (length (arg_sq p)) block_height) = (Ymid, rows, Db) /\
    chain K (arg_sq p) (block_divisor_offset st + 2 * Z.of_nat block_height) Ymid
      (tail todo) (replicate (length (arg_sq p)) 0) Drest /\
    Dtodo = Db + Drest.
Proof.
  intros Hargs Hpos Hdv0 Hcol Hci Hchain Hnew Hnext.
  destruct todo as [|b rest].
  - destruct Hchain as [HYe ->]. specialize (Hnew eq_refl). subst next.
    rewrite Hcol, app_nil_r, Hci, Nat.leb_refl.
    exists (new_block p (length (arg_sq p))), (replicate (length (arg_sq p)) 0),
      (fresh_rows (length (arg_sq p)) block_height), 0, 0.
    split; [reflexivity|].
    split; [rewrite new_block_fresh by assumption; cbn [block_of arg_count remainders];
            rewrite Nat.max_id; reflexivity|].
    split; [rewrite <- HYe; apply divide_block_zero_input; assumption|].
    cbn [tail chain]. auto.
  - destruct Hchain as (Ymid & rows & Db & Drest & -> & Hb & Hrest & ->).
    assert (Hlt : (length (remainder_column st) <=? ci)%nat = false).
    { apply Nat.leb_gt. rewrite Hcol, length_app. cbn [length]. lia. }
    rewrite Hlt, Hcol.
    exists (block_of (length (arg_sq p)) rows), Ymid, rows, Db, Drest.
    split; [reflexivity|].
    split; [cbn [block_of arg_count remainders]; rewrite Nat.max_l by lia; reflexivity|].
    auto.
Qed.

Lemma column_body_chain fuel p st next ci st1 next1 K done todo slots Ycur Dtodo :
  length (args p) = length (arg_sq p) ->
  (0 < length (arg_sq p))%nat ->
  Forall (fun a => 0 < a < 2 ^ 32) (arg_sq p) ->
  Z.of_nat (length (arg_sq p)) < 2 ^ 24 ->
  remainder_column st = done ++ todo -> length done = ci ->
  quotents st = concat slots ->
  Forall (fun xs => length xs = length (arg_sq p) /\ Forall is_limb xs) slots ->
  chain K (arg_sq p) (block_divisor_offset st) Ycur todo
    (replicate (length (arg_sq p)) 0) Dtodo ->
  length Ycur = length (arg_sq p) -> Forall (fun y => 0 <= y) Ycur ->
  1 <= block_divisor_offset st ->
  block_divisor_offset st + 2 * Z.of_nat block_height + Z.of_nat (length (arg_sq p)) < 2 ^ 32 ->
  Forall is_limb (accumulator st) ->
  Z.of_nat (length (accumulator st)) < 2 ^ 32 ->
  0 <= block_digit_offset st ->
  block_digit_offset st + Z.of_nat (length slots) <= Z.of_nat (length (accumulator st)) ->
  (todo = [] -> next = length (arg_sq p)) -> (next <= length (arg_sq p))%nat ->
  column_body fuel p st next ci = Ret (st1, next1) ->
  exists slots' rows' ds Ymid Db Drest,
    remainder_column st1 = done ++ block_of (length (arg_sq p)) rows' :: tail todo /\
    quotents st1 = concat slots' /\
    Forall (fun xs => length xs = length (arg_sq p) /\ Forall is_limb xs) slots' /\
    length slots' = length slots /\
    divide_block (K * 2 ^ (32 * Z.of_nat (length slots))) (arg_sq p) (block_divisor_offset st)
      true (fold_left extend slots Ycur) (fresh_rows (length (arg_sq p)) block_height)
    = (fold_left extend slots' Ymid, rows',
       Db * 2 ^ (32 * Z.of_nat (length slots)) + limbs_value ds) /\
    chain K (arg_sq p) (block_divisor_offset st + 2 * Z.of_nat block_height) Ymid (tail todo)
      (replicate (length (arg_sq p)) 0) Drest /\
    Dtodo = Db + Drest /\
    length Ymid = length (arg_sq p) /\ Forall (fun y => 0 <= y) Ymid /\
    Forall is_limb (accumulator st1) /\
    length (accumulator st1) = length (accumulator st) /\
    limbs_value (accumulator st1)
    = limbs_value (accumulator st)
      + limbs_value ds
        * 2 ^ (32 * (Z.of_nat (length (accumulator st)) - block_digit_offset st
                     - Z.of_nat (length slots))) /\
    block_digit_offset st1 = block_digit_offset st /\
    block_divisor_offset st1 = block_divisor_offset st + 2 * Z.of_nat block_height /\
    count_non_zero_quotents p (quotents st1) = Ret next1 /\
    series (arg_sq p) (block_divisor_offset st) true Ycur block_height = (Ymid, Db).
Proof.
  intros Hargs HN Hsq HN24 Hcol Hci Hq Hslots Hchain HYl HY Hdiv Hwrap Hacc Hlen Ho Hol
    Hnew Hnext H.
  assert (Hpos : Forall (fun a => 0 < a) (arg_sq p))
    by (eapply Forall_impl; [exact Hsq|]; simpl; lia).
  assert (Hdv0 : 0 < block_divisor_offset st) by lia.
  destruct (column_block p st next ci K done todo Ycur Dtodo Hargs Hpos Hdv0 Hcol Hci Hchain
              Hnew Hnext)
    as (b & Ymid & rows & Db & Drest & Ecol & Eb & Hb & Hrest & HD).
  unfold column_body in H. rewrite Ecol in H.
  rewrite list_lookup_middle in H by (symmetry; exact Hci).
  rewrite Eb in H. ret_inv H. destruct x as [st2 b2]. ret_inv H. injection H as <- <-.
  destruct (process_block_continues _ _ _ _ slots K Ycur Ymid rows Db _ _
              Hargs HN Hsq eq_refl Hb HYl HY Hq Hslots Hdiv Hwrap HN24 Hacc Hlen Ho Hol E)
    as (slots' & rows' & ds & P1 & P2 & P3 & P4 & P5 & P6 & P7 & P8 & P9 & P10 & P11 & P12).
  destruct (divide_block_fresh K (arg_sq p) _ _ _ _ _ _ _ HYl Hpos HY Hdv0 Hb)
    as (Hser & _ & _ & HYm1 & HYm2).
  exists slots', rows', ds, Ymid, Db, Drest.
  cbn [accumulator quotents remainder_column block_digit_offset block_divisor_offset].
  split.
  { rewrite P4, insert_app_r_alt by lia.
    replace (ci - length done)%nat with 0%nat by lia. reflexivity. }
  rewrite P12, P11.
  split; [exact P1|]. split; [exact P2|]. split; [exact P3|]. split; [exact P5|].
  split; [exact Hrest|]. split; [exact HD|]. split; [exact HYm1|]. split; [exact HYm2|].
  split; [exact P7|]. split; [exact P8|]. split; [exact P9|]. split; [reflexivity|].
  split; [|split; [exact E0|exact Hser]].
  rewrite to_unsigned_small; [reflexivity|]. unfold block_height in *. lia.
Qed.

Lemma concat_slots_length n : forall slots : list (list Z),
  Forall (fun xs => length xs = n) slots -> length (concat slots) = (length slots * n)%nat.
Proof.
  induction 1 as [|xs rest Hx Hrest IH]; [reflexivity|].
  cbn [concat length]. rewrite length_app, IH, Hx. lia.
Qed.

Lemma slots_shape n (slots : list (list Z)) :
  Forall (fun xs => length xs = n /\ Forall is_limb xs) slots ->
  Forall (fun xs => length xs = n) slots /\ Forall (fun xs => Forall is_limb xs) slots.
Proof. intros H. split; (eapply Forall_impl; [exact H|]; simpl; tauto). Qed.

(** ** The columns of a pass *)

(** A block is only added while the numbers are not zero, and every row
    has divided them by four at least: the column cannot be long. *)
Lemma column_bound p K Xnew st next ci done todo slots Ycur Dtodo Ddone :
  length (args p) = length (arg_sq p) -> (0 < length (arg_sq p))%nat ->
  Forall (fun a => 4 <= a < 2 ^ 32) (arg_sq p) ->
  length Xnew = length (arg_sq p) -> Forall (fun y => 0 <= y) Xnew ->
  column_inv p K Xnew st next ci done todo slots Ycur Dtodo Ddone ->
  128 * (Z.of_nat ci + 1) <= 32 * (block_digit_offset st + Z.of_nat block_width) + 128.
Proof.
  intros Hargs HN0 Hsq HXl HX
    [Hcol Hci Hq Hslots Hw Hdone Htodo HYl HY Hdvo Hacc HL Ho Hol Hval Hnew Hnext Hcount
       HXs Hsize].
  assert (Hpos : Forall (fun a => 0 < a) (arg_sq p))
    by (eapply Forall_impl; [exact Hsq|]; simpl; lia).
  assert (Hsq4 : Forall (fun a => 4 <= a) (arg_sq p))
    by (eapply Forall_impl; [exact Hsq|]; simpl; lia).
  destruct (slots_shape _ _ Hslots) as [Hsh Hlimbs].
  assert (Hql : length (quotents st) = (block_width * length (args p))%nat).
  { rewrite Hq, (concat_slots_length _ _ Hsh), Hw. lia. }
  destruct todo as [|b rest].
  - destruct (Nat.eq_dec ci 0%nat) as [->|Hne]; [unfold block_width; lia|].
    specialize (Hcount Hne). specialize (Hnew eq_refl). subst next.
    destruct (count_non_zero_quotents_spec p (quotents st) Hql) as (c & Hc & _ & Hzero & _).
    rewrite Hcount in Hc. injection Hc as <-.
    assert (Hnz : ~ all_zero (quotents st)).
    { intros Hz. apply Hzero in Hz. lia. }
    assert (Hsum : 1 <= sum_list (fold_left extend slots Ycur)).
    { destruct (Z_lt_le_dec (sum_list (fold_left extend slots Ycur)) 1) as [Hlt|]; [|assumption].
      exfalso. apply Hnz. rewrite Hq.
      apply (fold_extend_sum_zero _ slots Ycur Hslots HYl HY). lia. }
    specialize (Hdone [] (fold_left extend slots Ycur) 0 (conj eq_refl eq_refl)).
    rewrite app_nil_r in Hdone.
    assert (H01 : 0 < 1) by lia.
    destruct (chain_series _ _ _ _ _ _ _ Hpos H01 HXl HX Hdone) as (Hser & _ & _).
    pose proof (series_sum_bound _ _ _ _ _ _ _ Hsq4 HX Hser) as Hb.
    rewrite Hci in Hb.
    assert (Hp : 2 ^ (128 * Z.of_nat ci)
                 < 2 ^ (32 * (block_digit_offset st + Z.of_nat block_width))).
    { replace (128 * Z.of_nat ci) with (2 * Z.of_nat (block_height * ci))
        by (unfold block_height; lia).
      rewrite Z.pow_mul_r by lia. change (2 ^ 2) with 4.
      assert (0 < 4 ^ Z.of_nat (block_height * ci)) by (apply Z.pow_pos_nonneg; lia).
      nia. }
    apply Z.pow_lt_mono_r_iff in Hp; unfold block_width in *; lia.
  - rewrite <- Hci. cbn [length] in Hsize. lia.
Qed.

Lemma sum_list_zeros (l : list Z) : Forall (fun y => y = 0) l -> sum_list l <= 0.
Proof. unfold sum_list. induction 1 as [|y l -> _ IH]; cbn [fold_right]; lia. Qed.

Lemma map_scale_zeros (n : nat) (c : Z) :
  map (fun v => v * c) (replicate n 0) = replicate n 0.
Proof. induction n as [|n IH]; [reflexivity|]. cbn [replicate map]. rewrite IH. reflexivity. Qed.

(** One column: the invariant at the next column when the loop goes on,
    and what the pass has done when it ends. *)
Lemma column_step p K Xnew fuel st next ci done todo slots Ycur Dtodo Ddone st1 next1 :
  length (args p) = length (arg_sq p) -> (0 < length (arg_sq p))%nat ->
  Z.of_nat (length (arg_sq p)) < 2 ^ 24 ->
  Forall (fun a => 4 <= a < 2 ^ 32) (arg_sq p) ->
  length Xnew = length (arg_sq p) -> Forall (fun y => 0 <= y) Xnew ->
  first_alive (arg_sq p) Xnew ->
  column_inv p K Xnew st next ci done todo slots Ycur Dtodo Ddone ->
  column_body fuel p st next ci = Ret (st1, next1) ->
  exists b' slots' Ymid Db Drest Ddone',
    series (arg_sq p) (block_divisor_offset st) true Ycur block_height = (Ymid, Db) /\
    Dtodo = Db + Drest /\
    length (accumulator st1) = length (accumulator st) /\
    block_digit_offset st1 = block_digit_offset st /\
    remainder_column st1 = done ++ b' :: tail todo /\
    (((S ci <? length (remainder_column st1))%nat || (0 <? next1)%nat) = true ->
     column_inv p K Xnew st1 next1 (S ci) (done ++ [b']) (tail todo) slots' Ymid Drest Ddone') /\
    (((S ci <? length (remainder_column st1))%nat || (0 <? next1)%nat) = false ->
     chain (K * 2 ^ (32 * Z.of_nat block_width)) (arg_sq p) 1 Xnew (remainder_column st1)
       (replicate (length (arg_sq p)) 0) Ddone' /\
     quotents st1 = concat slots' /\
     Forall (fun xs => xs = replicate (length (arg_sq p)) 0) slots' /\
     length slots' = block_width /\
     Forall is_limb (accumulator st1) /\
     limbs_value (accumulator st1)
     = Ddone' * 2 ^ (32 * (Z.of_nat (length (accumulator st)) - block_digit_offset st
                           - Z.of_nat block_width)) /\
     128 * Z.of_nat (length (remainder_column st1))
     <= 32 * (block_digit_offset st + Z.of_nat block_width) + 128).
Proof.
  intros Hargs HN0 HN24 Hsq HXl HX Halive Hinv E.
  pose proof (column_bound _ _ _ _ _ _ _ _ _ _ _ _ Hargs HN0 Hsq HXl HX Hinv) as Hbound.
  destruct Hinv as
    [Hcol Hci Hq Hslots Hw Hdone Htodo HYl HY Hdvo Hacc HL Ho Hol Hval Hnew Hnext Hcount
       HXs Hsize].
  assert (Hsq0 : Forall (fun a => 0 < a < 2 ^ 32) (arg_sq p))
    by (eapply Forall_impl; [exact Hsq|]; simpl; lia).
  assert (Hpos : Forall (fun a => 0 < a) (arg_sq p))
    by (eapply Forall_impl; [exact Hsq|]; simpl; lia).
  assert (Hdiv : 1 <= block_divisor_offset st) by lia.
  assert (Hwrap : block_divisor_offset st + 2 * Z.of_nat block_height
                  + Z.of_nat (length (arg_sq p)) < 2 ^ 32)
    by (unfold block_height, block_width in *; lia).
  assert (Hlen : Z.of_nat (length (accumulator st)) < 2 ^ 32) by lia.
  assert (Hol' : block_digit_offset st + Z.of_nat (length slots)
                 <= Z.of_nat (length (accumulator st))) by (rewrite Hw; exact Hol).
  destruct (column_body_chain _ _ _ _ _ _ _ K done todo slots Ycur Dtodo
              Hargs HN0 Hsq0 HN24 Hcol Hci Hq Hslots Htodo HYl HY Hdiv Hwrap Hacc Hlen Ho Hol'
              Hnew Hnext E)
    as (slots' & rows' & ds & Ymid & Db & Drest & C1 & C2 & C3 & C4 & C5 & C6 & C7 & C8 & C9
        & C10 & C11 & C12 & C13 & C14 & C15 & C16).
  rewrite Hw in C5, C12.
  destruct (slots_shape _ _ C3) as [Hsh' Hlimbs'].
  assert (Hql' : length (quotents st1) = (block_width * length (args p))%nat).
  { rewrite C2, (concat_slots_length _ _ Hsh'), C4, Hw. lia. }
  destruct (count_non_zero_quotents_spec p (quotents st1) Hql')
    as (c & Hc & Hcle & Hzero & Hfirst).
  rewrite C15 in Hc. injection Hc as <-.
  set (E1 := 2 ^ (32 * (Z.of_nat (length (accumulator st)) - block_digit_offset st
                        - Z.of_nat block_width))) in *.
  assert (HE2 : 2 ^ (32 * (Z.of_nat (length (accumulator st)) - block_digit_offset st))
                = 2 ^ (32 * Z.of_nat block_width) * E1).
  { unfold E1. rewrite <- Z.pow_add_r by (unfold block_width in *; lia). f_equal. lia. }
  assert (Hval1 : limbs_value (accumulator st1)
                  = (Ddone + (Db * 2 ^ (32 * Z.of_nat block_width) + limbs_value ds)) * E1
                    + Drest * 2 ^ (32 * (Z.of_nat (length (accumulator st))
                                         - block_digit_offset st))).
  { rewrite C12, Hval, C7, HE2. ring. }
  assert (Hdone1 : forall rest' Yo D',
            chain (K * 2 ^ (32 * Z.of_nat block_width)) (arg_sq p)
              (block_divisor_offset st + 2 * Z.of_nat block_height)
              (fold_left extend slots' Ymid) rest' Yo D' ->
            chain (K * 2 ^ (32 * Z.of_nat block_width)) (arg_sq p) 1 Xnew
              ((done ++ [block_of (length (arg_sq p)) rows']) ++ rest') Yo
              (Ddone + (Db * 2 ^ (32 * Z.of_nat block_width) + limbs_value ds) + D')).
  { intros rest' Yo D' Hc. rewrite <- app_assoc. cbn [app].
    rewrite <- Z.add_assoc. apply Hdone. cbn [chain].
    exists (fold_left extend slots' Ymid), rows',
      (Db * 2 ^ (32 * Z.of_nat block_width) + limbs_value ds), D'.
    split; [reflexivity|]. split; [exact C5|]. split; [exact Hc|reflexivity]. }
  assert (Hci1 : length (done ++ [block_of (length (arg_sq p)) rows']) = S ci)
    by (rewrite length_app; cbn [length]; lia).
  (* when the column ends here, the first term decides *)
  assert (Hall : tail todo = [] -> next1 <> 0%nat -> next1 = length (arg_sq p)).
  { intros Ht Hn0. rewrite Ht in C6. destruct C6 as [HYm _].
    destruct (Hfirst Hn0) as (j & Hj & Hcj & Hbefore & _).
    destruct j as [|j]; [lia|]. exfalso.
    pose proof (Hbefore 0%nat ltac:(lia)) as Hz0. unfold term_zero in Hz0.
    assert (Hhead : head (fold_left extend slots' Ymid) = Some 0).
    { apply (head_window (length (arg_sq p)) HN0 slots' Ymid Hsh').
      - intros s Hs. rewrite <- C2, <- Hargs.
        specialize (Hz0 s ltac:(lia)). rewrite Nat.add_0_r in Hz0. exact Hz0.
      - rewrite <- HYm. destruct (length (arg_sq p)); [lia|reflexivity]. }
    assert (Hlast : chain (K * 2 ^ (32 * Z.of_nat block_width)) (arg_sq p)
                      (block_divisor_offset st + 2 * Z.of_nat block_height)
                      (fold_left extend slots' Ymid) [] (fold_left extend slots' Ymid) 0)
      by (cbn [chain]; split; reflexivity).
    apply Hdone1 in Hlast. rewrite app_nil_r in Hlast.
    assert (H01 : 0 < 1) by lia.
    destruct (chain_series _ _ _ _ _ _ _ Hpos H01 HXl HX Hlast) as (Hser & _ & _).
    rewrite Hci1 in Hser.
    pose proof (Halive (block_height * S ci)%nat ltac:(lia)) as Ha.
    rewrite Hser in Ha. cbn [fst] in Ha. specialize (Ha Hhead).
    apply Hn0, Hzero. rewrite C2.
    apply (fold_extend_sum_zero _ slots' Ymid C3 C8 C9).
    apply sum_list_zeros, Ha. }
  exists (block_of (length (arg_sq p)) rows'), slots', Ymid, Db, Drest,
    (Ddone + (Db * 2 ^ (32 * Z.of_nat block_width) + limbs_value ds)).
  split; [exact C16|]. split; [exact C7|]. split; [exact C11|]. split; [exact C13|].
  split; [exact C1|]. split.
  - intros Econt.
    constructor; rewrite ?C11, ?C13, ?C14; auto.
    + rewrite C1, <- app_assoc. reflexivity.
    + lia.
    + rewrite Hdvo. unfold block_height. lia.
    + intros Ht. apply Hall; [exact Ht|].
      apply orb_true_iff in Econt as [Hlt|Hlt].
      * apply Nat.ltb_lt in Hlt. rewrite C1, length_app, Ht in Hlt. cbn [length] in Hlt. lia.
      * apply Nat.ltb_lt in Hlt. lia.
    + lia.
    + rewrite Hci1. destruct todo as [|b rest]; cbn [tail length] in *; lia.
  - intros Econt.
    apply orb_false_iff in Econt as [Hlt Hn]. apply Nat.ltb_ge in Hlt, Hn.
    assert (Htl : tail todo = []).
    { rewrite C1, length_app in Hlt. cbn [length] in Hlt.
      destruct (tail todo); [reflexivity|cbn [length] in Hlt; lia]. }
    rewrite Htl in *. destruct C6 as [HYm ->].
    assert (Hz : Forall (fun xs => xs = replicate (length (arg_sq p)) 0) slots').
    { apply all_zero_slots; [exact Hsh'|]. rewrite <- C2. apply Hzero. lia. }
    split.
    { rewrite C1.
      assert (Hlast : chain (K * 2 ^ (32 * Z.of_nat block_width)) (arg_sq p)
                        (block_divisor_offset st + 2 * Z.of_nat block_height)
                        (fold_left extend slots' Ymid) []
                        (replicate (length (arg_sq p)) 0) 0).
      { cbn [chain]. split; [|reflexivity].
        rewrite fold_extend_zero by (rewrite <- HYm, length_replicate; exact Hz).
        rewrite <- HYm. symmetry. apply map_scale_zeros. }
      apply Hdone1 in Hlast. rewrite app_nil_r, Z.add_0_r in Hlast. exact Hlast. }
    split; [exact C2|]. split; [exact Hz|]. split; [lia|]. split; [exact C10|].
    split; [rewrite Hval1; lia|].
    rewrite C1, length_app. cbn [length]. lia.
Qed.

Lemma column_loop_chain p K Xnew :
  length (args p) = length (arg_sq p) -> (0 < length (arg_sq p))%nat ->
  Z.of_nat (length (arg_sq p)) < 2 ^ 24 ->
  Forall (fun a => 4 <= a < 2 ^ 32) (arg_sq p) ->
  length Xnew = length (arg_sq p) -> Forall (fun y => 0 <= y) Xnew ->
  first_alive (arg_sq p) Xnew ->
  forall fuel st next ci st' done todo slots Ycur Dtodo Ddone,
  column_inv p K Xnew st next ci done todo slots Ycur Dtodo Ddone ->
  column_loop fuel p st next ci = Ret st' ->
  exists D' slots',
    chain (K * 2 ^ (32 * Z.of_nat block_width)) (arg_sq p) 1 Xnew (remainder_column st')
      (replicate (length (arg_sq p)) 0) D' /\
    quotents st' = concat slots' /\
    Forall (fun xs => xs = replicate (length (arg_sq p)) 0) slots' /\
    length slots' = block_width /\
    Forall is_limb (accumulator st') /\
    length (accumulator st') = length (accumulator st) /\
    limbs_value (accumulator st')
    = D' * 2 ^ (32 * (Z.of_nat (length (accumulator st)) - block_digit_offset st
                      - Z.of_nat block_width)) /\
    block_digit_offset st' = block_digit_offset st /\
    128 * Z.of_nat (length (remainder_column st'))
    <= 32 * (block_digit_offset st + Z.of_nat block_width) + 128.
Proof.
  intros Hargs HN0 HN24 Hsq HXl HX Halive.
  induction fuel as [|fuel IH];
    intros st next ci st' done todo slots Ycur Dtodo Ddone Hinv H; [discriminate H|].
  cbn [column_loop] in H. ret_inv H. destruct x as [st1 next1].
  destruct (column_step _ _ _ _ _ _ _ _ _ _ _ _ _ _ _ Hargs HN0 HN24 Hsq HXl HX Halive Hinv E)
    as (b' & slots' & Ymid & Db & Drest & Ddone' & _ & _ & S1 & S2 & _ & Scont & Send).
  destruct ((S ci <? length (remainder_column st1))%nat || (0 <? next1)%nat) eqn:Econt.
  - destruct (IH _ _ _ _ _ _ _ _ _ _ (Scont eq_refl) H)
      as (D' & slots2 & R1 & R2 & R3 & R4 & R5 & R6 & R7 & R8 & R9).
    exists D', slots2. rewrite S1, S2 in *. auto 10.
  - injection H as <-.
    destruct (Send eq_refl) as (F1 & F2 & F3 & F4 & F5 & F6 & F7).
    exists Ddone', slots'. auto 10.
Qed.

(** ** The passes *)

Lemma zero_slots_ok n (slots : list (list Z)) :
  Forall (fun xs => xs = replicate n 0) slots ->
  Forall (fun xs => length xs = n /\ Forall is_limb xs) slots.
Proof.
  intros H. eapply Forall_impl; [exact H|]. simpl. intros xs ->.
  split; [apply length_replicate|]. apply Forall_replicate. unfold is_limb. lia.
Qed.

Lemma scaled_alive_first sq X : scaled_alive sq X -> first_alive sq X.
Proof.
  intros H. specialize (H 1 ltac:(lia)).
  replace (map (fun x => x * 1) X) with X in H; [exact H|].
  rewrite <- (map_id X) at 1. apply map_ext. intros; lia.
Qed.

Lemma scaled_alive_scale sq X c :
  0 <= c -> scaled_alive sq X -> scaled_alive sq (map (fun x => x * c) X).
Proof.
  intros Hc H c' Hc'. rewrite map_map.
  replace (map (fun x => x * c * c') X) with (map (fun x => x * (c * c')) X)
    by (apply map_ext; intros; ring).
  apply H. nia.
Qed.

Lemma sum_list_scale c : forall X, sum_list (map (fun x => x * c) X) = sum_list X * c.
Proof.
  unfold sum_list. induction X as [|x X IH]; [reflexivity|].
  cbn [map fold_right]. rewrite IH. ring.
Qed.

Lemma pass_start p st X D slots :
  pass_inv p st X D slots ->
  block_digit_offset st < Z.of_nat (length (accumulator st)) ->
  column_inv p (2 ^ (32 * block_digit_offset st)) (fold_left extend slots X)
    (pass_first st) (length (arg_sq p)) 0 [] (remainder_column st) slots X D 0 /\
  length (fold_left extend slots X) = length (arg_sq p) /\
  Forall (fun x => 0 <= x) (fold_left extend slots X).
Proof.
  intros [Ho (j & Hj0 & Hj) HL Hacc Hq Hslots Hw Hchain HXl HX HXs Hal Hval Hsize] Econd.
  destruct (slots_shape _ _ Hslots) as [Hsh Hlimbs].
  assert (HXnl : length (fold_left extend slots X) = length (arg_sq p)).
  { rewrite fold_extend_length; [exact HXl|]. rewrite HXl. exact Hsh. }
  split; [|split; [exact HXnl|apply fold_extend_nonneg; assumption]].
  constructor;
    cbn [pass_first accumulator quotents remainder_column block_digit_offset
         block_divisor_offset app length]; auto.
  all: try (unfold block_width, block_height in *; lia).
Qed.

(** A pass keeps the invariant, with the numbers continued by the limbs of
    the quotient vector, which it leaves zero. *)
Lemma pass_step p st X D slots fuel st1 :
  length (args p) = length (arg_sq p) -> (0 < length (arg_sq p))%nat ->
  Z.of_nat (length (arg_sq p)) < 2 ^ 24 ->
  Forall (fun a => 4 <= a < 2 ^ 32) (arg_sq p) ->
  pass_inv p st X D slots ->
  block_digit_offset st < Z.of_nat (length (accumulator st)) ->
  column_loop fuel p (pass_first st) (length (args p)) 0 = Ret st1 ->
  exists D' slots',
    pass_inv p (pass_next st1) (fold_left extend slots X) D' slots' /\
    Forall (fun xs => xs = replicate (length (arg_sq p)) 0) slots' /\
    length (accumulator st1) = length (accumulator st) /\
    block_digit_offset (pass_next st1) = block_digit_offset st + Z.of_nat block_width.
Proof.
  intros Hargs HN0 HN24 Hsq Hinv Econd E.
  destruct (pass_start p st X D slots Hinv Econd) as (Hcol & HXnl & HXnn).
  destruct Hinv as [Ho (j & Hj0 & Hj) HL Hacc Hq Hslots Hw Hchain HXl HX HXs Hal Hval Hsize].
  rewrite Hargs in E.
  destruct (column_loop_chain p (2 ^ (32 * block_digit_offset st))
              (fold_left extend slots X) Hargs HN0 HN24 Hsq HXnl HXnn
              (scaled_alive_first _ _ Hal) fuel _ _ _ st1 _ _ _ _ _ _ Hcol E)
    as (D' & slots' & R1 & R2 & R3 & R4 & R5 & R6 & R7 & R8 & R9).
  cbn [pass_first accumulator quotents remainder_column block_digit_offset
       block_divisor_offset] in *.
  rewrite <- Z.pow_add_r in R1 by (unfold block_width; lia).
  replace (32 * block_digit_offset st + 32 * Z.of_nat block_width)
    with (32 * (block_digit_offset st + Z.of_nat block_width)) in R1 by lia.
  assert (Hbdo : to_unsigned (block_digit_offset st1 + Z.of_nat block_width)
                 = block_digit_offset st + Z.of_nat block_width).
  { rewrite R8. apply to_unsigned_small. unfold block_width in *. lia. }
  assert (Efold : fold_left extend slots' (fold_left extend slots X)
                  = map (fun v => v * 2 ^ (32 * Z.of_nat block_width))
                      (fold_left extend slots X)).
  { rewrite fold_extend_zero by (rewrite HXnl; exact R3). rewrite R4. reflexivity. }
  exists D', slots'. split; [|split; [exact R3|split; [exact R6|exact Hbdo]]].
  constructor;
    cbn [pass_next accumulator quotents remainder_column block_digit_offset
         block_divisor_offset];
    rewrite ?Hbdo, ?R6; auto.
  all: try (unfold block_width, block_height in *; lia).
  - exists (j - 1). unfold block_width in *. lia.
  - apply zero_slots_ok, R3.
  - rewrite Efold, sum_list_scale.
    replace (32 * (block_digit_offset st + Z.of_nat block_width + Z.of_nat block_width))
      with (32 * (block_digit_offset st + Z.of_nat block_width) + 32 * Z.of_nat block_width)
      by lia.
    rewrite Z.pow_add_r by (unfold block_width; lia).
    assert (0 < 2 ^ (32 * Z.of_nat block_width)) by (apply Z.pow_pos_nonneg; lia).
    nia.
  - rewrite Efold. apply scaled_alive_scale; [|exact Hal]. apply Z.pow_nonneg. lia.
  - rewrite R7. f_equal. f_equal. lia.
Qed.

Lemma main_loop_chain p :
  length (args p) = length (arg_sq p) -> (0 < length (arg_sq p))%nat ->
  Z.of_nat (length (arg_sq p)) < 2 ^ 24 ->
  Forall (fun a => 4 <= a < 2 ^ 32) (arg_sq p) ->
  forall fuel st st' X D slots,
  pass_inv p st X D slots ->
  main_loop fuel p st = Ret st' ->
  exists Df,
    chain (2 ^ (32 * Z.of_nat (length (accumulator st)))) (arg_sq p) 1
      (if block_digit_offset st <? Z.of_nat (length (accumulator st))
       then map (fun v => v * 2 ^ (32 * (Z.of_nat (length (accumulator st))
                                         - block_digit_offset st - Z.of_nat block_width)))
              (fold_left extend slots X)
       else X)
      (remainder_column st') (replicate (length (arg_sq p)) 0) Df /\
    limbs_value (accumulator st') = Df /\
    length (accumulator st') = length (accumulator st) /\
    128 * Z.of_nat (length (remainder_column st'))
    <= 32 * Z.of_nat (length (accumulator st)) + 128.
Proof.
  intros Hargs HN0 HN24 Hsq.
  induction fuel as [|fuel IH]; intros st st' X D slots Hinv H; [discriminate H|].
  cbn [main_loop] in H.
  destruct (block_digit_offset st <? Z.of_nat (length (accumulator st))) eqn:Econd.
  - apply Z.ltb_lt in Econd. ret_inv H.
    fold (pass_first st) in E. fold (pass_next x) in H.
    destruct (pass_step _ _ _ _ _ _ _ Hargs HN0 HN24 Hsq Hinv Econd E)
      as (D' & slots' & Hnext & R3 & R6 & Hbdo).
    destruct (pass_start p st X D slots Hinv Econd) as (_ & HXnl & _).
    pose proof (pi_width _ _ _ _ _ Hnext) as R4.
    destruct (pi_passes _ _ _ _ _ Hinv) as (j & Hj0 & Hj).
    destruct (IH _ st' _ _ _ Hnext H) as (Df & F1 & F2 & F3 & F4).
    rewrite Hbdo in F1.
    cbn [pass_next accumulator] in F1, F3, F4. rewrite R6 in F1, F3, F4.
    exists Df. split; [|auto].
    replace (map _ (fold_left extend slots X))
      with (if block_digit_offset st + Z.of_nat block_width
               <? Z.of_nat (length (accumulator st))
            then map (fun v => v * 2 ^ (32 * (Z.of_nat (length (accumulator st))
                                              - (block_digit_offset st + Z.of_nat block_width)
                                              - Z.of_nat block_width)))
                   (fold_left extend slots' (fold_left extend slots X))
            else fold_left extend slots X); [exact F1|].
    destruct (block_digit_offset st + Z.of_nat block_width
              <? Z.of_nat (length (accumulator st))) eqn:E2.
    + apply Z.ltb_lt in E2.
      rewrite fold_extend_zero by (rewrite HXnl; exact R3).
      rewrite map_map. apply map_ext. intros v. rewrite R4, <- Z.mul_assoc. f_equal.
      rewrite <- Z.pow_add_r by (unfold block_width in *; lia). f_equal. lia.
    + apply Z.ltb_ge in E2.
      rewrite <- (map_id (fold_left extend slots X)) at 1. apply map_ext. intros v.
      replace (Z.of_nat (length (accumulator st)) - block_digit_offset st
               - Z.of_nat block_width) with 0 by (unfold block_width in *; lia).
      cbn. lia.
  - apply Z.ltb_ge in Econd. injection H as <-.
    destruct Hinv as [Ho (j & Hj0 & Hj) HL Hacc Hq Hslots Hw Hchain HXl HX HXs Hal Hval Hsize].
    assert (Heq : Z.of_nat (length (accumulator st)) = block_digit_offset st)
      by (unfold block_width in *; lia).
    exists D. rewrite Heq in *. split; [exact Hchain|].
    split; [rewrite Hval, Z.sub_diag; cbn; lia|]. split; [reflexivity|]. lia.
Qed.

(** ** The rows of the blocks are the rows of the series *)

Lemma zip_div_step (k : nat) : forall sq X : list Z,
  Forall (fun a => 0 < a) sq ->
  zip_with Z.div (zip_with (fun x s => x / s ^ Z.of_nat k) X sq) sq
  = zip_with (fun x s => x / s ^ Z.of_nat (S k)) X sq.
Proof.
  induction sq as [|s sq IH]; intros [|x X] Hsq; try reflexivity.
  inversion Hsq as [|? ? Hs Hsq']; subst.
  cbn [zip_with]. f_equal; [|apply IH; exact Hsq'].
  rewrite Nat2Z.inj_succ, Z.pow_succ_r by lia.
  rewrite Z.div_div by (try apply Z.pow_nonzero; lia).
  f_equal. ring.
Qed.

Lemma series_rows sq X : Forall (fun a => 0 < a) sq -> forall r k,
  series sq (2 * Z.of_nat k + 1) (Nat.even k) (zip_with (fun x s => x / s ^ Z.of_nat k) X sq) r
  = (zip_with (fun x s => x / s ^ Z.of_nat (k + r)) X sq,
     row_sum sq X (k + r) - row_sum sq X k).
Proof.
  intros Hsq. induction r as [|r IH]; intros k.
  - cbn [series]. rewrite Nat.add_0_r. f_equal. lia.
  - cbn [series]. rewrite (zip_div_step k sq X Hsq).
    replace (2 * Z.of_nat k + 1 + 2) with (2 * Z.of_nat (S k) + 1) by lia.
    replace (negb (Nat.even k)) with (Nat.even (S k))
      by (rewrite Nat.even_succ, <- Nat.negb_even; reflexivity).
    rewrite (IH (S k)).
    replace (S k + r)%nat with (k + S r)%nat by lia.
    f_equal. cbn [row_sum]. unfold row_term.
    destruct (Nat.even k); lia.
Qed.

Lemma series_rows_start sq X r :
  Forall (fun a => 0 < a) sq -> length X = length sq ->
  series sq 1 true X r = (zip_with (fun x s => x / s ^ Z.of_nat r) X sq, row_sum sq X r).
Proof.
  intros Hsq Hlen. pose proof (series_rows sq X Hsq r 0) as H.
  cbn [Nat.even Nat.add Z.of_nat row_sum] in H.
  rewrite Z.mul_0_r, Z.add_0_l, Z.sub_0_r in H.
  change (Z.of_nat 0) with 0 in H.
  rewrite (zip_div_one sq X Hlen) in H. exact H.
Qed.

(** Once the numbers have become zero, the rows are zero. *)
Lemma zip_div_vanishes (rows k : nat) : forall sq X : list Z,
  Forall (fun a => 0 < a) sq -> Forall (fun x => 0 <= x) X -> (rows <= k)%nat ->
  Forall (fun y => y = 0) (zip_with (fun x s => x / s ^ Z.of_nat rows) X sq) ->
  Forall (fun y => y = 0) (zip_with (fun x s => x / s ^ Z.of_nat k) X sq).
Proof.
  intros sq X Hsq. revert X.
  induction Hsq as [|s sq Hs Hsq IH]; intros [|x X] HX Hk H; try constructor.
  - inversion HX as [|? ? Hx HX']; subst.
    cbn [zip_with] in H. inversion H as [|? ? Hend _]; subst.
    assert (0 < s ^ Z.of_nat rows) by (apply Z.pow_pos_nonneg; lia).
    apply Z.div_small_iff in Hend; [|lia].
    apply Z.div_small. split; [lia|].
    eapply Z.lt_le_trans with (s ^ Z.of_nat rows); [lia|].
    apply Z.pow_le_mono_r; lia.
  - inversion HX; subst. cbn [zip_with] in H. inversion H; subst.
    apply IH; assumption.
Qed.

Lemma row_term_vanishes sq X rows k :
  Forall (fun a => 0 < a) sq -> Forall (fun x => 0 <= x) X -> (rows <= k)%nat ->
  Forall (fun y => y = 0) (zip_with (fun x s => x / s ^ Z.of_nat rows) X sq) ->
  row_term sq X k = 0.
Proof.
  intros Hsq HX Hk H. unfold row_term.
  pose proof (zip_div_vanishes rows (S k) sq X Hsq HX ltac:(lia) H) as Hz.
  pose proof (sum_list_zeros _ Hz) as Hle.
  assert (Hge : 0 <= sum_list (zip_with (fun x s => x / s ^ Z.of_nat (S k)) X sq)).
  { apply sum_list_nonneg. eapply Forall_impl; [exact Hz|]. simpl. lia. }
  replace (sum_list (zip_with (fun x s => x / s ^ Z.of_nat (S k)) X sq)) with 0 by lia.
  apply Z.div_0_l. lia.
Qed.

Lemma row_sum_stable sq X rows :
  Forall (fun a => 0 < a) sq -> Forall (fun x => 0 <= x) X ->
  Forall (fun y => y = 0) (zip_with (fun x s => x / s ^ Z.of_nat rows) X sq) ->
  forall n, (rows <= n)%nat -> row_sum sq X n = row_sum sq X rows.
Proof.
  intros Hsq HX Hend. induction n as [|n IH]; intros Hn.
  - replace rows with 0%nat by lia. reflexivity.
  - destruct (Nat.eq_dec rows (S n)) as [->|Hne]; [reflexivity|].
    cbn [row_sum]. rewrite IH by lia.
    rewrite (row_term_vanishes sq X rows n Hsq HX ltac:(lia) Hend).
    destruct (Nat.even n); lia.
Qed.

(** ** The seed *)

Lemma squares_bounds (az : list Z) :
  Forall (fun a => 0 <= a <= arg_max) az -> Forall (fun a => 2 <= a) az ->
  Forall (fun s => 4 <= s < 2 ^ 32) (squares az).
Proof.
  unfold squares. induction 1 as [|a az Ha Haz IH]; intros H2; [constructor|].
  inversion H2; subst. cbn [map]. constructor; [|apply IH; assumption].
  change arg_max with 65535 in Ha. nia.
Qed.

Lemma seeds_length p : wf_params p -> length (seeds p) = length (arg_sq p).
Proof.
  intros W. unfold seeds. rewrite length_zip_with, (wf_length _ W), (wf_arg_sq _ W).
  unfold squares. rewrite length_map. lia.
Qed.

Lemma scaled_bounds p a m : 0 <= scaled p a m < 2 ^ 64.
Proof. unfold scaled. rewrite to_limb2_mod. apply Z.mod_pos_bound. lia. Qed.

Lemma seeds_bounds p : Forall (fun x => 0 <= x < 2 ^ 64) (seeds p).
Proof.
  unfold seeds. generalize (multipliers p). induction (args p) as [|a az IH];
    intros [|m ms]; try constructor; [apply scaled_bounds|apply IH].
Qed.

Lemma sum_list_bound (M : Z) : forall l,
  Forall (fun x => 0 <= x < M) l -> sum_list l <= Z.of_nat (length l) * M.
Proof.
  unfold sum_list. induction 1 as [|x l Hx Hl IH]; cbn [fold_right length]; [lia|].
  rewrite Nat2Z.inj_succ. lia.
Qed.

Lemma concat_zero_rows (n : nat) : forall k,
  concat (replicate k (replicate n 0)) = replicate (k * n) 0.
Proof.
  induction k as [|k IH]; [reflexivity|].
  cbn [replicate concat Nat.mul]. rewrite IH, replicate_add. reflexivity.
Qed.

(** The two limbs of every numerator, read as one number. *)
Lemma seed_limbs p : forall az ms,
  extend (extend (replicate (length az) 0)
            (zip_with (fun a m => to_limb (Z.shiftr (scaled p a m) limb_bits)) az ms))
    (zip_with (fun a m => to_limb (scaled p a m)) az ms)
  = zip_with (scaled p) az ms.
Proof.
  unfold extend.
  induction az as [|a az IH]; intros [|m ms]; try reflexivity.
  cbn [length replicate zip_with].
  rewrite IH. f_equal.
  pose proof (scaled_bounds p a m) as Hs.
  rewrite !to_limb_mod. unfold limb_bits. rewrite Z.shiftr_div_pow2 by lia.
  rewrite (Z.mod_small (scaled p a m / 2 ^ 32)).
  - pose proof (Z.div_mod (scaled p a m) (2 ^ 32) ltac:(lia)). lia.
  - split; [apply Z.div_pos; lia|]. apply Z.div_lt_upper_bound; lia.
Qed.

Lemma zip_limbs (f : Z -> Z -> Z) : forall az ms : list Z,
  Forall is_limb (zip_with (fun a m => to_limb (f a m)) az ms).
Proof.
  induction az as [|a az IH]; intros [|m ms]; try constructor; [|apply IH].
  unfold is_limb. rewrite to_limb_mod. apply Z.mod_pos_bound. lia.
Qed.

(** The quotient vector that [initialize_variables] returns, slot by slot:
    zeros, then the high and the low limbs of the numerators. *)
Lemma seed_terms p st :
  wf_params p -> initialize_variables p = Ret st ->
  exists slots,
    quotents st = concat slots /\
    Forall (fun xs => length xs = length (arg_sq p) /\ Forall is_limb xs) slots /\
    length slots = block_width /\
    fold_left extend slots (replicate (length (arg_sq p)) 0) = seeds p /\
    remainder_column st = [] /\ block_digit_offset st = 0 /\
    accumulator st
    = replicate (Z.to_nat (to_ulong (fractional_size p + Z.of_nat block_width))) 0.
Proof.
  intros W Hinit.
  destruct (initialize_variables_spec p W) as (st0 & Hrun & Hacc & Hcol & Hbdo & Hl & Hseed & Hz).
  rewrite Hinit in Hrun. injection Hrun as <-.
  assert (HN : length (arg_sq p) = length (args p)).
  { rewrite (wf_arg_sq _ W). unfold squares. apply length_map. }
  pose proof (wf_length _ W) as Hml.
  set (N := length (args p)) in *.
  set (his := zip_with (fun a m => to_limb (Z.shiftr (scaled p a m) limb_bits))
                (args p) (multipliers p)).
  set (los := zip_with (fun a m => to_limb (scaled p a m)) (args p) (multipliers p)).
  assert (Hhl : length his = N) by (unfold his; rewrite length_zip_with; lia).
  assert (Hll : length los = N) by (unfold los; rewrite length_zip_with; lia).
  assert (Hq : quotents st = replicate ((block_width - 2) * N) 0 ++ his ++ los).
  { apply list_eq. intros i.
    destruct (Nat.lt_ge_cases i ((block_width - 2) * N)) as [Hi|Hi].
    - rewrite Hz by exact Hi. rewrite lookup_app_l by (rewrite length_replicate; exact Hi).
      symmetry. apply lookup_replicate_2. exact Hi.
    - rewrite lookup_app_r by (rewrite length_replicate; exact Hi).
      rewrite length_replicate.
      destruct (Nat.lt_ge_cases (i - (block_width - 2) * N) N) as [Hk|Hk].
      + rewrite lookup_app_l by lia.
        destruct (lookup_lt_is_Some_2 (args p) (i - (block_width - 2) * N) Hk) as [a Ha].
        destruct (lookup_lt_is_Some_2 (multipliers p) (i - (block_width - 2) * N)
                    ltac:(lia)) as [m Hm].
        destruct (Hseed _ a m Ha Hm) as [_ H62].
        replace ((block_width - 2) * N + (i - (block_width - 2) * N))%nat with i in H62
          by lia.
        rewrite H62. symmetry. apply lookup_zip_with_Some. exists a, m. auto.
      + rewrite lookup_app_r by lia. rewrite Hhl.
        destruct (Nat.lt_ge_cases (i - (block_width - 2) * N - N) N) as [Hk2|Hk2].
        * destruct (lookup_lt_is_Some_2 (args p) (i - (block_width - 2) * N - N) Hk2)
            as [a Ha].
          destruct (lookup_lt_is_Some_2 (multipliers p) (i - (block_width - 2) * N - N)
                      ltac:(lia)) as [m Hm].
          destruct (Hseed _ a m Ha Hm) as [H63 _].
          replace ((block_width - 1) * N + (i - (block_width - 2) * N - N))%nat with i in H63
            by (unfold block_width in *; lia).
          rewrite H63. symmetry. apply lookup_zip_with_Some. exists a, m. auto.
        * rewrite (lookup_ge_None_2 los) by lia.
          apply lookup_ge_None_2. rewrite Hl. unfold block_width in *. lia. }
  exists (replicate (block_width - 2) (replicate N 0) ++ [his; los]).
  rewrite HN.
  split.
  { rewrite Hq, concat_app, concat_zero_rows. cbn [concat]. rewrite app_nil_r. reflexivity. }
  split.
  { apply Forall_app. split.
    - apply Forall_replicate. split; [apply length_replicate|].
      apply Forall_replicate. unfold is_limb. lia.
    - repeat constructor; auto; apply zip_limbs. }
  split; [rewrite length_app, length_replicate; reflexivity|].
  split; [|auto].
  rewrite fold_left_app.
  rewrite (fold_extend_zero (replicate (block_width - 2) (replicate N 0)) (replicate N 0))
    by (apply Forall_replicate; rewrite length_replicate; reflexivity).
  rewrite map_scale_zeros. cbn [fold_left]. unfold his, los, N. apply seed_limbs.
Qed.

Lemma accumulator_size p :
  1 <= precision p -> precision p + 128 <= 2 ^ 64 ->
  exists k,
    Z.of_nat (Z.to_nat (to_ulong (fractional_size p + Z.of_nat block_width))) = 64 * (k + 1) /\
    64 * (k - 1) < precision p <= 64 * k.
Proof.
  intros H1 H2. unfold fractional_size. change (Z.of_nat block_width) with 64.
  pose proof (Z.div_mod (precision p) 64 ltac:(lia)) as Hdm.
  pose proof (Z.mod_pos_bound (precision p) 64 ltac:(lia)) as Hm.
  destruct (Z.eqb_spec (precision p mod 64) 0) as [E|E].
  - exists (precision p / 64).
    rewrite to_ulong_small by lia. rewrite Z2Nat.id by lia. lia.
  - exists (precision p / 64 + 1).
    rewrite (to_ulong_small ((precision p / 64 + 1) * 64)) by lia.
    rewrite to_ulong_small by lia. rewrite Z2Nat.id by lia. lia.
Qed.

(** What the validation and the hypothesis on the arguments give of the
    squares. *)
Lemma terms_squares p :
  wf_params p -> Forall (fun a => 2 <= a) (args p) ->
  length (args p) = length (arg_sq p) /\ (0 < length (arg_sq p))%nat /\
  Forall (fun s => 4 <= s < 2 ^ 32) (arg_sq p).
Proof.
  intros W H2.
  assert (HN : length (arg_sq p) = length (args p)).
  { rewrite (wf_arg_sq _ W). unfold squares. apply length_map. }
  split; [lia|]. split; [pose proof (wf_terms _ W); lia|].
  rewrite (wf_arg_sq _ W). apply squares_bounds; [apply W|exact H2].
Qed.

(** The state that [initialize_variables] returns is one in which the
    passes can start: nothing has gone through the column yet. *)
Lemma seed_pass_inv p st :
  wf_params p -> Forall (fun a => 2 <= a) (args p) ->
  Z.of_nat (length (args p)) < 2 ^ 24 -> precision p <= 2 ^ 25 ->
  first_term_dominates (arg_sq p) (seeds p) ->
  initialize_variables p = Ret st ->
  exists slots,
    pass_inv p st (replicate (length (arg_sq p)) 0) 0 slots /\
    block_digit_offset st = 0 /\
    128 <= Z.of_nat (length (accumulator st)) <= precision p + 127 /\
    fold_left extend slots (replicate (length (arg_sq p)) 0) = seeds p.
Proof.
  intros W H2 HN24 Hprec Hdom Hinit.
  destruct (seed_terms _ _ W Hinit) as (slots & Sq & Ssl & Sw & Sfold & Scol & Sbdo & Sacc).
  destruct (terms_squares p W H2) as (Hargs & HN0 & Hsq).
  pose proof (wf_precision _ W) as Hp1.
  destruct (accumulator_size p ltac:(lia) ltac:(lia)) as (k & HL & Hk).
  assert (HL0 : Z.of_nat (length (accumulator st)) = 64 * (k + 1))
    by (rewrite Sacc, length_replicate; exact HL).
  assert (Hpos : Forall (fun a => 0 < a) (arg_sq p))
    by (eapply Forall_impl; [exact Hsq|]; simpl; lia).
  assert (Hseeds0 : Forall (fun y => 0 <= y) (seeds p))
    by (eapply Forall_impl; [apply seeds_bounds|]; simpl; lia).
  exists slots. split; [|split; [exact Sbdo|split; [lia|exact Sfold]]].
  constructor; rewrite ?Sbdo, ?Scol, ?Sfold; auto.
  - lia.
  - exists (k + 1). unfold block_width. lia.
  - lia.
  - rewrite Sacc. apply Forall_replicate. unfold is_limb. lia.
  - cbn [chain]. split; reflexivity.
  - apply length_replicate.
  - apply Forall_replicate. lia.
  - pose proof (sum_list_bound _ _ (seeds_bounds p)) as Hs.
    rewrite (seeds_length _ W) in Hs.
    change (32 * (0 + Z.of_nat block_width)) with (64 + 1984). rewrite Z.pow_add_r by lia.
    assert (2 ^ 24 <= 2 ^ 1984) by (apply Z.pow_le_mono_r; lia). nia.
  - apply dominates_alive; assumption.
  - rewrite Sacc. clear. induction (Z.to_nat _) as [|n IH]; [reflexivity|].
    unfold limbs_value in *. cbn [replicate fold_left]. exact IH.
  - cbn [length]. lia.
Qed.

(** ** The whole computation *)

Lemma terms_spec fuel progname rest p st :
  compute fuel (progname :: rest) = Ret (p, st) ->
  Forall (fun a => 2 <= a) (args p) ->
  Z.of_nat (length (args p)) < 2 ^ 24 -> precision p <= 2 ^ 25 ->
  first_term_dominates (arg_sq p) (seeds p) ->
  let X := map (fun x => x * 2 ^ (32 * (Z.of_nat (length (accumulator st)) - 64))) (seeds p) in
  let rows := (block_height * length (remainder_column st))%nat in
  limbs_value (accumulator st) = row_sum (arg_sq p) X rows /\
  Forall (fun y => y = 0) (zip_with (fun x s => x / s ^ Z.of_nat rows) X (arg_sq p)) /\
  Z.of_nat rows <= 16 * Z.of_nat (length (accumulator st)) + 64 /\
  128 <= Z.of_nat (length (accumulator st)) <= precision p + 127 /\
  length X = length (arg_sq p) /\ Forall (fun x => 0 <= x) X.
Proof.
  intros H H2 HN24 Hprec Hdom X rows.
  unfold compute in H. ret_inv H. injection H as -> ->.
  pose proof (read_parameters_wf _ _ _ E) as W.
  destruct (seed_pass_inv _ _ W H2 HN24 Hprec Hdom E0) as (slots & Hinv & Sbdo & HL0 & Hseed).
  destruct (terms_squares p W H2) as (Hargs & HN0 & Hsq).
  destruct (main_loop_chain p Hargs HN0 ltac:(lia) Hsq fuel x0 st _ 0 slots Hinv E1)
    as (Df & F1 & F2 & F3 & F4).
  rewrite Sbdo in F1.
  assert (Hlt : (0 <? Z.of_nat (length (accumulator x0))) = true) by (apply Z.ltb_lt; lia).
  rewrite Hlt, Hseed in F1.
  assert (Hpos : Forall (fun a => 0 < a) (arg_sq p))
    by (eapply Forall_impl; [exact Hsq|]; simpl; lia).
  assert (H01 : 0 < 1) by lia.
  rewrite <- F3 in F1.
  replace (Z.of_nat (length (accumulator st)) - 0 - Z.of_nat block_width)
    with (Z.of_nat (length (accumulator st)) - 64) in F1 by (unfold block_width; lia).
  fold X in F1.
  assert (HXl : length X = length (arg_sq p))
    by (unfold X; rewrite length_map; apply seeds_length, W).
  assert (HXn : Forall (fun y => 0 <= y) X).
  { unfold X. apply List.Forall_map. eapply Forall_impl; [apply seeds_bounds|].
    simpl. intros x Hx.
    assert (0 <= 2 ^ (32 * (Z.of_nat (length (accumulator st)) - 64)))
      by (apply Z.pow_nonneg; lia).
    nia. }
  destruct (chain_series _ _ _ _ _ _ _ Hpos H01 HXl HXn F1) as (Hser & _ & _).
  fold rows in Hser.
  rewrite series_rows_start in Hser by assumption.
  assert (Hy : zip_with (fun x s => x / s ^ Z.of_nat rows) X (arg_sq p)
               = replicate (length (arg_sq p)) 0)
    by (apply (f_equal fst) in Hser; exact Hser).
  assert (HD : row_sum (arg_sq p) X rows = Df)
    by (apply (f_equal snd) in Hser; exact Hser).
  split; [lia|]. split; [rewrite Hy; apply Forall_replicate; reflexivity|].
  split; [unfold rows, block_height; lia|].
  split; [lia|]. split; assumption.
Qed.

(** ** The distance to the inverse cotangents *)

Lemma floor_real (X b : Z) : 0 < b ->
  (0 <= IZR X / IZR b - IZR (X / b) < 1)%R.
Proof.
  intros Hb.
  assert (Hb' : (0 < IZR b)%R) by (apply IZR_lt; exact Hb).
  pose proof (Z.mul_div_le X b Hb) as H1.
  pose proof (Z.mul_succ_div_gt X b Hb) as H2.
  apply IZR_le in H1. apply IZR_lt in H2.
  rewrite mult_IZR in H1. rewrite mult_IZR, succ_IZR in H2.
  assert (Hq : IZR X = (IZR b * (IZR X / IZR b))%R) by (field; lra).
  set (q := (IZR X / IZR b)%R) in *. clearbody q.
  split.
  - apply (Rmult_le_reg_l (IZR b)); [exact Hb'|]. lra.
  - apply (Rmult_lt_reg_l (IZR b)); [exact Hb'|]. lra.
Qed.

Lemma tg_alt_even f k : tg_alt f k = (if Nat.even k then f k else - f k)%R.
Proof.
  unfold tg_alt. destruct k as [|k].
  - cbn. lra.
  - rewrite pow_m1_even, Nat.even_succ, <- Nat.negb_even.
    destruct (Nat.even k); cbn; lra.
Qed.

Lemma Rabs_le_bounds (x b : R) : (Rabs x <= b -> - b <= x <= b)%R.
Proof. unfold Rabs. destruct (Rcase_abs x); lra. Qed.

Lemma inv_arg_range (a : Z) : 2 <= a -> (0 < / IZR a < 1)%R.
Proof.
  intros Ha. assert (2 <= IZR a)%R by (apply IZR_le; exact Ha).
  split.
  - apply Rinv_0_lt_compat. lra.
  - rewrite <- Rinv_1. apply Rinv_lt_contravar; lra.
Qed.

Lemma arccot_le_inv (a : Z) : 2 <= a -> (0 <= arccot a <= / IZR a)%R.
Proof.
  intros Ha. pose proof (inv_arg_range a Ha) as Hx.
  destruct (atan_series_bounds _ 0 Hx) as [L1 L2].
  change (2 * 0)%nat with 0%nat in L1, L2.
  cbn [sum_f_R0] in L1, L2. unfold tg_alt, Ratan_seq in L1, L2.
  cbn [Nat.mul Nat.add pow INR] in L1, L2.
  assert (Hsq : (/ IZR a * / IZR a <= 1)%R) by nra.
  assert (Hcube : (/ IZR a * (/ IZR a * (/ IZR a * 1)) <= / IZR a)%R) by nra.
  unfold arccot. lra.
Qed.

Lemma alt_sum_S f n : alt_sum f (S n) = sum_f_R0 (tg_alt f) n.
Proof.
  induction n as [|n IH].
  - cbn [alt_sum sum_f_R0 Nat.even]. rewrite tg_alt_even. cbn [Nat.even]. lra.
  - cbn [sum_f_R0]. rewrite <- IH, tg_alt_even. reflexivity.
Qed.

(** What is left of the series after an even number of terms lies between
    zero and the next term. *)
Lemma alt_sum_tail (a : Z) (j : nat) : 2 <= a ->
  (0 <= atan (/ IZR a) - alt_sum (Ratan_seq (/ IZR a)) (2 * j)
   <= Ratan_seq (/ IZR a) (2 * j))%R.
Proof.
  intros Ha. pose proof (inv_arg_range a Ha) as Hx.
  destruct j as [|j].
  - pose proof (arccot_le_inv a Ha) as H. unfold arccot in H.
    change (alt_sum (Ratan_seq (/ IZR a)) (2 * 0)) with 0%R.
    unfold Ratan_seq. cbn [Nat.mul Nat.add pow INR]. lra.
  - destruct (atan_series_bounds _ j Hx) as [L1 _].
    destruct (atan_series_bounds _ (S j) Hx) as [_ L2].
    replace (2 * S j)%nat with (S (S (2 * j))) in * by lia.
    rewrite alt_sum_S.
    cbn [sum_f_R0] in L2.
    rewrite (tg_alt_even _ (S (S (2 * j)))) in L2.
    replace (Nat.even (S (S (2 * j)))) with true in L2
      by (symmetry; apply Nat.even_spec; exists (S j); lia).
    cbn [sum_f_R0] in L1 |- *. lra.
Qed.

(** ** Sums over the terms *)

Lemma terms_R_plus (f g : Z -> R) : forall ms az,
  terms_R (fun a => (f a + g a)%R) ms az = (terms_R f ms az + terms_R g ms az)%R.
Proof.
  unfold terms_R. induction ms as [|m ms IH]; intros [|a az]; cbn [zip_with fold_right];
    try lra.
  rewrite IH. ring.
Qed.

Lemma terms_R_opp (f : Z -> R) : forall ms az,
  terms_R (fun a => (- f a)%R) ms az = (- terms_R f ms az)%R.
Proof.
  unfold terms_R. induction ms as [|m ms IH]; intros [|a az]; cbn [zip_with fold_right];
    try lra.
  rewrite IH. ring.
Qed.

Lemma real_square_pow (x : R) : forall k, ((x * x) ^ S k = x * x ^ (2 * k + 1))%R.
Proof.
  induction k as [|k IH]; [cbn; ring|].
  replace (2 * S k + 1)%nat with (S (S (2 * k + 1))) by lia.
  change ((x * x) ^ S (S k))%R with ((x * x) * (x * x) ^ S k)%R.
  rewrite IH. cbn [pow]. ring.
Qed.

(** One term of one row in the real numbers, and as the program rounds it. *)
Lemma term_floor (a m C : Z) (k : nat) : 2 <= a -> 0 <= m -> 0 <= C ->
  (0 <= IZR C * (IZR m * Ratan_seq (/ IZR a) k) * IZR (2 * Z.of_nat k + 1)
        - IZR (a * m * C / (a * a) ^ Z.of_nat (S k)) < 1)%R.
Proof.
  intros Ha Hm HC.
  assert (Ha' : (2 <= IZR a)%R) by (apply IZR_le; exact Ha).
  assert (Hp : 0 < (a * a) ^ Z.of_nat (S k)) by (apply Z.pow_pos_nonneg; nia).
  replace (IZR C * (IZR m * Ratan_seq (/ IZR a) k) * IZR (2 * Z.of_nat k + 1))%R
    with (IZR (a * m * C) / IZR ((a * a) ^ Z.of_nat (S k)))%R.
  { apply floor_real. exact Hp. }
  unfold Ratan_seq. rewrite <- pow_IZR, !mult_IZR, real_square_pow.
  rewrite (INR_IZR_INZ (2 * k + 1)).
  replace (Z.of_nat (2 * k + 1)) with (2 * Z.of_nat k + 1) by lia.
  assert (Hc : (0 < IZR (2 * Z.of_nat k + 1))%R) by (apply IZR_lt; lia).
  rewrite pow_inv.
  assert (Hq : (0 < IZR a ^ (2 * k + 1))%R) by (apply pow_lt; lra).
  field. repeat split; lra.
Qed.

Lemma terms_R_zero : forall ms az, terms_R (fun _ => 0%R) ms az = 0%R.
Proof.
  unfold terms_R. induction ms as [|m ms IH]; intros [|a az]; cbn [zip_with fold_right];
    try lra.
  rewrite IH. ring.
Qed.

(** One row: the sum of the rounded terms, before the division by the odd
    divisor. *)
Lemma row_inner (C : Z) (k : nat) : 0 <= C -> forall az ms,
  Forall (fun a => 2 <= a) az -> Forall (fun m => 0 <= m) ms ->
  (0 <= IZR C * terms_R (fun a => Ratan_seq (/ IZR a) k) ms az * IZR (2 * Z.of_nat k + 1)
        - IZR (sum_list (zip_with (fun x s => x / s ^ Z.of_nat (S k))%Z
                           (numerators C az ms) (squares az)))
     <= INR (length az))%R.
Proof.
  intros HC. unfold terms_R, numerators, squares, sum_list.
  induction az as [|a az IH]; intros [|m ms] Haz Hms; cbn [zip_with fold_right map length].
  - cbn [INR]. lra.
  - cbn [INR]. lra.
  - pose proof (pos_INR (S (length az))). lra.
  - inversion Haz as [|? ? Ha Haz']; subst. inversion Hms as [|? ? Hm Hms']; subst.
    pose proof (term_floor a m C k Ha Hm HC) as Ht.
    pose proof (IH ms Haz' Hms') as I.
    set (T := fold_right Rplus 0%R _) in *.
    set (c := IZR (2 * Z.of_nat k + 1)) in *.
    rewrite plus_IZR, S_INR.
    replace (IZR C * (IZR m * Ratan_seq (/ IZR a) k + T) * c)%R
      with (IZR C * (IZR m * Ratan_seq (/ IZR a) k) * c + IZR C * T * c)%R by ring.
    lra.
Qed.

Lemma row_term_error (C : Z) (k : nat) az ms :
  0 <= C -> Forall (fun a => 2 <= a) az -> Forall (fun m => 0 <= m) ms ->
  (0 <= IZR C * terms_R (fun a => Ratan_seq (/ IZR a) k) ms az
        - IZR (row_term (squares az) (numerators C az ms) k)
     < INR (length az) + 1)%R.
Proof.
  intros HC Haz Hms. unfold row_term.
  pose proof (row_inner C k HC az ms Haz Hms) as Hin.
  set (S := sum_list _) in *.
  pose proof (floor_real S (2 * Z.of_nat k + 1) ltac:(lia)) as Hfl.
  assert (Hc : (1 <= IZR (2 * Z.of_nat k + 1))%R) by (apply IZR_le; lia).
  set (c := IZR (2 * Z.of_nat k + 1)) in *.
  set (V := (IZR C * terms_R (fun a => Ratan_seq (/ IZR a) k) ms az)%R) in *.
  pose proof (pos_INR (length az)) as HN.
  set (N := INR (length az)) in *.
  assert (Hq : (IZR S = IZR S / c * c)%R) by (field; lra).
  set (q := (IZR S / c)%R) in *.
  set (f := IZR (S / (2 * Z.of_nat k + 1))) in *.
  clearbody q f V N c.
  assert (H0 : (0 <= (V - q) * c <= N)%R) by lra.
  assert (H1 : (0 <= V - q)%R) by nra.
  assert (H2 : (V - q <= N)%R) by nra.
  lra.
Qed.

(** The rows summed: every row is within the number of terms plus one of
    the row of the series. *)
Lemma row_sum_error (C : Z) az ms :
  0 <= C -> Forall (fun a => 2 <= a) az -> Forall (fun m => 0 <= m) ms ->
  forall n,
  (Rabs (IZR (row_sum (squares az) (numerators C az ms) n)
         - IZR C * terms_R (fun a => alt_sum (Ratan_seq (/ IZR a)) n) ms az)
   <= INR n * (INR (length az) + 1))%R.
Proof.
  intros HC Haz Hms. induction n as [|n IH].
  - cbn [row_sum alt_sum]. rewrite terms_R_zero.
    replace (0 - IZR C * 0)%R with 0%R by ring. rewrite Rabs_R0. cbn [INR]. lra.
  - pose proof (row_term_error C n az ms HC Haz Hms) as Hrow.
    apply Rabs_le_bounds in IH.
    cbn [row_sum alt_sum]. rewrite S_INR, plus_IZR.
    rewrite (terms_R_plus (fun a => alt_sum (Ratan_seq (/ IZR a)) n)
               (fun a => if Nat.even n then Ratan_seq (/ IZR a) n
                         else (- Ratan_seq (/ IZR a) n)%R)).
    pose proof (pos_INR (length az)) as HN.
    destruct (Nat.even n).
    + apply Rabs_le. lra.
    + rewrite (terms_R_opp (fun a => Ratan_seq (/ IZR a) n)), opp_IZR.
      apply Rabs_le. lra.
Qed.

(** When the numbers have become zero after an even number of rows, what
    is left of the series of every term is less than one. *)
Lemma terms_tail (C : Z) (j : nat) : 0 <= C -> forall az ms,
  Forall (fun a => 2 <= a) az -> Forall (fun m => 0 <= m) ms ->
  Forall (fun y => y = 0)
    (zip_with (fun x s => x / s ^ Z.of_nat (2 * j)) (numerators C az ms) (squares az)) ->
  (0 <= IZR C * (terms_R arccot ms az
                 - terms_R (fun a => alt_sum (Ratan_seq (/ IZR a)) (2 * j)) ms az)
     <= INR (length az))%R.
Proof.
  intros HC. unfold terms_R, numerators, squares.
  induction az as [|a az IH]; intros [|m ms] Haz Hms Hend;
    cbn [zip_with fold_right map length] in *.
  - cbn [INR]. lra.
  - cbn [INR]. lra.
  - pose proof (pos_INR (S (length az))). lra.
  - inversion Haz as [|? ? Ha Haz']; subst. inversion Hms as [|? ? Hm Hms']; subst.
    inversion Hend as [|? ? Hz Hend']; subst.
    change (j + (j + 0))%nat with (2 * j)%nat in *.
    pose proof (IH ms Haz' Hms' Hend') as I.
    pose proof (term_floor a m C (2 * j) Ha Hm HC) as Ht.
    pose proof (alt_sum_tail a j Ha) as Htail.
    assert (Hzero : a * m * C / (a * a) ^ Z.of_nat (S (2 * j)) = 0).
    { assert (0 < (a * a) ^ Z.of_nat (2 * j)) by (apply Z.pow_pos_nonneg; nia).
      apply Z.div_small_iff in Hz; [|lia].
      apply Z.div_small. split; [nia|].
      eapply Z.lt_le_trans with ((a * a) ^ Z.of_nat (2 * j)); [lia|].
      apply Z.pow_le_mono_r; nia. }
    rewrite Hzero in Ht.
    assert (Hc : (1 <= IZR (2 * Z.of_nat (2 * j) + 1))%R) by (apply IZR_le; lia).
    assert (HC' : (0 <= IZR C)%R) by (apply IZR_le; exact HC).
    assert (Hm' : (0 <= IZR m)%R) by (apply IZR_le; exact Hm).
    rewrite S_INR. change (arccot a) with (atan (/ IZR a)).
    set (T1 := fold_right Rplus 0%R (zip_with (fun m a => (IZR m * arccot a)%R) ms az)) in *.
    set (T2 := fold_right Rplus 0%R _) in I |- *.
    set (c := IZR (2 * Z.of_nat (2 * j) + 1)) in *.
    set (F := Ratan_seq (/ IZR a) (2 * j)) in *.
    set (D := (atan (/ IZR a) - alt_sum (Ratan_seq (/ IZR a)) (2 * j))%R) in *.
    replace (IZR C * (IZR m * atan (/ IZR a) + T1
                      - (IZR m * alt_sum (Ratan_seq (/ IZR a)) (2 * j) + T2)))%R
      with (IZR C * IZR m * D + IZR C * (T1 - T2))%R by (unfold D; ring).
    assert (HM : (0 <= IZR C * IZR m)%R) by (apply Rmult_le_pos; assumption).
    set (M := (IZR C * IZR m)%R) in *.
    replace (IZR C * (IZR m * F) * c - 0)%R with (M * F * c)%R in Ht by (unfold M; ring).
    clearbody M D F c T1 T2.
    assert (H1 : (0 <= M * D)%R) by (apply Rmult_le_pos; lra).
    assert (H2 : (M * D <= M * F)%R) by (apply Rmult_le_compat_l; lra).
    assert (H3 : (0 <= M * F)%R) by (apply Rmult_le_pos; lra).
    assert (H4 : (M * F <= M * F * c)%R) by nra.
    lra.
Qed.

(** ** The accumulator and the sum of the inverse cotangents *)

Lemma seeds_numerators p (SZ : Z) : forall az ms,
  Forall2 (fun a m => a * m * pi_d p < 2 ^ 64) az ms ->
  Forall (fun a => 0 <= a) az -> Forall (fun m => 0 <= m) ms -> 0 < pi_d p ->
  map (fun x => x * SZ) (zip_with (scaled p) az ms) = numerators (pi_d p * SZ) az ms.
Proof.
  intros az ms Hfit. unfold numerators.
  induction Hfit as [|a m az ms Ham Hfit IH]; intros Haz Hms Hd; [reflexivity|].
  inversion Haz; inversion Hms; subst. cbn [zip_with map].
  rewrite IH by assumption. f_equal.
  unfold scaled. rewrite !to_limb2_mod.
  rewrite (Z.mod_small (a * m)) by nia. rewrite Z.mod_small by nia. ring.
Qed.

Lemma series_value_terms p :
  series_value p = (IZR (pi_d p) * terms_R arccot (multipliers p) (args p))%R.
Proof. reflexivity. Qed.

Lemma terms_accurate_spec fuel progname rest p st :
  compute fuel (progname :: rest) = Ret (p, st) ->
  Forall (fun a => 2 <= a) (args p) -> precision p <= 2 ^ 25 ->
  first_term_dominates (arg_sq p) (seeds p) ->
  Forall2 (fun a m => a * m * pi_d p < 2 ^ 64) (args p) (multipliers p) ->
  (Z.of_nat (length (args p)) + 1) * (16 * precision p + 2097) <= 2 ^ 32 ->
  accurate p (accumulator st).
Proof.
  intros H H2 Hprec Hdom Hfit Hsize.
  destruct (compute_spec _ _ _ _ _ H ltac:(lia)) as (W & _).
  pose proof (wf_precision _ W) as Hp1.
  pose proof (wf_pi_d _ W) as Hd.
  assert (HN24 : Z.of_nat (length (args p)) < 2 ^ 24) by nia.
  destruct (terms_spec _ _ _ _ _ H H2 HN24 Hprec Hdom) as (HA & Hend & Hrows & HL & _ & _).
  assert (Haz : Forall (fun a => 0 <= a) (args p))
    by (eapply Forall_impl; [exact H2|]; simpl; lia).
  assert (Hms : Forall (fun m => 0 <= m) (multipliers p))
    by (eapply Forall_impl; [apply (wf_multipliers _ W)|]; simpl; lia).
  set (L := length (accumulator st)) in *.
  set (SZ := 2 ^ (32 * (Z.of_nat L - 64))) in *.
  assert (HSZ : 0 < SZ) by (apply Z.pow_pos_nonneg; lia).
  unfold seeds in HA, Hend.
  rewrite (seeds_numerators p SZ _ _ Hfit Haz Hms ltac:(lia)), (wf_arg_sq _ W) in HA, Hend.
  set (j := (32 * length (remainder_column st))%nat).
  replace (block_height * length (remainder_column st))%nat with (2 * j)%nat in *
    by (unfold j, block_height; lia).
  assert (HC : 0 <= pi_d p * SZ) by nia.
  pose proof (row_sum_error _ _ _ HC H2 Hms (2 * j)) as He.
  pose proof (terms_tail _ j HC _ _ H2 Hms Hend) as Ht.
  rewrite <- HA in He. apply Rabs_le_bounds in He.
  assert (Hcount : (INR (2 * j) * (INR (length (args p)) + 1) + INR (length (args p))
                    < 2 ^ 32)%R).
  { rewrite !INR_IZR_INZ, (pow_IZR 2 32).
    change 1%R with (IZR 1). rewrite <- plus_IZR, <- mult_IZR, <- plus_IZR.
    apply IZR_lt. change (Z.of_nat 32) with 32. nia. }
  assert (Hdist : (Rabs (IZR (limbs_value (accumulator st))
                         - IZR (pi_d p * SZ) * terms_R arccot (multipliers p) (args p))
                   < 2 ^ 32)%R).
  { apply Rabs_def1; lra. }
  assert (HSR : IZR SZ = (2 ^ (32 * (L - block_width)))%R).
  { unfold SZ. rewrite pow_IZR. f_equal. f_equal. unfold block_width. lia. }
  assert (HSplit : (2 ^ (32 * (L - block_width)) = 2 ^ 32 * 2 ^ (32 * (L - block_width - 1)))%R).
  { rewrite <- pow_add. f_equal. unfold block_width. lia. }
  assert (HS' : (0 < 2 ^ (32 * (L - block_width - 1)))%R) by (apply pow_lt; lra).
  unfold accurate, fixed_point_value. rewrite series_value_terms. fold L.
  rewrite <- HSR.
  assert (HSZ' : (0 < IZR SZ)%R) by (apply IZR_lt; exact HSZ).
  rewrite mult_IZR in Hdist.
  replace (IZR (limbs_value (accumulator st)) / IZR SZ
           - IZR (pi_d p) * terms_R arccot (multipliers p) (args p))%R
    with ((IZR (limbs_value (accumulator st))
           - IZR (pi_d p) * IZR SZ * terms_R arccot (multipliers p) (args p)) / IZR SZ)%R
    by (field; lra).
  unfold Rdiv. rewrite Rabs_mult, (Rabs_pos_eq (/ IZR SZ))
    by (left; apply Rinv_0_lt_compat; exact HSZ').
  apply (Rmult_lt_reg_r (IZR SZ)); [exact HSZ'|].
  rewrite Rmult_assoc, Rinv_l, Rmult_1_r by lra.
  assert (Heq : (/ 2 ^ (32 * (L - block_width - 1)) * IZR SZ = 2 ^ 32)%R)
    by (rewrite HSR, HSplit; field; lra).
  rewrite Heq. exact Hdist.
Qed.

(** ** What the program prints *)

Lemma integer_part_real (acc : list Z) :
  Forall is_limb acc -> (block_width <= length acc)%nat ->
  (IZR (limbs_value (take block_width acc)) <= fixed_point_value acc)%R.
Proof.
  intros Hl HL.
  rewrite <- (take_drop block_width acc) at 2. unfold fixed_point_value.
  rewrite limbs_value_app, length_drop.
  pose proof (limbs_value_bound (drop block_width acc) (Forall_drop _ _ _ Hl)) as [Hd _].
  rewrite take_drop.
  assert (HS : (0 < 2 ^ (32 * (length acc - block_width)))%R) by (apply pow_lt; lra).
  rewrite plus_IZR, mult_IZR.
  replace (32 * Z.of_nat (length acc - block_width)) with (Z.of_nat (32 * (length acc - block_width)))
    by lia.
  rewrite <- pow_IZR.
  apply IZR_le in Hd.
  apply (Rmult_le_reg_r (2 ^ (32 * (length acc - block_width)))); [exact HS|].
  unfold Rdiv. rewrite Rmult_assoc, Rinv_l, Rmult_1_r by lra. lra.
Qed.

(** Multipliers whose sum, times [d], fits a limb: no numerator wraps. *)
Lemma numerators_fit (d : Z) : 0 < d -> forall az ms,
  Forall (fun a => 0 <= a <= arg_max) az -> Forall (fun m => 0 <= m) ms ->
  length ms = length az -> sum_list ms * d <= 2 ^ 32 ->
  Forall2 (fun a m => a * m * d < 2 ^ 64) az ms.
Proof.
  intros Hd. unfold sum_list.
  induction az as [|a az IH]; intros [|m ms] Haz Hms Hlen Hsum; try discriminate;
    [constructor|].
  inversion Haz as [|? ? Ha Haz']; subst. inversion Hms as [|? ? Hm Hms']; subst.
  cbn [fold_right] in Hsum. pose proof (sum_list_nonneg ms Hms') as Hs.
  unfold sum_list in Hs. change arg_max with 65535 in Ha.
  constructor.
  - assert (m * d <= 2 ^ 32) by nia. nia.
  - apply IH; auto. nia.
Qed.

(** The sum of the inverse cotangents is at most half the sum of the
    multipliers. *)
Lemma terms_R_bound : forall ms az,
  Forall (fun a => 2 <= a) az -> Forall (fun m => 0 <= m) ms ->
  (0 <= terms_R arccot ms az <= IZR (sum_list ms) / 2)%R.
Proof.
  unfold terms_R, sum_list.
  induction ms as [|m ms IH]; intros [|a az] Haz Hms; cbn [zip_with fold_right].
  - lra.
  - lra.
  - pose proof (sum_list_nonneg _ Hms) as Hs. unfold sum_list in Hs. cbn [fold_right] in Hs.
    apply IZR_le in Hs. lra.
  - inversion Haz as [|? ? Ha Haz']; subst. inversion Hms as [|? ? Hm Hms']; subst.
    pose proof (IH az Haz' Hms') as I.
    destruct (arccot_le_inv a Ha) as [A0 A1].
    assert (Ha' : (2 <= IZR a)%R) by (apply IZR_le; exact Ha).
    assert (Hinv : (/ IZR a <= / 2)%R) by (apply Rinv_le_contravar; lra).
    assert (Hm' : (0 <= IZR m)%R) by (apply IZR_le; lia).
    rewrite plus_IZR.
    assert (H1 : (0 <= IZR m * arccot a)%R) by (apply Rmult_le_pos; assumption).
    assert (H2 : (IZR m * arccot a <= IZR m * / 2)%R) by (apply Rmult_le_compat_l; lra).
    lra.
Qed.

Lemma terms_output_spec fuel progname rest p st out :
  compute fuel (progname :: rest) = Ret (p, st) ->
  main fuel (progname :: rest) = Ret out ->
  Forall (fun a => 2 <= a) (args p) -> precision p <= 2 ^ 25 ->
  first_term_dominates (arg_sq p) (seeds p) ->
  sum_list (multipliers p) * pi_d p <= 2 ^ 32 ->
  (Z.of_nat (length (args p)) + 1) * (16 * precision p + 2097) <= 2 ^ 32 ->
  exists s res,
    out = (s ++ (if (length res =? 0)%nat then "" else String "." (string_of_list_ascii res))
             ++ String "010" "")%string /\
    Forall is_digit (list_ascii_of_string s) /\ Forall is_digit res /\
    (Rabs (IZR (parse_decimal s) + IZR (digits_value res) / 10 ^ length res - series_value p)
     < / 10 ^ length res + / 2 ^ (32 * (length (accumulator st) - block_width - 1)))%R.
Proof.
  intros Hc Hmain H2 Hprec Hdom Hmd Hsize.
  destruct (compute_spec _ _ _ _ _ Hc ltac:(lia)) as (W & _ & _ & Hl & k0 & HL & Hk0).
  pose proof (wf_precision _ W) as Hp1.
  pose proof (wf_pi_d _ W) as Hd.
  assert (Hms : Forall (fun m => 0 <= m) (multipliers p))
    by (eapply Forall_impl; [apply (wf_multipliers _ W)|]; simpl; lia).
  pose proof (numerators_fit (pi_d p) ltac:(lia) _ _ (wf_args _ W) Hms (wf_length _ W) Hmd)
    as Hfit.
  pose proof (terms_accurate_spec _ _ _ _ _ Hc H2 Hprec Hdom Hfit Hsize) as Hacc.
  destruct (main_prints_spec _ _ _ _ _ _ Hc ltac:(lia) Hmain)
    as (s & res & k & Hout & _ & Hs & Hres & _ & Hv).
  exists s, res. split; [exact Hout|]. split; [exact Hs|]. split; [exact Hres|].
  unfold accurate in Hacc.
  set (L := length (accumulator st)) in *.
  set (eps := (/ 2 ^ (32 * (L - block_width - 1)))%R) in *.
  assert (Heps : (0 < eps <= 1)%R).
  { unfold eps. split.
    - apply Rinv_0_lt_compat, pow_lt. lra.
    - rewrite <- Rinv_1. apply Rinv_le_contravar; [lra|].
      apply pow_R1_Rle. lra. }
  assert (HT : (0 <= series_value p <= 2 ^ 31)%R).
  { rewrite series_value_terms.
    destruct (terms_R_bound _ _ H2 Hms) as [T0 T1].
    assert (Hd' : (0 <= IZR (pi_d p))%R) by (apply IZR_le; lia).
    assert (Hmd' : (IZR (sum_list (multipliers p)) * IZR (pi_d p) <= 2 ^ 32)%R).
    { rewrite <- mult_IZR, (pow_IZR 2 32). apply IZR_le. exact Hmd. }
    set (T := terms_R arccot (multipliers p) (args p)) in *.
    set (M := IZR (sum_list (multipliers p))) in *.
    set (d := IZR (pi_d p)) in *. clearbody T M d.
    split; [apply Rmult_le_pos; assumption|].
    apply Rle_trans with (d * (M / 2))%R; [apply Rmult_le_compat_l; lra|].
    replace (2 ^ 31)%R with (2 ^ 32 / 2)%R by (simpl; lra). lra. }
  apply Rabs_def2 in Hacc as [Hacc1 Hacc2].
  assert (Hint : limbs_value (take block_width (accumulator st)) < 2 ^ 32).
  { apply lt_IZR.
    replace (IZR (2 ^ 32)) with (2 ^ 32)%R by (rewrite (pow_IZR 2 32); reflexivity).
    pose proof (integer_part_real (accumulator st) Hl ltac:(unfold block_width; lia)) as Hi.
    assert ((2 ^ 31 + 1 < 2 ^ 32)%R) by (simpl; lra). lra. }
  specialize (Hv Hint). fold L in Hv.
  set (n := length res) in *.
  assert (H10 : (0 < 10 ^ n)%R) by (apply pow_lt; lra).
  assert (HS : 0 < 2 ^ (32 * Z.of_nat (L - block_width))) by (apply Z.pow_pos_nonneg; lia).
  pose proof (floor_real (limbs_value (accumulator st) * 10 ^ Z.of_nat n) _ HS) as Hfl.
  rewrite <- Hv in Hfl.
  rewrite plus_IZR, !mult_IZR, <- !pow_IZR in Hfl.
  replace (32 * Z.of_nat (L - block_width)) with (Z.of_nat (32 * (L - block_width))) in Hfl
    by lia.
  rewrite <- pow_IZR in Hfl.
  unfold fixed_point_value in *. fold L in Hacc1, Hacc2.
  assert (HSR : (0 < 2 ^ (32 * (L - block_width)))%R) by (apply pow_lt; lra).
  set (A := IZR (limbs_value (accumulator st))) in *.
  set (S := (2 ^ (32 * (L - block_width)))%R) in *.
  set (P := IZR (parse_decimal s)) in *.
  set (Q := IZR (digits_value res)) in *.
  assert (Htrunc : (0 <= A / S - (P + Q / 10 ^ n) < / 10 ^ n)%R).
  { replace (A / S - (P + Q / 10 ^ n))%R with ((A * 10 ^ n / S - (P * 10 ^ n + Q)) / 10 ^ n)%R
      by (field; lra).
    destruct Hfl as [F1 F2]. split.
    - apply Rmult_le_pos; [exact F1|]. left. apply Rinv_0_lt_compat. exact H10.
    - unfold Rdiv at 1. rewrite <- (Rmult_1_l (/ 10 ^ n)) at 2.
      apply Rmult_lt_compat_r; [apply Rinv_0_lt_compat; exact H10|exact F2]. }
  apply Rabs_def1; lra.
Qed.

(** ** A block whose sums stay in range is processed to the end *)

Lemma prefix_in_range (acc : list Z) (d o : Z) :
  Forall is_limb acc -> 0 <= o < Z.of_nat (length acc) ->
  0 <= limbs_value acc + d * 2 ^ (32 * (Z.of_nat (length acc) - 1 - o))
    < 2 ^ (32 * Z.of_nat (length acc)) ->
  0 <= limbs_value (take (Z.to_nat o + 1) acc) + d < 2 ^ (32 * (o + 1)).
Proof.
  intros Hl Ho H.
  pose proof (take_drop (Z.to_nat o + 1) acc) as Hsplit.
  pose proof (limbs_value_bound _ (Forall_drop _ (Z.to_nat o + 1) _ Hl)) as Hpost.
  rewrite length_drop in Hpost.
  assert (Hv : limbs_value acc
               = limbs_value (take (Z.to_nat o + 1) acc)
                 * 2 ^ (32 * Z.of_nat (length acc - (Z.to_nat o + 1)))
                 + limbs_value (drop (Z.to_nat o + 1) acc)).
  { rewrite <- Hsplit at 1. rewrite limbs_value_app, length_drop. reflexivity. }
  rewrite Hv in H. clear Hv.
  replace (32 * Z.of_nat (length acc - (Z.to_nat o + 1)))
    with (32 * (Z.of_nat (length acc) - 1 - o)) in * by lia.
  replace (32 * Z.of_nat (length acc))
    with (32 * (o + 1) + 32 * (Z.of_nat (length acc) - 1 - o)) in H by lia.
  rewrite Z.pow_add_r in H by lia.
  assert (HU : 0 < 2 ^ (32 * (Z.of_nat (length acc) - 1 - o))) by (apply Z.pow_pos_nonneg; lia).
  assert (HB : 0 < 2 ^ (32 * (o + 1))) by (apply Z.pow_pos_nonneg; lia).
  set (U := 2 ^ (32 * (Z.of_nat (length acc) - 1 - o))) in *.
  set (B := 2 ^ (32 * (o + 1))) in *.
  set (P := limbs_value (take (Z.to_nat o + 1) acc)) in *.
  set (Q := limbs_value (drop (Z.to_nat o + 1) acc)) in *.
  clearbody U B P Q. split.
  - destruct (Z_lt_le_dec (P + d) 0) as [Hneg|]; [exfalso|assumption].
    assert ((P + d) * U <= - U) by nia. lia.
  - destruct (Z_lt_le_dec (P + d) B) as [|Hbig]; [assumption|exfalso].
    assert (B * U <= (P + d) * U) by nia. lia.
Qed.

Lemma slot_loop_run p divisor :
  length (args p) = length (arg_sq p) ->
  (0 < length (arg_sq p))%nat ->
  Forall (fun a => 0 < a < 2 ^ 32) (arg_sq p) ->
  1 <= divisor ->
  forall slots fuel qdone acc rows o,
  Forall (fun xs => length xs = length (arg_sq p) /\ Forall is_limb xs) slots ->
  rows_ok (arg_sq p) divisor rows ->
  divisor + 2 * Z.of_nat (length rows) + Z.of_nat (length (arg_sq p)) < 2 ^ 32 ->
  Z.of_nat (length rows) * (2 ^ 32 * (Z.of_nat (length (arg_sq p)) + 1)) < 2 ^ 63 ->
  Forall is_limb acc -> Z.of_nat (length acc) < 2 ^ 32 ->
  0 <= o -> o + Z.of_nat (length slots) <= Z.of_nat (length acc) ->
  (length slots + length rows + length acc + 3 <= fuel)%nat ->
  (forall j sl' rows' ds, (j <= length slots)%nat ->
     divide_slots (arg_sq p) divisor (take j slots) rows = (sl', rows', ds) ->
     0 <= limbs_value acc + place (Z.of_nat (length acc)) o ds
       < 2 ^ (32 * Z.of_nat (length acc))) ->
  exists r,
    slot_loop fuel p (length (arg_sq p)) divisor (length qdone) o (qdone ++ concat slots) acc
      (flat_rows rows) = Ret r.
Proof.
  intros Hargs HN Hsq Hdiv.
  assert (Hpos : Forall (fun a => 0 < a) (arg_sq p))
    by (eapply Forall_impl; [exact Hsq|]; simpl; lia).
  induction slots as [|xs rest IH];
    intros fuel qdone acc rows o Hslots Hok Hwrap Hbound Hacc Hlen Ho Hol Hf Hrange.
  - destruct fuel; [simpl in Hf; lia|]. cbn [slot_loop concat].
    rewrite app_nil_r, Nat.eqb_refl. eexists. reflexivity.
  - destruct fuel as [|fuel]; [simpl in Hf; lia|].
    inversion Hslots as [|? ? [Hxl Hxs] Hrest]; subst.
    cbn [length] in Hol, Hf. rewrite Nat2Z.inj_succ in Hol.
    cbn [slot_loop concat].
    destruct (Nat.eqb_spec (length qdone) (length (qdone ++ xs ++ concat rest))) as [Hbad|_].
    { rewrite !length_app in Hbad. lia. }
    destruct (divide_block (2 ^ 32) (arg_sq p) divisor true xs rows) as [[ys rows1] d] eqn:E.
    pose proof (row_loop_run (arg_sq p) rows fuel qdone xs (concat rest) []
                  divisor true 0 ys rows1 d Hsq Hok Hxs Hxl Hdiv Hwrap
                  ltac:(simpl; lia) ltac:(lia) E) as Hrun.
    cbn [app length] in Hrun. rewrite Hrun. cbn [bind]. clear Hrun.
    destruct (divide_block_bounds _ _ _ _ _ _ _ _ Hpos Hok Hxs Hxl Hdiv E)
      as (Hys & Hyl & Hok1 & Hrl1 & Hd).
    rewrite Z.add_0_l.
    assert (Hfirst : 0 <= limbs_value acc + d * 2 ^ (32 * (Z.of_nat (length acc) - 1 - o))
                     < 2 ^ (32 * Z.of_nat (length acc))).
    { pose proof (Hrange 1%nat [ys] rows1 [d] ltac:(cbn [length]; lia)) as H1.
      cbn [take divide_slots] in H1. rewrite E in H1. specialize (H1 eq_refl).
      cbn [place] in H1. lia. }
    pose proof (prefix_in_range acc d o Hacc ltac:(lia) Hfirst) as Hpre.
    destruct (accumulate_in_range acc d o fuel Hacc ltac:(lia) ltac:(lia) ltac:(lia)
                ltac:(lia) ltac:(lia) ltac:(lia))
      as (acc1 & Hrun1 & Hl1 & Hlimb1 & Hv1).
    rewrite Hrun1. cbn [bind].
    rewrite (to_unsigned_small (o + 1)) by lia.
    rewrite Hargs.
    replace (length qdone + length (arg_sq p))%nat with (length (qdone ++ ys))
      by (rewrite length_app; lia).
    rewrite (app_assoc qdone ys).
    apply IH; auto; try lia.
    intros j sl' rows' ds Hj Hds. rewrite Hl1, Hv1.
    pose proof (Hrange (S j) (ys :: sl') rows' (d :: ds) ltac:(cbn [length]; lia)) as H1.
    cbn [take divide_slots] in H1. rewrite E, Hds in H1. specialize (H1 eq_refl).
    cbn [place] in H1. lia.
Qed.

(** ** The sums stay in range *)

(** While a block is processed, slot after slot, the accumulator is a sum
    of three stretches of the series, each of the numbers it has reached;
    every stretch lies between zero and a quarter of the sum of its
    numbers, so that nothing is carried out of the accumulator. *)
Lemma column_range (sq : list Z) (K dv n L V SX A1 A3 Db : Z)
    (slots : list (list Z)) (Ycur Ymid : list Z) (rows : list row) :
  Forall (fun s => 4 <= s) sq ->
  Forall (fun xs => length xs = length sq /\ Forall is_limb xs) slots ->
  length slots = block_width ->
  length Ycur = length sq -> Forall (fun y => 0 <= y) Ycur -> 0 < dv ->
  divide_block K sq dv true Ycur (fresh_rows (length sq) block_height) = (Ymid, rows, Db) ->
  sum_list (fold_left extend slots Ycur) <= SX ->
  SX < 2 ^ (32 * (n + Z.of_nat block_width)) ->
  0 <= A1 -> 4 * A1 <= SX -> 0 <= A3 -> 4 * A3 <= sum_list Ymid ->
  0 <= n -> n + Z.of_nat block_width <= L ->
  V = A1 * 2 ^ (32 * (L - n - Z.of_nat block_width)) + (Db + A3) * 2 ^ (32 * (L - n)) ->
  forall j sl' rows' ds, (j <= length slots)%nat ->
    divide_slots sq dv (take j slots) rows = (sl', rows', ds) ->
    0 <= V + place L n ds < 2 ^ (32 * L).
Proof.
  intros Hsq Hslots Hw HYl HY Hdv0 Hblock HSX HSXn HA1 HA1' HA3 HA3' Hn HL HV
    j sl' rows' ds Hj Hds.
  assert (Hpos : Forall (fun x => 0 < x) sq)
    by (eapply Forall_impl; [exact Hsq|]; simpl; lia).
  assert (Hfresh : Forall (row_shape (length sq)) (fresh_rows (length sq) block_height)).
  { apply Forall_replicate. unfold row_shape. cbn [fst]. apply length_replicate. }
  assert (Htake : Forall (fun xs => length xs = length sq /\ Forall is_limb xs) (take j slots))
    by (apply Forall_take; exact Hslots).
  assert (Hdrop : Forall (fun xs => length xs = length sq /\ Forall is_limb xs) (drop j slots))
    by (apply Forall_drop; exact Hslots).
  assert (Htl : length (take j slots) = j) by (rewrite length_take; lia).
  assert (Hdl : length (drop j slots) = (block_width - j)%nat) by (rewrite length_drop; lia).
  destruct (slots_shape _ _ Htake) as [Htsh Htlimb].
  destruct (divide_slots_value sq dv Hpos Hdv0 (take j slots) K Ycur _ Ymid rows Db
              sl' rows' ds Hfresh HYl Htsh Hblock Hds) as (V1 & _ & _).
  rewrite Htl in V1.
  pose proof (divide_slots_length _ _ _ _ _ _ _ Hds) as Hdsl. rewrite Htl in Hdsl.
  set (Yj := fold_left extend (take j slots) Ycur) in *.
  assert (HYjl : length Yj = length sq).
  { unfold Yj. rewrite fold_extend_length; [exact HYl|]. rewrite HYl. exact Htsh. }
  assert (HYj : Forall (fun y => 0 <= y) Yj) by (apply fold_extend_nonneg; assumption).
  destruct (divide_block_fresh _ sq _ _ _ _ _ _ _ HYjl Hpos HYj Hdv0 V1) as (Hser & _).
  rewrite fold_limbs, Hdsl in Hser.
  destruct (series_range _ _ _ _ _ _ Hsq HYj Hdv0 Hser) as [HA2 HA2'].
  (* the numbers reached after [j] slots, continued by the other slots *)
  assert (Hsplit : fold_left extend slots Ycur = fold_left extend (drop j slots) Yj).
  { rewrite <- (take_drop j slots) at 1. rewrite fold_left_app. reflexivity. }
  pose proof (fold_extend_sum_scale (drop j slots) Yj
                ltac:(rewrite HYjl; exact Hdrop) HYj) as Hj1.
  rewrite <- Hsplit, Hdl in Hj1.
  (* the numbers that the block hands on *)
  destruct (divide_block_fresh _ sq _ _ _ _ _ _ _ HYl Hpos HY Hdv0 Hblock)
    as (Hser0 & _ & _ & HYml & HYm).
  pose proof (series_sum_bound _ _ _ _ _ _ _ Hsq HY Hser0) as Hm1.
  pose proof (fold_extend_sum_scale slots Ycur ltac:(rewrite HYl; exact Hslots) HY) as Hm2.
  rewrite Hw in Hm2.
  pose proof (sum_list_nonneg _ HYm) as HYm0.
  pose proof (sum_list_nonneg _ HY) as HY0.
  pose proof (sum_list_nonneg _ HYj) as HYj0.
  assert (H4 : 0 < 4 ^ Z.of_nat block_height) by (apply Z.pow_pos_nonneg; lia).
  assert (Hm3 : sum_list Ymid <= sum_list Ycur) by nia.
  rewrite place_value by lia. rewrite Hdsl.
  set (U := 2 ^ (32 * (L - n - Z.of_nat block_width))) in *.
  assert (HU : 0 < U) by (apply Z.pow_pos_nonneg; lia).
  set (Bj := 2 ^ (32 * Z.of_nat j)) in *.
  assert (HBj : 0 < Bj) by (apply Z.pow_pos_nonneg; lia).
  set (W := 2 ^ (32 * Z.of_nat (block_width - j))) in *.
  assert (HW : 0 < W) by (apply Z.pow_pos_nonneg; lia).
  assert (E64 : 2 ^ (32 * Z.of_nat block_width) = Bj * W).
  { unfold Bj, W. rewrite <- Z.pow_add_r by lia. f_equal. lia. }
  assert (ELn : 2 ^ (32 * (L - n)) = Bj * W * U).
  { rewrite <- E64. unfold U. rewrite <- Z.pow_add_r by lia. f_equal. lia. }
  assert (ELj : 2 ^ (32 * (L - n - Z.of_nat j)) = W * U).
  { unfold W, U. rewrite <- Z.pow_add_r by lia. f_equal. lia. }
  assert (EL : 2 ^ (32 * L) = 2 ^ (32 * (n + Z.of_nat block_width)) * U).
  { unfold U. rewrite <- Z.pow_add_r by lia. f_equal. lia. }
  rewrite HV, ELn, ELj, EL. rewrite E64 in Hm2.
  set (Bn := 2 ^ (32 * (n + Z.of_nat block_width))) in *.
  set (lv := limbs_value ds) in *.
  set (A2 := Db * Bj + lv) in *.
  set (sj := sum_list Yj) in *. set (sm := sum_list Ymid) in *.
  set (sc := sum_list Ycur) in *. set (sf := sum_list (fold_left extend slots Ycur)) in *.
  clearbody U Bj W Bn lv sj sm sc sf.
  assert (Esum : A1 * U + (Db + A3) * (Bj * W * U) + lv * (W * U)
                 = (A1 + A3 * (Bj * W) + A2 * W) * U) by (unfold A2; ring).
  rewrite Esum. clearbody A2.
  assert (Hq3 : 4 * (A3 * (Bj * W)) <= SX) by nia.
  assert (Hq2 : 4 * (A2 * W) <= SX) by nia.
  assert (HT0 : 0 <= A1 + A3 * (Bj * W) + A2 * W) by nia.
  assert (HT1 : A1 + A3 * (Bj * W) + A2 * W < Bn) by lia.
  split; [nia|]. apply Z.mul_lt_mono_pos_r; assumption.
Qed.

(** ** Every column is processed *)

Lemma column_body_run p K Xnew fuel st next ci done todo slots Ycur Dtodo Ddone :
  length (args p) = length (arg_sq p) -> (0 < length (arg_sq p))%nat ->
  Z.of_nat (length (arg_sq p)) < 2 ^ 24 ->
  Forall (fun a => 4 <= a < 2 ^ 32) (arg_sq p) ->
  length Xnew = length (arg_sq p) -> Forall (fun y => 0 <= y) Xnew ->
  column_inv p K Xnew st next ci done todo slots Ycur Dtodo Ddone ->
  (length (accumulator st) + 140 <= fuel)%nat ->
  exists st1 next1, column_body fuel p st next ci = Ret (st1, next1).
Proof.
  intros Hargs HN0 HN24 Hsq HXl HX Hinv Hf.
  pose proof (column_bound _ _ _ _ _ _ _ _ _ _ _ _ Hargs HN0 Hsq HXl HX Hinv) as Hbound.
  destruct Hinv as
    [Hcol Hci Hq Hslots Hw Hdone Htodo HYl HY Hdvo Hacc HL Ho Hol Hval Hnew Hnext Hcount
       HXs Hsize].
  assert (Hpos : Forall (fun x => 0 < x) (arg_sq p))
    by (eapply Forall_impl; [exact Hsq|]; simpl; lia).
  assert (Hsq4 : Forall (fun x => 4 <= x) (arg_sq p))
    by (eapply Forall_impl; [exact Hsq|]; simpl; lia).
  assert (Hsq0 : Forall (fun x => 0 < x < 2 ^ 32) (arg_sq p))
    by (eapply Forall_impl; [exact Hsq|]; simpl; lia).
  assert (Hdv0 : 0 < block_divisor_offset st) by lia.
  destruct (column_block p st next ci K done todo Ycur Dtodo Hargs Hpos Hdv0 Hcol Hci Htodo
              Hnew Hnext)
    as (b & Ymid & rows & Db & Drest & Ecol & Eb & Hb & Hrest & HD).
  destruct (divide_block_fresh K (arg_sq p) _ _ _ _ _ _ _ HYl Hpos HY Hdv0 Hb)
    as (Hser & Hok & Hrl & HYm1 & HYm2).
  (* what the pass has summed in the blocks before *)
  specialize (Hdone [] (fold_left extend slots Ycur) 0 (conj eq_refl eq_refl)).
  rewrite app_nil_r, Z.add_0_r in Hdone.
  assert (H01 : 0 < 1) by lia.
  destruct (chain_series _ _ _ _ _ _ _ Hpos H01 HXl HX Hdone) as (Hsd & _ & HF0).
  destruct (series_range _ _ _ _ _ _ Hsq4 HX H01 Hsd) as [A1a A1b].
  pose proof (series_sum_bound _ _ _ _ _ _ _ Hsq4 HX Hsd) as Hsb.
  assert (HSX : sum_list (fold_left extend slots Ycur) <= sum_list Xnew).
  { pose proof (sum_list_nonneg _ HF0).
    assert (0 < 4 ^ Z.of_nat (block_height * length done))
      by (apply Z.pow_pos_nonneg; lia).
    nia. }
  (* what the pass before has summed in the blocks after *)
  assert (Hdv2 : 0 < block_divisor_offset st + 2 * Z.of_nat block_height) by lia.
  destruct (chain_series _ _ _ _ _ _ _ Hpos Hdv2 HYm1 HYm2 Hrest) as (Hsr & _ & _).
  destruct (series_range _ _ _ _ _ _ Hsq4 HYm2 Hdv2 Hsr) as [A3a A3b].
  pose proof (column_range (arg_sq p) K (block_divisor_offset st) (block_digit_offset st)
                (Z.of_nat (length (accumulator st))) (limbs_value (accumulator st))
                (sum_list Xnew) Ddone Drest Db slots Ycur Ymid rows
                Hsq4 Hslots Hw HYl HY Hdv0 Hb HSX HXs A1a A1b A3a A3b Ho Hol
                ltac:(rewrite Hval, HD; reflexivity)) as Hrange.
  (* the block is processed *)
  destruct (slot_loop_run p (block_divisor_offset st) Hargs HN0 Hsq0 ltac:(lia)
              slots fuel [] (accumulator st) rows (block_digit_offset st) Hslots Hok)
    as ([[q acc1] rem1] & Hrun).
  { rewrite Hrl. unfold block_height, block_width in *. lia. }
  { rewrite Hrl. unfold block_height. lia. }
  { exact Hacc. }
  { lia. }
  { exact Ho. }
  { rewrite Hw. exact Hol. }
  { rewrite Hw, Hrl. unfold block_width, block_height. lia. }
  { exact Hrange. }
  cbn [app length] in Hrun.
  unfold column_body. rewrite Ecol.
  rewrite list_lookup_middle by (symmetry; exact Hci).
  rewrite Eb. unfold process_block. cbn [block_of arg_count remainders].
  rewrite Hq, Hrun. cbn [bind].
  destruct (slot_loop_shape _ _ _ _ _ _ _ _ _ _ _ _ Hrun) as [[Sq _] _].
  destruct (slots_shape _ _ Hslots) as [Hsh _].
  destruct (count_non_zero_quotents_spec p q) as (c & Hc & _).
  { rewrite Sq, (concat_slots_length _ _ Hsh), Hw. lia. }
  cbn [quotents]. rewrite Hc. cbn [bind]. eexists _, _. reflexivity.
Qed.

(** ** Every pass ends *)

Lemma column_loop_run p K Xnew :
  length (args p) = length (arg_sq p) -> (0 < length (arg_sq p))%nat ->
  Z.of_nat (length (arg_sq p)) < 2 ^ 24 ->
  Forall (fun a => 4 <= a < 2 ^ 32) (arg_sq p) ->
  length Xnew = length (arg_sq p) -> Forall (fun y => 0 <= y) Xnew ->
  first_alive (arg_sq p) Xnew ->
  forall fuel st next ci done todo slots Ycur Dtodo Ddone,
  column_inv p K Xnew st next ci done todo slots Ycur Dtodo Ddone ->
  block_digit_offset st + Z.of_nat block_width + 4
  + 4 * (Z.of_nat (length (accumulator st)) + 141)
  <= 4 * Z.of_nat ci + 4 * Z.of_nat fuel ->
  exists st', column_loop fuel p st next ci = Ret st'.
Proof.
  intros Hargs HN0 HN24 Hsq HXl HX Halive.
  induction fuel as [|fuel IH];
    intros st next ci done todo slots Ycur Dtodo Ddone Hinv Hf.
  - pose proof (column_bound _ _ _ _ _ _ _ _ _ _ _ _ Hargs HN0 Hsq HXl HX Hinv). lia.
  - pose proof (column_bound _ _ _ _ _ _ _ _ _ _ _ _ Hargs HN0 Hsq HXl HX Hinv) as Hbound.
    destruct (column_body_run p K Xnew fuel st next ci done todo slots Ycur Dtodo Ddone
                Hargs HN0 HN24 Hsq HXl HX Hinv ltac:(lia)) as (st1 & next1 & E).
    cbn [column_loop]. rewrite E. cbn [bind].
    destruct (column_step _ _ _ _ _ _ _ _ _ _ _ _ _ _ _ Hargs HN0 HN24 Hsq HXl HX Halive
                Hinv E)
      as (b' & slots' & Ymid & Db & Drest & Ddone' & _ & _ & S1 & S2 & _ & Scont & _).
    destruct ((S ci <? length (remainder_column st1))%nat || (0 <? next1)%nat) eqn:Econt;
      [|eexists; reflexivity].
    apply (IH _ _ _ _ _ _ _ _ _ (Scont eq_refl)).
    rewrite S1, S2. lia.
Qed.

(** ** The loop over the passes ends *)

Lemma main_loop_run p :
  length (args p) = length (arg_sq p) -> (0 < length (arg_sq p))%nat ->
  Z.of_nat (length (arg_sq p)) < 2 ^ 24 ->
  Forall (fun a => 4 <= a < 2 ^ 32) (arg_sq p) ->
  forall fuel st X D slots,
  pass_inv p st X D slots ->
  6 * Z.of_nat (length (accumulator st)) + 640 <= 4 * Z.of_nat fuel + block_digit_offset st ->
  exists st', main_loop fuel p st = Ret st'.
Proof.
  intros Hargs HN0 HN24 Hsq.
  induction fuel as [|fuel IH]; intros st X D slots Hinv Hf.
  - destruct (pi_passes _ _ _ _ _ Hinv) as (j & Hj0 & Hj).
    pose proof (pi_offset _ _ _ _ _ Hinv). unfold block_width in *. lia.
  - cbn [main_loop].
    destruct (block_digit_offset st <? Z.of_nat (length (accumulator st))) eqn:Econd;
      [|eexists; reflexivity].
    apply Z.ltb_lt in Econd.
    destruct (pass_start p st X D slots Hinv Econd) as (Hcol & HXnl & HXn).
    fold (pass_first st).
    destruct (column_loop_run p (2 ^ (32 * block_digit_offset st)) (fold_left extend slots X)
                Hargs HN0 HN24 Hsq HXnl HXn
                (scaled_alive_first _ _ (pi_alive _ _ _ _ _ Hinv))
                fuel (pass_first st) (length (args p)) 0%nat
                [] (remainder_column st) slots X D 0)
      as (st1 & E).
    { rewrite Hargs. exact Hcol. }
    { cbn [pass_first accumulator block_digit_offset]. pose proof (pi_offset _ _ _ _ _ Hinv).
      unfold block_width in *. lia. }
    rewrite E. cbn [bind]. fold (pass_next st1).
    destruct (pass_step _ _ _ _ _ _ _ Hargs HN0 HN24 Hsq Hinv Econd E)
      as (D' & slots' & Hnext & _ & R6 & Hbdo).
    apply (IH _ _ _ _ Hnext).
    rewrite Hbdo. cbn [pass_next accumulator]. rewrite R6. unfold block_width. lia.
Qed.

(** ** The program returns *)

Lemma terms_returns_spec progname rest p fuel :
  read_parameters progname
    (match rest with [] => default_args | _ => progname :: rest end) = Ret p ->
  Forall (fun a => 2 <= a) (args p) ->
  Z.of_nat (length (args p)) < 2 ^ 24 -> precision p <= 2 ^ 25 ->
  first_term_dominates (arg_sq p) (seeds p) ->
  2 * precision p + 1000 <= Z.of_nat fuel ->
  exists st out,
    compute fuel (progname :: rest) = Ret (p, st) /\
    main fuel (progname :: rest) = Ret out.
Proof.
  intros Hread H2 HN24 Hprec Hdom Hf.
  pose proof (read_parameters_wf _ _ _ Hread) as W.
  destruct (terms_squares p W H2) as (Hargs & HN0 & Hsq).
  destruct (initialize_variables_spec p W) as (st0 & Hinit & _).
  destruct (seed_pass_inv _ _ W H2 HN24 Hprec Hdom Hinit) as (slots & Hinv & Sbdo & HL0 & _).
  destruct (main_loop_run p Hargs HN0 ltac:(lia) Hsq fuel st0 _ 0 slots Hinv ltac:(lia))
    as (st & Hloop).
  assert (Hc : compute fuel (progname :: rest) = Ret (p, st)).
  { unfold compute. rewrite Hread. cbn [bind]. rewrite Hinit. cbn [bind].
    rewrite Hloop. reflexivity. }
  destruct (main_loop_shape _ _ _ _ Hloop) as (_ & [Sa1 Sa2] & _).
  pose proof (pi_limbs _ _ _ _ _ Hinv) as Hl0.
  destruct (printed_number_spec (accumulator st) fuel (Sa2 Hl0))
    as (acc1 & s & acc2 & res & k & Hint & Hfrac & _);
    try (unfold block_width; lia).
  assert (Hmain : exists out, main fuel (progname :: rest) = Ret out).
  { unfold main. rewrite Hc. cbn [bind]. rewrite Hint. cbn [bind].
    unfold print_fractional_part. rewrite Hfrac. cbn [bind].
    destruct (length res =? 0)%nat; cbn [bind]; eexists; reflexivity. }
  destruct Hmain as [out Hout]. exists st, out. split; assumption.
Qed.

(** The default arguments: the first term has the least argument and lives
    longest. *)
Lemma default_terms :
  read_parameters "pi" default_args = Ret default_params /\
  Forall (fun a => 2 <= a) (args default_params) /\
  first_term_dominates (arg_sq default_params) (seeds default_params).
Proof.
  split; [vm_compute; reflexivity|]. split.
  - repeat constructor; lia.
  - unfold first_term_dominates.
    repeat (constructor; [split; vm_compute; discriminate|]). constructor.
Qed.

Lemma default_run :
  exists st out,
    compute 1034 ["pi"%string] = Ret (default_params, st) /\
    main 1034 ["pi"%string] = Ret out.
Proof.
  destruct default_terms as (Hread & H2 & Hdom).
  apply terms_returns_spec; auto; vm_compute; try reflexivity; discriminate.
Qed.

(** ** What the program computes *)

(** X15. Terms with arguments of at least two, the first of which lives
    longest ([first_term_dominates]), and a precision of at most [2^25]
    limbs.  Let [X] be the numerators [seeds p] moved up to the last limb
    of the accumulator.  Whenever the outer loop of [main] ends, the
    accumulator holds the alternating sum of the rows
    [(X_1 / a_1^(2k+2) + ... + X_N / a_N^(2k+2)) / (2k+1)], every division
    rounded down: the rows of the remainder column are rows of the sum, and
    every row after them is zero. *)
Theorem accumulator_is_the_sum_of_the_rows fuel progname rest p st :
  compute fuel (progname :: rest) = Ret (p, st) ->
  Forall (fun a => 2 <= a) (args p) ->
  Z.of_nat (length (args p)) < 2 ^ 24 -> precision p <= 2 ^ 25 ->
  first_term_dominates (arg_sq p) (seeds p) ->
  let X := map (fun x => x * 2 ^ (32 * (Z.of_nat (length (accumulator st)) - 64))) (seeds p) in
  forall n, (block_height * length (remainder_column st) <= n)%nat ->
    limbs_value (accumulator st) = row_sum (arg_sq p) X n /\ row_term (arg_sq p) X n = 0.
Proof.
  intros H H2 HN24 Hprec Hdom X n Hn.
  destruct (compute_spec _ _ _ _ _ H ltac:(lia)) as (W & _).
  destruct (terms_squares p W H2) as (_ & _ & Hsq).
  assert (Hpos : Forall (fun a => 0 < a) (arg_sq p))
    by (eapply Forall_impl; [exact Hsq|]; simpl; lia).
  destruct (terms_spec _ _ _ _ _ H H2 HN24 Hprec Hdom) as (HA & Hend & _ & _ & _ & HX).
  fold X in HA, Hend, HX.
  split.
  - rewrite HA. symmetry. apply row_sum_stable; assumption.
  - eapply row_term_vanishes; eauto.
Qed.

Lemma sum_of_the_rows_witness :
  exists st,
    compute 1034 ["pi"%string] = Ret (default_params, st) /\
    limbs_value (accumulator st)
    = row_sum (arg_sq default_params)
        (map (fun x => x * 2 ^ (32 * (Z.of_nat (length (accumulator st)) - 64)))
           (seeds default_params))
        (block_height * length (remainder_column st)) /\
    row_term (arg_sq default_params)
      (map (fun x => x * 2 ^ (32 * (Z.of_nat (length (accumulator st)) - 64)))
         (seeds default_params))
      (block_height * length (remainder_column st)) = 0.
Proof.
  destruct default_run as (st & out & Hc & _).
  destruct default_terms as (_ & H2 & Hdom).
  exists st. split; [exact Hc|].
  apply (accumulator_is_the_sum_of_the_rows 1034 "pi" [] default_params st Hc H2).
  - vm_compute. reflexivity.
  - vm_compute. discriminate.
  - exact Hdom.
  - apply le_n.
Defined.

(** X16. Such terms again, none of whose numerators [a * m * d] wraps
    around, few enough for the precision.  Whenever the outer loop of
    [main] ends, the accumulator, read as a fixed-point number with
    [block_width] integer limbs, is within [2^-(32 * (L - W - 1))] of
    [d * (m_1 * arccot a_1 + ... + m_N * arccot a_N)]. *)
Theorem dominated_terms_are_accurate fuel progname rest p st :
  compute fuel (progname :: rest) = Ret (p, st) ->
  Forall (fun a => 2 <= a) (args p) -> precision p <= 2 ^ 25 ->
  first_term_dominates (arg_sq p) (seeds p) ->
  Forall2 (fun a m => a * m * pi_d p < 2 ^ 64) (args p) (multipliers p) ->
  (Z.of_nat (length (args p)) + 1) * (16 * precision p + 2097) <= 2 ^ 32 ->
  accurate p (accumulator st).
Proof. apply terms_accurate_spec. Qed.

Lemma dominated_accurate_witness :
  exists st,
    compute 1034 ["pi"%string] = Ret (default_params, st) /\
    accurate default_params (accumulator st).
Proof.
  destruct default_run as (st & out & Hc & _).
  destruct default_terms as (_ & H2 & Hdom).
  exists st. split; [exact Hc|].
  apply (dominated_terms_are_accurate 1034 "pi" [] default_params st Hc H2).
  - vm_compute. discriminate.
  - exact Hdom.
  - repeat constructor; vm_compute; reflexivity.
  - vm_compute. discriminate.
Defined.

(** X17. Such terms: when the outer loop of [main] ends, the remainder
    column has at most [L / 4 + 1] blocks for an accumulator of [L] limbs.
    Every row divides by four at least, and a block is only added while a
    limb of the quotient vector is not zero. *)
Theorem dominated_column_is_short fuel progname rest p st :
  compute fuel (progname :: rest) = Ret (p, st) ->
  Forall (fun a => 2 <= a) (args p) ->
  Z.of_nat (length (args p)) < 2 ^ 24 -> precision p <= 2 ^ 25 ->
  first_term_dominates (arg_sq p) (seeds p) ->
  4 * Z.of_nat (length (remainder_column st)) <= Z.of_nat (length (accumulator st)) + 4.
Proof.
  intros H H2 HN24 Hprec Hdom.
  destruct (terms_spec _ _ _ _ _ H H2 HN24 Hprec Hdom) as (_ & _ & Hrows & _).
  unfold block_height in Hrows. lia.
Qed.

Lemma dominated_column_witness :
  exists st,
    compute 1034 ["pi"%string] = Ret (default_params, st) /\
    4 * Z.of_nat (length (remainder_column st)) <= Z.of_nat (length (accumulator st)) + 4.
Proof.
  destruct default_run as (st & out & Hc & _).
  destruct default_terms as (_ & H2 & Hdom).
  exists st. split; [exact Hc|].
  apply (dominated_column_is_short 1034 "pi" [] default_params st Hc H2).
  - vm_compute. reflexivity.
  - vm_compute. discriminate.
  - exact Hdom.
Defined.

(** ** What the program prints *)

(** X18. Such terms, with the sum of the multipliers times [d] up to
    [2^32], from the command line to the output.  Whenever [main] returns,
    it has printed digits, a point and digits, and the number printed
    differs from [d * (m_1 * arccot a_1 + ... + m_N * arccot a_N)] by less
    than one unit of its last digit plus the error of the accumulator,
    [2^-(32 * (L - W - 1))]. *)
Theorem dominated_output_is_accurate fuel progname rest p st out :
  compute fuel (progname :: rest) = Ret (p, st) ->
  main fuel (progname :: rest) = Ret out ->
  Forall (fun a => 2 <= a) (args p) -> precision p <= 2 ^ 25 ->
  first_term_dominates (arg_sq p) (seeds p) ->
  sum_list (multipliers p) * pi_d p <= 2 ^ 32 ->
  (Z.of_nat (length (args p)) + 1) * (16 * precision p + 2097) <= 2 ^ 32 ->
  exists s res,
    out = (s ++ (if (length res =? 0)%nat then "" else String "." (string_of_list_ascii res))
             ++ String "010" "")%string /\
    Forall is_digit (list_ascii_of_string s) /\ Forall is_digit res /\
    (Rabs (IZR (parse_decimal s) + IZR (digits_value res) / 10 ^ length res - series_value p)
     < / 10 ^ length res + / 2 ^ (32 * (length (accumulator st) - block_width - 1)))%R.
Proof. apply terms_output_spec. Qed.

Lemma dominated_output_witness :
  exists st out s res,
    compute 1034 ["pi"%string] = Ret (default_params, st) /\
    main 1034 ["pi"%string] = Ret out /\
    out = (s ++ (if (length res =? 0)%nat then "" else String "." (string_of_list_ascii res))
             ++ String "010" "")%string /\
    Forall is_digit (list_ascii_of_string s) /\ Forall is_digit res /\
    (Rabs (IZR (parse_decimal s) + IZR (digits_value res) / 10 ^ length res
           - series_value default_params)
     < / 10 ^ length res + / 2 ^ (32 * (length (accumulator st) - block_width - 1)))%R.
Proof.
  destruct default_run as (st & out & Hc & Hmain).
  destruct default_terms as (_ & H2 & Hdom).
  exists st, out.
  destruct (dominated_output_is_accurate 1034 "pi" [] default_params st out Hc Hmain H2
              ltac:(vm_compute; discriminate) Hdom ltac:(vm_compute; discriminate)
              ltac:(vm_compute; discriminate)) as (s & res & H).
  exists s, res. split; [exact Hc|]. split; [exact Hmain|exact H].
Defined.

(** X19. Parameters that [read_parameters] accepts, those given or the
    default ones, with arguments of at least two, the first term living
    longest, and a precision of at most [2^25] limbs: the program runs to
    its end.  No limb is read or written out of bounds, nothing is divided
    by zero, no sum leaves the accumulator, every loop ends, and [main]
    returns.  In the model: with fuel for [2 * precision + 1000] steps of
    each loop, [compute] and [main] return. *)
Theorem dominated_run_returns progname rest p fuel :
  read_parameters progname
    (match rest with [] => default_args | _ => progname :: rest end) = Ret p ->
  Forall (fun a => 2 <= a) (args p) ->
  Z.of_nat (length (args p)) < 2 ^ 24 -> precision p <= 2 ^ 25 ->
  first_term_dominates (arg_sq p) (seeds p) ->
  2 * precision p + 1000 <= Z.of_nat fuel ->
  exists st out,
    compute fuel (progname :: rest) = Ret (p, st) /\
    main fuel (progname :: rest) = Ret out.
Proof. apply terms_returns_spec. Qed.

Lemma dominated_run_witness :
  exists st out,
    compute 1034 ["pi"%string] = Ret (default_params, st) /\
    main 1034 ["pi"%string] = Ret out.
Proof.
  apply (dominated_run_returns "pi" [] default_params 1034).
  - vm_compute. reflexivity.
  - repeat constructor; lia.
  - vm_compute. reflexivity.
  - vm_compute. discriminate.
  - unfold first_term_dominates.
    repeat (constructor; [split; vm_compute; discriminate|]). constructor.
  - vm_compute. discriminate.
Defined.

(** X20. Such parameters, with the sum of the multipliers times [d] up to
    [2^32] and few enough terms for the precision: [main] returns and has
    printed digits, a point and digits; the number printed differs from
    [d * (m_1 * arccot a_1 + ... + m_N * arccot a_N)] by less than one unit
    of its last digit plus [2^-(32 * (precision - 1))]. *)
Theorem dominated_run_prints_the_sum progname rest p fuel :
  read_parameters progname
    (match rest with [] => default_args | _ => progname :: rest end) = Ret p ->
  Forall (fun a => 2 <= a) (args p) -> precision p <= 2 ^ 25 ->
  first_term_dominates (arg_sq p) (seeds p) ->
  sum_list (multipliers p) * pi_d p <= 2 ^ 32 ->
  (Z.of_nat (length (args p)) + 1) * (16 * precision p + 2097) <= 2 ^ 32 ->
  2 * precision p + 1000 <= Z.of_nat fuel ->
  exists s res,
    main fuel (progname :: rest)
    = Ret (s ++ (if (length res =? 0)%nat then "" else String "." (string_of_list_ascii res))
             ++ String "010" "")%string /\
    Forall is_digit (list_ascii_of_string s) /\ Forall is_digit res /\
    (Rabs (IZR (parse_decimal s) + IZR (digits_value res) / 10 ^ length res - series_value p)
     < / 10 ^ length res + / 2 ^ (32 * (Z.to_nat (precision p) - 1)))%R.
Proof.
  intros Hread H2 Hprec Hdom Hmd Hsize Hf.
  pose proof (read_parameters_wf _ _ _ Hread) as W.
  pose proof (wf_precision _ W) as Hp1.
  assert (HN24 : Z.of_nat (length (args p)) < 2 ^ 24) by nia.
  destruct (terms_returns_spec _ _ _ _ Hread H2 HN24 Hprec Hdom Hf)
    as (st & out & Hc & Hmain).
  destruct (terms_output_spec _ _ _ _ _ _ Hc Hmain H2 Hprec Hdom Hmd Hsize)
    as (s & res & -> & Hs & Hres & Hdist).
  exists s, res. split; [exact Hmain|]. split; [exact Hs|]. split; [exact Hres|].
  eapply Rlt_le_trans; [exact Hdist|].
  apply Rplus_le_compat_l.
  destruct (compute_spec _ _ _ _ _ Hc ltac:(lia)) as (_ & _ & _ & _ & k & HL & Hk).
  apply Rinv_le_contravar; [apply pow_lt; lra|].
  apply Rle_pow; [lra|]. unfold block_width. lia.
Qed.

Lemma dominated_prints_witness :
  exists s res,
    main 1034 ["pi"%string]
    = Ret (s ++ (if (length res =? 0)%nat then "" else String "." (string_of_list_ascii res))
             ++ String "010" "")%string /\
    Forall is_digit (list_ascii_of_string s) /\ Forall is_digit res /\
    (Rabs (IZR (parse_decimal s) + IZR (digits_value res) / 10 ^ length res
           - series_value default_params)
     < / 10 ^ length res + / 2 ^ (32 * (Z.to_nat (precision default_params) - 1)))%R.
Proof.
  apply (dominated_run_prints_the_sum "pi" [] default_params 1034).
  - vm_compute. reflexivity.
  - repeat constructor; lia.
  - vm_compute. discriminate.
  - unfold first_term_dominates.
    repeat (constructor; [split; vm_compute; discriminate|]). constructor.
  - vm_compute. discriminate.
  - vm_compute. discriminate.
  - vm_compute. discriminate.
Defined.
